(** * Automata-theory tools: DFA minimisation and CFG-to-CNF conversion

    A shallow embedding of [dfa_minimizer.py] and [cfg_to_cnf.py] (with the
    [accepts] helper of [test_dfa_minimizer.py]) and the properties of the
    two pipelines.

    Conventions of the embedding.
    - A Python [str] is a [string]; iterating over it yields one-character
      strings ([chars]).
    - A Python [set] is a list without duplicates, iterated in list order;
      [set.add] appends an absent element at the end ([set_add]).
    - A Python [dict] is an association list in insertion order: assigning to
      a present key replaces the value in place, assigning to an absent key
      appends ([dict_set]); reading an absent key raises [KeyError].
    - A computation that can raise returns [option]; [None] also stands for a
      [while] loop that was cut short by its iteration bound.  The bounds are
      computed from the data and are proved sufficient below.
    - Mutable state of a [CNFConverter] (its counter, its terminal map and the
      grammar object it shares with its caller) is threaded through a state
      and error monad. *)

From Stdlib Require Import String Ascii List Bool Arith ZArith Lia Permutation.
From Stdlib Require Import Decimal DecimalNat DecimalString.
Import ListNotations.

Local Open Scope string_scope.
Local Open Scope list_scope.

(** ** Python containers *)

Module Py.

(** Boolean equality, the [==] of hashable Python values. *)
Class Eqb (A : Type) := eqb : A -> A -> bool.

#[export] Instance string_Eqb : Eqb string := String.eqb.
#[export] Instance nat_Eqb : Eqb nat := Nat.eqb.
#[export] Instance Z_Eqb : Eqb Z := Z.eqb.
#[export] Instance prod_Eqb {A B} `{Eqb A} `{Eqb B} : Eqb (A * B) :=
  fun x y => eqb (fst x) (fst y) && eqb (snd x) (snd y).

Fixpoint list_eqb {A} `{Eqb A} (l1 l2 : list A) : bool :=
  match l1, l2 with
  | [], [] => true
  | x :: l1', y :: l2' => eqb x y && list_eqb l1' l2'
  | _, _ => false
  end.

#[export] Instance list_Eqb {A} `{Eqb A} : Eqb (list A) := list_eqb.

Arguments eqb : simpl never.

(** [eqb] decides equality. *)
Class EqbSpec (A : Type) `{Eqb A} :=
  eqb_spec : forall x y : A, reflect (x = y) (eqb x y).

(** [x in s] *)
Definition mem {A} `{Eqb A} (x : A) (s : list A) : bool := existsb (eqb x) s.

(** [s.add(x)] *)
Definition set_add {A} `{Eqb A} (x : A) (s : list A) : list A :=
  if mem x s then s else s ++ [x].

(** [set(l)], also a set comprehension over [l] *)
Definition to_set {A} `{Eqb A} (l : list A) : list A :=
  fold_left (fun s x => set_add x s) l [].

(** [a <= b] on sets *)
Definition subset {A} `{Eqb A} (a b : list A) : bool :=
  forallb (fun x => mem x b) a.

(** [a == b] on sets *)
Definition set_eqb {A} `{Eqb A} (a b : list A) : bool :=
  subset a b && subset b a.

(** [d[k]], [None] for [KeyError]; also [d.get(k)] *)
Fixpoint lookup {K V} `{Eqb K} (k : K) (d : list (K * V)) : option V :=
  match d with
  | [] => None
  | (k', v) :: d' => if eqb k k' then Some v else lookup k d'
  end.

(** [k in d] *)
Definition has_key {K V} `{Eqb K} (k : K) (d : list (K * V)) : bool :=
  match lookup k d with Some _ => true | None => false end.

(** [d[k] = v] *)
Fixpoint dict_set {K V} `{Eqb K} (k : K) (v : V) (d : list (K * V))
  : list (K * V) :=
  match d with
  | [] => [(k, v)]
  | (k', v') :: d' =>
      if eqb k k' then (k', v) :: d' else (k', v') :: dict_set k v d'
  end.

(** A Python dict has one entry per key. *)
Definition dict_ok {K V} (d : list (K * V)) : Prop := NoDup (map fst d).

(** [enumerate(l)], counting from [i] *)
Fixpoint enumerate_from {A} (i : nat) (l : list A) : list (nat * A) :=
  match l with
  | [] => []
  | x :: l' => (i, x) :: enumerate_from (S i) l'
  end.

Definition enumerate {A} (l : list A) : list (nat * A) := enumerate_from 0 l.

(** The one-character strings of a string, [for symbol in s]. *)
Fixpoint chars (s : string) : list string :=
  match s with
  | EmptyString => []
  | String c s' => String c EmptyString :: chars s'
  end.

(** No element of [l] occurs twice. *)
Fixpoint distinct {A} `{Eqb A} (l : list A) : bool :=
  match l with
  | [] => true
  | x :: l' => negb (mem x l') && distinct l'
  end.

(** [str(n)] for a non-negative integer *)
Definition str_of_nat (n : nat) : string :=
  NilEmpty.string_of_uint (Nat.to_uint n).

(** [None] propagates like a raised exception. *)
Definition obind {A B} (m : option A) (f : A -> option B) : option B :=
  match m with Some a => f a | None => None end.

(** [[f(x) for x in l]] where [f] can raise *)
Fixpoint omap {A B} (f : A -> option B) (l : list A) : option (list B) :=
  match l with
  | [] => Some []
  | x :: l' =>
      obind (f x) (fun y => obind (omap f l') (fun ys => Some (y :: ys)))
  end.

(** a [for] loop whose body can raise *)
Fixpoint ofold {A S} (f : S -> A -> option S) (l : list A) (s : S)
  : option S :=
  match l with
  | [] => Some s
  | x :: l' => obind (f s x) (ofold f l')
  end.

End Py.

Import Py.

Notation "x <- m ;; k" := (obind m (fun x => k))
  (at level 61, m at next level, right associativity).

(** ** dfa_minimizer.py *)

Module DfaMinimizer.

(** [class DFA]; the constructor stores its five arguments as they are. *)
Record DFA := mkDFA {
  states : list string;
  alphabet : list string;
  transitions : list ((string * string) * string);
  start_state : string;
  final_states : list string
}.

(** A partition is a Python list of sets of states. *)
Definition partition_t := list (list string).

(** The body of [for symbol in self.alphabet] in [get_accessible_states]. *)
Definition visit (self : DFA) (state : string)
    (aq : list string * list string) (symbol : string)
  : list string * list string :=
  let '(accessible, queue) := aq in
  match lookup (state, symbol) (transitions self) with
  | Some next_state =>
      if mem next_state accessible then (accessible, queue)
      else (set_add next_state accessible, queue ++ [next_state])
  | None => (accessible, queue)
  end.

(** [while queue: state = queue.pop(0); ...] *)
Fixpoint bfs (fuel : nat) (self : DFA) (accessible queue : list string)
  : option (list string) :=
  match queue with
  | [] => Some accessible
  | state :: queue' =>
      match fuel with
      | 0 => None
      | S fuel' =>
          let '(accessible', queue'') :=
            fold_left (visit self state) (alphabet self) (accessible, queue')
          in bfs fuel' self accessible' queue''
      end
  end.

(** Every state but the start state enters the queue as the value of a
    transition, and enters it once. *)
Definition bfs_bound (self : DFA) : nat := S (length (transitions self)).

Definition get_accessible_states (self : DFA) : option (list string) :=
  bfs (bfs_bound self) self [start_state self] [start_state self].

Definition remove_inaccessible_states (self : DFA) : option DFA :=
  accessible <- get_accessible_states self ;;
  let new_states := accessible in
  let new_final_states :=
    filter (fun q => mem q accessible) (final_states self) in
  let new_transitions :=
    fold_left
      (fun new_transitions '((state, symbol), next_state) =>
         if mem state accessible && mem next_state accessible
         then dict_set (state, symbol) next_state new_transitions
         else new_transitions)
      (transitions self) [] in
  Some (mkDFA new_states (alphabet self) new_transitions
              (start_state self) new_final_states).

(** The index of the first group that contains [q]:
    [for i, p in enumerate(partition): if next_state in p: ... break]. *)
Fixpoint find_group (i : nat) (partition : partition_t) (q : string)
  : option nat :=
  match partition with
  | [] => None
  | p :: partition' =>
      if mem q p then Some i else find_group (S i) partition' q
  end.

(** What one alphabet symbol appends to the signature of [state]. *)
Definition signature_entry (dfa : DFA) (partition : partition_t)
    (state symbol : string) : list (string * Z) :=
  match lookup (state, symbol) (transitions dfa) with
  | Some next_state =>
      match find_group 0 partition next_state with
      | Some i => [(symbol, Z.of_nat i)]
      | None => []
      end
  | None => [(symbol, (-1)%Z)]
  end.

Definition signature (dfa : DFA) (partition : partition_t) (state : string)
  : list (string * Z) :=
  flat_map (signature_entry dfa partition state) (alphabet dfa).

(** The body of [for state in group]: [subgroups[signature].add(state)],
    with a new empty set under a signature that is seen for the first time. *)
Definition add_to_subgroup (dfa : DFA) (partition : partition_t)
    (subgroups : list (list (string * Z) * list string)) (state : string)
  : list (list (string * Z) * list string) :=
  let sg := signature dfa partition state in
  match lookup sg subgroups with
  | Some subgroup => dict_set sg (set_add state subgroup) subgroups
  | None => dict_set sg (set_add state []) subgroups
  end.

Definition split_group (dfa : DFA) (partition : partition_t)
    (group : list string) : partition_t :=
  map snd (fold_left (add_to_subgroup dfa partition) group []).

Definition refine_partition (dfa : DFA) (partition : partition_t)
  : partition_t :=
  flat_map (split_group dfa partition) partition.

(** [new_partition == partition]: lists of sets, compared position by
    position, each pair of sets by extension. *)
Fixpoint partition_eqb (p1 p2 : partition_t) : bool :=
  match p1, p2 with
  | [], [] => true
  | g1 :: p1', g2 :: p2' => set_eqb g1 g2 && partition_eqb p1' p2'
  | _, _ => false
  end.

(** [while True: new_partition = refine_partition(dfa, partition); ...] *)
Fixpoint refine_loop (fuel : nat) (dfa : DFA) (partition : partition_t)
  : option partition_t :=
  match fuel with
  | 0 => None
  | S fuel' =>
      let new_partition := refine_partition dfa partition in
      if partition_eqb new_partition partition then Some partition
      else refine_loop fuel' dfa new_partition
  end.

(** [f"q{i}"] *)
Definition representative (i : nat) : string :=
  ("q" ++ str_of_nat i)%string.

(** [state_map], filled group by group. *)
Definition build_state_map (partition : partition_t)
  : list (string * string) :=
  fold_left
    (fun state_map '(i, group) =>
       fold_left
         (fun state_map state => dict_set state (representative i) state_map)
         group state_map)
    (enumerate partition) [].

Definition create_minimized_dfa (dfa : DFA) (partition : partition_t)
  : option DFA :=
  let state_map := build_state_map partition in
  new_states <- omap (fun state => lookup state state_map) (states dfa) ;;
  let new_alphabet := alphabet dfa in
  new_transitions <-
    ofold
      (fun new_transitions '((state, symbol), next_state) =>
         v <- lookup next_state state_map ;;
         k <- lookup state state_map ;;
         Some (dict_set (k, symbol) v new_transitions))
      (transitions dfa) [] ;;
  new_start_state <- lookup (start_state dfa) state_map ;;
  new_final_states <-
    omap (fun state => lookup state state_map) (final_states dfa) ;;
  Some (mkDFA (to_set new_states) new_alphabet new_transitions
              new_start_state (to_set new_final_states)).

(** The partition that [minimize] starts from. *)
Definition initial_partition (dfa : DFA) : partition_t :=
  let accepting := final_states dfa in
  let non_accepting :=
    filter (fun q => negb (mem q accepting)) (states dfa) in
  (match accepting with [] => [] | _ => [accepting] end)
  ++ (match non_accepting with [] => [] | _ => [non_accepting] end).

(** The partition that [minimize] hands to [create_minimized_dfa].  A pass
    that changes the partition adds a group, and there are at most as many
    groups as states. *)
Definition stable_partition (dfa : DFA) : option partition_t :=
  refine_loop (S (length (states dfa))) dfa (initial_partition dfa).

Definition minimize (self : DFA) : option DFA :=
  dfa <- remove_inaccessible_states self ;;
  if (length (states dfa) <=? 1)%nat then Some dfa
  else
    partition <- stable_partition dfa ;;
    create_minimized_dfa dfa partition.

(** [TestDFAMinimizer.accepts] from [current_state] on: the loop
    [for symbol in input_string] over the symbols that are left. *)
Fixpoint accepts_from (dfa : DFA) (current_state : string)
    (input : list string) : bool :=
  match input with
  | [] => mem current_state (final_states dfa)
  | symbol :: rest =>
      match lookup (current_state, symbol) (transitions dfa) with
      | None => false
      | Some next_state => accepts_from dfa next_state rest
      end
  end.

(** The symbols of a Python string are its characters. *)
Definition accepts (dfa : DFA) (input_string : string) : bool :=
  accepts_from dfa (start_state dfa) (chars input_string).

End DfaMinimizer.

Module DfaExamples.
Import DfaMinimizer.

(** The automaton of [test_simple_dfa_minimization]: binary strings that end
    with 01. *)
Definition ends_with_01 : DFA :=
  mkDFA ["q0"; "q1"; "q2"; "q3"] ["0"; "1"]
        [ (("q0", "0"), "q1"); (("q0", "1"), "q3");
          (("q1", "0"), "q1"); (("q1", "1"), "q2");
          (("q2", "0"), "q1"); (("q2", "1"), "q3");
          (("q3", "0"), "q1"); (("q3", "1"), "q3") ]
        "q0" ["q2"].

(** The partition of its states that [minimize] starts from. *)
Definition ends_with_01_groups : list (list string) :=
  [["q2"]; ["q0"; "q1"; "q3"]].

(** The automaton of [test_inaccessible_states_removal]. *)
Definition with_inaccessible : DFA :=
  mkDFA ["q0"; "q1"; "q2"; "q3"; "q4"] ["0"; "1"]
        [ (("q0", "0"), "q1"); (("q0", "1"), "q2");
          (("q1", "0"), "q1"); (("q1", "1"), "q2");
          (("q2", "0"), "q0"); (("q2", "1"), "q2");
          (("q3", "0"), "q4"); (("q3", "1"), "q3");
          (("q4", "0"), "q3"); (("q4", "1"), "q4") ]
        "q0" ["q2"; "q4"].

(** The automaton of [test_equivalent_states_merging]. *)
Definition with_equivalent : DFA :=
  mkDFA ["q0"; "q1"; "q2"; "q3"; "q4"] ["a"; "b"]
        [ (("q0", "a"), "q1"); (("q0", "b"), "q2");
          (("q1", "a"), "q3"); (("q1", "b"), "q4");
          (("q2", "a"), "q3"); (("q2", "b"), "q4");
          (("q3", "a"), "q3"); (("q3", "b"), "q4");
          (("q4", "a"), "q3"); (("q4", "b"), "q4") ]
        "q0" ["q3"; "q4"].

(** An automaton with a transition to q9 and a final state q9, which is
    not one of its states. *)
Definition stray_state : DFA :=
  mkDFA ["q0"] ["a"] [(("q0", "a"), "q9")] "q0" ["q9"].

(** An automaton with a missing transition: from the start state the symbol
    a leads to a state where nothing is defined.  It accepts nothing. *)
Definition dead_end : DFA :=
  mkDFA ["q0"; "q1"] ["a"] [(("q0", "a"), "q1")] "q0" [].

(** One state, no transition: it accepts nothing either. *)
Definition lone_state : DFA := mkDFA ["q0"] ["a"] [] "q0" [].

(** What [minimize dead_end] becomes when its two states are merged. *)
Definition merged_dead_end : DFA :=
  mkDFA ["q0"] ["a"] [(("q0", "a"), "q0")] "q0" [].

End DfaExamples.

(** ** cfg_to_cnf.py *)

Module CfgToCnf.

(** [class CFG]; the constructor stores its four arguments as they are.  A
    production body is a Python string, its symbols are its characters. *)
Record CFG := mkCFG {
  variables : list string;
  terminals : list string;
  productions : list (string * list string);
  start_symbol : string
}.

(** [class CNFConverter].  [cfg] is the grammar object the converter was
    built from: the caller holds the same object, so what a method does to
    [cfg] is what the caller sees afterwards. *)
Record CNFConverter := mkCNFConverter {
  cfg : CFG;
  new_var_counter : nat;
  terminal_to_var : list (string * string)
}.

(** [CNFConverter(cfg)] *)
Definition init (g : CFG) : CNFConverter := mkCNFConverter g 0 [].

(** Methods of a converter: they read and write [self] and can raise. *)
Definition M (A : Type) : Type := CNFConverter -> option (A * CNFConverter).

Definition ret {A} (a : A) : M A := fun self => Some (a, self).

Definition bind {A B} (m : M A) (f : A -> M B) : M B :=
  fun self =>
    match m self with
    | Some (a, self') => f a self'
    | None => None
    end.

Definition lift {A} (o : option A) : M A :=
  fun self => match o with Some a => Some (a, self) | None => None end.

Definition get : M CNFConverter := fun self => Some (self, self).

Definition put (self' : CNFConverter) : M unit := fun _ => Some (tt, self').

Declare Scope conv_scope.
Delimit Scope conv_scope with conv.
Notation "x <~ m ;; k" := (bind m (fun x => k))
  (at level 61, m at next level, right associativity) : conv_scope.
Notation "m ;;; k" := (bind m (fun _ => k))
  (at level 61, right associativity) : conv_scope.
Local Open Scope conv_scope.

(** A [for] loop with a loop-carried value. *)
Fixpoint for_each {A S} (l : list A) (body : S -> A -> M S) (s : S) : M S :=
  match l with
  | [] => ret s
  | x :: l' => s' <~ body s x ;; for_each l' body s'
  end.

(** [{var: v(var) for var in keys}] *)
Definition dict_of {V} (v : string -> V) (keys : list string)
  : list (string * V) :=
  fold_left (fun d var => dict_set var (v var) d) keys [].

(** [f"X{n}"] *)
Definition fresh_name (n : nat) : string := ("X" ++ str_of_nat n)%string.

(** [while True: new_var = f"X{self.new_var_counter}"; ...] *)
Fixpoint generate_new_variable_loop (fuel : nat) : M string :=
  fun self =>
    match fuel with
    | 0 => None
    | S fuel' =>
        let new_var := fresh_name (new_var_counter self) in
        let self' :=
          mkCNFConverter (cfg self) (S (new_var_counter self))
                         (terminal_to_var self) in
        if mem new_var (variables (cfg self'))
        then generate_new_variable_loop fuel' self'
        else Some (new_var, self')
    end.

(** Of any [n + 1] consecutive names at most [n] are among [n] variables. *)
Definition generate_new_variable : M string :=
  fun self =>
    generate_new_variable_loop (S (length (variables (cfg self)))) self.

(** [self.cfg.variables.add(new_var)] *)
Definition add_cfg_variable (new_var : string) : M unit :=
  fun self =>
    let g := cfg self in
    Some (tt, mkCNFConverter
                (mkCFG (set_add new_var (variables g)) (terminals g)
                       (productions g) (start_symbol g))
                (new_var_counter self) (terminal_to_var self)).

(** *** Epsilon elimination *)

(** The body of [for var, productions in self.cfg.productions.items()] in the
    search for nullable variables. *)
Definition nullable_step (st : list string * bool)
    (item : string * list string) : list string * bool :=
  let '(nullable, nullable_added) := st in
  let '(var, prods) := item in
  if mem var nullable then st
  else if mem "" prods then (set_add var nullable, true)
  else if existsb
            (fun prod => forallb (fun symbol => mem symbol nullable)
                                 (chars prod))
            prods
       then (set_add var nullable, true)
       else st.

Fixpoint nullable_loop (fuel : nat) (prods : list (string * list string))
    (nullable : list string) : option (list string) :=
  match fuel with
  | 0 => None
  | S fuel' =>
      let '(nullable', nullable_added) :=
        fold_left nullable_step prods (nullable, false) in
      if nullable_added then nullable_loop fuel' prods nullable'
      else Some nullable'
  end.

(** A pass that does not end the loop makes one more key nullable. *)
Definition compute_nullable (g : CFG) : option (list string) :=
  nullable_loop (S (length (productions g))) (productions g) [].

(** [[i for i, symbol in enumerate(prod) if symbol in nullable]] *)
Definition nullable_indices (nullable : list string) (prod : string)
  : list nat :=
  map fst
      (filter (fun '(_, symbol) => mem symbol nullable)
              (enumerate (chars prod))).

(** The indices to omit in combination [i]: those [idx] at a position [j]
    of [nullable_indices] with [(i >> j) & 1]. *)
Definition omit_indices (i : nat) (indices : list nat) : list nat :=
  map snd (filter (fun '(j, _) => Nat.testbit i j) (enumerate indices)).

(** ["".join(prod[j] for j in range(len(prod)) if j not in omit)] *)
Definition omit_symbols (omit : list nat) (prod : string) : string :=
  String.concat ""
    (map snd
         (filter (fun '(j, _) => negb (mem j omit)) (enumerate (chars prod)))).

(** [if new_prod and new_prod not in d[var]: d[var].append(new_prod)] *)
Definition add_nonempty (var new_prod : string)
    (d : list (string * list string)) : option (list (string * list string)) :=
  if eqb new_prod "" then Some d
  else
    body <- lookup var d ;;
    if mem new_prod body then Some d
    else Some (dict_set var (body ++ [new_prod]) d).

(** The bodies that one body of [var] contributes. *)
Definition expand_production (nullable : list string) (var prod : string)
    (d : list (string * list string)) : option (list (string * list string)) :=
  if eqb prod "" then Some d
  else
    let indices := nullable_indices nullable prod in
    let num_combinations := 2 ^ length indices in
    ofold
      (fun d i =>
         add_nonempty var (omit_symbols (omit_indices i indices) prod) d)
      (seq 0 num_combinations) d.

Definition expand_productions (nullable : list string) (g : CFG)
  : option (list (string * list string)) :=
  ofold
    (fun d '(var, prods) =>
       ofold (fun d prod => expand_production nullable var prod d) prods d)
    (productions g)
    (dict_of (fun _ => []) (variables g)).

Definition eliminate_epsilon_productions : M CFG :=
  self <~ get ;;
  nullable <~ lift (compute_nullable (cfg self)) ;;
  new_productions <~ lift (expand_productions nullable (cfg self)) ;;
  if mem (start_symbol (cfg self)) nullable then
    new_start <~ generate_new_variable ;;
    let new_productions :=
      dict_set new_start [""; start_symbol (cfg self)] new_productions in
    add_cfg_variable new_start ;;;
    self <~ get ;;
    ret (mkCFG (variables (cfg self)) (terminals (cfg self))
               new_productions new_start)
  else
    ret (mkCFG (variables (cfg self)) (terminals (cfg self))
               new_productions (start_symbol (cfg self))).

(** *** Unit-production elimination *)

(** [self.cfg.productions.get(B, [])] *)
Definition bodies_of (g : CFG) (B : string) : list string :=
  match lookup B (productions g) with Some prods => prods | None => [] end.

(** The two inner loops of the closure, for one [A]: over a copy of
    [unit_pairs[A]] and over the bodies of each of its members. *)
Definition close_pairs_of (g : CFG) (st : list string * bool)
  : list string * bool :=
  fold_left
    (fun st B =>
       fold_left
         (fun '(pairs, changed) prod =>
            if mem prod (variables g) && negb (mem prod pairs)
            then (set_add prod pairs, true)
            else (pairs, changed))
         (bodies_of g B) st)
    (fst st) st.

(** The body of [for A in self.cfg.variables] in the closure. *)
Definition unit_pass_step (g : CFG)
    (st : list (string * list string) * bool) (A : string)
  : option (list (string * list string) * bool) :=
  let '(unit_pairs, changed) := st in
  pairs <- lookup A unit_pairs ;;
  let '(pairs', changed') := close_pairs_of g (pairs, changed) in
  Some (dict_set A pairs' unit_pairs, changed').

Fixpoint unit_closure_loop (fuel : nat) (g : CFG)
    (unit_pairs : list (string * list string))
  : option (list (string * list string)) :=
  match fuel with
  | 0 => None
  | S fuel' =>
      st <- ofold (unit_pass_step g) (variables g) (unit_pairs, false) ;;
      let '(unit_pairs', changed) := st in
      if changed then unit_closure_loop fuel' g unit_pairs'
      else Some unit_pairs'
  end.

(** A pass that does not end the loop adds a pair of variables. *)
Definition unit_closure (g : CFG) : option (list (string * list string)) :=
  unit_closure_loop (S (length (variables g) * length (variables g))) g
                    (dict_of (fun var => [var]) (variables g)).

(** [if prod not in d[A]: d[A].append(prod)] *)
Definition add_body (A prod : string) (d : list (string * list string))
  : option (list (string * list string)) :=
  body <- lookup A d ;;
  if mem prod body then Some d else Some (dict_set A (body ++ [prod]) d).

(** The body of [for A in self.cfg.variables] in the second half. *)
Definition collect_non_unit (g : CFG)
    (unit_pairs new_productions : list (string * list string)) (A : string)
  : option (list (string * list string)) :=
  pairs <- lookup A unit_pairs ;;
  ofold
    (fun d B =>
       ofold
         (fun d prod =>
            if mem prod (variables g) then Some d else add_body A prod d)
         (bodies_of g B) d)
    pairs new_productions.

Definition eliminate_unit_productions : M CFG :=
  self <~ get ;;
  let g := cfg self in
  unit_pairs <~ lift (unit_closure g) ;;
  new_productions <~
    lift (ofold (collect_non_unit g unit_pairs) (variables g)
                (dict_of (fun _ => []) (variables g))) ;;
  ret (mkCFG (variables g) (terminals g) new_productions (start_symbol g)).

(** *** Terminal replacement and breaking of long bodies *)

(** [prod[i]] for an index within the string *)
Definition char_at (i : nat) (prod : string) : string := substring i 1 prod.

(** [prod[-2] + prod[-1]] for a string of two characters or more *)
Definition last_two (prod : string) : string :=
  substring (String.length prod - 2) 2 prod.

(** [len(prod) <= 1 or (len(prod) == 2 and prod[0] in variables and
    prod[1] in variables)] *)
Definition already_cnf (vars : list string) (prod : string) : bool :=
  (String.length prod <=? 1)%nat
  || ((String.length prod =? 2)%nat
      && mem (char_at 0 prod) vars && mem (char_at 1 prod) vars).

(** The state of step 3: the local [variables] and [productions]. *)
Definition step3_state : Type :=
  (list string * list (string * list string))%type.

(** The body of [for symbol in prod]; [new_prod] is carried along. *)
Definition replace_symbol (terms : list string)
    (st : step3_state * string) (symbol : string) : M (step3_state * string) :=
  let '((vars, prods), new_prod) := st in
  if mem symbol terms then
    self <~ get ;;
    st' <~ (if has_key symbol (terminal_to_var self) then ret (vars, prods)
            else
              new_var <~ generate_new_variable ;;
              self <~ get ;;
              put (mkCNFConverter (cfg self) (new_var_counter self)
                     (dict_set symbol new_var (terminal_to_var self))) ;;;
              ret (set_add new_var vars, dict_set new_var [symbol] prods)) ;;
    self <~ get ;;
    v <~ lift (lookup symbol (terminal_to_var self)) ;;
    ret (st', (new_prod ++ v)%string)
  else ret ((vars, prods), (new_prod ++ symbol)%string).

(** The body of [for prod in prods]; [new_prods] is carried along. *)
Definition replace_in_body (terms : list string)
    (st : step3_state * list string) (prod : string)
  : M (step3_state * list string) :=
  let '((vars, prods), new_prods) := st in
  if already_cnf vars prod then ret st
  else
    r <~ for_each (chars prod) (replace_symbol terms) ((vars, prods), "") ;;
    let '(st', new_prod) := r in
    ret (st', new_prods ++ [new_prod]).

(** The body of [for var, prods in cfg.productions.items()] in step 3. *)
Definition replace_in_variable (terms : list string) (st : step3_state)
    (item : string * list string) : M step3_state :=
  let '(var, prods) := item in
  r <~ for_each prods (replace_in_body terms) (st, []) ;;
  let '((vars, productions), new_prods) := r in
  productions' <~ lift (ofold (fun d prod => add_body var prod d)
                              new_prods productions) ;;
  ret (vars, productions').

Definition replace_terminals (g : CFG) : M step3_state :=
  let vars := variables g in
  let terms := terminals g in
  let prods := dict_of (fun _ => []) vars in
  let prods :=
    fold_left (fun d '(var, body) => dict_set var body d) (productions g)
              prods in
  for_each (productions g) (replace_in_variable terms) (vars, prods).

(** The state of step 4: the local [variables] and [final_productions], and
    [current_var] and [prev_var], which outlive an iteration. *)
Record step4_state := mkStep4 {
  s4_variables : list string;
  s4_final : list (string * list string);
  s4_current : string;
  s4_prev : option string
}.

(** [d[var].append(prod)] *)
Definition append_body (var prod : string) (d : list (string * list string))
  : option (list (string * list string)) :=
  body <- lookup var d ;;
  Some (dict_set var (body ++ [prod]) d).

(** The body of [for i in range(len(prod) - 2)]. *)
Definition break_step (prod : string) (st : step4_state) (i : nat)
  : M step4_state :=
  next_var <~ generate_new_variable ;;
  let vars := set_add next_var (s4_variables st) in
  let final := dict_set next_var [] (s4_final st) in
  final <~ (if (i =? 0)%nat
            then lift (append_body (s4_current st)
                                   (char_at 0 prod ++ next_var)%string final)
            else
              prev_var <~ lift (s4_prev st) ;;
              lift (append_body (s4_current st)
                                (prev_var ++ next_var)%string final)) ;;
  final <~ (if (i =? String.length prod - 3)%nat
            then lift (append_body next_var (last_two prod) final)
            else ret final) ;;
  ret (mkStep4 vars final next_var (Some next_var)).

(** The body of [for prod in prods] in step 4. *)
Definition break_body (var : string) (st : step4_state) (prod : string)
  : M step4_state :=
  if (String.length prod <=? 2)%nat then
    final <~ lift (add_body var prod (s4_final st)) ;;
    ret (mkStep4 (s4_variables st) final (s4_current st) (s4_prev st))
  else
    for_each (seq 0 (String.length prod - 2)) (break_step prod)
             (mkStep4 (s4_variables st) (s4_final st) var (s4_prev st)).

Definition break_long (st3 : step3_state) : M step4_state :=
  let '(vars, prods) := st3 in
  for_each prods
    (fun st '(var, bodies) => for_each bodies (break_body var) st)
    (mkStep4 vars (dict_of (fun _ => []) vars) "" None).

(** What [cfg] is bound to after the first two steps of [convert_to_cnf]. *)
Definition first_two_steps : M CFG :=
  cfg <~ eliminate_epsilon_productions ;;
  cfg <~ eliminate_unit_productions ;;
  ret cfg.

Definition convert_to_cnf : M CFG :=
  cfg <~ first_two_steps ;;
  st3 <~ replace_terminals cfg ;;
  st4 <~ break_long st3 ;;
  ret (mkCFG (s4_variables st4) (terminals cfg) (s4_final st4)
             (start_symbol cfg)).

End CfgToCnf.

Module CfgExamples.
Import CfgToCnf.

(** The grammar of [test_simple_cfg_conversion], with its variables in the
    order [vs]. *)
Definition simple_with (vs : list string) : CFG :=
  mkCFG vs ["a"; "b"]
        [("S", ["aA"; "B"]); ("A", ["SB"; "aAa"]); ("B", ["b"; ""])] "S".

Definition simple : CFG := simple_with ["S"; "A"; "B"].

(** The grammar of [test_epsilon_elimination]. *)
Definition eps_test : CFG :=
  mkCFG ["S"; "A"; "B"] ["a"; "b"]
        [("S", ["AB"]); ("A", ["a"; ""]); ("B", ["b"])] "S".

(** The grammar of [test_unit_production_elimination]. *)
Definition unit_test : CFG :=
  mkCFG ["S"; "A"; "B"] ["a"; "b"]
        [("S", ["A"]); ("A", ["B"; "a"]); ("B", ["b"])] "S".

(** The grammar of [test_long_production_breakdown]. *)
Definition long_test : CFG :=
  mkCFG ["S"] ["a"; "b"; "c"; "d"] [("S", ["abcd"])] "S".

(** The grammar of [test_terminal_replacement]. *)
Definition mixed_test : CFG :=
  mkCFG ["S"] ["a"; "b"] [("S", ["aSb"])] "S".

(** A grammar whose start symbol is not one of its variables. *)
Definition stray_start : CFG := mkCFG ["S"] ["a"] [("S", ["a"])] "Z".

(** A grammar with productions for T, which is not one of its variables. *)
Definition stray_key : CFG :=
  mkCFG ["S"] ["a"] [("S", ["a"]); ("T", ["a"])] "S".

(** A grammar with one production for T, which is not one of its
    variables: the empty body. *)
Definition stray_empty : CFG :=
  mkCFG ["S"] ["a"] [("S", ["a"]); ("T", [""])] "S".

(** A grammar with a nullable start symbol and a body that spells X0, the
    name that step 1 gives to the start variable it adds. *)
Definition spells_new_start : CFG :=
  mkCFG ["S"] ["X"; "0"] [("S", ["X0"; ""])] "S".

End CfgExamples.

(** ** Notions used to state the properties of the minimizer *)

Module DfaSpec.
Import DfaMinimizer.

(** Every transition is on a symbol of the alphabet. *)
Definition symbols_ok (D : DFA) : Prop :=
  forall q a q', In ((q, a), q') (transitions D) -> In a (alphabet D).

(** [symbols_ok], computed. *)
Definition symbols_okb (D : DFA) : bool :=
  forallb (fun e => mem (snd (fst e)) (alphabet D)) (transitions D).

(** The states reachable from the start state via defined transitions. *)
Inductive reachable (D : DFA) : string -> Prop :=
| reachable_start : reachable D (start_state D)
| reachable_step q a q' :
    reachable D q -> lookup (q, a) (transitions D) = Some q' ->
    reachable D q'.

(** The same, following only the symbols of the alphabet, as the traversal
    does. *)
Inductive reachable_on (D : DFA) : string -> Prop :=
| reachable_on_start : reachable_on D (start_state D)
| reachable_on_step q a q' :
    reachable_on D q -> In a (alphabet D) ->
    lookup (q, a) (transitions D) = Some q' ->
    reachable_on D q'.

(** The states that can ever enter the queue of the traversal. *)
Definition universe (D : DFA) : list string :=
  nodup string_dec (start_state D :: map snd (transitions D)).

(** What holds each time the loop test of the traversal is evaluated. *)
Record bfs_inv (D : DFA) (accessible queue : list string) : Prop := {
  inv_start : In (start_state D) accessible;
  inv_nodup : NoDup accessible;
  inv_queue : incl queue accessible;
  inv_sound : forall q, In q accessible -> reachable_on D q;
  inv_universe : incl accessible (universe D);
  inv_closed : forall q, In q accessible ->
    In q queue \/
    forall a q', In a (alphabet D) ->
                 lookup (q, a) (transitions D) = Some q' -> In q' accessible
}.

(** What [subgroups] holds once the states [seen] of a group have been
    filed. *)
Record sub_inv (D : DFA) (P : partition_t) (seen : list string)
    (subgroups : list (list (string * Z) * list string)) : Prop := {
  sub_keys : NoDup (map fst subgroups);
  sub_entries : forall s g, In (s, g) subgroups ->
    g <> [] /\ forall q, In q g <-> In q seen /\ signature D P q = s;
  sub_covered : forall q, In q seen ->
    In (signature D P q) (map fst subgroups);
  sub_perm : Permutation (concat (map snd subgroups)) seen
}.

(** A sequence of symbols of the alphabet. *)
Definition word_over (D : DFA) (w : list string) : Prop :=
  Forall (fun a => In a (alphabet D)) w.

(** An input string over the alphabet. *)
Definition over_alphabet (D : DFA) (s : string) : Prop :=
  word_over D (chars s).

(** Where the run of [w] from [q] ends, if no transition is missing. *)
Fixpoint run (D : DFA) (q : string) (w : list string) : option string :=
  match w with
  | [] => Some q
  | a :: w' =>
      match lookup (q, a) (transitions D) with
      | Some q' => run D q' w'
      | None => None
      end
  end.

(** How the run of an input ends: in an accepting state, in a
    non-accepting state, or at a missing transition. *)
Inductive outcome : Type := Accept | Reject | Stuck.

Fixpoint behaviour_from (D : DFA) (q : string) (w : list string) : outcome :=
  match w with
  | [] => if mem q (final_states D) then Accept else Reject
  | a :: w' =>
      match lookup (q, a) (transitions D) with
      | Some q' => behaviour_from D q' w'
      | None => Stuck
      end
  end.

Definition behaviour (D : DFA) (w : list string) : outcome :=
  behaviour_from D (start_state D) w.

Definition accepting (o : outcome) : bool :=
  match o with Accept => true | _ => false end.

(** Groups at different positions of a partition share no state. *)
Definition pairwise_disjoint (P : partition_t) : Prop :=
  forall i j g h,
    nth_error P i = Some g -> nth_error P j = Some h -> i <> j ->
    forall q, In q g -> ~ In q h.

(** A list of nonempty, pairwise disjoint sets. *)
Definition is_partition (P : partition_t) : Prop :=
  (forall g, In g P -> g <> [] /\ NoDup g) /\ pairwise_disjoint P.

(** The states of the groups of [P]. *)
Definition union (P : partition_t) : list string := concat P.

(** No group of [P] holds both an accepting and a non-accepting state. *)
Definition respects_final (D : DFA) (P : partition_t) : Prop :=
  forall g p q, In g P -> In p g -> In q g ->
                (In p (final_states D) <-> In q (final_states D)).

(** The states of a group of [P] agree on their signatures. *)
Definition stable (D : DFA) (P : partition_t) : Prop :=
  forall g p q, In g P -> In p g -> In q g ->
                signature D P p = signature D P q.

(** Every group of [P'] lies within a group of [P]. *)
Definition refines (P' P : partition_t) : Prop :=
  forall h, In h P' -> exists g, In g P /\ incl h g.

(** The lists of [D] that stand for a set that is iterated over, or for a
    dict, hold no element and no key twice. *)
Definition represented (D : DFA) : Prop :=
  NoDup (final_states D) /\ dict_ok (transitions D).

(** What one symbol contributes to a signature: the index of the group of
    the successor, or the sentinel. *)
Definition code (D : DFA) (P : partition_t) (q a : string) : Z :=
  match lookup (q, a) (transitions D) with
  | Some q' =>
      match find_group 0 P q' with
      | Some i => Z.of_nat i
      | None => (-2)%Z
      end
  | None => (-1)%Z
  end.

(** The representative of the group of [q], where [q] has one. *)
Definition rep_of (P : partition_t) (q : string) : string :=
  match lookup q (build_state_map P) with Some r => r | None => "" end.

(** Some input over the alphabet ends differently from [p] and from [q]. *)
Definition distinguishable (D : DFA) (p q : string) : Prop :=
  exists w, word_over D w /\ behaviour_from D p w <> behaviour_from D q w.

(** States of different groups of [P] are distinguishable. *)
Definition separated (D : DFA) (P : partition_t) : Prop :=
  forall p q i j,
    find_group 0 P p = Some i -> find_group 0 P q = Some j -> i <> j ->
    distinguishable D p q.

(** The start state and both ends of every transition are states. *)
Definition well_formed (B : DFA) : Prop :=
  In (start_state B) (states B) /\
  forall q a q',
    In ((q, a), q') (transitions B) -> In q (states B) /\ In q' (states B).

(** No transition on a symbol of [sigma] is missing at a state of [B]. *)
Definition total (sigma : list string) (B : DFA) : Prop :=
  forall q a, In q (states B) -> In a sigma ->
              lookup (q, a) (transitions B) <> None.

(** No transition on a symbol of the alphabet is missing at a state that
    the traversal of [D] reaches. *)
Definition total_on_reachable (D : DFA) : Prop :=
  forall q a, reachable_on D q -> In a (alphabet D) ->
              lookup (q, a) (transitions D) <> None.

(** What [create_minimized_dfa] builds when no lookup in [state_map]
    fails. *)
Definition quotient (D : DFA) (P : partition_t) : DFA :=
  mkDFA (to_set (map (rep_of P) (states D)))
        (alphabet D)
        (fold_left
           (fun d e =>
              dict_set (rep_of P (fst (fst e)), snd (fst e))
                       (rep_of P (snd e)) d)
           (transitions D) [])
        (rep_of P (start_state D))
        (to_set (map (rep_of P) (final_states D))).

(** An automaton as pruning leaves it: its states are a set that holds the
    start state, the accepting states and both ends of every transition. *)
Record pruned (D : DFA) : Prop := {
  pruned_states : NoDup (states D);
  pruned_final : NoDup (final_states D);
  pruned_dict : dict_ok (transitions D);
  pruned_start : In (start_state D) (states D);
  pruned_final_incl : incl (final_states D) (states D);
  pruned_closed : forall q a q',
    In ((q, a), q') (transitions D) -> In q (states D) /\ In q' (states D)
}.

(** The states that an automaton names: its states, its start state, its
    final states and both ends of its transitions. *)
Definition mentioned (D : DFA) (q : string) : Prop :=
  In q (states D) \/ q = start_state D \/ In q (final_states D) \/
  exists a q',
    In ((q, a), q') (transitions D) \/ In ((q', a), q) (transitions D).

End DfaSpec.

(** ** Notions used to state the properties of the converter *)

Module CfgSpec.
Import CfgToCnf.

(** The check that [test_simple_cfg_conversion] makes on one body: a body
    of length 1 is a terminal, a body of length 2 is two variables, and there
    is no other body. *)
Definition cnf_body (g : CFG) (prod : string) : bool :=
  if (String.length prod =? 1)%nat then mem prod (terminals g)
  else if (String.length prod =? 2)%nat
       then mem (char_at 0 prod) (variables g)
            && mem (char_at 1 prod) (variables g)
       else false.

(** The same with symbols read as names of any length: the body is the
    name of a terminal, or the names of two variables one after the other. *)
Definition cnf_body_names (g : CFG) (prod : string) : bool :=
  mem prod (terminals g)
  || existsb
       (fun v1 =>
          existsb (fun v2 => eqb prod (v1 ++ v2)%string) (variables g))
       (variables g).

(** Every body is in Chomsky normal form under one reading or the other, or
    it is the empty body of the start symbol. *)
Definition cnf_grammar (g : CFG) : bool :=
  forallb
    (fun '(var, prods) =>
       forallb
         (fun prod =>
            cnf_body g prod || cnf_body_names g prod
            || (eqb prod "" && eqb var (start_symbol g)))
         prods)
    (productions g).

(** The bodies under [var] in a dict of bodies. *)
Definition bodies_in (d : list (string * list string)) (var : string)
  : list string :=
  match lookup var d with Some prods => prods | None => [] end.

(** The empty body occurs at [var]. *)
Definition has_epsilon (g : CFG) (var : string) : Prop :=
  In "" (bodies_of g var).

(** No body is empty. *)
Definition epsilon_free (g : CFG) : Prop :=
  forall var prods, In (var, prods) (productions g) -> ~ In "" prods.

(** Every key of [productions] is in [variables]. *)
Definition keys_in_variables (g : CFG) : Prop :=
  forall var, In var (map fst (productions g)) -> In var (variables g).

(** [keys_in_variables], computed. *)
Definition keys_in_variablesb (g : CFG) : bool :=
  forallb (fun item => mem (fst item) (variables g)) (productions g).

(** One derivation step replaces an occurrence of the name of a variable
    by one of its bodies; [derives] is any number of steps. *)
Inductive derives (g : CFG) : string -> string -> Prop :=
| derives_refl u : derives g u u
| derives_step u A v b w :
    In b (bodies_of g A) ->
    derives g (u ++ b ++ v)%string w ->
    derives g (u ++ A ++ v)%string w.

(** The strings of terminals that the start symbol derives. *)
Definition language (g : CFG) (w : string) : Prop :=
  derives g (start_symbol g) w /\
  Forall (fun c => In c (terminals g)) (chars w).

(** The number of unit pairs held in [unit_pairs]. *)
Definition total_size (unit_pairs : list (string * list string)) : nat :=
  list_sum (map (fun e => length (snd e)) unit_pairs).

(** From [st] to [st'] a set of variables of [V] has stayed a set of
    variables of [V], and has grown where the flag was raised. *)
Definition grows (V : list string) (st st' : list string * bool) : Prop :=
  (NoDup (fst st) -> NoDup (fst st')) /\
  (incl (fst st) V -> incl (fst st') V) /\
  length (fst st) <= length (fst st') /\
  (st' = st \/ (snd st' = true /\ length (fst st) < length (fst st'))).

(** [unit_pairs] has one set of variables for every variable. *)
Record unit_pairs_ok (V : list string)
    (unit_pairs : list (string * list string)) : Prop := {
  up_dict : NoDup (map fst unit_pairs);
  up_keys : forall k, In k (map fst unit_pairs) <-> In k V;
  up_sets : forall k s, In (k, s) unit_pairs -> NoDup s /\ incl s V
}.

(** Step 3 keeps the grammar of the converter, keeps the keys of the local
    productions and keeps them among the local variables. *)
Definition step3_ok (cfg0 : CFG) (keys0 : list string) (st : step3_state)
    (self : CNFConverter) : Prop :=
  cfg self = cfg0 /\
  incl keys0 (map fst (snd st)) /\
  incl (map fst (snd st)) (fst st).

(** Step 4 keeps the grammar of the converter and the keys of the final
    productions. *)
Definition step4_ok (cfg0 : CFG) (keys0 : list string) (st : step4_state)
    (self : CNFConverter) : Prop :=
  cfg self = cfg0 /\ incl keys0 (map fst (s4_final st)).

(** A name the converter has met: a variable of its grammar, or a name it
    has generated. *)
Definition known (self : CNFConverter) (name : string) : Prop :=
  In name (variables (cfg self)) \/
  exists k, k < new_var_counter self /\ name = fresh_name k.

(** The six orders in which the variables of the first test grammar can be
    iterated. *)
Definition simple_orders : list (list string) :=
  [ ["S"; "A"; "B"]; ["S"; "B"; "A"]; ["A"; "S"; "B"];
    ["A"; "B"; "S"]; ["B"; "S"; "A"]; ["B"; "A"; "S"] ].

(** [t] is [s] with some occurrences of members of [N] left out. *)
Inductive omits (N : list string) : list string -> list string -> Prop :=
| omits_nil : omits N [] []
| omits_keep c s t : omits N s t -> omits N (c :: s) (c :: t)
| omits_drop c s t : In c N -> omits N s t -> omits N (c :: s) t.

(** [A] reaches [B] along unit productions: bodies that are the name of a
    variable. *)
Inductive unit_reach (g : CFG) (A : string) : string -> Prop :=
| unit_reach_refl : unit_reach g A A
| unit_reach_step B C :
    unit_reach g A B -> In C (bodies_of g B) -> In C (variables g) ->
    unit_reach g A C.

(** The keys of [productions] are single characters, as the symbols of a
    body are. *)
Definition single_char_keys (g : CFG) : Prop :=
  forall k, In k (map fst (productions g)) -> String.length k = 1.

(** [single_char_keys], computed. *)
Definition single_char_keysb (g : CFG) : bool :=
  forallb (fun item => (String.length (fst item) =? 1)%nat) (productions g).

(** A key of [productions] that is not a variable, with a body that is not
    empty. *)
Definition stray_body (g : CFG) : Prop :=
  exists key prods prod,
    In (key, prods) (productions g) /\ ~ In key (variables g) /\
    In prod prods /\ prod <> "".

(** A derivation of [n] steps. *)
Inductive derives_in (g : CFG) : nat -> string -> string -> Prop :=
| derives_in_refl u : derives_in g 0 u u
| derives_in_step n u A v b w :
    In b (bodies_of g A) ->
    derives_in g n (u ++ b ++ v)%string w ->
    derives_in g (S n) (u ++ A ++ v)%string w.

(** The variables are single characters. *)
Definition single_char_variables (g : CFG) : Prop :=
  forall v, In v (variables g) -> String.length v = 1.

(** [single_char_variables], computed. *)
Definition single_char_variablesb (g : CFG) : bool :=
  forallb (fun v => (String.length v =? 1)%nat) (variables g).

(** No terminal is a variable. *)
Definition terminals_apart (g : CFG) : Prop :=
  forall t, In t (terminals g) -> ~ In t (variables g).

(** [terminals_apart], computed. *)
Definition terminals_apartb (g : CFG) : bool :=
  forallb (fun t => negb (mem t (variables g))) (terminals g).

End CfgSpec.

(** * Properties *)

(** ** Facts about the containers *)

Module PyFacts.

#[export] Instance string_EqbSpec : EqbSpec string := String.eqb_spec.
#[export] Instance nat_EqbSpec : EqbSpec nat := Nat.eqb_spec.
#[export] Instance Z_EqbSpec : EqbSpec Z := Z.eqb_spec.

#[export] Instance prod_EqbSpec {A B} `{EqbSpec A} `{EqbSpec B}
  : EqbSpec (A * B).
Proof.
  intros [a b] [a' b']. unfold eqb, prod_Eqb. simpl.
  destruct (eqb_spec a a'), (eqb_spec b b'); simpl; constructor; congruence.
Qed.

#[export] Instance list_EqbSpec {A} `{EqbSpec A} : EqbSpec (list A).
Proof.
  intros l1. unfold eqb, list_Eqb.
  induction l1 as [|x l1 IH]; intros [|y l2]; simpl;
    try (constructor; congruence).
  destruct (eqb_spec x y); simpl; [|constructor; congruence].
  destruct (IH l2); constructor; congruence.
Qed.

Section Sets.
Context {A : Type} `{EqbSpec A}.

Lemma eqb_eq (x y : A) : eqb x y = true <-> x = y.
Proof. destruct (eqb_spec x y); split; congruence. Qed.

Lemma eqb_neq (x y : A) : eqb x y = false <-> x <> y.
Proof. destruct (eqb_spec x y); split; congruence. Qed.

Lemma eqb_refl (x : A) : eqb x x = true.
Proof. now apply eqb_eq. Qed.

Lemma mem_In (x : A) s : mem x s = true <-> In x s.
Proof.
  unfold mem. rewrite existsb_exists. split.
  - intros (y & Hy & E). apply eqb_eq in E. now subst.
  - intros Hx. exists x. split; [assumption | apply eqb_refl].
Qed.

Lemma mem_not_In (x : A) s : mem x s = false <-> ~ In x s.
Proof.
  rewrite <- mem_In. destruct (mem x s); split; congruence.
Qed.

Lemma mem_reflect (x : A) s : reflect (In x s) (mem x s).
Proof.
  destruct (mem x s) eqn:E; constructor.
  - now apply mem_In.
  - now apply mem_not_In.
Qed.

Lemma set_add_In (x y : A) s : In y (set_add x s) <-> y = x \/ In y s.
Proof.
  unfold set_add. destruct (mem_reflect x s) as [Hx|Hx].
  - split; [now right | intros [->|Hy]; assumption].
  - rewrite in_app_iff. simpl. intuition congruence.
Qed.

Lemma set_add_absent (x : A) s : ~ In x s -> set_add x s = s ++ [x].
Proof. intros Hx. unfold set_add. now apply mem_not_In in Hx as ->. Qed.

Lemma set_add_present (x : A) s : In x s -> set_add x s = s.
Proof. intros Hx. unfold set_add. now apply mem_In in Hx as ->. Qed.

Lemma NoDup_snoc (x : A) s : NoDup s -> ~ In x s -> NoDup (s ++ [x]).
Proof.
  intros Hs Hx. apply NoDup_app; [assumption | repeat constructor; easy |].
  intros y Hy [<-|[]]. contradiction.
Qed.

Lemma set_add_NoDup (x : A) s : NoDup s -> NoDup (set_add x s).
Proof.
  intros Hs. unfold set_add. destruct (mem_reflect x s); [assumption|].
  now apply NoDup_snoc.
Qed.

Lemma subset_incl (a b : list A) : subset a b = true <-> incl a b.
Proof.
  unfold subset, incl. rewrite forallb_forall.
  split; intros Hab x Hx; apply mem_In; auto.
Qed.

Lemma set_eqb_iff (a b : list A) :
  set_eqb a b = true <-> (forall x, In x a <-> In x b).
Proof.
  unfold set_eqb. rewrite andb_true_iff, !subset_incl. unfold incl.
  split; [intros [Hab Hba] x | intros Hx]; split; intros; apply Hx || auto;
    assumption.
Qed.

Lemma set_eqb_refl (a : list A) : set_eqb a a = true.
Proof. now apply set_eqb_iff. Qed.

Lemma to_set_spec (l : list A) :
  NoDup (to_set l) /\ (forall x, In x (to_set l) <-> In x l).
Proof.
  unfold to_set.
  enough (G : forall s, NoDup s ->
            NoDup (fold_left (fun s x => set_add x s) l s) /\
            (forall x, In x (fold_left (fun s x => set_add x s) l s)
                       <-> In x s \/ In x l)).
  { destruct (G [] (NoDup_nil _)) as [G1 G2]. split; [assumption|].
    intros x. rewrite G2. simpl. tauto. }
  induction l as [|y l IH]; intros s Hs; simpl.
  - split; [assumption | tauto].
  - destruct (IH (set_add y s) (set_add_NoDup _ _ Hs)) as [G1 G2].
    split; [assumption|]. intros x. rewrite G2, set_add_In. intuition.
Qed.

Lemma distinct_NoDup (l : list A) : distinct l = true -> NoDup l.
Proof.
  induction l as [|x l IH]; simpl; intros E; [constructor|].
  apply andb_true_iff in E as [Hx Hl]. constructor; [|auto].
  now apply mem_not_In, negb_true_iff.
Qed.

Lemma to_set_In (x : A) l : In x (to_set l) <-> In x l.
Proof. apply to_set_spec. Qed.

Lemma to_set_NoDup (l : list A) : NoDup (to_set l).
Proof. apply to_set_spec. Qed.

End Sets.

Section Dicts.
Context {K V : Type} `{EqbSpec K}.
Implicit Types (d : list (K * V)) (k : K) (v : V).

Lemma lookup_In k v d : lookup k d = Some v -> In (k, v) d.
Proof.
  induction d as [|[k' v'] d IH]; simpl; [discriminate|].
  destruct (eqb_spec k k') as [->|Hk].
  - intros [= ->]. now left.
  - intros Hl. right. auto.
Qed.

Lemma lookup_None k d : lookup k d = None <-> ~ In k (map fst d).
Proof.
  induction d as [|[k' v'] d IH]; simpl; [tauto|].
  destruct (eqb_spec k k') as [->|Hk].
  - split; [discriminate | intros Hn; exfalso; apply Hn; now left].
  - rewrite IH. intuition congruence.
Qed.

Lemma lookup_Some_key k v d : lookup k d = Some v -> In k (map fst d).
Proof. intros Hl. apply lookup_In in Hl. now apply (in_map fst) in Hl. Qed.

Lemma In_key_lookup k d : In k (map fst d) -> exists v, lookup k d = Some v.
Proof.
  intros Hk. destruct (lookup k d) as [v|] eqn:E; [now exists v|].
  now apply lookup_None in E.
Qed.

Lemma In_lookup k v d : NoDup (map fst d) -> In (k, v) d -> lookup k d = Some v.
Proof.
  induction d as [|[k' v'] d IH]; simpl; [easy|].
  intros Hnd [[= -> ->]|Hin].
  - now rewrite eqb_refl.
  - destruct (eqb_spec k k') as [->|Hk].
    + exfalso. inversion Hnd as [|? ? Hnot _]; subst. apply Hnot.
      now apply (in_map fst) in Hin.
    + inversion Hnd; subst. auto.
Qed.

Lemma has_key_In k d : has_key k d = true <-> In k (map fst d).
Proof.
  unfold has_key. destruct (lookup k d) as [v|] eqn:E.
  - apply lookup_Some_key in E. tauto.
  - apply lookup_None in E. split; [discriminate | contradiction].
Qed.

Lemma lookup_app_absent k d1 d :
  ~ In k (map fst d1) -> lookup k (d1 ++ d) = lookup k d.
Proof.
  induction d1 as [|[k' v'] d1 IH]; simpl; [reflexivity|].
  intros Hn. destruct (eqb_spec k k') as [->|Hk]; [tauto|]. apply IH. tauto.
Qed.

Lemma NoDup_keys_filter (keep : K * V -> bool) d :
  NoDup (map fst d) -> NoDup (map fst (filter keep d)).
Proof.
  induction d as [|e d IH]; simpl; intros Hnd; [constructor|].
  inversion Hnd as [|? ? Hnot Hnd']; subst.
  destruct (keep e); simpl; auto. constructor; auto.
  intros Hin. apply Hnot. apply in_map_iff in Hin as (e' & Ee & Hin).
  apply filter_In in Hin as [Hin _]. rewrite <- Ee. now apply in_map.
Qed.

Lemma lookup_dict_set_eq k v d : lookup k (dict_set k v d) = Some v.
Proof.
  induction d as [|[k' v'] d IH]; simpl.
  - now rewrite eqb_refl.
  - destruct (eqb_spec k k') as [->|Hk]; simpl.
    + now rewrite eqb_refl.
    + destruct (eqb_spec k k'); [contradiction | assumption].
Qed.

Lemma lookup_dict_set_neq k k' v d :
  k <> k' -> lookup k (dict_set k' v d) = lookup k d.
Proof.
  intros Hk. induction d as [|[k1 v1] d IH]; simpl.
  - destruct (eqb_spec k k'); [contradiction | reflexivity].
  - destruct (eqb_spec k' k1) as [->|Hk1]; simpl.
    + destruct (eqb_spec k k1); [contradiction | reflexivity].
    + destruct (eqb_spec k k1); [reflexivity | assumption].
Qed.

Lemma lookup_dict_set k k' v d :
  lookup k (dict_set k' v d) = if eqb k k' then Some v else lookup k d.
Proof.
  destruct (eqb_spec k k') as [->|Hk].
  - apply lookup_dict_set_eq.
  - now apply lookup_dict_set_neq.
Qed.

Lemma dict_set_keys_present k v d :
  In k (map fst d) -> map fst (dict_set k v d) = map fst d.
Proof.
  induction d as [|[k' v'] d IH]; simpl; [easy|].
  destruct (eqb_spec k k') as [->|Hk]; simpl; [reflexivity|].
  intros [E|Hin]; [congruence|]. now rewrite IH.
Qed.

Lemma dict_set_absent k v d :
  ~ In k (map fst d) -> dict_set k v d = d ++ [(k, v)].
Proof.
  induction d as [|[k' v'] d IH]; simpl; [reflexivity|].
  intros Hn. destruct (eqb_spec k k') as [->|Hk].
  - exfalso. apply Hn. now left.
  - rewrite IH; [reflexivity | tauto].
Qed.

Lemma dict_set_present k v d :
  In k (map fst d) -> NoDup (map fst d) ->
  exists d1 v0 d2, d = d1 ++ (k, v0) :: d2 /\
                   dict_set k v d = d1 ++ (k, v) :: d2 /\
                   ~ In k (map fst d1) /\ ~ In k (map fst d2).
Proof.
  induction d as [|[k' v'] d IH]; simpl; [easy|].
  intros Hin Hnd. inversion Hnd as [|? ? Hnot Hnd']; subst.
  destruct (eqb_spec k k') as [->|Hk].
  - exists [], v', d. simpl. repeat split; auto.
  - destruct Hin as [E|Hin]; [congruence|].
    destruct (IH Hin Hnd') as (d1 & v0 & d2 & E1 & E2 & N1 & N2).
    exists ((k', v') :: d1), v0, d2. simpl. rewrite E1 at 1. rewrite E2.
    repeat split; auto. intros [E|Hd1]; [congruence | contradiction].
Qed.

Lemma dict_set_keys_In k k' v d :
  In k (map fst (dict_set k' v d)) <-> k = k' \/ In k (map fst d).
Proof.
  induction d as [|[k1 v1] d IH]; simpl.
  - intuition.
  - destruct (eqb_spec k' k1) as [->|Hk1]; simpl.
    + intuition.
    + rewrite IH. intuition.
Qed.

Lemma dict_set_NoDup k v d :
  NoDup (map fst d) -> NoDup (map fst (dict_set k v d)).
Proof.
  induction d as [|[k1 v1] d IH]; simpl; intros Hnd.
  - repeat constructor. easy.
  - inversion Hnd as [|? ? Hnot Hnd']; subst.
    destruct (eqb_spec k k1) as [->|Hk1]; simpl.
    + now constructor.
    + constructor; [|auto]. rewrite dict_set_keys_In. intuition.
Qed.

End Dicts.

Lemma str_of_nat_inj i j : str_of_nat i = str_of_nat j -> i = j.
Proof.
  unfold str_of_nat. intros E.
  apply (f_equal NilEmpty.uint_of_string) in E.
  rewrite !NilEmpty.usu in E. injection E as E.
  apply (f_equal Nat.of_uint) in E. now rewrite !Unsigned.of_to in E.
Qed.

Lemma obind_Some {A B} (m : option A) (f : A -> option B) b :
  obind m f = Some b <-> exists a, m = Some a /\ f a = Some b.
Proof.
  destruct m as [a|]; simpl.
  - split; [intros E; now exists a | intros (a' & [= <-] & E); assumption].
  - split; [discriminate | intros (a' & E & _); discriminate].
Qed.

Lemma omap_Some {A B} (f : A -> option B) l :
  (forall x, In x l -> exists y, f x = Some y) ->
  exists ys, omap f l = Some ys.
Proof.
  induction l as [|x l IH]; simpl; intros Hf; [now exists []|].
  destruct (Hf x (or_introl eq_refl)) as (y & ->). simpl.
  destruct IH as (ys & ->); [auto|]. simpl. now exists (y :: ys).
Qed.

Lemma omap_In {A B} (f : A -> option B) l ys :
  omap f l = Some ys ->
  forall y, In y ys <-> exists x, In x l /\ f x = Some y.
Proof.
  revert ys. induction l as [|x l IH]; simpl; intros ys.
  - intros [= <-] y. simpl. split; [easy | intros (x & [] & _)].
  - intros E. apply obind_Some in E as (y0 & E0 & E).
    apply obind_Some in E as (ys0 & E1 & [= <-]). intros y. simpl.
    rewrite (IH _ E1). split.
    + intros [<-|(x' & Hx' & E')]; [exists x | exists x']; auto.
    + intros (x' & [<-|Hx'] & E'); [left; congruence | right; eauto].
Qed.

Lemma omap_total {A B} (f : A -> option B) (g : A -> B) l :
  (forall x, In x l -> f x = Some (g x)) -> omap f l = Some (map g l).
Proof.
  induction l as [|x l IH]; simpl; intros Hf; [reflexivity|].
  rewrite (Hf x) by now left. simpl. rewrite IH; [reflexivity|].
  intros y Hy. apply Hf. now right.
Qed.

Lemma ofold_total {A S} (f : S -> A -> option S) (g : S -> A -> S) l :
  (forall s x, In x l -> f s x = Some (g s x)) ->
  forall s, ofold f l s = Some (fold_left g l s).
Proof.
  induction l as [|x l IH]; simpl; intros Hf s; [reflexivity|].
  rewrite (Hf s x) by now left. simpl. apply IH.
  intros s' y Hy. apply Hf. now right.
Qed.

(** A dict filled from a list, entry by entry. *)
Section Collect.
Context {E K V : Type} `{EqbSpec K} (kf : E -> K) (vf : E -> V).

Local Abbreviation collect l d0 :=
  (fold_left (fun d e => dict_set (kf e) (vf e) d) l d0).

Lemma lookup_collect_inv k v l :
  forall d0, lookup k (collect l d0) = Some v ->
    (exists e, In e l /\ kf e = k /\ vf e = v) \/ lookup k d0 = Some v.
Proof.
  induction l as [|e l IH]; simpl; intros d0 E0; [now right|].
  destruct (IH _ E0) as [(e' & He' & Ek & Ev)|E1].
  - left. exists e'. auto.
  - rewrite lookup_dict_set in E1.
    destruct (eqb_spec k (kf e)) as [->|Hk]; [|now right].
    left. exists e. injection E1 as <-. auto.
Qed.

Lemma lookup_collect_agree k v l :
  forall d0,
    (exists e, In e l /\ kf e = k) \/ lookup k d0 = Some v ->
    (forall e, In e l -> kf e = k -> vf e = v) ->
    lookup k (collect l d0) = Some v.
Proof.
  induction l as [|e l IH]; simpl; intros d0 Hex Hall.
  - destruct Hex as [(e & [] & _)|E0]. assumption.
  - apply IH; [|auto].
    rewrite lookup_dict_set.
    destruct (eqb_spec k (kf e)) as [->|Hk].
    + right. f_equal. auto.
    + destruct Hex as [(e' & [<-|He'] & Ek)|E0]; [congruence | | now right].
      left. now exists e'.
Qed.

Lemma lookup_collect_none k l :
  forall d0, (forall e, In e l -> kf e <> k) ->
             lookup k (collect l d0) = lookup k d0.
Proof.
  induction l as [|e l IH]; simpl; intros d0 Hall; [reflexivity|].
  rewrite IH by auto. apply lookup_dict_set_neq.
  intros ->. now apply (Hall e (or_introl eq_refl)).
Qed.

End Collect.

End PyFacts.

Import PyFacts.

(** ** Accessibility pruning *)

Module DfaAccessible.
Import DfaMinimizer DfaSpec DfaExamples.

Section Traversal.
Variable D : DFA.

(** One state's successors: what the loop over the alphabet adds. *)
Lemma visit_fold state syms :
  forall accessible queue accessible' queue',
    fold_left (visit D state) syms (accessible, queue)
    = (accessible', queue') ->
    NoDup accessible ->
    exists new,
      accessible' = accessible ++ new /\ queue' = queue ++ new /\
      NoDup accessible' /\
      (forall x, In x new ->
         exists a, In a syms /\ lookup (state, a) (transitions D) = Some x) /\
      (forall a x, In a syms -> lookup (state, a) (transitions D) = Some x ->
         In x accessible').
Proof.
  induction syms as [|a syms IH]; simpl; intros acc queue acc' queue' E Hnd.
  - injection E as <- <-. exists []. rewrite !app_nil_r.
    repeat split; auto; intros; contradiction.
  - assert (Hcons : forall acc1 queue1 extra,
              fold_left (visit D state) syms (acc1, queue1) = (acc', queue') ->
              NoDup acc1 -> acc1 = acc ++ extra -> queue1 = queue ++ extra ->
              (forall x, In x extra ->
                         lookup (state, a) (transitions D) = Some x) ->
              (forall x, lookup (state, a) (transitions D) = Some x ->
                         In x acc1) ->
              exists new,
                acc' = acc ++ new /\ queue' = queue ++ new /\ NoDup acc' /\
                (forall x, In x new ->
                   exists b, (a = b \/ In b syms) /\
                             lookup (state, b) (transitions D) = Some x) /\
                (forall b x, a = b \/ In b syms ->
                   lookup (state, b) (transitions D) = Some x -> In x acc')).
    { intros acc1 queue1 extra E1 Hnd1 -> -> Hextra Hhere.
      destruct (IH _ _ _ _ E1 Hnd1) as (new & -> & -> & Hnd' & Hnew & Hall).
      exists (extra ++ new). rewrite !app_assoc.
      split; [reflexivity|]. split; [reflexivity|]. split; [assumption|].
      split.
      - intros x Hx. apply in_app_or in Hx as [Hx|Hx].
        + exists a. auto.
        + destruct (Hnew x Hx) as (b & Hb & Eb). eauto.
      - intros b x [<-|Hb] Eb; [|eauto].
        apply in_or_app. left. auto. }
    destruct (lookup (state, a) (transitions D)) as [next|] eqn:El.
    + destruct (mem_reflect next acc) as [Hin|Hnin].
      * apply (Hcons _ _ [] E Hnd); rewrite ?app_nil_r; auto.
        -- intros x [].
        -- now intros x [= <-].
      * rewrite (set_add_absent _ _ Hnin) in E.
        apply (Hcons _ _ [next] E); auto.
        -- now apply NoDup_snoc.
        -- now intros x [<-|[]].
        -- intros x [= <-]. apply in_or_app. right. now left.
    + apply (Hcons _ _ [] E Hnd); rewrite ?app_nil_r; auto.
      * intros x [].
      * discriminate.
Qed.

Lemma universe_bound : length (universe D) <= bfs_bound D.
Proof.
  unfold universe, bfs_bound.
  etransitivity; [apply NoDup_incl_length|].
  - apply NoDup_nodup.
  - intros x Hx. apply nodup_In in Hx. exact Hx.
  - simpl. now rewrite length_map.
Qed.

Lemma lookup_in_universe q a q' :
  lookup (q, a) (transitions D) = Some q' -> In q' (universe D).
Proof.
  intros E. apply nodup_In. right. apply lookup_In in E.
  now apply (in_map snd) in E.
Qed.

Lemma bfs_spec fuel :
  forall accessible queue,
    bfs_inv D accessible queue ->
    length queue + length (universe D) <= fuel + length accessible ->
    exists accessible',
      bfs fuel D accessible queue = Some accessible' /\
      bfs_inv D accessible' [].
Proof.
  induction fuel as [|fuel IH]; intros acc queue Hinv Hfuel.
  - destruct queue as [|state queue]; simpl.
    + exists acc. now split.
    + exfalso. simpl in Hfuel.
      pose proof (NoDup_incl_length (inv_nodup D _ _ Hinv)
                                    (inv_universe D _ _ Hinv)). lia.
  - destruct queue as [|state queue]; simpl.
    + exists acc. now split.
    + destruct (fold_left (visit D state) (alphabet D) (acc, queue))
        as [acc' queue'] eqn:E.
      destruct (visit_fold _ _ _ _ _ _ E (inv_nodup D _ _ Hinv))
        as (new & -> & -> & Hnd & Hnew & Hall).
      destruct Hinv as [Hstart _ Hqueue Hsound Huniv Hclosed].
      apply IH.
      * constructor.
        -- apply in_or_app. now left.
        -- assumption.
        -- intros q Hq. apply in_or_app. apply in_app_or in Hq as [Hq|Hq].
           ++ left. apply Hqueue. now right.
           ++ now right.
        -- intros q Hq. apply in_app_or in Hq as [Hq|Hq]; [auto|].
           destruct (Hnew q Hq) as (a & Ha & Ea).
           apply (reachable_on_step D state a q); auto.
           apply Hsound, Hqueue. now left.
        -- intros q Hq. apply in_app_or in Hq as [Hq|Hq]; [auto|].
           destruct (Hnew q Hq) as (a & Ha & Ea).
           now apply (lookup_in_universe state a).
        -- intros q Hq. apply in_app_or in Hq as [Hq|Hq].
           ++ destruct (Hclosed q Hq) as [[<-|Hin]|Hcl].
              ** right. intros a q' Ha Ea. now apply (Hall a).
              ** left. apply in_or_app. now left.
              ** right. intros a q' Ha Ea. apply in_or_app. left. eauto.
           ++ left. apply in_or_app. now right.
      * rewrite !length_app. simpl in Hfuel. lia.
Qed.

(** The traversal ends, and with the states reachable over the alphabet. *)
Lemma get_accessible_states_spec :
  exists accessible,
    get_accessible_states D = Some accessible /\
    NoDup accessible /\
    forall q, In q accessible <-> reachable_on D q.
Proof.
  unfold get_accessible_states.
  destruct (bfs_spec (bfs_bound D) [start_state D] [start_state D])
    as (acc & E & Hinv).
  - constructor.
    + now left.
    + repeat constructor. easy.
    + apply incl_refl.
    + intros q [<-|[]]. constructor.
    + intros q [<-|[]]. apply nodup_In. now left.
    + intros q Hq. now left.
  - pose proof universe_bound. lia.
  - exists acc. split; [assumption|]. split; [apply (inv_nodup D _ _ Hinv)|].
    intros q. split; [apply (inv_sound D _ _ Hinv)|].
    induction 1 as [|q a q' _ IHq Ha Ea].
    + apply (inv_start D _ _ Hinv).
    + destruct (inv_closed D _ _ Hinv q IHq) as [[]|Hcl]. eauto.
Qed.

End Traversal.

(** Where every transition is on a symbol of the alphabet, the traversal
    misses no defined transition. *)
Lemma reachable_on_iff D q :
  symbols_ok D -> (reachable_on D q <-> reachable D q).
Proof.
  intros Hsym. split.
  - induction 1; [constructor | econstructor; eauto].
  - induction 1 as [|q a q' _ IHq Ea]; [constructor|].
    apply (reachable_on_step D q a q'); auto.
    apply lookup_In in Ea. eauto.
Qed.

(** Copying the entries that pass a test into a new dict keeps them as
    they are, in their order. *)
Lemma filter_into_dict {K V} `{EqbSpec K} (keep : K * V -> bool) l :
  forall d0,
    NoDup (map fst d0 ++ map fst l) ->
    fold_left (fun d e => if keep e then dict_set (fst e) (snd e) d else d)
              l d0
    = d0 ++ filter keep l.
Proof.
  induction l as [|[k v] l IH]; simpl; intros d0 Hnd.
  - now rewrite app_nil_r.
  - destruct (keep (k, v)); simpl.
    + rewrite dict_set_absent.
      * rewrite IH; [now rewrite <- app_assoc|].
        now rewrite map_app, <- app_assoc.
      * apply NoDup_remove_2 in Hnd. intros Hin. apply Hnd.
        apply in_or_app. now left.
    + apply IH. now apply NoDup_remove_1 in Hnd.
Qed.

Lemma fold_left_eq {A B} (f g : A -> B -> A) l :
  (forall a b, In b l -> f a b = g a b) ->
  forall a, fold_left f l a = fold_left g l a.
Proof.
  induction l as [|b l IH]; simpl; intros Hfg a; [reflexivity|].
  rewrite Hfg by now left. apply IH. intros; apply Hfg. now right.
Qed.

Section Pruning.
Variable D : DFA.
Hypothesis Hdict : dict_ok (transitions D).

(** [remove_inaccessible_states] returns, and returns the automaton cut down
    to the states reachable over the alphabet. *)
Lemma remove_inaccessible_states_on :
  exists R,
    remove_inaccessible_states D = Some R /\
    NoDup (states R) /\
    (forall q, In q (states R) <-> reachable_on D q) /\
    transitions R
    = filter (fun e => mem (fst (fst e)) (states R) && mem (snd e) (states R))
             (transitions D) /\
    final_states R = filter (fun q => mem q (states R)) (final_states D) /\
    start_state R = start_state D /\
    alphabet R = alphabet D.
Proof.
  unfold remove_inaccessible_states.
  destruct (get_accessible_states_spec D) as (acc & -> & Hnd & Hacc). simpl.
  eexists. split; [reflexivity|]. simpl.
  split; [assumption|]. split; [assumption|].
  split; [|repeat split].
  change (filter (fun e => mem (fst (fst e)) acc && mem (snd e) acc)
                 (transitions D))
    with ([] ++ filter (fun e => mem (fst (fst e)) acc && mem (snd e) acc)
                       (transitions D)).
  rewrite <- filter_into_dict by exact Hdict.
  apply fold_left_eq. now intros d [[state symbol] next_state] _.
Qed.

(** The run of an input over the alphabet stays among the reachable states,
    where the pruned automaton has the transitions of the original. *)
Lemma pruned_lookup R q a :
  remove_inaccessible_states D = Some R ->
  reachable_on D q -> In a (alphabet D) ->
  lookup (q, a) (transitions R) = lookup (q, a) (transitions D).
Proof.
  intros ER Hq Ha.
  destruct remove_inaccessible_states_on
    as (R' & ER' & Hnd & Hst & Htr & Hfin & Hstart & Halpha).
  rewrite ER in ER'. injection ER' as <-.
  destruct (lookup (q, a) (transitions D)) as [q'|] eqn:E.
  - apply In_lookup.
    + rewrite Htr. now apply NoDup_keys_filter.
    + rewrite Htr. apply filter_In. split; [now apply lookup_In|]. simpl.
      apply andb_true_iff. split; apply mem_In, Hst; auto.
      now apply (reachable_on_step D q a q').
  - apply lookup_None. apply lookup_None in E. intros Hin. apply E.
    rewrite Htr in Hin. apply in_map_iff in Hin as (e & Ee & Hin).
    apply filter_In in Hin as [Hin _]. rewrite <- Ee.
    now apply in_map.
Qed.

End Pruning.

Lemma symbols_okb_ok D : symbols_okb D = true -> symbols_ok D.
Proof.
  unfold symbols_okb. rewrite forallb_forall. intros H q a q' Hin.
  apply mem_In. exact (H _ Hin).
Qed.

(** C6.  [remove_inaccessible_states] returns an automaton whose states are
    exactly the states reachable from the start state via defined
    transitions, as the breadth-first traversal finds them: along the
    symbols of the alphabet.  Its transitions are the original ones between
    reachable states, its final states are the reachable original final
    states, and its start state and alphabet are the original ones.  Where
    every transition is on a symbol of the alphabet, the states that the
    traversal reaches are all the states that defined transitions reach. *)
Theorem remove_inaccessible_states_spec D :
  dict_ok (transitions D) ->
  exists R,
    remove_inaccessible_states D = Some R /\
    (forall q, In q (states R) <-> reachable_on D q) /\
    (forall q a q',
       In ((q, a), q') (transitions R) <->
       In ((q, a), q') (transitions D) /\
       reachable_on D q /\ reachable_on D q') /\
    (forall q,
       In q (final_states R) <->
       In q (final_states D) /\ reachable_on D q) /\
    start_state R = start_state D /\
    alphabet R = alphabet D /\
    (symbols_ok D -> forall q, reachable_on D q <-> reachable D q).
Proof.
  intros Hdict.
  destruct (remove_inaccessible_states_on D Hdict)
    as (R & ER & Hnd & Hst & Htr & Hf & Hstart & Halpha).
  exists R. split; [assumption|]. split; [assumption|].
  split; [|split; [|split; [assumption|split; [assumption|]]]].
  - intros q a q'. rewrite Htr, filter_In. simpl.
    rewrite andb_true_iff, !mem_In, !Hst. tauto.
  - intros q. rewrite Hf, filter_In, mem_In, Hst. tauto.
  - intros Hsym q. now apply reachable_on_iff.
Qed.

(** The automaton of the second test, with its two unreachable states, is
    one instance; its transitions are on symbols of its alphabet. *)
Lemma remove_inaccessible_states_spec_witness :
  dict_ok (transitions with_inaccessible) /\
  symbols_ok with_inaccessible /\
  exists R,
    remove_inaccessible_states with_inaccessible = Some R /\
    (forall q, In q (states R) <-> reachable_on with_inaccessible q) /\
    (forall q a q',
       In ((q, a), q') (transitions R) <->
       In ((q, a), q') (transitions with_inaccessible) /\
       reachable_on with_inaccessible q /\
       reachable_on with_inaccessible q') /\
    (forall q,
       In q (final_states R) <->
       In q (final_states with_inaccessible) /\
       reachable_on with_inaccessible q) /\
    start_state R = start_state with_inaccessible /\
    alphabet R = alphabet with_inaccessible /\
    (symbols_ok with_inaccessible ->
     forall q, reachable_on with_inaccessible q
               <-> reachable with_inaccessible q).
Proof.
  assert (H1 : dict_ok (transitions with_inaccessible))
    by (apply distinct_NoDup; reflexivity).
  assert (H2 : symbols_ok with_inaccessible)
    by (apply symbols_okb_ok; reflexivity).
  split; [exact H1|]. split; [exact H2|].
  exact (remove_inaccessible_states_spec _ H1).
Defined.

End DfaAccessible.

(** ** Partition refinement *)

Module DfaRefine.
Import DfaMinimizer DfaSpec.

(** Partitions as duplicate-free concatenations. *)
Lemma NoDup_concat_iff (P : partition_t) :
  NoDup (concat P) <-> (forall g, In g P -> NoDup g) /\ pairwise_disjoint P.
Proof.
  induction P as [|g P IH]; simpl.
  - split; [intros _ | constructor]. split; [easy|].
    intros [|i] j ? ? E; discriminate.
  - split.
    + intros Hnd.
      pose proof (NoDup_app_remove_l _ _ Hnd) as HP.
      pose proof (NoDup_app_remove_r _ _ Hnd) as Hg.
      apply IH in HP as [HP1 HP2].
      assert (Hdis : forall q h, In q g -> In h P -> ~ In q h).
      { intros q h Hq Hh Hqh. clear - Hnd Hq Hh Hqh.
        induction g as [|x g IHg]; [easy|]. simpl in Hnd.
        inversion Hnd as [|? ? Hx Hnd']; subst. destruct Hq as [->|Hq]; auto.
        apply Hx, in_or_app. right. apply in_concat. eauto. }
      split.
      * intros h [<-|Hh]; auto.
      * intros [|i] [|j] g1 g2 E1 E2 Hij q Hq1 Hq2; simpl in *.
        -- congruence.
        -- injection E1 as <-. apply nth_error_In in E2. now apply (Hdis q g2).
        -- injection E2 as <-. apply nth_error_In in E1. now apply (Hdis q g1).
        -- apply (HP2 i j g1 g2 E1 E2) with (q := q); auto.
    + intros [H1 H2]. apply NoDup_app.
      * apply H1. now left.
      * apply IH. split; [intros h Hh; apply H1; now right|].
        intros i j g1 g2 E1 E2 Hij. apply (H2 (S i) (S j)); auto.
      * intros q Hq Hc. apply in_concat in Hc as (h & Hh & Hqh).
        apply In_nth_error in Hh as (j & Ej).
        now apply (H2 0 (S j) g h eq_refl Ej) with (q := q).
Qed.

Lemma is_partition_iff (P : partition_t) :
  is_partition P <-> NoDup (concat P) /\ (forall g, In g P -> g <> []).
Proof.
  unfold is_partition. rewrite NoDup_concat_iff. split.
  - intros [H1 H2]. repeat split; auto; intros g Hg; now apply H1.
  - intros [[H1 H2] H3]. split; auto.
Qed.

(** *** Splitting one group *)

Section Split.
Variables (dfa : DFA) (partition : partition_t).

Local Abbreviation sigf := (signature dfa partition).
Local Abbreviation step := (add_to_subgroup dfa partition).

Lemma sub_inv_step seen subgroups q :
  sub_inv dfa partition seen subgroups -> ~ In q seen ->
  sub_inv dfa partition (seen ++ [q]) (step subgroups q).
Proof.
  intros [Hkeys Hent Hcov Hperm] Hq. unfold add_to_subgroup.
  destruct (lookup (sigf q) subgroups) as [g|] eqn:El.
  - pose proof (lookup_In _ _ _ El) as Hin.
    destruct (Hent _ _ Hin) as [Hne Hg].
    assert (Hqg : ~ In q g) by (intros Hc; apply Hg in Hc; tauto).
    rewrite (set_add_absent _ _ Hqg).
    destruct (dict_set_present (sigf q) (g ++ [q]) subgroups)
      as (d1 & g0 & d2 & E1 & E2 & N1 & N2);
      [now apply (lookup_Some_key _ g) | assumption |].
    assert (g0 = g) as ->.
    { rewrite E1, (lookup_app_absent _ _ _ N1) in El. simpl in El.
      rewrite eqb_refl in El. congruence. }
    rewrite E2. subst subgroups. constructor.
    + rewrite map_app in *. exact Hkeys.
    + intros s g' Hin'. apply in_app_or in Hin' as [Hin'|[[= <- <-]|Hin']].
      * destruct (Hent s g') as [Hne' Hg']; [apply in_or_app; now left|].
        split; [assumption|]. intros p. rewrite Hg', in_app_iff. simpl.
        split; [tauto|]. intros [[Hp|[Ep|[]]] Es]; try subst p; [tauto|].
        exfalso. apply N1. rewrite Es.
        now apply (in_map fst) in Hin'.
      * split; [now destruct g|]. intros p. rewrite !in_app_iff, Hg. simpl.
        split; [intros [?|[Ep|[]]]; try subst p; tauto|].
        intros [[Hp|[Ep|[]]] Es]; try subst p; tauto.
      * destruct (Hent s g') as [Hne' Hg'];
          [apply in_or_app; right; now right|].
        split; [assumption|]. intros p. rewrite Hg', in_app_iff. simpl.
        split; [tauto|]. intros [[Hp|[Ep|[]]] Es]; try subst p; [tauto|].
        exfalso. apply N2. rewrite Es.
        now apply (in_map fst) in Hin'.
    + intros p Hp. rewrite map_app in *. simpl in *.
      apply in_app_or in Hp as [Hp|[Ep|[]]]; try subst p; [auto|].
      apply in_or_app. right. now left.
    + rewrite map_app, concat_app in *. simpl in *.
      rewrite <- Hperm, <- !app_assoc. apply Permutation_app_head.
      apply Permutation_app_head. apply Permutation_app_comm.
  - assert (Hn : ~ In (sigf q) (map fst subgroups)) by now apply lookup_None.
    rewrite (dict_set_absent _ _ _ Hn). simpl. constructor.
    + rewrite map_app. simpl. now apply NoDup_snoc.
    + intros s g' Hin'. apply in_app_or in Hin' as [Hin'|[[= <- <-]|[]]].
      * destruct (Hent _ _ Hin') as [Hne' Hg'].
        split; [assumption|]. intros p. rewrite Hg', in_app_iff. simpl.
        split; [tauto|]. intros [[Hp|[Ep|[]]] Es]; try subst p; [tauto|].
        exfalso. apply Hn. rewrite Es.
        now apply (in_map fst) in Hin'.
      * split; [discriminate|]. intros p. rewrite in_app_iff. simpl.
        split; [intros [Ep|[]]; try subst p; tauto|].
        intros [[Hp|[Ep|[]]] Es]; try subst p; [|tauto].
        exfalso. apply Hn. rewrite <- Es. auto.
    + intros p Hp. rewrite map_app. simpl.
      apply in_app_or in Hp as [Hp|[Ep|[]]]; try subst p; apply in_or_app; auto.
      right. now left.
    + rewrite map_app, concat_app. simpl.
      now apply Permutation_app_tail.
Qed.

Lemma sub_inv_fold l :
  forall seen subgroups,
    sub_inv dfa partition seen subgroups -> NoDup (seen ++ l) ->
    sub_inv dfa partition (seen ++ l) (fold_left step l subgroups).
Proof.
  induction l as [|q l IH]; simpl; intros seen sub Hinv Hnd.
  - now rewrite app_nil_r.
  - replace (seen ++ q :: l) with ((seen ++ [q]) ++ l) in *
      by now rewrite <- app_assoc.
    apply IH; [|assumption]. apply sub_inv_step; [assumption|].
    intros Hq. apply NoDup_app_remove_r in Hnd.
    apply NoDup_remove_2 in Hnd. apply Hnd. now rewrite app_nil_r.
Qed.

Lemma split_group_inv group :
  NoDup group ->
  sub_inv dfa partition group (fold_left step group []).
Proof.
  intros Hnd. apply (sub_inv_fold group [] []); [|assumption].
  constructor; simpl; try constructor; easy.
Qed.

(** The subgroups of a group: nonempty, within the group, a rearrangement
    of it, and each the states of one signature. *)
Lemma split_group_spec group :
  NoDup group ->
  Permutation (concat (split_group dfa partition group)) group /\
  (forall h, In h (split_group dfa partition group) ->
     h <> [] /\ incl h group /\
     (forall p q, In p h -> In q h -> sigf p = sigf q) /\
     (forall p q, In p h -> In q group -> sigf p = sigf q -> In q h)).
Proof.
  intros Hnd. unfold split_group.
  destruct (split_group_inv group Hnd) as [Hkeys Hent Hcov Hperm].
  split; [assumption|].
  intros h Hh. apply in_map_iff in Hh as ([s g] & <- & Hin). simpl.
  destruct (Hent _ _ Hin) as [Hne Hg].
  split; [assumption|]. split; [|split].
  - intros q Hq. now apply Hg in Hq.
  - intros p q Hp Hq. apply Hg in Hp, Hq. destruct Hp, Hq. congruence.
  - intros p q Hp Hq E. apply Hg in Hp. apply Hg. destruct Hp.
    split; congruence.
Qed.

Lemma split_group_nonempty group :
  NoDup group -> group <> [] -> 1 <= length (split_group dfa partition group).
Proof.
  intros Hnd Hne. destruct (split_group_spec group Hnd) as [Hperm _].
  destruct (split_group dfa partition group); simpl in *; [|lia].
  apply Permutation_nil in Hperm. congruence.
Qed.

(** A group that is not split comes back as it was. *)
Lemma split_group_single group :
  NoDup group -> length (split_group dfa partition group) = 1 ->
  (forall p q, In p group -> In q group -> sigf p = sigf q) /\
  exists h, split_group dfa partition group = [h] /\ set_eqb h group = true.
Proof.
  intros Hnd Hlen. destruct (split_group_spec group Hnd) as [Hperm Hsub].
  destruct (split_group dfa partition group) as [|h [|]];
    try discriminate. simpl in Hperm. rewrite app_nil_r in Hperm.
  destruct (Hsub h (or_introl eq_refl)) as (_ & _ & Hsame & _).
  split.
  - intros p q Hp Hq.
    apply Hsame; apply (Permutation_in _ (Permutation_sym Hperm)); assumption.
  - exists h. split; [reflexivity|]. apply set_eqb_iff. intros x.
    split; apply Permutation_in; [|apply Permutation_sym]; assumption.
Qed.

End Split.

(** *** One pass over the partition *)

Lemma partition_eqb_length P1 :
  forall P2, partition_eqb P1 P2 = true -> length P1 = length P2.
Proof.
  induction P1 as [|g1 P1 IH]; intros [|g2 P2]; simpl; try discriminate; auto.
  intros E. apply andb_true_iff in E as [_ E]. f_equal. auto.
Qed.

Section Pass.
Variable dfa : DFA.

Lemma flat_map_perm {A} (f : list A -> list (list A)) P :
  (forall g, In g P -> Permutation (concat (f g)) g) ->
  Permutation (concat (flat_map f P)) (concat P).
Proof.
  induction P as [|g P IH]; simpl; intros Hf; [constructor|].
  rewrite concat_app. apply Permutation_app; auto.
Qed.

Lemma flat_map_length_ge {A B} (f : A -> list B) P :
  (forall g, In g P -> 1 <= length (f g)) ->
  length P <= length (flat_map f P).
Proof.
  induction P as [|g P IH]; simpl; intros Hf; [lia|].
  rewrite length_app. specialize (Hf g (or_introl eq_refl)) as Hg.
  specialize (IH (fun h Hh => Hf h (or_intror Hh))). lia.
Qed.

Lemma flat_map_length_same {A B} (f : A -> list B) P :
  (forall g, In g P -> 1 <= length (f g)) ->
  length (flat_map f P) = length P ->
  forall g, In g P -> length (f g) = 1.
Proof.
  induction P as [|g P IH]; simpl; intros Hf Hlen h Hh; [easy|].
  rewrite length_app in Hlen.
  pose proof (Hf g (or_introl eq_refl)) as Hg.
  pose proof (flat_map_length_ge f P (fun h Hh => Hf h (or_intror Hh))).
  destruct Hh as [<-|Hh]; [lia|].
  apply IH; auto. lia.
Qed.

Lemma flat_map_unsplit (f : list string -> partition_t) P :
  (forall g, In g P -> exists h, f g = [h] /\ set_eqb h g = true) ->
  partition_eqb (flat_map f P) P = true.
Proof.
  induction P as [|g P IH]; simpl; intros Hf; [reflexivity|].
  destruct (Hf g (or_introl eq_refl)) as (h & -> & E). simpl.
  rewrite E. simpl. auto.
Qed.

Lemma refine_partition_spec P :
  is_partition P ->
  is_partition (refine_partition dfa P) /\
  Permutation (concat (refine_partition dfa P)) (concat P) /\
  refines (refine_partition dfa P) P /\
  length P <= length (refine_partition dfa P).
Proof.
  intros HP. pose proof HP as [Hgroups Hdis].
  assert (Hperm : Permutation (concat (refine_partition dfa P)) (concat P)).
  { apply flat_map_perm. intros g Hg. apply split_group_spec.
    now apply Hgroups. }
  split; [|split; [assumption|split]].
  - apply is_partition_iff. split.
    + apply (Permutation_NoDup (Permutation_sym Hperm)).
      now apply is_partition_iff.
    + intros h Hh. apply in_flat_map in Hh as (g & Hg & Hh).
      now apply (split_group_spec dfa P g (proj2 (Hgroups g Hg)) ).
  - intros h Hh. apply in_flat_map in Hh as (g & Hg & Hh).
    exists g. split; [assumption|].
    now apply (split_group_spec dfa P g (proj2 (Hgroups g Hg))).
  - apply flat_map_length_ge. intros g Hg.
    apply split_group_nonempty; now apply Hgroups.
Qed.

(** A pass that leaves the partition as it was found every group with one
    signature. *)
Lemma refine_partition_fixed P :
  is_partition P ->
  partition_eqb (refine_partition dfa P) P = true -> stable dfa P.
Proof.
  intros [Hgroups Hdis] E g p q Hg Hp Hq.
  apply partition_eqb_length in E.
  apply (split_group_single dfa P g); auto; [now apply Hgroups|].
  apply (flat_map_length_same (split_group dfa P) P); auto.
  intros h Hh. apply split_group_nonempty; now apply Hgroups.
Qed.

(** A pass that changes the partition adds a group. *)
Lemma refine_partition_grows P :
  is_partition P ->
  partition_eqb (refine_partition dfa P) P = false ->
  length P < length (refine_partition dfa P).
Proof.
  intros HP E.
  destruct (refine_partition_spec P HP) as (_ & _ & _ & Hle).
  destruct (Nat.eq_dec (length (refine_partition dfa P)) (length P)) as [El|];
    [|lia].
  exfalso. unfold refine_partition in *.
  rewrite flat_map_unsplit in E; [discriminate|].
  destruct HP as [Hgroups Hdis]. intros g Hg.
  apply split_group_single; [now apply Hgroups|].
  apply (flat_map_length_same (split_group dfa P) P); auto.
  intros h Hh. apply split_group_nonempty; now apply Hgroups.
Qed.

Lemma partition_length_le P :
  (forall g : list string, In g P -> g <> []) -> length P <= length (concat P).
Proof.
  induction P as [|g P IH]; simpl; intros Hne; [lia|].
  rewrite length_app. specialize (Hne g (or_introl eq_refl)) as Hg.
  specialize (IH (fun h Hh => Hne h (or_intror Hh))).
  destruct g; [congruence | simpl; lia].
Qed.

Lemma refines_refl P : refines P P.
Proof. intros h Hh. exists h. split; [assumption | apply incl_refl]. Qed.

Lemma refines_trans P1 P2 P3 : refines P1 P2 -> refines P2 P3 -> refines P1 P3.
Proof.
  intros H12 H23 h Hh. destruct (H12 h Hh) as (g & Hg & Hhg).
  destruct (H23 g Hg) as (k & Hk & Hgk). exists k. split; [assumption|].
  eapply incl_tran; eauto.
Qed.

(** The loop ends within its bound, on a partition that one more pass
    leaves as it is. *)
Lemma refine_loop_spec fuel :
  forall P,
    is_partition P ->
    length (concat P) < fuel + length P ->
    exists P',
      refine_loop fuel dfa P = Some P' /\
      is_partition P' /\ Permutation (concat P') (concat P) /\
      refines P' P /\ stable dfa P'.
Proof.
  induction fuel as [|fuel IH]; intros P HP Hfuel.
  - exfalso. pose proof (partition_length_le P). destruct HP as [Hg _].
    assert (length P <= length (concat P))
      by (apply partition_length_le; intros g Hin; now apply Hg).
    simpl in Hfuel. lia.
  - simpl. destruct (partition_eqb (refine_partition dfa P) P) eqn:E.
    + exists P. split; [reflexivity|]. split; [assumption|].
      split; [apply Permutation_refl|]. split; [apply refines_refl|].
      now apply refine_partition_fixed.
    + destruct (refine_partition_spec P HP) as (HP' & Hperm & Href & _).
      pose proof (refine_partition_grows P HP E) as Hgrow.
      destruct (IH (refine_partition dfa P) HP') as (P' & E' & ? & ? & ? & ?).
      * rewrite (Permutation_length Hperm). lia.
      * exists P'. split; [assumption|]. split; [assumption|].
        split; [eapply Permutation_trans; eauto|].
        split; [eapply refines_trans; eauto | assumption].
Qed.

End Pass.
End DfaRefine.

(** ** The quotient automaton *)

Module DfaQuotient.
Import DfaMinimizer DfaSpec DfaAccessible DfaRefine.

(** *** Group indices *)

Lemma find_group_Some P q :
  forall i j, find_group i P q = Some j ->
    i <= j /\ exists g, nth_error P (j - i) = Some g /\ In q g.
Proof.
  induction P as [|g P IH]; simpl; intros i j E; [discriminate|].
  destruct (mem_reflect q g) as [Hq|Hq].
  - injection E as <-. split; [lia|]. rewrite Nat.sub_diag. now exists g.
  - destruct (IH _ _ E) as (Hle & h & Eh & Hh). split; [lia|].
    exists h. split; [|assumption].
    replace (j - i) with (S (j - S i)) by lia. exact Eh.
Qed.

Lemma find_group_None P q :
  forall i, find_group i P q = None <-> ~ In q (concat P).
Proof.
  induction P as [|g P IH]; simpl; intros i; [tauto|].
  destruct (mem_reflect q g) as [Hq|Hq].
  - split; [discriminate|]. intros Hn. exfalso. apply Hn, in_or_app. now left.
  - rewrite IH, in_app_iff. tauto.
Qed.

Lemma find_group_In P q :
  In q (concat P) -> exists j, find_group 0 P q = Some j.
Proof.
  intros Hq. destruct (find_group 0 P q) as [j|] eqn:E; [now exists j|].
  now apply find_group_None in E.
Qed.

Lemma find_group_shift P q :
  forall i j, find_group i P q = Some j ->
              find_group (S i) P q = Some (S j).
Proof.
  induction P as [|g P IH]; simpl; intros i j E; [discriminate|].
  destruct (mem q g); [congruence | auto].
Qed.

(** In a partition a state has the index of the group it is in. *)
Lemma find_group_nth P q :
  NoDup (concat P) ->
  forall j g, nth_error P j = Some g -> In q g -> find_group 0 P q = Some j.
Proof.
  induction P as [|g0 P IH]; simpl; intros Hnd j g Ej Hq.
  - now destruct j.
  - destruct j as [|j]; simpl in Ej.
    + injection Ej as ->. now apply mem_In in Hq as ->.
    + destruct (mem_reflect q g0) as [Hq0|Hq0].
      * exfalso. apply (NoDup_concat_iff (g0 :: P)) in Hnd as [_ Hdis].
        now apply (Hdis 0 (S j) g0 g eq_refl Ej) with (q := q).
      * apply find_group_shift. apply (IH (NoDup_app_remove_l _ _ Hnd) j g);
          assumption.
Qed.

Lemma same_group P p q i :
  find_group 0 P p = Some i -> find_group 0 P q = Some i ->
  exists g, In g P /\ In p g /\ In q g.
Proof.
  intros Ep Eq. apply find_group_Some in Ep as (_ & g & Eg & Hp).
  apply find_group_Some in Eq as (_ & g' & Eg' & Hq).
  rewrite Eg in Eg'. injection Eg' as <-.
  exists g. split; [now apply nth_error_In in Eg | auto].
Qed.

(** *** Representatives *)

Lemma representative_inj i j : representative i = representative j -> i = j.
Proof. unfold representative. intros [= E]. now apply str_of_nat_inj. Qed.

Lemma lookup_fill_group q r group :
  forall sm : list (string * string),
    lookup q (fold_left (fun sm state => dict_set state r sm) group sm)
    = if mem q group then Some r else lookup q sm.
Proof.
  induction group as [|s group IH]; simpl; intros sm; [reflexivity|].
  rewrite IH, lookup_dict_set. unfold mem. simpl.
  destruct (existsb (eqb q) group); [now rewrite orb_true_r|].
  rewrite orb_false_r. reflexivity.
Qed.

Lemma lookup_state_map_from P q :
  NoDup (concat P) ->
  forall i sm,
    lookup q
      (fold_left
         (fun state_map '(i, group) =>
            fold_left
              (fun state_map state =>
                 dict_set state (representative i) state_map)
              group state_map)
         (enumerate_from i P) sm)
    = match find_group i P q with
      | Some j => Some (representative j)
      | None => lookup q sm
      end.
Proof.
  induction P as [|g P IH]; simpl; intros Hnd i sm; [reflexivity|].
  rewrite (IH (NoDup_app_remove_l _ _ Hnd)), lookup_fill_group.
  destruct (mem_reflect q g) as [Hq|Hq]; [|reflexivity].
  replace (find_group (S i) P q) with (@None nat); [reflexivity|].
  symmetry. apply find_group_None. intros Hc.
  clear - Hnd Hq Hc. induction g as [|x g IHg]; [easy|].
  simpl in Hnd. inversion Hnd as [|? ? Hx Hnd']; subst.
  destruct Hq as [->|Hq]; auto. apply Hx, in_or_app. now right.
Qed.

Lemma lookup_state_map P q :
  NoDup (concat P) ->
  lookup q (build_state_map P)
  = option_map representative (find_group 0 P q).
Proof.
  intros Hnd. unfold build_state_map, enumerate.
  rewrite lookup_state_map_from by assumption.
  now destruct (find_group 0 P q).
Qed.

Lemma rep_of_spec P q :
  NoDup (concat P) -> In q (concat P) ->
  exists i, find_group 0 P q = Some i /\
            lookup q (build_state_map P) = Some (representative i) /\
            rep_of P q = representative i.
Proof.
  intros Hnd Hq. destruct (find_group_In P q Hq) as (i & Ei).
  exists i. unfold rep_of. rewrite lookup_state_map, Ei by assumption.
  auto.
Qed.

(** States with one representative are in one group. *)
Lemma rep_of_same P p q :
  NoDup (concat P) -> In p (concat P) -> In q (concat P) ->
  rep_of P p = rep_of P q ->
  exists g, In g P /\ In p g /\ In q g.
Proof.
  intros Hnd Hp Hq E.
  destruct (rep_of_spec P p Hnd Hp) as (i & Ei & _ & Ri).
  destruct (rep_of_spec P q Hnd Hq) as (j & Ej & _ & Rj).
  rewrite Ri, Rj in E. apply representative_inj in E as ->.
  now apply (same_group P p q j).
Qed.

Lemma rep_of_group P g p q :
  NoDup (concat P) -> In g P -> In p g -> In q g -> rep_of P p = rep_of P q.
Proof.
  intros Hnd Hg Hp Hq. apply In_nth_error in Hg as (j & Ej).
  unfold rep_of. rewrite !lookup_state_map by assumption.
  now rewrite (find_group_nth P p Hnd j g), (find_group_nth P q Hnd j g).
Qed.

(** *** Signatures *)

Lemma signature_map dfa P q :
  (forall a q', lookup (q, a) (transitions dfa) = Some q' ->
                In q' (concat P)) ->
  signature dfa P q = map (fun a => (a, code dfa P q a)) (alphabet dfa).
Proof.
  intros Hcl. unfold signature. induction (alphabet dfa) as [|a l IH]; simpl;
    [reflexivity|].
  rewrite IH. unfold signature_entry, code.
  destruct (lookup (q, a) (transitions dfa)) as [q'|] eqn:E; [|reflexivity].
  destruct (find_group_In P q' (Hcl a q' E)) as (i & ->). reflexivity.
Qed.

Lemma map_pair_eq {A B} (f g : A -> B) l :
  map (fun a => (a, f a)) l = map (fun a => (a, g a)) l <->
  forall a, In a l -> f a = g a.
Proof.
  induction l as [|a l IH]; simpl; [intuition|].
  split.
  - intros [= E1 E2] b [<-|Hb]; [assumption | now apply IH].
  - intros Hfg. f_equal; [f_equal; auto | apply IH; auto].
Qed.

(** *** The automaton built from a stable partition *)

Section Quotient.
Variables (dfa : DFA) (P : partition_t).
Hypothesis Hpruned : pruned dfa.
Hypothesis HP : is_partition P.
Hypothesis Hunion : forall q, In q (concat P) <-> In q (states dfa).

Lemma partition_nodup : NoDup (concat P).
Proof. now apply is_partition_iff. Qed.

Lemma lookup_state (q a q' : string) :
  lookup (q, a) (transitions dfa) = Some q' ->
  In q (concat P) /\ In q' (concat P).
Proof.
  intros E. apply lookup_In in E. apply (pruned_closed _ Hpruned) in E.
  now rewrite !Hunion.
Qed.

Lemma state_map_total q :
  In q (states dfa) ->
  lookup q (build_state_map P) = Some (rep_of P q).
Proof.
  intros Hq. apply Hunion in Hq.
  destruct (rep_of_spec P q partition_nodup Hq) as (i & _ & -> & ->).
  reflexivity.
Qed.

(** No lookup in [state_map] fails. *)
Lemma create_minimized_dfa_total :
  create_minimized_dfa dfa P = Some (quotient dfa P).
Proof.
  unfold create_minimized_dfa, quotient.
  rewrite (omap_total _ (rep_of P)) by (intros; now apply state_map_total).
  simpl.
  rewrite (ofold_total _
             (fun d e => dict_set (rep_of P (fst (fst e)), snd (fst e))
                                  (rep_of P (snd e)) d)).
  2:{ intros d [[q a] q'] Hin. simpl.
      destruct (pruned_closed _ Hpruned _ _ _ Hin) as [Hq Hq'].
      now rewrite !state_map_total. }
  simpl. rewrite state_map_total by apply (pruned_start _ Hpruned). simpl.
  rewrite (omap_total _ (rep_of P)).
  2:{ intros q Hq. apply state_map_total.
      now apply (pruned_final_incl _ Hpruned). }
  reflexivity.
Qed.

(** The states of a group agree, symbol by symbol. *)
Lemma stable_code g p q a :
  stable dfa P -> In g P -> In p g -> In q g -> In a (alphabet dfa) ->
  code dfa P p a = code dfa P q a.
Proof.
  intros Hst Hg Hp Hq Ha. specialize (Hst g p q Hg Hp Hq).
  rewrite !signature_map in Hst
    by (intros b q' E; now apply lookup_state in E).
  now apply (proj1 (map_pair_eq _ _ _) Hst).
Qed.

Lemma code_defined q a q' :
  lookup (q, a) (transitions dfa) = Some q' ->
  exists i, find_group 0 P q' = Some i /\ code dfa P q a = Z.of_nat i.
Proof.
  intros E. unfold code. rewrite E.
  destruct (find_group_In P q') as (i & ->); [now apply lookup_state in E|].
  now exists i.
Qed.

Hypothesis Hstable : stable dfa P.

(** The quotient steps as the automaton does. *)
Lemma quotient_step q a :
  In q (states dfa) -> In a (alphabet dfa) ->
  lookup (rep_of P q, a) (transitions (quotient dfa P))
  = option_map (rep_of P) (lookup (q, a) (transitions dfa)).
Proof.
  intros Hq Ha. unfold quotient. simpl.
  assert (Hsame : forall s t,
            In ((s, a), t) (transitions dfa) -> rep_of P s = rep_of P q ->
            code dfa P s a = code dfa P q a /\
            lookup (s, a) (transitions dfa) = Some t).
  { intros s t Hin Hrep.
    destruct (pruned_closed _ Hpruned _ _ _ Hin) as [Hs Ht].
    destruct (rep_of_same P s q partition_nodup) as (g & Hg & Hsg & Hqg); auto;
      try now apply Hunion.
    split; [now apply (stable_code g) |].
    apply In_lookup; [apply (pruned_dict _ Hpruned) | assumption]. }
  destruct (lookup (q, a) (transitions dfa)) as [q'|] eqn:E; simpl.
  - apply (lookup_collect_agree
             (fun e => (rep_of P (fst (fst e)), snd (fst e)))
             (fun e => rep_of P (snd e))).
    + left. exists ((q, a), q'). split; [now apply lookup_In | reflexivity].
    + intros [[s b] t] Hin [= Hrep ->]. simpl.
      destruct (Hsame s t Hin Hrep) as [Hcode Es].
      destruct (code_defined _ _ _ Es) as (i & Ei & Ci).
      destruct (code_defined _ _ _ E) as (j & Ej & Cj).
      assert (i = j) as -> by lia.
      unfold rep_of. rewrite !lookup_state_map by apply partition_nodup.
      now rewrite Ei, Ej.
  - rewrite (lookup_collect_none
               (fun e => (rep_of P (fst (fst e)), snd (fst e)))
               (fun e => rep_of P (snd e))); [reflexivity|].
    intros [[s b] t] Hin [= Hrep ->].
    destruct (Hsame s t Hin Hrep) as [Hcode Es].
    destruct (code_defined _ _ _ Es) as (i & Ei & Ci).
    unfold code in Hcode at 2. rewrite E in Hcode. lia.
Qed.

Hypothesis Hfinal : respects_final dfa P.

(** The quotient accepts in a state what the automaton accepts in the
    states it stands for. *)
Lemma quotient_final q :
  In q (states dfa) ->
  mem (rep_of P q) (final_states (quotient dfa P))
  = mem q (final_states dfa).
Proof.
  intros Hq. unfold quotient. simpl.
  destruct (mem_reflect q (final_states dfa)) as [Hf|Hf].
  - apply mem_In, to_set_In, in_map. assumption.
  - apply mem_not_In. intros Hc. rewrite to_set_In in Hc.
    apply in_map_iff in Hc as (f & Ef & Hfin). apply Hf.
    destruct (rep_of_same P f q partition_nodup) as (g & Hg & Hfg & Hqg); auto.
    + apply Hunion. now apply (pruned_final_incl _ Hpruned).
    + now apply Hunion.
    + now apply (Hfinal g f q).
Qed.

Lemma quotient_behaviour_from w :
  forall q, In q (states dfa) -> word_over dfa w ->
    behaviour_from (quotient dfa P) (rep_of P q) w = behaviour_from dfa q w.
Proof.
  induction w as [|a w IH]; simpl; intros q Hq Hw.
  - now rewrite quotient_final.
  - inversion Hw as [|? ? Ha Hw']; subst.
    rewrite quotient_step by assumption.
    destruct (lookup (q, a) (transitions dfa)) as [q'|] eqn:E;
      simpl; [|reflexivity].
    apply IH; [|assumption].
    apply lookup_In in E. now apply (pruned_closed _ Hpruned) in E.
Qed.

Lemma quotient_run w :
  forall q, In q (states dfa) -> word_over dfa w ->
    run (quotient dfa P) (rep_of P q) w
    = option_map (rep_of P) (run dfa q w).
Proof.
  induction w as [|a w IH]; simpl; intros q Hq Hw; [reflexivity|].
  inversion Hw as [|? ? Ha Hw']; subst.
  rewrite quotient_step by assumption.
  destruct (lookup (q, a) (transitions dfa)) as [q'|] eqn:E;
    simpl; [|reflexivity].
  apply IH; [|assumption].
  apply lookup_In in E. now apply (pruned_closed _ Hpruned) in E.
Qed.

End Quotient.

End DfaQuotient.

(** ** The minimizer as a whole *)

Module DfaMinimize.
Import DfaMinimizer DfaSpec DfaAccessible DfaRefine DfaQuotient DfaExamples.

Lemma remove_inaccessible_states_pruned D :
  represented D ->
  exists R,
    remove_inaccessible_states D = Some R /\ pruned R /\
    (forall q, In q (states R) <-> reachable_on D q) /\
    alphabet R = alphabet D /\ start_state R = start_state D.
Proof.
  intros [Hfin Hdict].
  destruct (remove_inaccessible_states_on D Hdict)
    as (R & ER & Hnd & Hst & Htr & Hf & Hstart & Halpha).
  exists R. split; [assumption|]. split; [|auto].
  constructor.
  - assumption.
  - rewrite Hf. now apply NoDup_filter.
  - unfold dict_ok. rewrite Htr. now apply NoDup_keys_filter.
  - rewrite Hstart. apply Hst. constructor.
  - rewrite Hf. intros q Hq. apply filter_In in Hq as [_ Hq].
    now apply mem_In in Hq.
  - intros q a q' Hin. rewrite Htr in Hin. apply filter_In in Hin as [_ Hin].
    simpl in Hin. apply andb_true_iff in Hin as [H1 H2].
    now apply mem_In in H1, H2.
Qed.

Lemma accepts_from_behaviour D w :
  forall q, accepts_from D q w = accepting (behaviour_from D q w).
Proof.
  induction w as [|a w IH]; simpl; intros q.
  - now destruct (mem q (final_states D)).
  - destruct (lookup (q, a) (transitions D)); auto.
Qed.

(** Pruning does not change the outcome of a run. *)
Lemma pruned_behaviour_from D R w :
  represented D -> remove_inaccessible_states D = Some R ->
  forall q, reachable_on D q -> word_over D w ->
            behaviour_from R q w = behaviour_from D q w.
Proof.
  intros [Hfin Hdict] ER.
  destruct (remove_inaccessible_states_on D Hdict)
    as (R' & ER' & Hnd & Hst & Htr & Hf & Hstart & Halpha).
  rewrite ER in ER'. injection ER' as <-.
  induction w as [|a w IH]; simpl; intros q Hq Hw.
  - replace (mem q (final_states R)) with (mem q (final_states D));
      [reflexivity|].
    rewrite Hf. apply Hst in Hq.
    destruct (mem_reflect q (final_states D)) as [Hin|Hin]; symmetry.
    + apply mem_In, filter_In. split; [assumption | now apply mem_In].
    + apply mem_not_In. intros Hc. apply filter_In in Hc. tauto.
  - inversion Hw as [|? ? Ha Hw']; subst.
    rewrite (pruned_lookup D Hdict R q _ ER Hq Ha).
    destruct (lookup (q, a) (transitions D)) as [q'|] eqn:E; [|reflexivity].
    apply IH; [|assumption]. now apply (reachable_on_step D q a).
Qed.

(** The partition into accepting and non-accepting states. *)
Lemma initial_partition_spec dfa :
  pruned dfa ->
  is_partition (initial_partition dfa) /\
  Permutation (concat (initial_partition dfa)) (states dfa) /\
  respects_final dfa (initial_partition dfa).
Proof.
  intros Hpr. unfold initial_partition.
  set (accepting := final_states dfa).
  set (non_accepting := filter (fun q => negb (mem q accepting)) (states dfa)).
  assert (Hconcat :
            concat ((match accepting with [] => [] | _ => [accepting] end)
                    ++ (match non_accepting with
                        | [] => [] | _ => [non_accepting] end))
            = accepting ++ non_accepting).
  { destruct accepting, non_accepting; simpl; now rewrite ?app_nil_r. }
  assert (Hnd : NoDup (accepting ++ non_accepting)).
  { apply NoDup_app.
    - apply (pruned_final _ Hpr).
    - apply NoDup_filter, (pruned_states _ Hpr).
    - intros q Hq Hc. apply filter_In in Hc as [_ Hc].
      apply mem_In in Hq. now rewrite Hq in Hc. }
  split; [|split].
  - apply is_partition_iff. rewrite Hconcat. split; [assumption|].
    intros g Hg. apply in_app_or in Hg.
    destruct accepting, non_accepting; simpl in Hg;
      intuition (subst; discriminate).
  - rewrite Hconcat. apply NoDup_Permutation;
      [assumption | apply (pruned_states _ Hpr) |].
    intros q. rewrite in_app_iff. unfold non_accepting.
    rewrite filter_In, negb_true_iff, mem_not_In. split.
    + intros [Hq|[Hq _]]; [now apply (pruned_final_incl _ Hpr) | assumption].
    + intros Hq. destruct (in_dec string_dec q accepting); tauto.
  - intros g p q Hg Hp Hq. apply in_app_or in Hg.
    assert (Hcases : g = accepting \/ g = non_accepting).
    { destruct accepting, non_accepting; simpl in Hg; intuition. }
    destruct Hcases as [->| ->].
    + tauto.
    + apply filter_In in Hp as [_ Hp], Hq as [_ Hq].
      apply negb_true_iff, mem_not_In in Hp, Hq.
      fold accepting. tauto.
Qed.

Lemma respects_final_refines dfa P' P :
  refines P' P -> respects_final dfa P -> respects_final dfa P'.
Proof.
  intros Href Hres h p q Hh Hp Hq. destruct (Href h Hh) as (g & Hg & Hhg).
  apply (Hres g); auto.
Qed.

(** The loop of [minimize] ends, with a stable partition of the states that
    keeps accepting and non-accepting states apart. *)
Lemma stable_partition_spec dfa :
  pruned dfa ->
  exists P,
    stable_partition dfa = Some P /\
    is_partition P /\
    (forall q, In q (concat P) <-> In q (states dfa)) /\
    refines P (initial_partition dfa) /\
    respects_final dfa P /\ stable dfa P.
Proof.
  intros Hpr. destruct (initial_partition_spec dfa Hpr) as (HP0 & Hperm0 & Hf0).
  unfold stable_partition.
  destruct (refine_loop_spec dfa (S (length (states dfa)))
                             (initial_partition dfa) HP0)
    as (P & E & HP & Hperm & Href & Hst).
  - rewrite (Permutation_length Hperm0). lia.
  - exists P. split; [assumption|]. split; [assumption|].
    split; [|split; [assumption|split; [|assumption]]].
    + intros q. split; intros Hq.
      * eapply Permutation_in; [exact Hperm0|].
        eapply Permutation_in; [exact Hperm | exact Hq].
      * eapply Permutation_in; [apply Permutation_sym; exact Hperm|].
        eapply Permutation_in; [apply Permutation_sym; exact Hperm0 | exact Hq].
    + now apply (respects_final_refines dfa P (initial_partition dfa)).
Qed.

(** [minimize] returns: the pruned automaton where it has one state, its
    quotient by the stable partition otherwise. *)
Lemma minimize_cases D :
  represented D ->
  exists R,
    remove_inaccessible_states D = Some R /\ pruned R /\
    (forall q, In q (states R) <-> reachable_on D q) /\
    alphabet R = alphabet D /\ start_state R = start_state D /\
    ((length (states R) <= 1 /\ minimize D = Some R) \/
     (1 < length (states R) /\
      exists P,
        stable_partition R = Some P /\ is_partition P /\
        (forall q, In q (concat P) <-> In q (states R)) /\
        refines P (initial_partition R) /\
        respects_final R P /\ stable R P /\
        minimize D = Some (quotient R P))).
Proof.
  intros HD.
  destruct (remove_inaccessible_states_pruned D HD)
    as (R & ER & Hpr & Hst & Halpha & Hstart).
  exists R. repeat (split; [assumption|]).
  unfold minimize. rewrite ER. simpl.
  destruct (Nat.leb_spec (length (states R)) 1) as [Hle|Hgt].
  - left. now split.
  - right. split; [assumption|].
    destruct (stable_partition_spec R Hpr)
      as (P & EP & HP & Hun & Href & Hfin & Hstab).
    exists P. rewrite EP. simpl.
    split; [reflexivity|]. repeat (split; [assumption|]).
    now apply create_minimized_dfa_total.
Qed.

(** The minimized automaton behaves as the automaton does, on every
    sequence of symbols of the alphabet. *)
Lemma minimize_behaviour D :
  represented D ->
  exists M,
    minimize D = Some M /\
    forall w, word_over D w -> behaviour M w = behaviour D w.
Proof.
  intros HD.
  destruct (minimize_cases D HD)
    as (R & ER & Hpr & Hst & Halpha & Hstart & Hcases).
  assert (HR : forall w, word_over D w -> behaviour R w = behaviour D w).
  { intros w Hw. unfold behaviour. rewrite Hstart.
    apply (pruned_behaviour_from D R w HD ER); [constructor | assumption]. }
  destruct Hcases
    as [[_ EM]|(_ & P & _ & HP & Hun & _ & Hfin & Hstab & EM)].
  - exists R. now split.
  - exists (quotient R P). split; [assumption|].
    intros w Hw. rewrite <- (HR w Hw). unfold behaviour at 1.
    change (start_state (quotient R P)) with (rep_of P (start_state R)).
    apply quotient_behaviour_from; auto.
    + apply (pruned_start _ Hpr).
    + unfold word_over in *. now rewrite Halpha.
Qed.

(** C2.  The automaton and its minimized form accept the same input
    strings over the alphabet: [minimize] returns an automaton, and run
    from their start states along their partial transition functions the two
    end in a final state together or not at all. *)
Theorem minimize_accepts D :
  represented D ->
  exists M,
    minimize D = Some M /\
    forall s, over_alphabet D s -> accepts M s = accepts D s.
Proof.
  intros HD. destruct (minimize_behaviour D HD) as (M & EM & HM).
  exists M. split; [assumption|]. intros s Hs. unfold accepts.
  rewrite !accepts_from_behaviour. f_equal. now apply HM.
Qed.

(** The automaton of the first test is one instance. *)
Lemma minimize_accepts_witness :
  represented ends_with_01 /\
  exists M,
    minimize ends_with_01 = Some M /\
    forall s, over_alphabet ends_with_01 s ->
              accepts M s = accepts ends_with_01 s.
Proof.
  assert (H : represented ends_with_01)
    by (split; apply distinct_NoDup; reflexivity).
  split; [exact H | exact (minimize_accepts _ H)].
Defined.

(** C10.  [refine_partition] preserves partition structure: from a
    partition into nonempty, pairwise disjoint groups it returns groups that
    are nonempty, that each lie within exactly one input group, that are
    pairwise disjoint and that have the same union.  So the partition that
    [minimize] hands to [create_minimized_dfa] has no group with both an
    accepting and a non-accepting state, and whether the representative of
    a state is final in the quotient does not depend on the state chosen. *)
Theorem refine_partition_preserves :
  (forall dfa P,
     is_partition P ->
     (forall h, In h (refine_partition dfa P) ->
        h <> [] /\
        exists i g,
          nth_error P i = Some g /\ incl h g /\
          forall j g', nth_error P j = Some g' -> incl h g' -> j = i) /\
     pairwise_disjoint (refine_partition dfa P) /\
     (forall q, In q (union (refine_partition dfa P)) <-> In q (union P))) /\
  (forall D,
     represented D ->
     exists R M,
       remove_inaccessible_states D = Some R /\ minimize D = Some M /\
       ((length (states R) <= 1 /\ M = R) \/
        exists P,
          stable_partition R = Some P /\
          create_minimized_dfa R P = Some M /\
          respects_final R P /\
          forall q r,
            In q (states R) -> lookup q (build_state_map P) = Some r ->
            (In r (final_states M) <-> In q (final_states R)))).
Proof.
  split.
  - intros dfa P HP.
    destruct (refine_partition_spec dfa P HP) as (HP' & Hperm & Href & _).
    split; [|split].
    + intros h Hh. pose proof HP' as [Hgroups' _].
      destruct (Hgroups' h Hh) as [Hne _]. split; [assumption|].
      destruct (Href h Hh) as (g & Hg & Hhg).
      apply In_nth_error in Hg as (i & Ei). exists i, g.
      split; [assumption|]. split; [assumption|].
      intros j g' Ej Hhg'. destruct (Nat.eq_dec j i) as [|Hij]; [assumption|].
      exfalso. destruct h as [|x h]; [congruence|].
      destruct HP as [_ Hdis].
      apply (Hdis j i g' g Ej Ei Hij x); [apply Hhg' | apply Hhg]; now left.
    + apply HP'.
    + intros q. unfold union. split; apply Permutation_in;
        [|apply Permutation_sym]; assumption.
  - intros D HD.
    destruct (minimize_cases D HD)
      as (R & ER & Hpr & Hst & Halpha & Hstart & Hcases).
    exists R.
    destruct Hcases
      as [[Hle EM]|(_ & P & EP & HP & Hun & _ & Hfin & Hstab & EM)].
    + exists R. auto.
    + exists (quotient R P). split; [assumption|]. split; [assumption|].
      right. exists P. split; [assumption|].
      split; [now apply create_minimized_dfa_total|]. split; [assumption|].
      intros q r Hq Er.
      rewrite (state_map_total R P HP Hun q Hq) in Er. injection Er as <-.
      rewrite <- !mem_In. now rewrite (quotient_final R P Hpr HP Hun Hfin q Hq).
Qed.

(** The automata of the tests are instances: the first with the partition
    that [minimize] starts from. *)
Lemma refine_partition_preserves_witness :
  (is_partition ends_with_01_groups /\
   (forall h, In h (refine_partition ends_with_01 ends_with_01_groups) ->
      h <> [] /\
      exists i g,
        nth_error ends_with_01_groups i = Some g /\ incl h g /\
        forall j g',
          nth_error ends_with_01_groups j = Some g' -> incl h g' -> j = i) /\
   pairwise_disjoint (refine_partition ends_with_01 ends_with_01_groups) /\
   (forall q,
      In q (union (refine_partition ends_with_01 ends_with_01_groups)) <->
      In q (union ends_with_01_groups))) /\
  (represented with_equivalent /\
   exists R M,
     remove_inaccessible_states with_equivalent = Some R /\
     minimize with_equivalent = Some M /\
     ((length (states R) <= 1 /\ M = R) \/
      exists P,
        stable_partition R = Some P /\
        create_minimized_dfa R P = Some M /\
        respects_final R P /\
        forall q r,
          In q (states R) -> lookup q (build_state_map P) = Some r ->
          (In r (final_states M) <-> In q (final_states R)))).
Proof.
  assert (H1 : is_partition ends_with_01_groups).
  { apply is_partition_iff. split.
    - apply distinct_NoDup. reflexivity.
    - intros g [<-|[<-|[]]]; discriminate. }
  assert (H2 : represented with_equivalent)
    by (split; apply distinct_NoDup; reflexivity).
  split.
  - split; [exact H1|]. exact (proj1 refine_partition_preserves _ _ H1).
  - split; [exact H2|]. exact (proj2 refine_partition_preserves _ H2).
Defined.

End DfaMinimize.

(** ** Minimality *)

Module DfaMinimal.
Import DfaMinimizer DfaSpec DfaAccessible DfaRefine DfaQuotient DfaMinimize.
Import DfaExamples.

(** *** Runs *)

Lemma run_app D u :
  forall q v,
    run D q (u ++ v)
    = match run D q u with Some q' => run D q' v | None => None end.
Proof.
  induction u as [|a u IH]; simpl; intros q v; [reflexivity|].
  destruct (lookup (q, a) (transitions D)); auto.
Qed.

Lemma behaviour_from_app D u :
  forall q w,
    behaviour_from D q (u ++ w)
    = match run D q u with
      | Some q' => behaviour_from D q' w
      | None => Stuck
      end.
Proof.
  induction u as [|a u IH]; simpl; intros q w; [reflexivity|].
  destruct (lookup (q, a) (transitions D)); auto.
Qed.

Lemma run_defined D w :
  forall q, behaviour_from D q w <> Stuck -> exists q', run D q w = Some q'.
Proof.
  induction w as [|a w IH]; simpl; intros q Hb; [now exists q|].
  destruct (lookup (q, a) (transitions D)); [auto | congruence].
Qed.

Lemma behaviour_from_run D w :
  forall q q', run D q w = Some q' -> behaviour_from D q w <> Stuck.
Proof.
  induction w as [|a w IH]; simpl; intros q q' E.
  - destruct (mem q (final_states D)); discriminate.
  - destruct (lookup (q, a) (transitions D)); [eauto | discriminate].
Qed.

Lemma run_in_states B w :
  well_formed B ->
  forall q q', In q (states B) -> run B q w = Some q' -> In q' (states B).
Proof.
  intros [_ Hwf]. induction w as [|a w IH]; simpl; intros q q' Hq E.
  - now injection E as <-.
  - destruct (lookup (q, a) (transitions B)) as [q1|] eqn:El; [|discriminate].
    apply (IH q1); [|assumption]. apply lookup_In in El.
    now apply Hwf in El.
Qed.

Lemma word_over_app D u v :
  word_over D u -> word_over D v -> word_over D (u ++ v).
Proof. intros Hu Hv. apply Forall_app. now split. Qed.

(** A reachable state is reached by a run from the start state. *)
Lemma reachable_on_run D q :
  reachable_on D q ->
  exists u, word_over D u /\ run D (start_state D) u = Some q.
Proof.
  induction 1 as [|q a q' _ (u & Hu & Eu) Ha Ea].
  - exists []. split; [constructor | reflexivity].
  - exists (u ++ [a]). split.
    + apply word_over_app; [assumption | now repeat constructor].
    + rewrite run_app, Eu. simpl. now rewrite Ea.
Qed.

Lemma pruned_run D R w :
  represented D -> remove_inaccessible_states D = Some R ->
  forall q, reachable_on D q -> word_over D w -> run R q w = run D q w.
Proof.
  intros [Hfin Hdict] ER.
  induction w as [|a w IH]; simpl; intros q Hq Hw; [reflexivity|].
  inversion Hw as [|? ? Ha Hw']; subst.
  rewrite (pruned_lookup D Hdict R q _ ER Hq Ha).
  destruct (lookup (q, a) (transitions D)) as [q'|] eqn:E; [|reflexivity].
  apply IH; [|assumption]. now apply (reachable_on_step D q a).
Qed.

(** *** States in different groups are distinguishable *)

Lemma refine_loop_invariant dfa (I : partition_t -> Prop) :
  (forall P, is_partition P -> I P -> I (refine_partition dfa P)) ->
  forall fuel P P',
    is_partition P -> I P -> refine_loop fuel dfa P = Some P' -> I P'.
Proof.
  intros Hstep. induction fuel as [|fuel IH]; simpl; intros P P' HP HI E;
    [discriminate|].
  destruct (partition_eqb (refine_partition dfa P) P).
  - now injection E as <-.
  - apply (IH (refine_partition dfa P)); auto.
    now apply refine_partition_spec.
Qed.

Lemma map_pair_neq {A} (f g : A -> Z) l :
  map (fun a => (a, f a)) l <> map (fun a => (a, g a)) l ->
  exists a, In a l /\ f a <> g a.
Proof.
  induction l as [|a l IH]; simpl; intros Hne; [congruence|].
  destruct (Z.eq_dec (f a) (g a)) as [E|E].
  - destruct IH as (b & Hb & Hfg); [congruence|]. exists b. auto.
  - exists a. auto.
Qed.

Section Separation.
Variable dfa : DFA.
Hypothesis Hpruned : pruned dfa.

Lemma two_groups (A B : list string) i j g h :
  nth_error ((match A with [] => [] | _ => [A] end)
             ++ (match B with [] => [] | _ => [B] end)) i = Some g ->
  nth_error ((match A with [] => [] | _ => [A] end)
             ++ (match B with [] => [] | _ => [B] end)) j = Some h ->
  i <> j ->
  (g = A /\ h = B) \/ (g = B /\ h = A).
Proof.
  destruct A, B; simpl; destruct i as [|[|i]], j as [|[|j]]; simpl;
    try discriminate; try congruence;
    try (intros [= <-] [= <-] _; auto);
    try (destruct i; discriminate); try (destruct j; discriminate).
Qed.

Lemma separated_initial : separated dfa (initial_partition dfa).
Proof.
  intros p q i j Ei Ej Hij.
  pose proof (find_group_Some _ _ _ _ Ei) as (_ & g & Eg & Hp).
  pose proof (find_group_Some _ _ _ _ Ej) as (_ & h & Eh & Hq).
  rewrite Nat.sub_0_r in *. unfold initial_partition in Eg, Eh.
  exists []. split; [constructor|]. simpl.
  destruct (two_groups _ _ i j g h Eg Eh Hij) as [[-> ->]|[-> ->]].
  - apply filter_In in Hq as [_ Hq]. apply negb_true_iff in Hq.
    apply mem_In in Hp. rewrite Hp, Hq. discriminate.
  - apply filter_In in Hp as [_ Hp]. apply negb_true_iff in Hp.
    apply mem_In in Hq. rewrite Hp, Hq. discriminate.
Qed.

Lemma separated_refine P :
  is_partition P ->
  (forall q, In q (concat P) <-> In q (states dfa)) ->
  separated dfa P ->
  separated dfa (refine_partition dfa P).
Proof.
  intros HP Hun Hsep p q i j Ei Ej Hij.
  destruct (refine_partition_spec dfa P HP) as (HP' & Hperm & Href & _).
  pose proof HP as [Hgroups Hdis]. pose proof HP' as [_ Hdis'].
  pose proof (proj1 (proj1 (is_partition_iff P) HP)) as Hnd.
  pose proof (find_group_Some _ _ _ _ Ei) as (_ & hp & Ehp & Hp).
  pose proof (find_group_Some _ _ _ _ Ej) as (_ & hq & Ehq & Hq).
  rewrite Nat.sub_0_r in *.
  pose proof (nth_error_In _ _ Ehp) as Hhp.
  pose proof (nth_error_In _ _ Ehq) as Hhq.
  apply in_flat_map in Hhp as (gp & Hgp & Hhp).
  apply in_flat_map in Hhq as (gq & Hgq & Hhq).
  destruct (split_group_spec dfa P gp (proj2 (Hgroups gp Hgp)))
    as (_ & Hsub_p).
  destruct (split_group_spec dfa P gq (proj2 (Hgroups gq Hgq)))
    as (_ & Hsub_q).
  destruct (Hsub_p hp Hhp) as (_ & Hinc_p & _ & Hfull_p).
  destruct (Hsub_q hq Hhq) as (_ & Hinc_q & _ & _).
  apply In_nth_error in Hgp as (kp & Ekp), Hgq as (kq & Ekq).
  pose proof (find_group_nth P p Hnd kp gp Ekp (Hinc_p p Hp)) as Fp.
  pose proof (find_group_nth P q Hnd kq gq Ekq (Hinc_q q Hq)) as Fq.
  destruct (Nat.eq_dec kp kq) as [->|Hk]; [|now apply (Hsep p q kp kq)].
  rewrite Ekp in Ekq. injection Ekq as <-.
  assert (Hsig : signature dfa P p <> signature dfa P q).
  { intros Es. apply (Hdis' i j hp hq Ehp Ehq Hij q); [|assumption].
    apply (Hfull_p p q); auto. }
  assert (Hcl : forall s a s', lookup (s, a) (transitions dfa) = Some s' ->
                               In s' (concat P)).
  { intros s a s' E. now apply (lookup_state dfa P Hpruned Hun) in E. }
  rewrite !signature_map in Hsig by (intros a s'; apply Hcl).
  apply map_pair_neq in Hsig as (a & Ha & Hcode).
  unfold code in Hcode.
  destruct (lookup (p, a) (transitions dfa)) as [p'|] eqn:Elp,
           (lookup (q, a) (transitions dfa)) as [q'|] eqn:Elq.
  - destruct (find_group_In P p' (Hcl _ _ _ Elp)) as (i' & Ei').
    destruct (find_group_In P q' (Hcl _ _ _ Elq)) as (j' & Ej').
    rewrite Ei', Ej' in Hcode.
    destruct (Hsep p' q' i' j' Ei' Ej') as (w & Hw & Hb); [congruence|].
    exists (a :: w). split; [now constructor|]. simpl. now rewrite Elp, Elq.
  - exists [a]. split; [now repeat constructor|]. simpl. rewrite Elp, Elq.
    destruct (mem p' (final_states dfa)); discriminate.
  - exists [a]. split; [now repeat constructor|]. simpl. rewrite Elp, Elq.
    destruct (mem q' (final_states dfa)); discriminate.
  - congruence.
Qed.

(** The partition that [minimize] ends with tells apart what it
    separates. *)
Lemma separated_stable P :
  stable_partition dfa = Some P -> separated dfa P.
Proof.
  intros E. unfold stable_partition in E.
  destruct (initial_partition_spec dfa Hpruned) as (HP0 & Hperm0 & _).
  apply (refine_loop_invariant dfa
           (fun P => (forall q, In q (concat P) <-> In q (states dfa)) /\
                     separated dfa P)
           ) in E; [apply E | | assumption |].
  - intros P1 HP1 [Hun Hsep]. split; [|now apply separated_refine].
    destruct (refine_partition_spec dfa P1 HP1) as (_ & Hperm & _).
    intros q. rewrite <- Hun. split; apply Permutation_in;
      [|apply Permutation_sym]; assumption.
  - split; [|apply separated_initial].
    intros q. split; apply Permutation_in;
      [|apply Permutation_sym]; assumption.
Qed.

End Separation.

(** *** The states of the minimized automaton *)

(** Every state of the minimized automaton is reached by some input, and
    any two of them are told apart by some input. *)
Lemma minimize_states D :
  represented D ->
  exists M,
    minimize D = Some M /\
    NoDup (states M) /\
    (forall w, word_over D w -> behaviour M w = behaviour D w) /\
    (forall r, In r (states M) ->
       exists u, word_over D u /\ run M (start_state M) u = Some r) /\
    (forall r1 r2, In r1 (states M) -> In r2 (states M) -> r1 <> r2 ->
       exists w, word_over D w /\
                 behaviour_from M r1 w <> behaviour_from M r2 w).
Proof.
  intros HD.
  destruct (minimize_behaviour D HD) as (M & EM & HM).
  destruct (minimize_cases D HD)
    as (R & ER & Hpr & Hst & Halpha & Hstart & Hcases).
  assert (Hreach : forall q, In q (states R) ->
            exists u, word_over D u /\ run R (start_state R) u = Some q).
  { intros q Hq. apply Hst in Hq.
    destruct (reachable_on_run D q Hq) as (u & Hu & Eu).
    exists u. split; [assumption|]. rewrite Hstart.
    rewrite (pruned_run D R u HD ER); [assumption | constructor | assumption]. }
  exists M. split; [assumption|].
  destruct Hcases
    as [[Hle EM']|(_ & P & EP & HP & Hun & _ & Hfin & Hstab & EM')];
    rewrite EM in EM'; injection EM' as ->.
  - split; [apply (pruned_states _ Hpr)|]. split; [assumption|].
    split; [assumption|].
    intros r1 r2 H1 H2 Hne. exfalso.
    destruct (states R) as [|x [|y l]]; simpl in *; try lia.
    destruct H1 as [<-|[]], H2 as [<-|[]]. congruence.
  - assert (HwR : forall w, word_over D w -> word_over R w)
      by (unfold word_over; now rewrite Halpha).
    split; [apply to_set_NoDup|]. split; [assumption|]. split.
    + intros r Hr. simpl in Hr. rewrite to_set_In in Hr.
      apply in_map_iff in Hr as (q & <- & Hq).
      destruct (Hreach q Hq) as (u & Hu & Eu). exists u.
      split; [assumption|].
      change (start_state (quotient R P)) with (rep_of P (start_state R)).
      rewrite (quotient_run R P Hpr HP Hun Hstab);
        [now rewrite Eu | apply (pruned_start _ Hpr) | auto].
    + intros r1 r2 H1 H2 Hne. simpl in H1, H2.
      rewrite to_set_In in H1, H2.
      apply in_map_iff in H1 as (p & <- & Hp), H2 as (q & <- & Hq).
      pose proof (proj1 (proj1 (is_partition_iff P) HP)) as Hnd.
      destruct (rep_of_spec P p Hnd (proj2 (Hun p) Hp)) as (i & Ei & _ & Ri).
      destruct (rep_of_spec P q Hnd (proj2 (Hun q) Hq)) as (j & Ej & _ & Rj).
      destruct (separated_stable R Hpr P EP p q i j Ei Ej) as (w & Hw & Hb).
      { intros ->. congruence. }
      exists w. split; [unfold word_over in *; now rewrite <- Halpha|].
      now rewrite !(quotient_behaviour_from R P Hpr HP Hun Hstab Hfin).
Qed.

(** *** Counting states *)

Lemma injective_count {A B} (rel : A -> B -> Prop) (l : list A)
    (lb : list B) :
  NoDup l ->
  (forall a, In a l -> exists b, In b lb /\ rel a b) ->
  (forall a a' b, In a l -> In a' l -> rel a b -> rel a' b -> a = a') ->
  length l <= length lb.
Proof.
  intros Hnd Htot Hinj.
  enough (G : exists bs, length bs = length l /\ NoDup bs /\ incl bs lb /\
                         forall b, In b bs -> exists a, In a l /\ rel a b).
  { destruct G as (bs & <- & Hbs & Hincl & _).
    now apply NoDup_incl_length. }
  induction l as [|a l IH].
  - exists []. repeat split; try constructor; easy.
  - inversion Hnd as [|? ? Ha Hnd']; subst.
    destruct IH as (bs & Hlen & Hbs & Hincl & Hrel); auto.
    { intros a0 H0. apply Htot. now right. }
    { intros a1 a2 b H1 H2. apply Hinj; now right. }
    destruct (Htot a (or_introl eq_refl)) as (b & Hb & Hab).
    exists (b :: bs). split; [simpl; now rewrite Hlen|]. split; [|split].
    + constructor; [|assumption]. intros Hin.
      destruct (Hrel b Hin) as (a' & Ha' & Ha'b).
      apply Ha. replace a with a'; [assumption|].
      apply (Hinj a' a b); auto; [now right | now left].
    + intros x [<-|Hx]; auto.
    + intros x [<-|Hx].
      * exists a. split; [now left | assumption].
      * destruct (Hrel x Hx) as (a' & Ha' & Hr). exists a'. split; auto.
        now right.
Qed.

Section Counting.
Variables (M B : DFA) (sigma : list string).
Hypothesis Hnd : NoDup (states M).
Hypothesis Hreach : forall r, In r (states M) ->
  exists u, Forall (fun a => In a sigma) u /\
            run M (start_state M) u = Some r.
Hypothesis Hdist : forall r1 r2, In r1 (states M) -> In r2 (states M) ->
  r1 <> r2 ->
  exists w, Forall (fun a => In a sigma) w /\
            behaviour_from M r1 w <> behaviour_from M r2 w.
Hypothesis HB : well_formed B.
Hypothesis Hsame : forall w, Forall (fun a => In a sigma) w ->
  behaviour B w = behaviour M w.

(** An automaton that behaves as [M] does has a state for each state of
    [M]. *)
Lemma count_states : length (states M) <= length (states B).
Proof.
  apply (injective_count
           (fun r b => exists u, Forall (fun a => In a sigma) u /\
                                 run M (start_state M) u = Some r /\
                                 run B (start_state B) u = Some b));
    [assumption| |].
  - intros r Hr. destruct (Hreach r Hr) as (u & Hu & Eu).
    destruct (run_defined B u (start_state B)) as (b & Eb).
    { fold (behaviour B u). rewrite (Hsame u Hu).
      now apply (behaviour_from_run M u _ r). }
    exists b. split; [|now exists u].
    apply (run_in_states B u HB (start_state B)); [apply HB | assumption].
  - intros r r' b Hr Hr' (u & Hu & Eu & Eb) (u' & Hu' & Eu' & Eb').
    destruct (string_dec r r') as [|Hne]; [assumption|]. exfalso.
    destruct (Hdist r r' Hr Hr' Hne) as (w & Hw & Hb). apply Hb.
    assert (E1 : behaviour M (u ++ w) = behaviour_from M r w)
      by (unfold behaviour; now rewrite behaviour_from_app, Eu).
    assert (E2 : behaviour M (u' ++ w) = behaviour_from M r' w)
      by (unfold behaviour; now rewrite behaviour_from_app, Eu').
    rewrite <- E1, <- E2, <- !Hsame by (apply Forall_app; now split).
    unfold behaviour. now rewrite !behaviour_from_app, Eb, Eb'.
Qed.

End Counting.

(** *** Automata without missing transitions *)

Lemma total_behaviour B sigma w :
  well_formed B -> total sigma B ->
  forall q, In q (states B) -> Forall (fun a => In a sigma) w ->
            behaviour_from B q w <> Stuck.
Proof.
  intros HB Htot. induction w as [|a w IH]; simpl; intros q Hq Hw.
  - destruct (mem q (final_states B)); discriminate.
  - inversion Hw as [|? ? Ha Hw']; subst.
    destruct (lookup (q, a) (transitions B)) as [q'|] eqn:E.
    + apply IH; [|assumption]. apply lookup_In in E. now apply HB in E.
    + now apply (Htot q a) in E.
Qed.

Lemma total_on_reachable_behaviour D w :
  total_on_reachable D ->
  forall q, reachable_on D q -> word_over D w ->
            behaviour_from D q w <> Stuck.
Proof.
  intros Htot. induction w as [|a w IH]; simpl; intros q Hq Hw.
  - destruct (mem q (final_states D)); discriminate.
  - inversion Hw as [|? ? Ha Hw']; subst.
    destruct (lookup (q, a) (transitions D)) as [q'|] eqn:E.
    + apply IH; [|assumption]. now apply (reachable_on_step D q a).
    + now apply (Htot q a) in E.
Qed.

Lemma accepting_inj o1 o2 :
  o1 <> Stuck -> o2 <> Stuck -> accepting o1 = accepting o2 -> o1 = o2.
Proof. destruct o1, o2; simpl; congruence. Qed.

(** Over an alphabet of single characters the sequences of symbols are the
    Python strings. *)
Lemma word_of_string D w :
  (forall a, In a (alphabet D) -> String.length a = 1) ->
  word_over D w -> exists s, chars s = w /\ over_alphabet D s.
Proof.
  intros Hone. induction 1 as [|a w Ha Hw (s & Es & Hs)].
  - exists "". split; [reflexivity | constructor].
  - specialize (Hone a Ha).
    destruct a as [|c [|c' a]]; simpl in Hone; try discriminate.
    exists (String c s). unfold over_alphabet. simpl. rewrite Es.
    split; [reflexivity|]. constructor; [assumption|].
    unfold over_alphabet in Hs. now rewrite Es in Hs.
Qed.

(** *** The theorem *)

(** C5, amended.  [minimize D] has no more states than any automaton that
    behaves as [D] does on every input over the alphabet, where the
    behaviour on an input tells acceptance, rejection in a state and
    rejection at a missing transition apart; and any two states of
    [minimize D] are reached by inputs that some common continuation leads
    to different behaviour, so that no automaton in which the two are one
    state behaves as [D].  Where no transition is missing, in [D] at its
    reachable states and in the automata compared with, behaviour is
    acceptance: [minimize D] has no more states than any such automaton
    that recognizes the language of [D], and merging two of its states
    changes the language. *)
Theorem minimize_minimal D :
  represented D ->
  exists M,
    minimize D = Some M /\
    (forall B,
       well_formed B ->
       (forall w, word_over D w -> behaviour B w = behaviour D w) ->
       length (states M) <= length (states B)) /\
    (forall p q,
       In p (states M) -> In q (states M) -> p <> q ->
       exists u v w,
         word_over D u /\ word_over D v /\ word_over D w /\
         run M (start_state M) u = Some p /\
         run M (start_state M) v = Some q /\
         behaviour M (u ++ w) <> behaviour M (v ++ w)) /\
    (total_on_reachable D ->
     (forall B,
        well_formed B -> total (alphabet D) B ->
        (forall w, word_over D w ->
           accepts_from B (start_state B) w
           = accepts_from D (start_state D) w) ->
        length (states M) <= length (states B)) /\
     (forall p q,
        In p (states M) -> In q (states M) -> p <> q ->
        exists u v w,
          word_over D u /\ word_over D v /\ word_over D w /\
          run M (start_state M) u = Some p /\
          run M (start_state M) v = Some q /\
          accepts_from M (start_state M) (u ++ w)
          <> accepts_from M (start_state M) (v ++ w))).
Proof.
  intros HD.
  destruct (minimize_states D HD) as (M & EM & Hnd & Hbeh & Hreach & Hdist).
  exists M. split; [assumption|].
  assert (Hcount : forall B,
            well_formed B ->
            (forall w, word_over D w -> behaviour B w = behaviour D w) ->
            length (states M) <= length (states B)).
  { intros B HB Hsame.
    apply (count_states M B (alphabet D)); auto.
    intros w Hw. now rewrite Hsame, Hbeh. }
  assert (Hapart : forall p q,
            In p (states M) -> In q (states M) -> p <> q ->
            exists u v w,
              word_over D u /\ word_over D v /\ word_over D w /\
              run M (start_state M) u = Some p /\
              run M (start_state M) v = Some q /\
              behaviour M (u ++ w) <> behaviour M (v ++ w)).
  { intros p q Hp Hq Hne.
    destruct (Hreach p Hp) as (u & Hu & Eu).
    destruct (Hreach q Hq) as (v & Hv & Ev).
    destruct (Hdist p q Hp Hq Hne) as (w & Hw & Hb).
    exists u, v, w. repeat (split; [assumption|]).
    unfold behaviour. now rewrite !behaviour_from_app, Eu, Ev. }
  split; [assumption|]. split; [assumption|].
  intros Htot.
  assert (Hdef : forall w, word_over D w -> behaviour D w <> Stuck).
  { intros w Hw. apply total_on_reachable_behaviour; auto. constructor. }
  split.
  - intros B HB HtotB Hsame. apply Hcount; [assumption|].
    intros w Hw. apply accepting_inj.
    + apply (total_behaviour B (alphabet D)); auto. apply HB.
    + now apply Hdef.
    + unfold behaviour. rewrite <- !accepts_from_behaviour. now apply Hsame.
  - intros p q Hp Hq Hne.
    destruct (Hapart p q Hp Hq Hne)
      as (u & v & w & Hu & Hv & Hw & Eu & Ev & Hb).
    exists u, v, w. repeat (split; [assumption|]).
    rewrite !accepts_from_behaviour. intros E. apply Hb.
    apply accepting_inj; [| |exact E]; fold (behaviour M (u ++ w));
      fold (behaviour M (v ++ w)); rewrite Hbeh;
      try apply Hdef; now apply word_over_app.
Qed.

(** The automaton of the first test is one instance; no transition is
    missing in it. *)
Lemma minimize_minimal_witness :
  represented ends_with_01 /\
  exists M,
    minimize ends_with_01 = Some M /\
    (forall B,
       well_formed B ->
       (forall w, word_over ends_with_01 w ->
                  behaviour B w = behaviour ends_with_01 w) ->
       length (states M) <= length (states B)) /\
    (forall p q,
       In p (states M) -> In q (states M) -> p <> q ->
       exists u v w,
         word_over ends_with_01 u /\ word_over ends_with_01 v /\
         word_over ends_with_01 w /\
         run M (start_state M) u = Some p /\
         run M (start_state M) v = Some q /\
         behaviour M (u ++ w) <> behaviour M (v ++ w)) /\
    (total_on_reachable ends_with_01 ->
     (forall B,
        well_formed B -> total (alphabet ends_with_01) B ->
        (forall w, word_over ends_with_01 w ->
           accepts_from B (start_state B) w
           = accepts_from ends_with_01 (start_state ends_with_01) w) ->
        length (states M) <= length (states B)) /\
     (forall p q,
        In p (states M) -> In q (states M) -> p <> q ->
        exists u v w,
          word_over ends_with_01 u /\ word_over ends_with_01 v /\
          word_over ends_with_01 w /\
          run M (start_state M) u = Some p /\
          run M (start_state M) v = Some q /\
          accepts_from M (start_state M) (u ++ w)
          <> accepts_from M (start_state M) (v ++ w))).
Proof.
  assert (H : represented ends_with_01)
    by (split; apply distinct_NoDup; reflexivity).
  split; [exact H | exact (minimize_minimal _ H)].
Defined.

(** *** Where a transition is missing *)

Lemma no_final_rejects D w :
  final_states D = [] -> forall q, accepts_from D q w = false.
Proof.
  intros Hf. induction w as [|a w IH]; simpl; intros q.
  - now rewrite Hf.
  - destruct (lookup (q, a) (transitions D)); auto.
Qed.

(** C5 as stated fails on [dead_end]: [minimize] keeps its two states,
    although one state is enough for its language, the empty one; and
    merging the two states leaves the language as it is. *)
Lemma minimize_not_minimal :
  exists M,
    minimize dead_end = Some M /\
    (forall s, accepts lone_state s
               = accepts dead_end s) /\
    length (states lone_state) < length (states M) /\
    (forall s, accepts merged_dead_end s = accepts M s).
Proof.
  eexists. split; [vm_compute; reflexivity|].
  split; [|split].
  - intros s. unfold accepts. now rewrite !no_final_rejects.
  - simpl. lia.
  - intros s. unfold accepts. now rewrite !no_final_rejects.
Qed.

End DfaMinimal.

(** ** Pruning twice, and the shape of the minimized automaton *)

Module DfaShape.
Import DfaMinimizer DfaSpec DfaAccessible DfaRefine DfaQuotient DfaMinimize.
Import DfaMinimal DfaExamples.

(** More iterations than the traversal needs do not change what it
    returns. *)
Lemma bfs_fuel_mono D fuel :
  forall fuel' accessible queue accessible',
    bfs fuel D accessible queue = Some accessible' -> fuel <= fuel' ->
    bfs fuel' D accessible queue = Some accessible'.
Proof.
  induction fuel as [|fuel IH]; intros fuel' acc queue acc' E Hle;
    destruct queue as [|state queue]; simpl in E.
  - destruct fuel'; exact E.
  - discriminate.
  - destruct fuel'; exact E.
  - destruct fuel' as [|fuel']; [lia|]. simpl.
    destruct (fold_left (visit D state) (alphabet D) (acc, queue))
      as [acc1 queue1].
    apply IH; [assumption | lia].
Qed.

(** The traversal reads the transitions of the states it has reached, and
    no others. *)
Lemma bfs_agree D R :
  alphabet R = alphabet D ->
  (forall q a, reachable_on D q -> In a (alphabet D) ->
     lookup (q, a) (transitions R) = lookup (q, a) (transitions D)) ->
  forall fuel accessible queue,
    NoDup accessible -> (forall q, In q queue -> reachable_on D q) ->
    bfs fuel R accessible queue = bfs fuel D accessible queue.
Proof.
  intros Halpha Hlook.
  induction fuel as [|fuel IH]; intros acc queue Hnd Hqueue;
    destruct queue as [|state queue]; simpl; try reflexivity.
  rewrite Halpha.
  rewrite (fold_left_eq (visit R state) (visit D state)).
  2:{ intros [a0 q0] a Ha. unfold visit.
      rewrite Hlook; [reflexivity | apply Hqueue; now left | assumption]. }
  destruct (fold_left (visit D state) (alphabet D) (acc, queue))
    as [acc1 queue1] eqn:E.
  destruct (visit_fold D _ _ _ _ _ _ E Hnd)
    as (new & -> & -> & Hnd1 & Hnew & _).
  apply IH; [assumption|].
  intros q Hq. apply in_app_or in Hq as [Hq|Hq].
  - apply Hqueue. now right.
  - destruct (Hnew q Hq) as (a & Ha & Ea).
    apply (reachable_on_step D state a q); auto. apply Hqueue. now left.
Qed.

Lemma filter_filter {A} (f : A -> bool) l : filter f (filter f l) = filter f l.
Proof.
  induction l as [|x l IH]; simpl; [reflexivity|].
  destruct (f x) eqn:E; simpl; [rewrite E; now f_equal | assumption].
Qed.

Lemma filter_length_le {A} (f : A -> bool) l : length (filter f l) <= length l.
Proof. induction l as [|x l IH]; simpl; [lia|]. destruct (f x); simpl; lia. Qed.

(** X1.  Pruning an automaton that is already pruned returns it as it is:
    [remove_inaccessible_states] is idempotent. *)
Theorem remove_inaccessible_states_idempotent D R :
  dict_ok (transitions D) ->
  remove_inaccessible_states D = Some R ->
  remove_inaccessible_states R = Some R.
Proof.
  intros Hdict ER.
  destruct (remove_inaccessible_states_on D Hdict)
    as (R' & ER' & Hnd & Hst & Htr & Hf & Hstart & Halpha).
  rewrite ER in ER'. injection ER' as <-.
  assert (HdictR : dict_ok (transitions R)).
  { unfold dict_ok. rewrite Htr. now apply NoDup_keys_filter. }
  assert (Hacc : get_accessible_states R = Some (states R)).
  { destruct (get_accessible_states_spec R) as (acc & Eacc & _).
    rewrite Eacc. f_equal.
    unfold get_accessible_states in Eacc.
    rewrite (bfs_agree D R Halpha) in Eacc.
    - apply (bfs_fuel_mono D _ (bfs_bound D)) in Eacc.
      + unfold remove_inaccessible_states in ER.
        unfold get_accessible_states in ER. rewrite Hstart in Eacc.
        rewrite Eacc in ER. simpl in ER. injection ER as <-. reflexivity.
      + unfold bfs_bound. rewrite Htr.
        pose proof (filter_length_le
                      (fun e => mem (fst (fst e)) (states R)
                                && mem (snd e) (states R))
                      (transitions D)). lia.
    - intros q a Hq Ha. now apply (pruned_lookup D Hdict R).
    - repeat constructor. easy.
    - intros q [<-|[]]. rewrite Hstart. constructor. }
  unfold remove_inaccessible_states. rewrite Hacc. simpl. f_equal.
  assert (Etr : fold_left
                  (fun new_transitions '(state, symbol, next_state) =>
                     if mem state (states R) && mem next_state (states R)
                     then dict_set (state, symbol) next_state new_transitions
                     else new_transitions)
                  (transitions R) []
                = transitions R).
  { rewrite (fold_left_eq _
               (fun d e =>
                  if (fun e => mem (fst (fst e)) (states R)
                               && mem (snd e) (states R)) e
                  then dict_set (fst e) (snd e) d else d))
      by now intros d [[state symbol] next_state] _.
    rewrite filter_into_dict by exact HdictR. simpl.
    rewrite Htr. now rewrite filter_filter. }
  rewrite Etr, Hf, filter_filter, <- Hf.
  now destruct R.
Qed.

(** The automaton of the second test is one instance. *)
Lemma remove_inaccessible_states_idempotent_witness :
  dict_ok (transitions with_inaccessible) /\
  remove_inaccessible_states with_inaccessible
  = Some (mkDFA ["q0"; "q1"; "q2"] ["0"; "1"]
                [ (("q0", "0"), "q1"); (("q0", "1"), "q2");
                  (("q1", "0"), "q1"); (("q1", "1"), "q2");
                  (("q2", "0"), "q0"); (("q2", "1"), "q2") ]
                "q0" ["q2"]) /\
  remove_inaccessible_states
    (mkDFA ["q0"; "q1"; "q2"] ["0"; "1"]
           [ (("q0", "0"), "q1"); (("q0", "1"), "q2");
             (("q1", "0"), "q1"); (("q1", "1"), "q2");
             (("q2", "0"), "q0"); (("q2", "1"), "q2") ]
           "q0" ["q2"])
  = Some (mkDFA ["q0"; "q1"; "q2"] ["0"; "1"]
                [ (("q0", "0"), "q1"); (("q0", "1"), "q2");
                  (("q1", "0"), "q1"); (("q1", "1"), "q2");
                  (("q2", "0"), "q0"); (("q2", "1"), "q2") ]
                "q0" ["q2"]).
Proof.
  assert (H1 : dict_ok (transitions with_inaccessible))
    by (apply distinct_NoDup; reflexivity).
  split; [exact H1|]. split; [reflexivity|].
  exact (remove_inaccessible_states_idempotent with_inaccessible _ H1 eq_refl).
Defined.

(** Where every transition is on a symbol of the alphabet, pruning changes
    no run from a reachable state, whatever the input. *)
Lemma pruned_accepts_from D R w :
  dict_ok (transitions D) -> symbols_ok D ->
  remove_inaccessible_states D = Some R ->
  forall q, reachable_on D q -> accepts_from R q w = accepts_from D q w.
Proof.
  intros Hdict Hsym ER.
  destruct (remove_inaccessible_states_on D Hdict)
    as (R' & ER' & Hnd & Hst & Htr & Hf & Hstart & Halpha).
  rewrite ER in ER'. injection ER' as <-.
  induction w as [|a w IH]; simpl; intros q Hq.
  - rewrite Hf. apply Hst in Hq.
    destruct (mem_reflect q (final_states D)) as [Hin|Hin].
    + apply mem_In, filter_In. split; [assumption | now apply mem_In].
    + apply mem_not_In. intros Hc. apply filter_In in Hc. tauto.
  - destruct (lookup (q, a) (transitions D)) as [q'|] eqn:E.
    + assert (Ha : In a (alphabet D)) by (apply lookup_In in E; eauto).
      rewrite (pruned_lookup D Hdict R q a ER Hq Ha), E.
      apply IH. now apply (reachable_on_step D q a).
    + replace (lookup (q, a) (transitions R)) with (@None string);
        [reflexivity|].
      symmetry. apply lookup_None. apply lookup_None in E.
      intros Hin. apply E. rewrite Htr in Hin.
      apply in_map_iff in Hin as (e & Ee & Hin).
      apply filter_In in Hin as [Hin _]. rewrite <- Ee. now apply in_map.
Qed.

(** X2.  Pruning does not change what is accepted: the automaton that
    [remove_inaccessible_states] returns accepts the input strings over the
    alphabet that the automaton accepts, and every input string where every
    transition is on a symbol of the alphabet. *)
Theorem remove_inaccessible_states_accepts D :
  represented D ->
  exists R,
    remove_inaccessible_states D = Some R /\
    (forall s, over_alphabet D s -> accepts R s = accepts D s) /\
    (symbols_ok D -> forall s, accepts R s = accepts D s).
Proof.
  intros HD.
  destruct (remove_inaccessible_states_pruned D HD)
    as (R & ER & _ & _ & _ & Hstart).
  exists R. split; [assumption|]. split.
  - intros s Hs. unfold accepts. rewrite !accepts_from_behaviour, Hstart.
    f_equal. apply (pruned_behaviour_from D R _ HD ER); [constructor|exact Hs].
  - intros Hsym s. unfold accepts. rewrite Hstart.
    apply (pruned_accepts_from D R _ (proj2 HD) Hsym ER). constructor.
Qed.

(** The automaton of the second test is one instance. *)
Lemma remove_inaccessible_states_accepts_witness :
  represented with_inaccessible /\
  exists R,
    remove_inaccessible_states with_inaccessible = Some R /\
    (forall s, over_alphabet with_inaccessible s ->
               accepts R s = accepts with_inaccessible s) /\
    (symbols_ok with_inaccessible ->
     forall s, accepts R s = accepts with_inaccessible s).
Proof.
  assert (H : represented with_inaccessible)
    by (split; apply distinct_NoDup; reflexivity).
  split; [exact H | exact (remove_inaccessible_states_accepts _ H)].
Defined.

(** *** The quotient is an automaton on its own states *)

Lemma collect_NoDup {E K V} `{EqbSpec K} (kf : E -> K) (vf : E -> V) l :
  forall d0 : list (K * V),
    NoDup (map fst d0) ->
    NoDup (map fst (fold_left (fun d e => dict_set (kf e) (vf e) d) l d0)).
Proof.
  induction l as [|e l IH]; simpl; intros d0 Hnd; [assumption|].
  apply IH. now apply dict_set_NoDup.
Qed.

Section QuotientShape.
Variables (dfa : DFA) (P : partition_t).
Hypothesis Hpruned : pruned dfa.
Hypothesis HP : is_partition P.
Hypothesis Hunion : forall q, In q (concat P) <-> In q (states dfa).

Lemma quotient_state q : In q (states dfa) ->
  In (rep_of P q) (states (quotient dfa P)).
Proof. intros Hq. simpl. apply to_set_In. now apply in_map. Qed.

Lemma quotient_pruned : pruned (quotient dfa P).
Proof.
  constructor; simpl.
  - apply to_set_NoDup.
  - apply to_set_NoDup.
  - apply (collect_NoDup
             (fun e : string * string * string =>
                (rep_of P (fst (fst e)), snd (fst e)))
             (fun e => rep_of P (snd e))).
    constructor.
  - apply to_set_In, in_map, (pruned_start _ Hpruned).
  - intros r Hr. rewrite to_set_In in Hr.
    apply in_map_iff in Hr as (q & <- & Hq).
    apply to_set_In, in_map. now apply (pruned_final_incl _ Hpruned).
  - intros r a r' Hin.
    apply In_lookup in Hin.
    2:{ apply (collect_NoDup
                 (fun e : string * string * string =>
                    (rep_of P (fst (fst e)), snd (fst e)))
                 (fun e => rep_of P (snd e))).
        constructor. }
    apply (lookup_collect_inv
             (fun e : string * string * string =>
                (rep_of P (fst (fst e)), snd (fst e)))
             (fun e => rep_of P (snd e))) in Hin.
    destruct Hin as [([[q b] q'] & Hin & [= <- <-] & <-)|Hnil];
      [|discriminate].
    destruct (pruned_closed _ Hpruned _ _ _ Hin) as [Hq Hq']. simpl.
    split; apply to_set_In, in_map; assumption.
Qed.

End QuotientShape.

(** The minimized automaton is closed, like the pruned one. *)
Lemma minimize_pruned D :
  represented D ->
  exists M,
    minimize D = Some M /\ pruned M /\ alphabet M = alphabet D /\
    (forall q a q', In ((q, a), q') (transitions M) ->
       exists p p', In ((p, a), p') (transitions D)).
Proof.
  intros HD.
  destruct (minimize_cases D HD)
    as (R & ER & Hpr & Hst & Halpha & Hstart & Hcases).
  assert (Hsub : forall q a q', In ((q, a), q') (transitions R) ->
                                In ((q, a), q') (transitions D)).
  { destruct (remove_inaccessible_states_on D (proj2 HD))
      as (R' & ER' & _ & _ & Htr & _).
    rewrite ER in ER'. injection ER' as <-.
    intros q a q' Hin. rewrite Htr in Hin. now apply filter_In in Hin. }
  destruct Hcases
    as [[_ EM]|(_ & P & _ & HP & Hun & _ & Hfin & Hstab & EM)].
  - exists R. repeat (split; [assumption|]). eauto.
  - exists (quotient R P). split; [assumption|].
    split; [now apply quotient_pruned|]. split; [assumption|].
    intros r a r' Hin. simpl in Hin.
    apply In_lookup in Hin.
    2:{ apply (collect_NoDup
                 (fun e : string * string * string =>
                    (rep_of P (fst (fst e)), snd (fst e)))
                 (fun e => rep_of P (snd e))).
        constructor. }
    apply (lookup_collect_inv
             (fun e : string * string * string =>
                (rep_of P (fst (fst e)), snd (fst e)))
             (fun e => rep_of P (snd e))) in Hin.
    destruct Hin as [([[q b] q'] & Hin & [= <- <-] & <-)|Hnil];
      [|discriminate].
    eauto.
Qed.

(** X3.  [minimize] returns an automaton on its own states, whatever the
    states that the input names: its states, its final states and the keys
    of its transitions hold no duplicate, its start state and its final
    states are among its states, and so are both ends of every transition.
    Its alphabet is that of the input, and its transitions are on symbols
    on which the input has transitions. *)
Theorem minimize_closed D :
  represented D ->
  exists M,
    minimize D = Some M /\ pruned M /\ alphabet M = alphabet D /\
    (forall q a q', In ((q, a), q') (transitions M) ->
       exists p p', In ((p, a), p') (transitions D)).
Proof. exact (minimize_pruned D). Qed.

(** The automaton with a transition to a state that is not one of its
    states is one instance. *)
Lemma minimize_closed_witness :
  represented stray_state /\
  exists M,
    minimize stray_state = Some M /\ pruned M /\
    alphabet M = alphabet stray_state /\
    (forall q a q', In ((q, a), q') (transitions M) ->
       exists p p', In ((p, a), p') (transitions stray_state)).
Proof.
  assert (H : represented stray_state)
    by (split; apply distinct_NoDup; reflexivity).
  split; [exact H | exact (minimize_closed _ H)].
Defined.

(** *** Minimizing what is minimized *)

Lemma run_reachable_on D u :
  forall q, reachable_on D q -> word_over D u ->
            forall q', run D q u = Some q' -> reachable_on D q'.
Proof.
  induction u as [|a u IH]; simpl; intros q Hq Hu q' E.
  - now injection E as <-.
  - inversion Hu as [|? ? Ha Hu']; subst.
    destruct (lookup (q, a) (transitions D)) as [q1|] eqn:E1; [|discriminate].
    apply (IH q1); auto. now apply (reachable_on_step D q a).
Qed.

Lemma pruned_reachable M q : pruned M -> reachable_on M q -> In q (states M).
Proof.
  intros Hpr. induction 1 as [|q a q' _ _ _ E].
  - apply (pruned_start _ Hpr).
  - apply lookup_In in E. now apply (pruned_closed _ Hpr) in E.
Qed.

Lemma pruned_represented M : pruned M -> represented M.
Proof. intros Hpr. split; [apply (pruned_final _ Hpr) | apply (pruned_dict _ Hpr)]. Qed.

Lemma pruned_well_formed M : pruned M -> well_formed M.
Proof. intros Hpr. split; [apply (pruned_start _ Hpr) | apply (pruned_closed _ Hpr)]. Qed.

(** What [minimize] returns, with the facts about it put together. *)
Lemma minimize_result D :
  represented D ->
  exists M,
    minimize D = Some M /\ pruned M /\ alphabet M = alphabet D /\
    (forall w, word_over D w -> behaviour M w = behaviour D w) /\
    (forall r, In r (states M) ->
       exists u, word_over D u /\ run M (start_state M) u = Some r) /\
    (forall r1 r2, In r1 (states M) -> In r2 (states M) -> r1 <> r2 ->
       exists w, word_over D w /\
                 behaviour_from M r1 w <> behaviour_from M r2 w).
Proof.
  intros HD.
  destruct (minimize_states D HD) as (M & EM & _ & Hb & Hreach & Hdist).
  destruct (minimize_pruned D HD) as (M' & EM' & Hpr & Halpha & _).
  rewrite EM in EM'. injection EM' as <-.
  exists M. auto 10.
Qed.

(** X4.  Every state of the minimized automaton is accessible: the
    traversal of [get_accessible_states] on the automaton that [minimize]
    returns reaches all its states, and no other. *)
Theorem minimize_accessible D :
  represented D ->
  exists M accessible,
    minimize D = Some M /\
    get_accessible_states M = Some accessible /\
    forall q, In q accessible <-> In q (states M).
Proof.
  intros HD.
  destruct (minimize_result D HD) as (M & EM & Hpr & Halpha & _ & Hreach & _).
  destruct (get_accessible_states_spec M) as (acc & Eacc & _ & Hacc).
  exists M, acc. split; [assumption|]. split; [assumption|].
  intros q. rewrite Hacc. split; [now apply pruned_reachable|].
  intros Hq. destruct (Hreach q Hq) as (u & Hu & Eu).
  apply (run_reachable_on M u (start_state M)); [constructor | | assumption].
  unfold word_over in *. now rewrite Halpha.
Qed.

(** The automaton of the third test is one instance. *)
Lemma minimize_accessible_witness :
  represented with_equivalent /\
  exists M accessible,
    minimize with_equivalent = Some M /\
    get_accessible_states M = Some accessible /\
    forall q, In q accessible <-> In q (states M).
Proof.
  assert (H : represented with_equivalent)
    by (split; apply distinct_NoDup; reflexivity).
  split; [exact H | exact (minimize_accessible _ H)].
Defined.

(** X5.  Minimizing a second time merges nothing: [minimize] applied to
    the automaton that [minimize] returns gives an automaton with as many
    states. *)
Theorem minimize_twice D :
  represented D ->
  exists M M2,
    minimize D = Some M /\ minimize M = Some M2 /\
    length (states M2) = length (states M).
Proof.
  intros HD.
  destruct (minimize_result D HD)
    as (M & EM & Hpr & Halpha & Hb & Hreach & Hdist).
  destruct (minimize_result M (pruned_represented M Hpr))
    as (M2 & EM2 & Hpr2 & Halpha2 & Hb2 & Hreach2 & Hdist2).
  exists M, M2. split; [assumption|]. split; [assumption|].
  apply Nat.le_antisymm.
  - apply (count_states M2 M (alphabet M)); auto.
    + apply (pruned_states _ Hpr2).
    + now apply pruned_well_formed.
    + intros w Hw. symmetry. now apply Hb2.
  - apply (count_states M M2 (alphabet D)); auto.
    + apply (pruned_states _ Hpr).
    + now apply pruned_well_formed.
    + intros w Hw. apply Hb2. unfold word_over. now rewrite Halpha.
Qed.

(** The automaton of the third test is one instance. *)
Lemma minimize_twice_witness :
  represented with_equivalent /\
  exists M M2,
    minimize with_equivalent = Some M /\ minimize M = Some M2 /\
    length (states M2) = length (states M).
Proof.
  assert (H : represented with_equivalent)
    by (split; apply distinct_NoDup; reflexivity).
  split; [exact H | exact (minimize_twice _ H)].
Defined.

(** *** The names of the states *)

Lemma representative_NoDup n : NoDup (map representative (seq 0 n)).
Proof.
  apply NoDup_map_NoDup_ForallPairs; [|apply seq_NoDup].
  intros i j _ _. apply representative_inj.
Qed.

(** The representatives of the states of a partition are numbered by its
    groups. *)
Lemma representatives_of_partition (P : partition_t) (l : list string) :
  is_partition P -> (forall q, In q (concat P) <-> In q l) ->
  forall r, In r (map (rep_of P) l)
            <-> In r (map representative (seq 0 (length P))).
Proof.
  intros HP Hun r.
  pose proof (proj1 (proj1 (is_partition_iff P) HP)) as Hnd.
  rewrite !in_map_iff. split.
  - intros (q & <- & Hq). apply Hun in Hq.
    destruct (rep_of_spec P q Hnd Hq) as (i & Ei & _ & ->).
    exists i. split; [reflexivity|]. apply in_seq.
    destruct (find_group_Some _ _ _ _ Ei) as (_ & g & Eg & _).
    rewrite Nat.sub_0_r in Eg.
    assert (Hlt : i < length P) by (apply nth_error_Some; congruence). lia.
  - intros (i & <- & Hi). apply in_seq in Hi.
    destruct (nth_error P i) as [g|] eqn:Eg;
      [|apply nth_error_None in Eg; lia].
    destruct HP as [Hgroups _].
    destruct (Hgroups g (nth_error_In _ _ Eg)) as [Hne _].
    destruct g as [|q g]; [congruence|].
    assert (Hq : In q (concat P)).
    { apply in_concat. exists (q :: g).
      split; [now apply (nth_error_In _ i) | now left]. }
    exists q. split; [|now apply Hun].
    destruct (rep_of_spec P q Hnd Hq) as (j & Ej & _ & ->).
    rewrite (find_group_nth P q Hnd i (q :: g) Eg) in Ej by now left.
    now injection Ej as <-.
Qed.

(** X6.  The names of the states of the minimized automaton: where the
    traversal finds the start state alone, [minimize] returns the pruned
    automaton, whose one state is the start state under its own name;
    otherwise its [n] states are named q0, ..., q(n-1), with the start
    state among them. *)
Theorem minimize_state_names D :
  represented D ->
  exists R M,
    remove_inaccessible_states D = Some R /\ minimize D = Some M /\
    (length (states R) <= 1 -> M = R /\ states M = [start_state D]) /\
    (1 < length (states R) ->
     Permutation (states M)
                 (map representative (seq 0 (length (states M)))) /\
     exists i, i < length (states M) /\ start_state M = representative i).
Proof.
  intros HD.
  destruct (minimize_cases D HD)
    as (R & ER & Hpr & Hst & Halpha & Hstart & Hcases).
  destruct Hcases
    as [[Hle EM]|(Hgt & P & _ & HP & Hun & _ & Hfin & Hstab & EM)].
  - exists R, R. split; [assumption|]. split; [assumption|].
    split; [|intros; lia]. intros _. split; [reflexivity|].
    pose proof (pruned_start _ Hpr) as Hin. rewrite Hstart in Hin.
    destruct (states R) as [|x [|y l]]; simpl in *; [tauto | | lia].
    destruct Hin as [->|[]]. reflexivity.
  - exists R, (quotient R P). split; [assumption|]. split; [assumption|].
    split; [intros; lia|]. intros _.
    assert (Hperm : Permutation (states (quotient R P))
                                (map representative (seq 0 (length P)))).
    { apply NoDup_Permutation;
        [apply to_set_NoDup | apply representative_NoDup |].
      intros r. simpl. rewrite to_set_In.
      now apply representatives_of_partition. }
    assert (Hlen : length (states (quotient R P)) = length P).
    { rewrite (Permutation_length Hperm). now rewrite length_map, length_seq. }
    rewrite Hlen. split; [assumption|].
    assert (Hs : In (start_state (quotient R P))
                    (map representative (seq 0 (length P)))).
    { apply (representatives_of_partition P (states R) HP Hun).
      change (start_state (quotient R P)) with (rep_of P (start_state R)).
      apply in_map, (pruned_start _ Hpr). }
    apply in_map_iff in Hs as (i & Ei & Hi). apply in_seq in Hi.
    exists i. split; [lia | now symmetry].
Qed.

(** The automaton of the first test is one instance. *)
Lemma minimize_state_names_witness :
  represented ends_with_01 /\
  exists R M,
    remove_inaccessible_states ends_with_01 = Some R /\
    minimize ends_with_01 = Some M /\
    (length (states R) <= 1 ->
     M = R /\ states M = [start_state ends_with_01]) /\
    (1 < length (states R) ->
     Permutation (states M)
                 (map representative (seq 0 (length (states M)))) /\
     exists i, i < length (states M) /\ start_state M = representative i).
Proof.
  assert (H : represented ends_with_01)
    by (split; apply distinct_NoDup; reflexivity).
  split; [exact H | exact (minimize_state_names _ H)].
Defined.

(** *** Missing transitions *)

(** X7.  [minimize] returns an automaton without missing transitions
    exactly when no transition on a symbol of the alphabet is missing at a
    state that the traversal of the input reaches. *)
Theorem minimize_total D :
  represented D ->
  exists M,
    minimize D = Some M /\
    (total (alphabet M) M <-> total_on_reachable D).
Proof.
  intros HD.
  destruct (minimize_cases D HD)
    as (R & ER & Hpr & Hst & Halpha & Hstart & Hcases).
  assert (HR : total (alphabet R) R <-> total_on_reachable D).
  { unfold total, total_on_reachable. rewrite Halpha.
    split; intros Htot q a Hq Ha.
    - rewrite <- (pruned_lookup D (proj2 HD) R q a ER Hq Ha).
      apply Htot; [now apply Hst | assumption].
    - apply Hst in Hq.
      rewrite (pruned_lookup D (proj2 HD) R q a ER Hq Ha). now apply Htot. }
  destruct Hcases
    as [[Hle EM]|(Hgt & P & _ & HP & Hun & _ & Hfin & Hstab & EM)].
  - exists R. now split.
  - exists (quotient R P). split; [assumption|]. rewrite <- HR.
    unfold total. split; intros Htot q a Hq Ha.
    + pose proof (Htot (rep_of P q) a (quotient_state R P q Hq) Ha) as H1.
      rewrite (quotient_step R P Hpr HP Hun Hstab q a Hq Ha) in H1.
      now destruct (lookup (q, a) (transitions R)).
    + simpl in Hq. rewrite to_set_In in Hq.
      apply in_map_iff in Hq as (p & <- & Hp).
      rewrite (quotient_step R P Hpr HP Hun Hstab p a Hp Ha).
      specialize (Htot p a Hp Ha).
      now destruct (lookup (p, a) (transitions R)).
Qed.

(** The automaton with a dead end is one instance. *)
Lemma minimize_total_witness :
  represented dead_end /\
  exists M,
    minimize dead_end = Some M /\
    (total (alphabet M) M <-> total_on_reachable dead_end).
Proof.
  assert (H : represented dead_end)
    by (split; apply distinct_NoDup; reflexivity).
  split; [exact H | exact (minimize_total _ H)].
Defined.

(** *** States without a group *)

Lemma omap_None {A B} (f : A -> option B) l :
  omap f l = None <-> exists x, In x l /\ f x = None.
Proof.
  induction l as [|x l IH]; simpl.
  - split; [discriminate | intros (x & [] & _)].
  - destruct (f x) as [y|] eqn:E; simpl.
    + destruct (omap f l) as [ys|]; simpl.
      * split; [discriminate|].
        intros (x' & [<-|Hx'] & E'); [congruence|].
        assert (Hc : Some ys = None) by (apply (proj2 IH); eauto).
        discriminate.
      * split; [|reflexivity]. intros _.
        destruct (proj1 IH eq_refl) as (x' & Hx' & E'). eauto.
    + split; [|reflexivity]. intros _. eauto.
Qed.

Lemma ofold_None {A S} (f : S -> A -> option S) (bad : A -> Prop) l :
  (forall s x, In x l -> (f s x = None <-> bad x)) ->
  forall s, ofold f l s = None <-> exists x, In x l /\ bad x.
Proof.
  induction l as [|x l IH]; simpl; intros Hf s.
  - split; [discriminate | intros (x & [] & _)].
  - destruct (f s x) as [s'|] eqn:E; simpl.
    + rewrite IH by (intros; apply Hf; now right). split.
      * intros (x' & Hx' & Hb). eauto.
      * intros (x' & [<-|Hx'] & Hb); [|eauto].
        apply (Hf s x (or_introl eq_refl)) in Hb. congruence.
    + split; [|reflexivity]. intros _. exists x. split; [now left|].
      now apply (Hf s x (or_introl eq_refl)).
Qed.

(** [state_map] has a key for a state exactly when a group holds it. *)
Lemma lookup_state_map_None (P : partition_t) q :
  lookup q (build_state_map P) = None <-> ~ In q (concat P).
Proof.
  unfold build_state_map, enumerate.
  enough (G : forall i (sm : list (string * string)),
            lookup q
              (fold_left
                 (fun state_map '(i, group) =>
                    fold_left
                      (fun state_map state =>
                         dict_set state (representative i) state_map)
                      group state_map)
                 (enumerate_from i P) sm) = None
            <-> lookup q sm = None /\ ~ In q (concat P)).
  { rewrite G. simpl. tauto. }
  induction P as [|g P IH]; simpl; intros i sm; [tauto|].
  rewrite IH, lookup_fill_group, in_app_iff.
  destruct (mem_reflect q g) as [Hq|Hq].
  - split; [intros [[=] _] | tauto].
  - tauto.
Qed.

(** X8.  [create_minimized_dfa] raises [KeyError] exactly when the
    automaton names a state (as a state, as the start state, as a final
    state or at an end of a transition) that no group of the partition
    holds. *)
Theorem create_minimized_dfa_raises dfa P :
  create_minimized_dfa dfa P = None
  <-> exists q, mentioned dfa q /\ ~ In q (concat P).
Proof.
  unfold create_minimized_dfa.
  set (sm := build_state_map P).
  assert (Hsm : forall q, lookup q sm = None <-> ~ In q (concat P))
    by (intros q; apply lookup_state_map_None).
  pose proof (omap_None (fun state => lookup state sm) (states dfa)) as H1.
  pose proof (omap_None (fun state => lookup state sm) (final_states dfa))
    as H4.
  assert (H2 : forall d,
            ofold
              (fun new_transitions '(state, symbol, next_state) =>
                 v <- lookup next_state sm ;;
                 k <- lookup state sm ;;
                 Some (dict_set (k, symbol) v new_transitions))
              (transitions dfa) d = None
            <-> exists e, In e (transitions dfa) /\
                          (~ In (fst (fst e)) (concat P) \/
                           ~ In (snd e) (concat P))).
  { apply ofold_None. intros d [[q a] q'] _. simpl. rewrite <- !Hsm.
    destruct (lookup q' sm), (lookup q sm); simpl;
      intuition congruence. }
  destruct (omap (fun state => lookup state sm) (states dfa))
    as [new_states|]; simpl.
  2:{ split; [|reflexivity]. intros _.
      destruct (proj1 H1 eq_refl) as (q & Hq & E).
      exists q. split; [now left | now apply Hsm]. }
  destruct (ofold _ (transitions dfa) []) as [new_transitions|] eqn:E2; simpl.
  2:{ split; [|reflexivity]. intros _.
      destruct (proj1 (H2 []) E2) as ([[q a] q'] & Hin & [Hq|Hq]); simpl in Hq.
      - exists q. split; [|assumption]. right. right. right. exists a, q'.
        now left.
      - exists q'. split; [|assumption]. right. right. right. exists a, q.
        now right. }
  destruct (lookup (start_state dfa) sm) as [new_start_state|] eqn:E3; simpl.
  2:{ split; [|reflexivity]. intros _. exists (start_state dfa).
      split; [right; now left | now apply Hsm]. }
  destruct (omap (fun state => lookup state sm) (final_states dfa))
    as [new_final_states|]; simpl.
  2:{ split; [|reflexivity]. intros _.
      destruct (proj1 H4 eq_refl) as (q & Hq & E).
      exists q. split; [right; right; now left | now apply Hsm]. }
  split; [discriminate|]. intros (q & Hq & Hnot). exfalso.
  apply Hsm in Hnot.
  destruct Hq as [Hq|[->|[Hq|(a & q' & [Hin|Hin])]]].
  - assert (E : Some new_states = None) by (apply H1; eauto). discriminate.
  - congruence.
  - assert (E : Some new_final_states = None) by (apply H4; eauto).
    discriminate.
  - assert (E : Some new_transitions = None).
    { rewrite <- E2. apply H2. exists ((q, a), q'). split; [assumption|].
      left. now apply Hsm. }
    discriminate.
  - assert (E : Some new_transitions = None).
    { rewrite <- E2. apply H2. exists ((q', a), q). split; [assumption|].
      right. now apply Hsm. }
    discriminate.
Qed.

End DfaShape.

(** ** One pass of refinement, and the loop *)

Module DfaPasses.
Import DfaMinimizer DfaSpec DfaAccessible DfaRefine DfaQuotient DfaMinimize.
Import DfaExamples.

(** The loop stops at a partition that a pass leaves as it is. *)
Lemma refine_loop_fixed dfa fuel :
  forall P P', refine_loop fuel dfa P = Some P' ->
               partition_eqb (refine_partition dfa P') P' = true.
Proof.
  induction fuel as [|fuel IH]; simpl; intros P P' E; [discriminate|].
  destruct (partition_eqb (refine_partition dfa P) P) eqn:Eq.
  - now injection E as <-.
  - now apply (IH (refine_partition dfa P)).
Qed.

(** X9.  A pass of [refine_partition] over a partition never lowers the
    number of groups, which stays at most the number of states in the
    groups, and it leaves the partition as it is ([new_partition ==
    partition]) exactly when the number of groups stays the same.  So the
    loop of [minimize] ends once it has made as many passes as there are
    states beyond the groups at its start, and one more, with a partition
    that a pass leaves as it is. *)
Theorem refine_partition_count dfa P :
  is_partition P ->
  length P <= length (refine_partition dfa P) /\
  length (refine_partition dfa P) <= length (union P) /\
  (partition_eqb (refine_partition dfa P) P = true
   <-> length (refine_partition dfa P) = length P) /\
  (forall fuel, length (union P) < fuel + length P ->
     exists P', refine_loop fuel dfa P = Some P' /\
                partition_eqb (refine_partition dfa P') P' = true).
Proof.
  intros HP.
  destruct (refine_partition_spec dfa P HP) as (HP' & Hperm & _ & Hle).
  split; [assumption|]. split; [|split].
  - unfold union. rewrite <- (Permutation_length Hperm).
    apply partition_length_le. intros g Hg. now apply HP'.
  - split; [apply partition_eqb_length|]. intros Hlen.
    destruct (partition_eqb (refine_partition dfa P) P) eqn:E; [reflexivity|].
    pose proof (refine_partition_grows dfa P HP E). lia.
  - intros fuel Hfuel.
    destruct (refine_loop_spec dfa fuel P HP Hfuel) as (P' & E & _).
    exists P'. split; [assumption|]. now apply (refine_loop_fixed dfa fuel P).
Qed.

(** The partition of the states of the first test into accepting and
    non-accepting states is one instance. *)
Lemma refine_partition_count_witness :
  is_partition ends_with_01_groups /\
  length ends_with_01_groups
  <= length (refine_partition ends_with_01 ends_with_01_groups) /\
  length (refine_partition ends_with_01 ends_with_01_groups)
  <= length (union ends_with_01_groups) /\
  (partition_eqb (refine_partition ends_with_01 ends_with_01_groups)
                 ends_with_01_groups = true
   <-> length (refine_partition ends_with_01 ends_with_01_groups)
       = length ends_with_01_groups) /\
  (forall fuel, length (union ends_with_01_groups)
                < fuel + length ends_with_01_groups ->
     exists P', refine_loop fuel ends_with_01 ends_with_01_groups = Some P' /\
                partition_eqb (refine_partition ends_with_01 P') P' = true).
Proof.
  assert (H : is_partition ends_with_01_groups).
  { apply is_partition_iff. split.
    - apply distinct_NoDup. reflexivity.
    - intros g [<-|[<-|[]]]; discriminate. }
  split; [exact H | exact (refine_partition_count ends_with_01 _ H)].
Defined.

(** X10.  Two states of a group stay together in a pass of
    [refine_partition] exactly when their signatures are equal: where the
    groups hold the successors, when on every symbol of the alphabet both
    have no transition, or both have one and the successors are in the
    same group. *)
Theorem refine_partition_signature dfa P g p q :
  is_partition P -> In g P -> In p g -> In q g ->
  ((exists h, In h (refine_partition dfa P) /\ In p h /\ In q h)
   <-> signature dfa P p = signature dfa P q) /\
  ((forall s a s', lookup (s, a) (transitions dfa) = Some s' ->
                   In s' (concat P)) ->
   (signature dfa P p = signature dfa P q
    <-> forall a, In a (alphabet dfa) ->
          match lookup (p, a) (transitions dfa),
                lookup (q, a) (transitions dfa) with
          | None, None => True
          | Some p', Some q' => find_group 0 P p' = find_group 0 P q'
          | _, _ => False
          end)).
Proof.
  intros HP Hg Hp Hq. split.
  - split.
    + intros (h & Hh & Hph & Hqh). unfold refine_partition in Hh.
      apply in_flat_map in Hh as (g' & Hg' & Hh).
      destruct HP as [Hgroups _].
      destruct (split_group_spec dfa P g' (proj2 (Hgroups g' Hg')))
        as (_ & Hsub).
      destruct (Hsub h Hh) as (_ & _ & Hsame & _). now apply Hsame.
    + intros Esig. destruct HP as [Hgroups _].
      destruct (split_group_spec dfa P g (proj2 (Hgroups g Hg)))
        as (Hperm & Hsub).
      assert (Hin : In p (concat (split_group dfa P g)))
        by (apply (Permutation_in _ (Permutation_sym Hperm)); assumption).
      apply in_concat in Hin as (h & Hh & Hph).
      exists h. split; [|split; [assumption|]].
      * unfold refine_partition. apply in_flat_map. eauto.
      * destruct (Hsub h Hh) as (_ & _ & _ & Hfull). now apply (Hfull p).
  - intros Hcl.
    rewrite !signature_map by (intros a s'; apply Hcl).
    rewrite map_pair_eq. unfold code.
    split; intros H a Ha; specialize (H a Ha);
      destruct (lookup (p, a) (transitions dfa)) as [p'|] eqn:Ep,
               (lookup (q, a) (transitions dfa)) as [q'|] eqn:Eq;
      try tauto; try lia.
    + destruct (find_group_In P p' (Hcl _ _ _ Ep)) as (i & Ei).
      destruct (find_group_In P q' (Hcl _ _ _ Eq)) as (j & Ej).
      rewrite Ei, Ej in *. f_equal. lia.
    + destruct (find_group_In P p' (Hcl _ _ _ Ep)) as (i & Ei). rewrite Ei in H.
      lia.
    + destruct (find_group_In P q' (Hcl _ _ _ Eq)) as (j & Ej). rewrite Ej in H.
      lia.
    + now rewrite H.
Qed.

(** Two states of the first test that a pass keeps together are one
    instance. *)
Lemma refine_partition_signature_witness :
  is_partition ends_with_01_groups /\
  In ["q0"; "q1"; "q3"] ends_with_01_groups /\
  ((exists h, In h (refine_partition ends_with_01 ends_with_01_groups) /\
              In "q0" h /\ In "q3" h)
   <-> signature ends_with_01 ends_with_01_groups "q0"
       = signature ends_with_01 ends_with_01_groups "q3") /\
  ((forall s a s', lookup (s, a) (transitions ends_with_01) = Some s' ->
                   In s' (concat ends_with_01_groups)) ->
   (signature ends_with_01 ends_with_01_groups "q0"
    = signature ends_with_01 ends_with_01_groups "q3"
    <-> forall a, In a (alphabet ends_with_01) ->
          match lookup ("q0", a) (transitions ends_with_01),
                lookup ("q3", a) (transitions ends_with_01) with
          | None, None => True
          | Some p', Some q' =>
              find_group 0 ends_with_01_groups p'
              = find_group 0 ends_with_01_groups q'
          | _, _ => False
          end)).
Proof.
  assert (H : is_partition ends_with_01_groups).
  { apply is_partition_iff. split.
    - apply distinct_NoDup. reflexivity.
    - intros g [<-|[<-|[]]]; discriminate. }
  split; [exact H|]. split; [right; now left|].
  apply (refine_partition_signature ends_with_01 ends_with_01_groups
           ["q0"; "q1"; "q3"] "q0" "q3" H).
  - right. now left.
  - now left.
  - right. right. now left.
Defined.

End DfaPasses.

(** ** The converter on the grammars of its tests *)

Module CfgEval.
Import CfgToCnf CfgSpec CfgExamples.

(** C1.  On the grammar of [test_simple_cfg_conversion], S -> aA | B,
    A -> SB | aAa, B -> b | epsilon, whatever the order of its variables,
    [convert_to_cnf] returns a grammar that is not in Chomsky normal form:
    its start symbol is the original S, the empty body is kept at B and at
    S, and the body aA of S keeps its terminal. *)
Theorem convert_to_cnf_simple_not_cnf :
  Forall
    (fun vs =>
       exists g self',
         convert_to_cnf (init (simple_with vs)) = Some (g, self') /\
         start_symbol g = "S" /\
         has_epsilon g "B" /\ has_epsilon g "S" /\
         In "aA" (bodies_of g "S") /\
         cnf_body g "aA" = false /\ cnf_body_names g "aA" = false /\
         cnf_grammar g = false)
    simple_orders.
Proof.
  repeat constructor;
    (eexists; eexists; split; [vm_compute; reflexivity|];
     repeat split; vm_compute; auto 10).
Qed.

(** The grammar that step 1 returns is bound to [cfg] and never read: step 2
    is run on the converter alone. *)
Lemma first_two_steps_unfold self :
  first_two_steps self
  = match eliminate_epsilon_productions self with
    | Some (_, self1) => eliminate_unit_productions self1
    | None => None
    end.
Proof.
  unfold first_two_steps, bind.
  destruct (eliminate_epsilon_productions self) as [[g1 self1]|];
    [|reflexivity].
  destruct (eliminate_unit_productions self1) as [[g2 self2]|]; reflexivity.
Qed.

(** C3.  On the grammar of [test_simple_cfg_conversion], whatever the order
    of its variables, the grammar after the first two steps of
    [convert_to_cnf] has the original start symbol S and the empty body at
    B: unit-production elimination was run on the original productions and
    not on the grammar that epsilon elimination returned, whose start symbol
    is the synthesized X0 and whose B has no empty body. *)
Theorem first_two_steps_keep_epsilon :
  Forall
    (fun vs =>
       exists g self',
         first_two_steps (init (simple_with vs)) = Some (g, self') /\
         start_symbol g = "S" /\ has_epsilon g "B" /\
         exists g1 self1,
           eliminate_epsilon_productions (init (simple_with vs))
           = Some (g1, self1) /\
           start_symbol g1 = "X0" /\ ~ has_epsilon g1 "B" /\
           productions (cfg self1) = productions (simple_with vs) /\
           eliminate_unit_productions self1 = Some (g, self'))
    simple_orders.
Proof.
  repeat constructor;
    (eexists; eexists; split; [vm_compute; reflexivity|];
     split; [reflexivity|]; split; [vm_compute; auto|];
     eexists; eexists; split; [vm_compute; reflexivity|];
     split; [reflexivity|]; split; [vm_compute; intuition discriminate|];
     split; reflexivity).
Qed.

(** C8.  On the grammar of [test_long_production_breakdown], S -> abcd,
    [convert_to_cnf] makes four variables for the terminals, X0 to X3, and
    eight more, X4 to X11: two for the body abcd, which is kept, and six for
    its copy X0X1X2X3, which is broken up character by character.  The
    bodies of S are aX4 and XX6. *)
Theorem convert_to_cnf_long :
  convert_to_cnf (init long_test)
  = Some
      (mkCFG
         ["S"; "X0"; "X1"; "X2"; "X3"; "X4"; "X5"; "X6"; "X7"; "X8"; "X9";
          "X10"; "X11"]
         ["a"; "b"; "c"; "d"]
         [ ("S", ["aX4"; "XX6"]); ("X0", ["a"]); ("X1", ["b"]);
           ("X2", ["c"]); ("X3", ["d"]); ("X4", ["X4X5"]); ("X5", ["cd"]);
           ("X6", ["X6X7"]); ("X7", ["X7X8"]); ("X8", ["X8X9"]);
           ("X9", ["X9X10"]); ("X10", ["X10X11"]); ("X11", ["X3"]) ]
         "S",
       mkCNFConverter long_test 12
         [("a", "X0"); ("b", "X1"); ("c", "X2"); ("d", "X3")]).
Proof. vm_compute. reflexivity. Qed.

End CfgEval.

(** ** Reasoning about the methods of a converter *)

Module CfgMonad.
Import CfgToCnf CfgSpec.
Local Open Scope conv_scope.

Lemma bind_Some {A B} (m : M A) (f : A -> M B) self b self' :
  bind m f self = Some (b, self') <->
  exists a self1, m self = Some (a, self1) /\ f a self1 = Some (b, self').
Proof.
  unfold bind. destruct (m self) as [[a self1]|].
  - split; [intros E; now exists a, self1|].
    intros (a' & s' & [= <- <-] & E). exact E.
  - split; [discriminate | intros (a' & s' & E & _); discriminate].
Qed.

Lemma lift_Some {A} (o : option A) self a self' :
  lift o self = Some (a, self') <-> o = Some a /\ self' = self.
Proof.
  unfold lift. destruct o as [x|]; split.
  - intros [= <- <-]. auto.
  - intros [[= <-] ->]. reflexivity.
  - discriminate.
  - intros [E _]. discriminate.
Qed.

(** A loop that keeps an invariant returns, and with the invariant. *)
Lemma for_each_returns {A S} (I : S -> CNFConverter -> Prop)
    (body : S -> A -> M S) l :
  (forall st x self, In x l -> I st self ->
     exists st' self', body st x self = Some (st', self') /\ I st' self') ->
  forall st self, I st self ->
    exists st' self',
      for_each l body st self = Some (st', self') /\ I st' self'.
Proof.
  induction l as [|x l IH]; simpl; intros Hbody st self HI.
  - exists st, self. now split.
  - destruct (Hbody st x self (or_introl eq_refl) HI)
      as (st1 & self1 & E1 & H1).
    destruct (IH (fun st y s Hy => Hbody st y s (or_intror Hy)) st1 self1 H1)
      as (st' & self' & E' & H').
    exists st', self'. split; [|assumption]. unfold bind. now rewrite E1.
Qed.

(** What a loop that has returned kept. *)
Lemma for_each_keeps {A S} (I : S -> CNFConverter -> Prop)
    (body : S -> A -> M S) l :
  (forall st x self st' self', In x l -> I st self ->
     body st x self = Some (st', self') -> I st' self') ->
  forall st self st' self', I st self ->
    for_each l body st self = Some (st', self') -> I st' self'.
Proof.
  induction l as [|x l IH]; simpl; intros Hbody st self st' self' HI E.
  - injection E as <- <-. assumption.
  - apply bind_Some in E as (st1 & self1 & E1 & E2).
    apply (IH (fun st y s st' s' Hy => Hbody st y s st' s' (or_intror Hy))
              st1 self1); [|assumption].
    now apply (Hbody st x self st1 self1 (or_introl eq_refl)).
Qed.

Lemma ofold_returns {A S} (I : S -> Prop) (f : S -> A -> option S) l :
  (forall s x, In x l -> I s -> exists s', f s x = Some s' /\ I s') ->
  forall s, I s -> exists s', ofold f l s = Some s' /\ I s'.
Proof.
  induction l as [|x l IH]; simpl; intros Hf s HI.
  - now exists s.
  - destruct (Hf s x (or_introl eq_refl) HI) as (s1 & E1 & H1).
    rewrite E1. simpl. apply IH; [|assumption].
    intros s2 y Hy. apply Hf. now right.
Qed.

Lemma ofold_keeps {A S} (I : S -> Prop) (f : S -> A -> option S) l :
  (forall s x s', In x l -> I s -> f s x = Some s' -> I s') ->
  forall s s', I s -> ofold f l s = Some s' -> I s'.
Proof.
  induction l as [|x l IH]; simpl; intros Hf s s' HI E.
  - now injection E as <-.
  - apply obind_Some in E as (s1 & E1 & E2).
    apply (IH (fun s y s' Hy => Hf s y s' (or_intror Hy)) s1); [|assumption].
    now apply (Hf s x s1 (or_introl eq_refl)).
Qed.

End CfgMonad.

(** ** Fresh variables *)

Module CfgFresh.
Import CfgToCnf CfgSpec CfgMonad.

Lemma fresh_name_inj i j : fresh_name i = fresh_name j -> i = j.
Proof. unfold fresh_name. intros [= E]. now apply str_of_nat_inj. Qed.

(** Among [length vars + 1] consecutive names one is not in [vars]. *)
Lemma fresh_name_exists (vars : list string) (c : nat) :
  exists k, k <= length vars /\ ~ In (fresh_name (c + k)) vars.
Proof.
  assert (Hsearch : forall n,
            (forall k, k < n -> In (fresh_name (c + k)) vars) \/
            (exists k, k < n /\ ~ In (fresh_name (c + k)) vars)).
  { induction n as [|n [IH|(k & Hk & Hn)]].
    - left. intros k Hk. lia.
    - destruct (in_dec string_dec (fresh_name (c + n)) vars) as [Hin|Hnin].
      + left. intros k Hk. destruct (Nat.eq_dec k n) as [->|]; [assumption|].
        apply IH. lia.
      + right. exists n. split; [lia | assumption].
    - right. exists k. split; [lia | assumption]. }
  destruct (Hsearch (S (length vars))) as [Hall|(k & Hk & Hn)].
  - exfalso.
    assert (Hlen : length (map (fun k => fresh_name (c + k))
                               (seq 0 (S (length vars))))
                   <= length vars).
    { apply NoDup_incl_length.
      - apply NoDup_map_NoDup_ForallPairs; [|apply seq_NoDup].
        intros i j _ _ E. apply fresh_name_inj in E. lia.
      - intros x Hx. apply in_map_iff in Hx as (k & <- & Hk).
        apply in_seq in Hk. apply Hall. lia. }
    rewrite length_map, length_seq in Hlen. lia.
  - exists k. split; [lia | assumption].
Qed.

Lemma generate_new_variable_loop_spec fuel :
  forall self k,
    k < fuel ->
    ~ In (fresh_name (new_var_counter self + k)) (variables (cfg self)) ->
    exists j,
      j <= k /\
      ~ In (fresh_name (new_var_counter self + j)) (variables (cfg self)) /\
      generate_new_variable_loop fuel self
      = Some (fresh_name (new_var_counter self + j),
              mkCNFConverter (cfg self) (S (new_var_counter self + j))
                             (terminal_to_var self)).
Proof.
  induction fuel as [|fuel IH]; intros self k Hk Hfresh; [lia|].
  simpl. destruct (mem_reflect (fresh_name (new_var_counter self))
                               (variables (cfg self))) as [Hin|Hnin].
  - destruct k as [|k]; [now rewrite Nat.add_0_r in Hfresh|].
    destruct (IH (mkCNFConverter (cfg self) (S (new_var_counter self))
                                 (terminal_to_var self)) k)
      as (j & Hj & Hfj & E); simpl; [lia | | ].
    + now rewrite Nat.add_succ_r in Hfresh.
    + simpl in *. exists (S j). rewrite !Nat.add_succ_r. split; [lia|].
      split; assumption.
  - exists 0. rewrite Nat.add_0_r. split; [lia|]. split; [assumption|].
    reflexivity.
Qed.

(** [generate_new_variable] returns a name that is not among the variables
    of the grammar; it moves the counter on and leaves the rest of the
    converter as it is. *)
Lemma generate_new_variable_spec self :
  exists j,
    ~ In (fresh_name (new_var_counter self + j)) (variables (cfg self)) /\
    generate_new_variable self
    = Some (fresh_name (new_var_counter self + j),
            mkCNFConverter (cfg self) (S (new_var_counter self + j))
                           (terminal_to_var self)).
Proof.
  destruct (fresh_name_exists (variables (cfg self)) (new_var_counter self))
    as (k & Hk & Hfresh).
  destruct (generate_new_variable_loop_spec
              (S (length (variables (cfg self)))) self k)
    as (j & _ & Hj & E); [lia | assumption |].
  exists j. split; assumption.
Qed.

End CfgFresh.

(** ** Epsilon elimination *)

Module CfgEpsilon.
Import CfgToCnf CfgSpec CfgMonad CfgFresh.

(** *** Dicts of bodies *)

Lemma dict_of_fold {V} (v : string -> V) keys :
  forall d0 : list (string * V),
    NoDup (map fst d0) ->
    let d := fold_left (fun d var => dict_set var (v var) d) keys d0 in
    NoDup (map fst d) /\
    (forall k, In k (map fst d) <-> In k (map fst d0) \/ In k keys) /\
    (forall k, In k keys -> lookup k d = Some (v k)) /\
    (forall k, ~ In k keys -> lookup k d = lookup k d0).
Proof.
  induction keys as [|x keys IH]; simpl; intros d0 Hnd.
  - repeat split; auto; try tauto.
  - destruct (IH (dict_set x (v x) d0) (dict_set_NoDup _ _ _ Hnd))
      as (H1 & H2 & H3 & H4).
    split; [assumption|]. split; [|split].
    + intros k. rewrite H2, dict_set_keys_In. intuition.
    + intros k [<-|Hk].
      * destruct (in_dec string_dec x keys) as [Hin|Hnin]; [auto|].
        rewrite H4 by assumption. apply lookup_dict_set_eq.
      * auto.
    + intros k Hk. rewrite H4 by tauto. apply lookup_dict_set_neq.
      intros ->. tauto.
Qed.

Lemma dict_of_spec {V} (v : string -> V) keys :
  NoDup (map fst (dict_of v keys)) /\
  (forall k, In k (map fst (dict_of v keys)) <-> In k keys) /\
  (forall k, In k keys -> lookup k (dict_of v keys) = Some (v k)).
Proof.
  destruct (dict_of_fold v keys [] (NoDup_nil _)) as (H1 & H2 & H3 & _).
  split; [assumption|]. split; [|assumption].
  intros k. rewrite H2. simpl. tauto.
Qed.

Lemma bodies_in_set (d : list (string * list string)) k k' body :
  bodies_in (dict_set k' body d) k
  = if eqb k k' then body else bodies_in d k.
Proof.
  unfold bodies_in. rewrite lookup_dict_set. now destruct (eqb k k').
Qed.

(** [if prod not in d[A]: d[A].append(prod)] where [A] is a key. *)
Lemma add_body_spec A prod (d : list (string * list string)) :
  In A (map fst d) ->
  exists body d',
    lookup A d = Some body /\
    add_body A prod d = Some d' /\
    map fst d' = map fst d /\
    lookup A d' = Some (if mem prod body then body else body ++ [prod]) /\
    (forall k, k <> A -> lookup k d' = lookup k d).
Proof.
  intros HA. destruct (In_key_lookup _ _ HA) as (body & E).
  exists body. unfold add_body. rewrite E. simpl.
  destruct (mem prod body) eqn:Em.
  - exists d. repeat split; auto.
  - exists (dict_set A (body ++ [prod]) d). repeat split; auto.
    + now apply dict_set_keys_present.
    + apply lookup_dict_set_eq.
    + intros k Hk. now apply lookup_dict_set_neq.
Qed.

(** *** Nullable variables *)

Section Nullable.
Variable prods : list (string * list string).

Lemma nullable_step_spec nullable added item :
  NoDup nullable ->
  let '(nullable', added') := nullable_step (nullable, added) item in
  NoDup nullable' /\
  incl nullable' (fst item :: nullable) /\
  ((nullable' = nullable /\ added' = added) \/
   (added' = true /\ length nullable < length nullable')).
Proof.
  intros Hnd. destruct item as [var bodies]. simpl.
  assert (Hadd : ~ In var nullable ->
            NoDup (set_add var nullable) /\
            incl (set_add var nullable) (var :: nullable) /\
            ((set_add var nullable = nullable /\ true = added) \/
             (true = true /\ length nullable < length (set_add var nullable)))).
  { intros Hn. split; [now apply set_add_NoDup|]. split.
    - intros x Hx. apply set_add_In in Hx. simpl. intuition.
    - right. split; [reflexivity|]. rewrite set_add_absent by assumption.
      rewrite length_app. simpl. lia. }
  destruct (mem_reflect var nullable) as [Hin|Hnin].
  - split; [assumption|]. split; [now apply incl_tl, incl_refl | now left].
  - destruct (mem "" bodies); [now apply Hadd|].
    destruct (existsb _ bodies); [now apply Hadd|].
    split; [assumption|]. split; [now apply incl_tl, incl_refl | now left].
Qed.

Lemma nullable_pass_spec items :
  forall nullable added nullable' added',
    fold_left nullable_step items (nullable, added) = (nullable', added') ->
    NoDup nullable ->
    NoDup nullable' /\
    incl nullable' (nullable ++ map fst items) /\
    ((nullable' = nullable /\ added' = added) \/
     (added' = true /\ length nullable < length nullable')).
Proof.
  induction items as [|item items IH];
    intros nullable added nullable' added' E Hnd; cbn [fold_left map] in *.
  - injection E as <- <-. split; [assumption|].
    split; [rewrite app_nil_r; apply incl_refl | now left].
  - pose proof (nullable_step_spec nullable added item Hnd) as Hstep.
    destruct (nullable_step (nullable, added) item) as [n1 a1].
    destruct Hstep as (Hnd1 & Hinc1 & Hcase1).
    destruct (IH _ _ _ _ E Hnd1) as (Hnd' & Hinc' & Hcase').
    split; [assumption|]. split.
    + intros x Hx. apply Hinc' in Hx. apply in_app_or in Hx as [Hx|Hx].
      * apply Hinc1 in Hx as [<-|Hx]; apply in_or_app; [right|left]; auto.
        now left.
      * apply in_or_app. right. now right.
    + destruct Hcase1 as [[-> ->]|[-> Hlt1]], Hcase' as [[-> ->]|[-> Hlt']];
        auto; right; split; auto; lia.
Qed.

Local Abbreviation keys := (nodup string_dec (map fst prods)).

Lemma nullable_loop_spec fuel :
  forall nullable,
    NoDup nullable -> incl nullable (map fst prods) ->
    length keys < fuel + length nullable ->
    exists nullable',
      nullable_loop fuel prods nullable = Some nullable' /\
      NoDup nullable' /\ incl nullable' (map fst prods).
Proof.
  induction fuel as [|fuel IH]; intros nullable Hnd Hinc Hfuel.
  - exfalso. assert (length nullable <= length keys); [|lia].
    apply NoDup_incl_length; [assumption|].
    intros x Hx. apply nodup_In. auto.
  - simpl.
    destruct (fold_left nullable_step prods (nullable, false))
      as [n1 a1] eqn:E.
    destruct (nullable_pass_spec _ _ _ _ _ E Hnd) as (Hnd1 & Hinc1 & Hcase).
    assert (Hinc' : incl n1 (map fst prods)).
    { intros x Hx. apply Hinc1 in Hx. apply in_app_or in Hx as [Hx|Hx]; auto. }
    destruct a1.
    + apply IH; auto. destruct Hcase as [[_ [=]]|[_ Hlt]]. lia.
    + exists n1. auto.
Qed.

(** The search for nullable variables ends within its bound. *)
Lemma compute_nullable_returns g :
  productions g = prods ->
  exists nullable, compute_nullable g = Some nullable.
Proof.
  intros Eg. unfold compute_nullable. rewrite Eg.
  destruct (nullable_loop_spec (S (length prods)) [])
    as (nullable & E & _); [constructor | easy | |now exists nullable].
  assert (length (nodup string_dec (map fst prods)) <= length prods); [|lia].
  rewrite <- (length_map fst prods). apply NoDup_incl_length.
  - apply NoDup_nodup.
  - intros x Hx. now apply nodup_In in Hx.
Qed.

End Nullable.

(** Without empty bodies no variable is nullable. *)
Lemma compute_nullable_epsilon_free g :
  epsilon_free g -> compute_nullable g = Some [].
Proof.
  intros Hfree. unfold compute_nullable. simpl.
  enough (E : fold_left nullable_step (productions g) ([], false)
              = ([], false)) by now rewrite E.
  unfold epsilon_free in Hfree.
  induction (productions g) as [|[var bodies] items IH]; [reflexivity|].
  simpl. replace (mem "" bodies) with false.
  2:{ symmetry. apply mem_not_In. apply (Hfree var). now left. }
  replace (existsb _ bodies) with false.
  - apply IH. intros v b Hin. apply (Hfree v). now right.
  - symmetry. apply not_true_is_false. intros Hex.
    apply existsb_exists in Hex as (prod & Hprod & Hall).
    destruct prod as [|c prod]; [|discriminate].
    apply (Hfree var bodies); [now left | assumption].
Qed.

(** *** New productions *)

Lemma add_nonempty_spec var new_prod (d : list (string * list string)) :
  In var (map fst d) ->
  exists d',
    add_nonempty var new_prod d = Some d' /\
    map fst d' = map fst d /\
    (forall k p, In p (bodies_in d' k) <->
                 In p (bodies_in d k) \/ (k = var /\ p = new_prod /\ p <> "")).
Proof.
  intros Hvar. unfold add_nonempty.
  destruct (eqb_spec new_prod "") as [->|Hne].
  - exists d. split; [reflexivity|]. split; [reflexivity|].
    intros k p. intuition congruence.
  - destruct (In_key_lookup _ _ Hvar) as (body & E). rewrite E. simpl.
    destruct (mem_reflect new_prod body) as [Hin|Hnin].
    + exists d. split; [reflexivity|]. split; [reflexivity|].
      intros k p. split; [tauto|].
      intros [H|(-> & -> & _)]; [assumption|].
      unfold bodies_in. now rewrite E.
    + exists (dict_set var (body ++ [new_prod]) d).
      split; [reflexivity|]. split; [now apply dict_set_keys_present|].
      intros k p. unfold bodies_in. rewrite lookup_dict_set.
      destruct (eqb_spec k var) as [->|Hk].
      * rewrite E, in_app_iff. simpl. intuition congruence.
      * intuition congruence.
Qed.

Lemma expand_production_returns nullable var prod
    (d : list (string * list string)) :
  In var (map fst d) ->
  exists d', expand_production nullable var prod d = Some d' /\
             map fst d' = map fst d.
Proof.
  intros Hvar. unfold expand_production.
  destruct (eqb prod ""); [now exists d|].
  destruct (ofold_returns
              (fun d' : list (string * list string) => map fst d' = map fst d)
              (fun d i =>
                 add_nonempty var
                   (omit_symbols
                      (omit_indices i (nullable_indices nullable prod)) prod)
                   d)
              (seq 0 (2 ^ length (nullable_indices nullable prod))))
    with (s := d) as (d' & E & Hkeys); auto.
  - intros d1 i _ Hk.
    destruct (add_nonempty_spec var
                (omit_symbols (omit_indices i
                                 (nullable_indices nullable prod)) prod) d1)
      as (d2 & E2 & Hk2 & _); [now rewrite Hk|].
    exists d2. split; [assumption | congruence].
  - now exists d'.
Qed.

(** The new productions are built without a [KeyError] where the keys of
    the productions are variables. *)
Lemma expand_productions_returns nullable g :
  keys_in_variables g ->
  exists d,
    expand_productions nullable g = Some d /\
    map fst d = map fst (dict_of (fun _ => @nil string) (variables g)).
Proof.
  intros Hkeys. unfold expand_productions.
  set (d0 := dict_of (fun _ => @nil string) (variables g)).
  assert (Hd0 : forall k, In k (map fst (productions g)) -> In k (map fst d0)).
  { intros k Hk. apply dict_of_spec. now apply Hkeys. }
  apply (ofold_returns
           (fun d : list (string * list string) => map fst d = map fst d0));
    [|reflexivity].
  intros d [var prods] Hin Hk.
  apply (ofold_returns
           (fun d : list (string * list string) => map fst d = map fst d0));
    [|assumption].
  intros d1 prod _ Hk1.
  destruct (expand_production_returns nullable var prod d1)
    as (d2 & E2 & Hk2).
  - rewrite Hk1. apply Hd0. now apply (in_map fst) in Hin.
  - exists d2. split; [assumption | congruence].
Qed.

(** With no nullable variable a body is expanded to itself. *)
Lemma concat_chars s : String.concat "" (chars s) = s.
Proof.
  induction s as [|c s IH]; [reflexivity|]. simpl.
  destruct (chars s) as [|x l] eqn:E.
  - destruct s; [reflexivity | discriminate].
  - simpl in *. now rewrite IH.
Qed.

Lemma map_snd_enumerate_from {A} (l : list A) :
  forall i, map snd (enumerate_from i l) = l.
Proof.
  induction l as [|x l IH]; simpl; intros i; [|rewrite IH]; reflexivity.
Qed.

Lemma filter_all {A} (f : A -> bool) l :
  (forall x, In x l -> f x = true) -> filter f l = l.
Proof.
  induction l as [|x l IH]; simpl; intros Hf; [reflexivity|].
  rewrite Hf by now left. f_equal. apply IH. intros; apply Hf. now right.
Qed.

Lemma filter_none {A} (f : A -> bool) l :
  (forall x, In x l -> f x = false) -> filter f l = [].
Proof.
  induction l as [|x l IH]; simpl; intros Hf; [reflexivity|].
  rewrite Hf by now left. apply IH. intros; apply Hf. now right.
Qed.

Lemma expand_production_no_nullable var prod d :
  expand_production [] var prod d = add_nonempty var prod d.
Proof.
  unfold expand_production, add_nonempty.
  destruct (eqb prod "") eqn:E; [reflexivity|].
  unfold nullable_indices. rewrite filter_none by (now intros [i x] _).
  simpl. unfold omit_indices, omit_symbols. simpl.
  rewrite filter_all by (now intros [i x] _).
  unfold enumerate. rewrite map_snd_enumerate_from, concat_chars.
  unfold add_nonempty. rewrite E.
  now destruct (obind (lookup var d) _).
Qed.

Lemma expand_bodies_no_nullable var prods :
  forall d : list (string * list string),
    In var (map fst d) ->
    exists d',
      ofold (fun d prod => expand_production [] var prod d) prods d = Some d' /\
      map fst d' = map fst d /\
      (forall k p, In p (bodies_in d' k) <->
                   In p (bodies_in d k) \/ (k = var /\ In p prods /\ p <> "")).
Proof.
  induction prods as [|prod prods IH]; simpl; intros d Hvar.
  - exists d. split; [reflexivity|]. split; [reflexivity|].
    intros k p. tauto.
  - rewrite expand_production_no_nullable.
    destruct (add_nonempty_spec var prod d Hvar) as (d1 & E1 & Hk1 & Hb1).
    rewrite E1. simpl.
    destruct (IH d1) as (d' & E' & Hk' & Hb'); [now rewrite Hk1|].
    exists d'. split; [assumption|]. split; [congruence|].
    intros k p. rewrite Hb', Hb1. intuition (subst; auto).
Qed.

Lemma expand_productions_no_nullable g :
  keys_in_variables g ->
  exists d,
    expand_productions [] g = Some d /\
    map fst d = map fst (dict_of (fun _ => @nil string) (variables g)) /\
    (forall k p, In p (bodies_in d k) <->
                 exists prods, In (k, prods) (productions g) /\
                               In p prods /\ p <> "").
Proof.
  intros Hkeys. unfold expand_productions.
  set (d0 := dict_of (fun _ => @nil string) (variables g)).
  assert (Hd0 : forall k, In k (map fst (productions g)) -> In k (map fst d0)).
  { intros k Hk. apply dict_of_spec. now apply Hkeys. }
  assert (Hempty : forall k p, ~ In p (bodies_in d0 k)).
  { intros k p. unfold bodies_in.
    destruct (lookup k d0) as [b|] eqn:E; [|easy].
    assert (Hk : In k (variables g)).
    { apply lookup_Some_key in E. now apply dict_of_spec in E. }
    destruct (dict_of_spec (fun _ => @nil string) (variables g))
      as (_ & _ & Hl).
    unfold d0 in E. rewrite (Hl k Hk) in E. now injection E as <-. }
  enough (G : forall items d,
            (forall k, In k (map fst items) -> In k (map fst d)) ->
            exists d',
              ofold (fun d '(var, prods) =>
                       ofold (fun d prod => expand_production [] var prod d)
                             prods d) items d = Some d' /\
              map fst d' = map fst d /\
              (forall k p, In p (bodies_in d' k) <->
                           In p (bodies_in d k) \/
                           exists prods, In (k, prods) items /\
                                         In p prods /\ p <> "")).
  { destruct (G (productions g) d0 Hd0) as (d & E & Hk & Hb).
    exists d. split; [assumption|]. split; [assumption|].
    intros k p. rewrite Hb. split; [|now right].
    intros [H|H]; [now apply Hempty in H | assumption]. }
  induction items as [|[var prods] items IH]; simpl; intros d Hk.
  - exists d. split; [reflexivity|]. split; [reflexivity|].
    intros k p. split; [tauto|].
    intros [H|(prods & [] & _)]. assumption.
  - destruct (expand_bodies_no_nullable var prods d) as (d1 & E1 & Hk1 & Hb1);
      [apply Hk; now left|].
    rewrite E1. simpl.
    destruct (IH d1) as (d' & E' & Hk' & Hb').
    { intros k Hin. rewrite Hk1. apply Hk. now right. }
    exists d'. split; [assumption|]. split; [congruence|].
    intros k p. rewrite Hb', Hb1. split.
    + intros [[H|(-> & Hp & Hne)]|(prods' & Hin & Hp & Hne)]; auto.
      * right. exists prods. auto.
      * right. exists prods'. auto.
    + intros [H|(prods' & [[= <- <-]|Hin] & Hp & Hne)]; auto.
      right. exists prods'. auto.
Qed.

(** *** The method *)

(** What [eliminate_epsilon_productions] returns and what it leaves of the
    converter: where the start symbol is nullable, a new variable has been
    added to the variables of the grammar that the converter shares with its
    caller. *)
Lemma eliminate_epsilon_productions_spec self :
  keys_in_variables (cfg self) ->
  let g := cfg self in
  exists nullable d,
    compute_nullable g = Some nullable /\
    expand_productions nullable g = Some d /\
    if mem (start_symbol g) nullable then
      exists j,
        let x := fresh_name (new_var_counter self + j) in
        ~ In x (variables g) /\
        eliminate_epsilon_productions self
        = Some (mkCFG (variables g ++ [x]) (terminals g)
                      (dict_set x [""; start_symbol g] d) x,
                mkCNFConverter
                  (mkCFG (variables g ++ [x]) (terminals g) (productions g)
                         (start_symbol g))
                  (S (new_var_counter self + j)) (terminal_to_var self))
    else
      eliminate_epsilon_productions self
      = Some (mkCFG (variables g) (terminals g) d (start_symbol g), self).
Proof.
  intros Hkeys g.
  destruct (compute_nullable_returns (productions g) g eq_refl)
    as (nullable & En).
  destruct (expand_productions_returns nullable g Hkeys) as (d & Ed & _).
  exists nullable, d. split; [assumption|]. split; [assumption|].
  unfold eliminate_epsilon_productions, bind, get, lift. fold g.
  rewrite En, Ed.
  destruct (mem (start_symbol g) nullable); [|reflexivity].
  destruct (generate_new_variable_spec self) as (j & Hfresh & ->).
  exists j. split; [assumption|]. unfold add_cfg_variable, ret. simpl.
  fold g. now rewrite (set_add_absent _ _ Hfresh).
Qed.

(** *** Grammars with the same rules *)

Lemma derives_same_rules g g' :
  (forall A b, In b (bodies_of g' A) -> In b (bodies_of g A)) ->
  forall u w, derives g' u w -> derives g u w.
Proof.
  intros Hrules u w. induction 1 as [|u A v b w Hb _ IH].
  - constructor.
  - apply (derives_step g u A v b w); auto.
Qed.

Lemma language_same_rules g g' :
  (forall A b, In b (bodies_of g' A) <-> In b (bodies_of g A)) ->
  start_symbol g' = start_symbol g -> terminals g' = terminals g ->
  forall w, language g' w <-> language g w.
Proof.
  intros Hrules Hstart Hterm w. unfold language. rewrite Hstart, Hterm.
  split; intros [Hd Hw]; (split; [|assumption]);
    eapply derives_same_rules; try eassumption; intros A b; apply Hrules.
Qed.

(** C7.  Applied to a grammar without empty bodies,
    [eliminate_epsilon_productions] returns a grammar that generates the
    same language and has no empty body; the start symbol is the same, and
    no start variable is synthesized: the converter, with its grammar and
    its counter, is left as it was. *)
Theorem eliminate_epsilon_productions_epsilon_free self :
  epsilon_free (cfg self) ->
  dict_ok (productions (cfg self)) ->
  keys_in_variables (cfg self) ->
  exists g',
    eliminate_epsilon_productions self = Some (g', self) /\
    start_symbol g' = start_symbol (cfg self) /\
    variables g' = variables (cfg self) /\
    terminals g' = terminals (cfg self) /\
    epsilon_free g' /\
    (forall w, language g' w <-> language (cfg self) w).
Proof.
  intros Hfree Hdict Hkeys.
  destruct (eliminate_epsilon_productions_spec self Hkeys)
    as (nullable & d & En & Ed & E).
  rewrite (compute_nullable_epsilon_free _ Hfree) in En.
  injection En as <-. simpl in E.
  destruct (expand_productions_no_nullable (cfg self) Hkeys)
    as (d' & Ed' & Hk & Hb).
  rewrite Ed in Ed'. injection Ed' as <-.
  eexists. split; [exact E|]. simpl.
  split; [reflexivity|]. split; [reflexivity|]. split; [reflexivity|].
  assert (Hnd : NoDup (map fst d)).
  { rewrite Hk. apply dict_of_spec. }
  split.
  - intros var prods Hin Heps. simpl in Hin.
    assert (Hb' : In "" (bodies_in d var)).
    { unfold bodies_in. now rewrite (In_lookup _ _ _ Hnd Hin). }
    apply Hb in Hb' as (_ & _ & _ & Hne). congruence.
  - apply language_same_rules; try reflexivity.
    intros A b. unfold bodies_of at 1. simpl. fold (bodies_in d A).
    rewrite Hb. unfold bodies_of. split.
    + intros (prods & Hin & Hp & _).
      now rewrite (In_lookup _ _ _ Hdict Hin).
    + intros Hin.
      destruct (lookup A (productions (cfg self))) as [prods|] eqn:El;
        [|easy].
      exists prods. apply lookup_In in El. split; [assumption|].
      split; [assumption|]. intros ->. now apply (Hfree A prods).
Qed.

Lemma keys_in_variablesb_ok g :
  keys_in_variablesb g = true -> keys_in_variables g.
Proof.
  unfold keys_in_variablesb. rewrite forallb_forall. intros H var Hvar.
  apply in_map_iff in Hvar as (item & <- & Hin). apply mem_In. auto.
Qed.

(** The grammar of [test_unit_production_elimination] has no empty body. *)
Lemma eliminate_epsilon_productions_epsilon_free_witness :
  epsilon_free (cfg (init CfgExamples.unit_test)) /\
  dict_ok (productions (cfg (init CfgExamples.unit_test))) /\
  keys_in_variables (cfg (init CfgExamples.unit_test)) /\
  exists g',
    eliminate_epsilon_productions (init CfgExamples.unit_test)
    = Some (g', init CfgExamples.unit_test) /\
    start_symbol g' = start_symbol (cfg (init CfgExamples.unit_test)) /\
    variables g' = variables (cfg (init CfgExamples.unit_test)) /\
    terminals g' = terminals (cfg (init CfgExamples.unit_test)) /\
    epsilon_free g' /\
    (forall w,
       language g' w <-> language (cfg (init CfgExamples.unit_test)) w).
Proof.
  assert (H1 : epsilon_free (cfg (init CfgExamples.unit_test))).
  { intros var prods Hin. simpl in Hin.
    destruct Hin as [[= <- <-]|[[= <- <-]|[[= <- <-]|[]]]]; simpl;
      intuition discriminate. }
  assert (H2 : dict_ok (productions (cfg (init CfgExamples.unit_test))))
    by (apply distinct_NoDup; reflexivity).
  assert (H3 : keys_in_variables (cfg (init CfgExamples.unit_test)))
    by (apply keys_in_variablesb_ok; reflexivity).
  split; [exact H1|]. split; [exact H2|]. split; [exact H3|].
  exact (eliminate_epsilon_productions_epsilon_free _ H1 H2 H3).
Defined.

End CfgEpsilon.

(** ** Unit-production elimination *)

Module CfgUnit.
Import CfgToCnf CfgSpec CfgMonad CfgFresh CfgEpsilon.

Section Closure.
Variable g : CFG.
Local Abbreviation V := (variables g).

Lemma grows_refl st : grows V st st.
Proof. unfold grows. repeat split; auto. Qed.

Lemma grows_trans st1 st2 st3 :
  grows V st1 st2 -> grows V st2 st3 -> grows V st1 st3.
Proof.
  intros (A1 & A2 & A3 & A4) (B1 & B2 & B3 & B4).
  split; [auto|]. split; [auto|]. split; [lia|].
  destruct A4 as [->|[Ha Hlt]], B4 as [->|[Hb Hlt']]; auto; right;
    split; auto; lia.
Qed.

Lemma fold_left_grows {A} (f : list string * bool -> A -> list string * bool)
    l :
  (forall st x, grows V st (f st x)) ->
  forall st, grows V st (fold_left f l st).
Proof.
  intros Hf. induction l as [|x l IH]; simpl; intros st.
  - apply grows_refl.
  - eapply grows_trans; [apply Hf | apply IH].
Qed.

Lemma close_pairs_of_grows st : grows V st (close_pairs_of g st).
Proof.
  unfold close_pairs_of. apply fold_left_grows. intros st1 B.
  apply fold_left_grows. intros [pairs changed] prod.
  destruct (mem_reflect prod V) as [HV|HV]; simpl; [|apply grows_refl].
  destruct (mem_reflect prod pairs) as [Hp|Hp]; simpl; [apply grows_refl|].
  rewrite (set_add_absent _ _ Hp). unfold grows. simpl.
  split; [intros Hnd; now apply NoDup_snoc|]. split.
  - intros Hinc x Hx. apply in_app_or in Hx as [Hx|[<-|[]]]; auto.
  - rewrite length_app. simpl. split; [lia|]. right. split; [reflexivity|lia].
Qed.

Lemma total_size_app d1 d2 :
  total_size (d1 ++ d2) = total_size d1 + total_size d2.
Proof. unfold total_size. now rewrite map_app, list_sum_app. Qed.

Lemma dict_set_decompose (A : string) (s s' : list string)
    (up : list (string * list string)) :
  NoDup (map fst up) -> lookup A up = Some s ->
  exists d1 d2,
    up = d1 ++ (A, s) :: d2 /\ dict_set A s' up = d1 ++ (A, s') :: d2.
Proof.
  intros Hnd El.
  destruct (dict_set_present A s' up) as (d1 & s0 & d2 & E1 & E2 & N1 & _);
    [now apply (lookup_Some_key _ s) | assumption |].
  exists d1, d2. split; [|assumption].
  rewrite E1, (lookup_app_absent _ _ _ N1) in El. simpl in El.
  rewrite eqb_refl in El. injection El as ->. assumption.
Qed.

Lemma unit_pairs_ok_set (A : string) (s s' : list string)
    (up : list (string * list string)) :
  unit_pairs_ok V up -> lookup A up = Some s ->
  NoDup s' -> incl s' V ->
  unit_pairs_ok V (dict_set A s' up) /\
  total_size (dict_set A s' up) + length s = total_size up + length s'.
Proof.
  intros [Hd Hk Hs] El Hnd' Hinc'.
  destruct (dict_set_decompose A s s' up Hd El) as (d1 & d2 & E1 & E2).
  split.
  - constructor.
    + now apply dict_set_NoDup.
    + intros k. rewrite dict_set_keys_present; [apply Hk|].
      now apply (lookup_Some_key _ s).
    + intros k x Hin. rewrite E2 in Hin.
      apply in_app_or in Hin as [Hin|[[= <- <-]|Hin]]; [|now split|];
        apply (Hs k x); rewrite E1; apply in_or_app; auto.
      right. now right.
  - rewrite E2, E1, !total_size_app. unfold total_size. simpl. lia.
Qed.

Lemma list_sum_bound {A} (f : A -> nat) c l :
  (forall x, In x l -> f x <= c) -> list_sum (map f l) <= length l * c.
Proof.
  induction l as [|x l IH]; simpl; intros Hf; [lia|].
  specialize (Hf x (or_introl eq_refl)) as Hx.
  specialize (IH (fun y Hy => Hf y (or_intror Hy))). lia.
Qed.

Lemma total_size_bound up :
  unit_pairs_ok V up -> total_size up <= length V * length V.
Proof.
  intros [Hd Hk Hs]. unfold total_size.
  etransitivity; [apply (list_sum_bound _ (length V))|].
  - intros [k s] Hin. simpl. apply NoDup_incl_length; now apply (Hs k s).
  - apply Nat.mul_le_mono_r. rewrite <- (length_map fst up).
    apply NoDup_incl_length; [assumption|]. intros k Hin. now apply Hk.
Qed.

(** One pass over the variables: no lookup fails, and a pass that raises the
    flag has added a pair. *)
Lemma unit_pass_spec up :
  unit_pairs_ok V up ->
  exists up' changed,
    ofold (unit_pass_step g) V (up, false) = Some (up', changed) /\
    unit_pairs_ok V up' /\
    (changed = true -> total_size up < total_size up').
Proof.
  intros Hok.
  destruct (ofold_returns
              (fun st : list (string * list string) * bool =>
                 unit_pairs_ok V (fst st) /\
                 total_size up <= total_size (fst st) /\
                 (snd st = true -> total_size up < total_size (fst st)))
              (unit_pass_step g) V)
    with (s := (up, false)) as ([up' changed] & E & H1 & H2 & H3).
  - intros [u c] A HA (Hu & Hle & Hlt). simpl in *.
    unfold unit_pass_step.
    destruct (In_key_lookup (V := list string) A u) as (pairs & El);
      [now apply (up_keys _ _ Hu)|].
    rewrite El. simpl.
    pose proof (close_pairs_of_grows (pairs, c)) as Hg.
    destruct (close_pairs_of g (pairs, c)) as [pairs' c'].
    destruct Hg as (G1 & G2 & G3 & G4). simpl in *.
    destruct (up_sets _ _ Hu A pairs (lookup_In _ _ _ El)) as [Hnd Hinc].
    destruct (unit_pairs_ok_set A pairs pairs' u Hu El (G1 Hnd) (G2 Hinc))
      as [Hu' Hsize].
    eexists. split; [reflexivity|]. simpl. split; [assumption|].
    split; [lia|]. intros Hc.
    destruct G4 as [[= -> ->]|[_ Hlt']]; [specialize (Hlt Hc)|]; lia.
  - simpl. split; [assumption|]. split; [lia | discriminate].
  - exists up', changed. simpl in *. auto.
Qed.

Lemma unit_closure_loop_spec fuel :
  forall up,
    unit_pairs_ok V up ->
    length V * length V < fuel + total_size up ->
    exists up', unit_closure_loop fuel g up = Some up' /\ unit_pairs_ok V up'.
Proof.
  induction fuel as [|fuel IH]; intros up Hok Hfuel.
  - pose proof (total_size_bound up Hok). simpl in Hfuel. lia.
  - simpl.
    destruct (unit_pass_spec up Hok) as (up' & changed & -> & Hok' & Hlt).
    simpl. destruct changed.
    + apply IH; [assumption|]. specialize (Hlt eq_refl). lia.
    + now exists up'.
Qed.

Lemma dict_of_entries {A} (v : string -> A) keys k x :
  In (k, x) (dict_of v keys) -> In k keys /\ x = v k.
Proof.
  intros Hin. destruct (dict_of_spec v keys) as (Hnd & Hk & Hl).
  assert (Hkey : In k keys) by (apply Hk; now apply (in_map fst) in Hin).
  split; [assumption|]. apply (In_lookup _ _ _ Hnd) in Hin.
  rewrite (Hl k Hkey) in Hin. congruence.
Qed.

(** The closure of the unit pairs is reached within the bound. *)
Lemma unit_closure_returns :
  exists up, unit_closure g = Some up /\ unit_pairs_ok V up.
Proof.
  unfold unit_closure. apply unit_closure_loop_spec; [|lia].
  destruct (dict_of_spec (fun var => [var]) V) as (Hnd & Hk & Hl).
  constructor; [assumption | assumption |].
  intros k s Hin. apply dict_of_entries in Hin as [Hkey ->].
  split; [repeat constructor; easy|]. now intros x [<-|[]].
Qed.

(** The second half: no lookup fails. *)
Lemma collect_returns up :
  unit_pairs_ok V up ->
  exists d,
    ofold (collect_non_unit g up) V (dict_of (fun _ => []) V) = Some d /\
    map fst d = map fst (dict_of (fun _ => @nil string) V).
Proof.
  intros Hok. set (d0 := dict_of (fun _ => @nil string) V).
  apply (ofold_returns
           (fun d : list (string * list string) => map fst d = map fst d0));
    [|reflexivity].
  intros d A HA Hd. unfold collect_non_unit.
  destruct (In_key_lookup (V := list string) A up) as (pairs & ->);
    [now apply (up_keys _ _ Hok)|]. simpl.
  apply (ofold_returns
           (fun d : list (string * list string) => map fst d = map fst d0));
    [|assumption].
  intros d1 B _ Hd1.
  apply (ofold_returns
           (fun d : list (string * list string) => map fst d = map fst d0));
    [|assumption].
  intros d2 prod _ Hd2. destruct (mem prod V); [now exists d2|].
  destruct (add_body_spec A prod d2) as (body & d3 & _ & E & Hk & _).
  - rewrite Hd2. now apply dict_of_spec.
  - exists d3. split; [assumption | congruence].
Qed.

(** The second half puts no name of a variable among the bodies. *)
Lemma collect_no_unit up d :
  ofold (collect_non_unit g up) V (dict_of (fun _ => []) V) = Some d ->
  forall k p, In p (bodies_in d k) -> ~ In p V.
Proof.
  set (ok := fun d : list (string * list string) =>
               forall k p, In p (bodies_in d k) -> ~ In p V).
  intros E.
  refine (ofold_keeps ok (collect_non_unit g up) V _ _ d _ E).
  - intros d1 A d2 _ H1. unfold collect_non_unit.
    destruct (lookup A up) as [pairs|]; simpl; [|discriminate].
    apply (ofold_keeps ok); [|assumption].
    intros d3 B d4 _ H3. apply (ofold_keeps ok); [|assumption].
    intros d5 prod d6 _ H5.
    destruct (mem_reflect prod V) as [HV|HV]; [now intros [= <-]|].
    unfold add_body. destruct (lookup A d5) as [body|] eqn:El; simpl;
      [|discriminate].
    destruct (mem prod body); intros [= <-]; [assumption|].
    intros k p. rewrite bodies_in_set.
    destruct (eqb_spec k A) as [->|]; [|apply H5].
    intros Hin. apply in_app_or in Hin as [Hin|[<-|[]]]; [|assumption].
    apply (H5 A). unfold bodies_in. now rewrite El.
  - intros k p. unfold bodies_in.
    destruct (lookup k (dict_of (fun _ => @nil string) V)) as [b|] eqn:El;
      [|easy].
    apply lookup_In, dict_of_entries in El as [_ ->]. easy.
Qed.

End Closure.

(** [eliminate_unit_productions] returns for every grammar, leaves the
    converter as it is, gives every variable an entry, and leaves no body
    that is the name of a variable. *)
Lemma eliminate_unit_productions_spec self :
  let g := cfg self in
  exists d,
    eliminate_unit_productions self
    = Some (mkCFG (variables g) (terminals g) d (start_symbol g), self) /\
    map fst d = map fst (dict_of (fun _ => @nil string) (variables g)) /\
    (forall k p, In p (bodies_in d k) -> ~ In p (variables g)).
Proof.
  intros g. destruct (unit_closure_returns g) as (up & Eup & Hok).
  destruct (collect_returns g up Hok) as (d & Ed & Hd).
  exists d. split; [|split; [assumption|]].
  - unfold eliminate_unit_productions, bind, get, lift, ret. fold g.
    now rewrite Eup, Ed.
  - now apply (collect_no_unit g up).
Qed.

End CfgUnit.

(** ** Terminal replacement and the breaking of long bodies *)

Module CfgSteps.
Import CfgToCnf CfgSpec CfgMonad CfgFresh CfgEpsilon CfgUnit.
Local Open Scope conv_scope.

Lemma append_body_spec (var prod : string) (d : list (string * list string)) :
  In var (map fst d) ->
  exists d', append_body var prod d = Some d' /\ map fst d' = map fst d.
Proof.
  intros Hvar. destruct (In_key_lookup _ _ Hvar) as (body & E).
  unfold append_body. rewrite E. simpl. eexists. split; [reflexivity|].
  now apply dict_set_keys_present.
Qed.

(** *** Step 3 *)

Lemma replace_symbol_returns terms cfg0 keys0 st new_prod symbol self :
  step3_ok cfg0 keys0 st self ->
  exists st' new_prod' self',
    replace_symbol terms (st, new_prod) symbol self
    = Some ((st', new_prod'), self') /\
    step3_ok cfg0 keys0 st' self'.
Proof.
  destruct st as [vars prods]. intros (Hcfg & Hk0 & Hkv). simpl in *.
  unfold replace_symbol. destruct (mem symbol terms).
  - unfold bind at 1. unfold get at 1.
    destruct (has_key symbol (terminal_to_var self)) eqn:Hhas.
    + unfold bind, ret, get, lift. unfold has_key in Hhas.
      destruct (lookup symbol (terminal_to_var self)) as [v|]; [|discriminate].
      eexists _, _, _. split; [reflexivity|]. now repeat split.
    + destruct (generate_new_variable_spec self) as (j & Hfresh & E).
      unfold bind, ret, get, put, lift. rewrite E. simpl.
      rewrite lookup_dict_set_eq.
      eexists _, _, _. split; [reflexivity|]. repeat split; simpl; auto.
      * intros k Hk. apply dict_set_keys_In. right. auto.
      * intros k Hk. apply dict_set_keys_In in Hk. apply set_add_In.
        destruct Hk as [->|Hk]; auto.
  - eexists _, _, _. split; [reflexivity|]. now repeat split.
Qed.

Lemma replace_in_body_returns terms cfg0 keys0 st new_prods prod self :
  step3_ok cfg0 keys0 st self ->
  exists st' new_prods' self',
    replace_in_body terms (st, new_prods) prod self
    = Some ((st', new_prods'), self') /\
    step3_ok cfg0 keys0 st' self'.
Proof.
  intros Hok. destruct st as [vars prods]. unfold replace_in_body.
  destruct (already_cnf vars prod).
  - eexists _, _, _. split; [reflexivity | assumption].
  - destruct (for_each_returns
                (fun (r : step3_state * string) s =>
                   step3_ok cfg0 keys0 (fst r) s)
                (replace_symbol terms) (chars prod))
      with (st := ((vars, prods), "")) (self := self)
      as ([st' new_prod] & self' & E & Hok'); [|assumption|].
    + intros [st1 np] x s _ H1.
      destruct (replace_symbol_returns terms cfg0 keys0 st1 np x s H1)
        as (st2 & np2 & s2 & E2 & H2).
      now exists (st2, np2), s2.
    + unfold bind. rewrite E. simpl.
      eexists _, _, _. split; [reflexivity | assumption].
Qed.

Lemma replace_in_variable_returns terms cfg0 keys0 st var prods self :
  step3_ok cfg0 keys0 st self -> In var keys0 ->
  exists st' self',
    replace_in_variable terms st (var, prods) self = Some (st', self') /\
    step3_ok cfg0 keys0 st' self'.
Proof.
  intros Hok Hvar. unfold replace_in_variable.
  destruct (for_each_returns
              (fun (r : step3_state * list string) s =>
                 step3_ok cfg0 keys0 (fst r) s)
              (replace_in_body terms) prods)
    with (st := (st, @nil string)) (self := self)
    as ([[vars' prods'] new_prods] & self' & E & Hok'); [|assumption|].
  - intros [st1 np] x s _ H1.
    destruct (replace_in_body_returns terms cfg0 keys0 st1 np x s H1)
      as (st2 & np2 & s2 & E2 & H2).
    now exists (st2, np2), s2.
  - unfold bind at 1. rewrite E. simpl in *.
    destruct Hok' as (Hcfg & Hk0 & Hkv). simpl in *.
    destruct (ofold_returns
                (fun d : list (string * list string) =>
                   map fst d = map fst prods')
                (fun d prod => add_body var prod d) new_prods)
      with (s := prods') as (d & Ed & Hd); [|reflexivity|].
    + intros d1 prod _ H1.
      destruct (add_body_spec var prod d1) as (body & d2 & _ & E2 & Hk2 & _).
      * rewrite H1. auto.
      * exists d2. split; [assumption | congruence].
    + unfold bind, lift, ret. rewrite Ed.
      eexists _, _. split; [reflexivity|]. repeat split; simpl; auto;
        now rewrite Hd.
Qed.

Lemma replace_terminals_returns g self :
  keys_in_variables g ->
  exists st self',
    replace_terminals g self = Some (st, self') /\
    cfg self' = cfg self /\
    incl (map fst (snd st)) (fst st).
Proof.
  intros Hkeys. unfold replace_terminals.
  set (prods0 := fold_left (fun d '(var, body) => dict_set var body d)
                           (productions g)
                           (dict_of (fun _ => []) (variables g))).
  assert (Hk : forall k, In k (map fst prods0) <->
                         In k (variables g) \/ In k (map fst (productions g))).
  { unfold prods0. intros k.
    rewrite <- (proj1 (proj2 (dict_of_spec (fun _ => @nil string)
                                           (variables g))) k).
    generalize (dict_of (fun _ => @nil string) (variables g)).
    induction (productions g) as [|[v b] items IH]; simpl; intros d.
    - tauto.
    - rewrite IH, dict_set_keys_In. intuition. }
  destruct (for_each_returns
              (step3_ok (cfg self) (map fst (productions g)))
              (replace_in_variable (terminals g)) (productions g))
    with (st := (variables g, prods0)) (self := self)
    as (st & self' & E & Hcfg & _ & Hkv).
  - intros st [var prods] s Hin H1.
    apply replace_in_variable_returns; [assumption|].
    now apply (in_map fst) in Hin.
  - split; [reflexivity|]. simpl. split.
    + intros k Hin. apply Hk. now right.
    + intros k Hin. apply Hk in Hin as [Hin|Hin]; auto.
  - exists st, self'. auto.
Qed.

(** *** Step 4 *)

Lemma break_step_returns cfg0 keys0 prod st i self :
  step4_ok cfg0 keys0 st self ->
  In (s4_current st) (map fst (s4_final st)) ->
  (i <> 0 -> s4_prev st <> None) ->
  exists st' self',
    break_step prod st i self = Some (st', self') /\
    step4_ok cfg0 keys0 st' self' /\
    In (s4_current st') (map fst (s4_final st')) /\
    s4_prev st' <> None.
Proof.
  intros (Hcfg & Hk0) Hcur Hprev. unfold break_step.
  destruct (generate_new_variable_spec self) as (j & Hfresh & E).
  unfold bind at 1. rewrite E.
  set (x := fresh_name (new_var_counter self + j)).
  set (self1 := mkCNFConverter (cfg self) _ _).
  set (final1 := dict_set x [] (s4_final st)).
  assert (Hcur1 : In (s4_current st) (map fst final1))
    by (apply dict_set_keys_In; now right).
  assert (Hx1 : In x (map fst final1)) by (apply dict_set_keys_In; now left).
  assert (Hstep1 : exists final2,
            (if (i =? 0)%nat
             then lift (append_body (s4_current st)
                                    (char_at 0 prod ++ x)%string final1)
             else
               prev_var <~ lift (s4_prev st) ;;
               lift (append_body (s4_current st)
                                 (prev_var ++ x)%string final1)) self1
            = Some (final2, self1) /\ map fst final2 = map fst final1).
  { destruct (Nat.eqb_spec i 0) as [->|Hi].
    - destruct (append_body_spec (s4_current st)
                  (char_at 0 prod ++ x)%string final1 Hcur1) as (d & Ed & Hd).
      exists d. unfold lift. now rewrite Ed.
    - destruct (s4_prev st) as [prev|] eqn:Ep; [|now destruct (Hprev Hi)].
      destruct (append_body_spec (s4_current st)
                  (prev ++ x)%string final1 Hcur1) as (d & Ed & Hd).
      exists d. unfold bind, lift. now rewrite Ed. }
  destruct Hstep1 as (final2 & E2 & Hd2).
  unfold bind at 1. rewrite E2.
  assert (Hstep2 : exists final3,
            (if (i =? String.length prod - 3)%nat
             then lift (append_body x (last_two prod) final2)
             else ret final2) self1
            = Some (final3, self1) /\ map fst final3 = map fst final1).
  { destruct (i =? String.length prod - 3)%nat.
    - destruct (append_body_spec x (last_two prod) final2) as (d & Ed & Hd);
        [now rewrite Hd2|].
      exists d. unfold lift. rewrite Ed. split; [reflexivity | congruence].
    - exists final2. now split. }
  destruct Hstep2 as (final3 & E3 & Hd3).
  unfold bind at 1. rewrite E3. unfold ret.
  eexists _, _. split; [reflexivity|]. unfold step4_ok. simpl.
  rewrite !Hd3. split; [|split; [assumption | discriminate]].
  split; [assumption|]. intros k Hk. apply dict_set_keys_In. right. auto.
Qed.

Lemma break_body_returns cfg0 keys0 var st prod self :
  step4_ok cfg0 keys0 st self -> In var keys0 ->
  exists st' self',
    break_body var st prod self = Some (st', self') /\
    step4_ok cfg0 keys0 st' self'.
Proof.
  intros Hok Hvar. pose proof Hok as (Hcfg & Hk0). unfold break_body.
  destruct (String.length prod <=? 2)%nat eqn:Hlen.
  - destruct (add_body_spec var prod (s4_final st))
      as (body & d & _ & Ed & Hd & _); [auto|].
    unfold bind, lift, ret. rewrite Ed.
    eexists _, _. split; [reflexivity|]. split; simpl; [assumption|].
    now rewrite Hd.
  - apply Nat.leb_gt in Hlen.
    destruct (String.length prod - 2) as [|m] eqn:Em; [lia|].
    simpl. unfold bind at 1.
    set (st0 := mkStep4 (s4_variables st) (s4_final st) var (s4_prev st)).
    destruct (break_step_returns cfg0 keys0 prod st0 0 self)
      as (st1 & self1 & E1 & Hok1 & Hcur1 & Hprev1);
      [exact Hok | simpl; auto | congruence |].
    rewrite E1.
    destruct (for_each_returns
                (fun st s => step4_ok cfg0 keys0 st s /\
                             In (s4_current st) (map fst (s4_final st)) /\
                             s4_prev st <> None)
                (break_step prod) (seq 1 m))
      with (st := st1) (self := self1) as (st' & self' & E & Hok' & _);
      [|auto|].
    + intros st2 i s _ (H1 & H2 & H3).
      now apply break_step_returns.
    + now exists st', self'.
Qed.

Lemma break_long_returns st3 self :
  incl (map fst (snd st3)) (fst st3) ->
  exists st4 self',
    break_long st3 self = Some (st4, self') /\ cfg self' = cfg self.
Proof.
  destruct st3 as [vars prods]. simpl. intros Hkv. unfold break_long.
  destruct (for_each_returns
              (step4_ok (cfg self) (map fst prods))
              (fun st '(var, bodies) => for_each bodies (break_body var) st)
              prods)
    with (st := mkStep4 vars (dict_of (fun _ => []) vars) "" None)
         (self := self) as (st4 & self' & E & Hcfg & _).
  - intros st [var bodies] s Hin H1.
    apply (for_each_returns (step4_ok (cfg self) (map fst prods)));
      [|assumption].
    intros st2 prod s2 _ H2. apply break_body_returns; [assumption|].
    now apply (in_map fst) in Hin.
  - split; [reflexivity|]. simpl. intros k Hk.
    apply dict_of_spec. auto.
  - now exists st4, self'.
Qed.

End CfgSteps.

(** ** The converter as a whole *)

Module CfgConvert.
Import CfgToCnf CfgSpec CfgMonad CfgFresh CfgEpsilon CfgUnit CfgSteps CfgEval.
Import CfgExamples.
Local Open Scope conv_scope.

(** After the first two steps no body is the name of a variable. *)
Lemma first_two_steps_no_unit self :
  keys_in_variables (cfg self) ->
  exists g self',
    first_two_steps self = Some (g, self') /\
    forall var prod, In prod (bodies_of g var) -> ~ In prod (variables g).
Proof.
  intros Hkeys.
  destruct (eliminate_epsilon_productions_spec self Hkeys)
    as (nullable & d & _ & _ & E1).
  assert (Hstep1 : exists g1 self1,
            eliminate_epsilon_productions self = Some (g1, self1)).
  { destruct (mem (start_symbol (cfg self)) nullable).
    - destruct E1 as (j & _ & E1). eauto.
    - eauto. }
  destruct Hstep1 as (g1 & self1 & E1').
  destruct (eliminate_unit_productions_spec self1) as (d2 & E2 & _ & Hno).
  eexists _, _. split.
  - rewrite first_two_steps_unfold, E1'. exact E2.
  - exact Hno.
Qed.

(** [convert_to_cnf] returns wherever the keys of the productions are
    variables.  The grammar it returns has the start symbol of the grammar
    it was given.  Of the grammar that the converter shares with its caller
    it leaves the terminals, the productions and the start symbol as they
    were, and the variables too unless the start symbol is nullable: then
    the variable synthesized by step 1 has been added to them. *)
Lemma convert_to_cnf_returns self :
  keys_in_variables (cfg self) ->
  exists g self' nullable,
    convert_to_cnf self = Some (g, self') /\
    compute_nullable (cfg self) = Some nullable /\
    start_symbol g = start_symbol (cfg self) /\
    terminals (cfg self') = terminals (cfg self) /\
    productions (cfg self') = productions (cfg self) /\
    start_symbol (cfg self') = start_symbol (cfg self) /\
    if mem (start_symbol (cfg self)) nullable
    then exists x, ~ In x (variables (cfg self)) /\
                   variables (cfg self') = variables (cfg self) ++ [x]
    else variables (cfg self') = variables (cfg self).
Proof.
  intros Hkeys.
  destruct (eliminate_epsilon_productions_spec self Hkeys)
    as (nullable & d & En & _ & E1).
  assert (Hstep1 : exists g1 self1,
            eliminate_epsilon_productions self = Some (g1, self1) /\
            keys_in_variables (cfg self1) /\
            terminals (cfg self1) = terminals (cfg self) /\
            productions (cfg self1) = productions (cfg self) /\
            start_symbol (cfg self1) = start_symbol (cfg self) /\
            if mem (start_symbol (cfg self)) nullable
            then exists x, ~ In x (variables (cfg self)) /\
                           variables (cfg self1) = variables (cfg self) ++ [x]
            else variables (cfg self1) = variables (cfg self)).
  { destruct (mem (start_symbol (cfg self)) nullable).
    - destruct E1 as (j & Hfresh & E1). eexists _, _.
      split; [exact E1|]. simpl. split; [|repeat split; eauto].
      intros k Hk. apply in_or_app. left. now apply Hkeys.
    - eexists _, _. split; [exact E1|]. repeat split; auto. }
  destruct Hstep1 as (g1 & self1 & E1' & Hkeys1 & Ht & Hp & Hs & Hv).
  destruct (eliminate_unit_productions_spec self1) as (d2 & E2 & Hd2 & _).
  set (g2 := mkCFG (variables (cfg self1)) (terminals (cfg self1)) d2
                   (start_symbol (cfg self1))) in *.
  assert (Hkeys2 : keys_in_variables g2).
  { intros k Hk. simpl in Hk. rewrite Hd2 in Hk. now apply dict_of_spec in Hk. }
  destruct (replace_terminals_returns g2 self1 Hkeys2)
    as (st3 & self3 & E3 & Hcfg3 & Hkv3).
  destruct (break_long_returns st3 self3 Hkv3) as (st4 & self4 & E4 & Hcfg4).
  exists (mkCFG (s4_variables st4) (terminals g2) (s4_final st4)
                (start_symbol g2)), self4, nullable.
  split.
  - unfold convert_to_cnf. unfold bind at 1.
    rewrite first_two_steps_unfold, E1', E2.
    unfold bind at 1. rewrite E3. unfold bind at 1. rewrite E4. reflexivity.
  - split; [assumption|]. rewrite Hcfg4, Hcfg3. simpl.
    repeat (split; [assumption|]). assumption.
Qed.

(** Instances of [convert_to_cnf_returns]. *)
Lemma convert_to_cnf_returns_simple :
  exists g self' nullable,
    convert_to_cnf (init simple) = Some (g, self') /\
    compute_nullable simple = Some nullable /\
    start_symbol g = "S" /\
    terminals (cfg self') = terminals simple /\
    productions (cfg self') = productions simple /\
    start_symbol (cfg self') = "S" /\
    if mem "S" nullable
    then exists x, ~ In x (variables simple) /\
                   variables (cfg self') = variables simple ++ [x]
    else variables (cfg self') = variables simple.
Proof.
  apply (convert_to_cnf_returns (init simple)).
  apply keys_in_variablesb_ok. reflexivity.
Defined.

(** C4.  After [convert_to_cnf] on the grammar of
    [test_simple_cfg_conversion], whatever the order of its variables, the
    set of variables of the caller's grammar holds X0 as well: step 1 added
    the start variable it synthesized to the set that the converter shares
    with its caller.  The terminals, the productions and the start symbol
    of the caller's grammar are as they were. *)
Theorem convert_to_cnf_adds_variable :
  Forall
    (fun vs =>
       exists g self',
         convert_to_cnf (init (simple_with vs)) = Some (g, self') /\
         variables (cfg self') = vs ++ ["X0"] /\
         variables (cfg self') <> variables (simple_with vs) /\
         terminals (cfg self') = terminals (simple_with vs) /\
         productions (cfg self') = productions (simple_with vs) /\
         start_symbol (cfg self') = start_symbol (simple_with vs))
    simple_orders.
Proof.
  repeat constructor;
    (eexists; eexists; split; [vm_compute; reflexivity|];
     repeat split; discriminate).
Qed.

End CfgConvert.

(** ** The chain that breaks up one long body *)

Module CfgChain.
Import CfgToCnf CfgSpec CfgMonad CfgFresh CfgEpsilon CfgUnit CfgSteps.
Local Open Scope conv_scope.

(** A generated name is new, and known from then on. *)
Lemma generate_new_variable_known self :
  exists x self',
    generate_new_variable self = Some (x, self') /\
    cfg self' = cfg self /\
    ~ known self x /\ known self' x /\
    (forall n, known self n -> known self' n).
Proof.
  destruct (generate_new_variable_spec self) as (j & Hfresh & E).
  eexists _, _. split; [exact E|]. split; [reflexivity|]. split; [|split].
  - intros [Hin|(k & Hk & Ek)]; [contradiction|].
    apply fresh_name_inj in Ek. lia.
  - right. simpl. exists (new_var_counter self + j). split; [lia | reflexivity].
  - intros n [Hin|(k & Hk & Ek)]; [now left|].
    right. simpl. exists k. split; [lia | assumption].
Qed.

Lemma append_body_bodies (var prod : string)
    (d : list (string * list string)) :
  In var (map fst d) ->
  exists d',
    append_body var prod d = Some d' /\ map fst d' = map fst d /\
    forall k, bodies_in d' k
              = if eqb k var then bodies_in d var ++ [prod]
                else bodies_in d k.
Proof.
  intros Hvar. destruct (In_key_lookup _ _ Hvar) as (body & E).
  unfold append_body. rewrite E. simpl. eexists. split; [reflexivity|].
  split; [now apply dict_set_keys_present|].
  intros k. rewrite bodies_in_set. unfold bodies_in at 2. now rewrite E.
Qed.

Section Chain.
Variable prod : string.

(** One turn of the loop: a new variable with an empty entry, a body for
    the current variable that ends in it, and the last two characters of
    [prod] for it on the last turn. *)
Lemma break_step_spec st i self :
  In (s4_current st) (map fst (s4_final st)) ->
  (forall k, In k (map fst (s4_final st)) -> known self k) ->
  (forall v, In v (s4_variables st) -> known self v) ->
  (i <> 0 -> s4_prev st = Some (s4_current st)) ->
  exists x st' self',
    break_step prod st i self = Some (st', self') /\
    cfg self' = cfg self /\
    ~ known self x /\ known self' x /\
    (forall n, known self n -> known self' n) /\
    s4_variables st' = s4_variables st ++ [x] /\
    map fst (s4_final st') = map fst (s4_final st) ++ [x] /\
    s4_current st' = x /\ s4_prev st' = Some x /\
    (forall k, k <> s4_current st -> k <> x ->
       bodies_in (s4_final st') k = bodies_in (s4_final st) k) /\
    bodies_in (s4_final st') (s4_current st)
    = bodies_in (s4_final st) (s4_current st)
      ++ [((if (i =? 0)%nat then char_at 0 prod else s4_current st)
           ++ x)%string] /\
    bodies_in (s4_final st') x
    = (if (i =? String.length prod - 3)%nat then [last_two prod] else []).
Proof.
  intros Hcur Hkeys Hvars Hprev. unfold break_step.
  destruct (generate_new_variable_known self)
    as (x & self1 & E & Hcfg & Hnew & Hknown & Hmono).
  unfold bind at 1. rewrite E.
  assert (Hxk : ~ In x (map fst (s4_final st))) by (intros H; auto).
  assert (Hxv : ~ In x (s4_variables st)) by (intros H; auto).
  assert (Hcx : s4_current st <> x) by (intros <-; auto).
  set (final1 := dict_set x [] (s4_final st)).
  assert (Hk1 : map fst final1 = map fst (s4_final st) ++ [x]).
  { unfold final1. rewrite dict_set_absent by assumption.
    now rewrite map_app. }
  set (b := ((if (i =? 0)%nat then char_at 0 prod else s4_current st)
             ++ x)%string).
  destruct (append_body_bodies (s4_current st) b final1)
    as (final2 & E2 & Hk2 & Hb2).
  { rewrite Hk1. apply in_or_app. now left. }
  assert (Hstep1 :
            (if (i =? 0)%nat
             then lift (append_body (s4_current st)
                                    (char_at 0 prod ++ x)%string final1)
             else
               prev_var <~ lift (s4_prev st) ;;
               lift (append_body (s4_current st)
                                 (prev_var ++ x)%string final1)) self1
            = Some (final2, self1)).
  { unfold b in E2. destruct (Nat.eqb_spec i 0) as [->|Hi].
    - unfold lift. now rewrite E2.
    - rewrite (Hprev Hi). unfold bind, lift. now rewrite E2. }
  unfold bind at 1. rewrite Hstep1.
  assert (Hstep2 : exists final3,
            (if (i =? String.length prod - 3)%nat
             then lift (append_body x (last_two prod) final2)
             else ret final2) self1
            = Some (final3, self1) /\
            map fst final3 = map fst final2 /\
            forall k, bodies_in final3 k
                      = if eqb k x
                        then bodies_in final2 x
                             ++ (if (i =? String.length prod - 3)%nat
                                 then [last_two prod] else [])
                        else bodies_in final2 k).
  { destruct (i =? String.length prod - 3)%nat.
    - destruct (append_body_bodies x (last_two prod) final2)
        as (final3 & E3 & Hk3 & Hb3).
      { rewrite Hk2, Hk1. apply in_or_app. right. now left. }
      exists final3. unfold lift. rewrite E3. auto.
    - exists final2. split; [reflexivity|]. split; [reflexivity|].
      intros k. destruct (eqb_spec k x) as [->|]; [|reflexivity].
      now rewrite app_nil_r. }
  destruct Hstep2 as (final3 & E3 & Hk3 & Hb3).
  unfold bind at 1. rewrite E3. unfold ret.
  assert (Hb1 : forall k, bodies_in final1 k
                          = if eqb k x then [] else bodies_in (s4_final st) k).
  { intros k. unfold final1. apply bodies_in_set. }
  eexists x, _, self1. split; [reflexivity|]. simpl.
  split; [assumption|]. split; [assumption|]. split; [assumption|].
  split; [assumption|].
  split; [now rewrite (set_add_absent _ _ Hxv)|].
  split; [congruence|]. split; [reflexivity|]. split; [reflexivity|].
  split; [|split].
  - intros k Hkc Hkx. rewrite Hb3.
    destruct (eqb_spec k x); [contradiction|]. rewrite Hb2.
    destruct (eqb_spec k (s4_current st)); [contradiction|]. rewrite Hb1.
    destruct (eqb_spec k x); [contradiction | reflexivity].
  - rewrite Hb3.
    destruct (eqb_spec (s4_current st) x); [contradiction|].
    rewrite Hb2, eqb_refl, Hb1.
    destruct (eqb_spec (s4_current st) x); [contradiction | reflexivity].
  - rewrite Hb3, eqb_refl, Hb2.
    destruct (eqb_spec x (s4_current st)) as [Ex|]; [now symmetry in Ex|].
    now rewrite Hb1, eqb_refl.
Qed.

(** The turns after the first: each new variable but the last gets one
    body, its own name followed by the name of the next new variable. *)
Lemma break_rest_spec m :
  forall i st self,
    1 <= i -> i + m = String.length prod - 2 ->
    In (s4_current st) (map fst (s4_final st)) ->
    (forall k, In k (map fst (s4_final st)) -> known self k) ->
    (forall v, In v (s4_variables st) -> known self v) ->
    s4_prev st = Some (s4_current st) ->
    exists ys st' self',
      for_each (seq i m) (break_step prod) st self = Some (st', self') /\
      cfg self' = cfg self /\
      length ys = m /\ NoDup ys /\
      (forall y, In y ys -> ~ known self y) /\
      (forall n, known self n -> known self' n) /\
      (forall y, In y ys -> known self' y) /\
      s4_variables st' = s4_variables st ++ ys /\
      map fst (s4_final st') = map fst (s4_final st) ++ ys /\
      (forall k, k <> s4_current st -> ~ In k ys ->
         bodies_in (s4_final st') k = bodies_in (s4_final st) k) /\
      bodies_in (s4_final st') (s4_current st)
      = bodies_in (s4_final st) (s4_current st)
        ++ match ys with
           | [] => []
           | y :: _ => [(s4_current st ++ y)%string]
           end /\
      (forall t, t < m ->
         bodies_in (s4_final st') (nth t ys "")
         = if (t =? m - 1)%nat then [last_two prod]
           else [(nth t ys "" ++ nth (S t) ys "")%string]).
Proof.
  induction m as [|m IH]; intros i st self Hi Him Hcur Hkeys Hvars Hprev.
  - exists [], st, self. simpl. rewrite !app_nil_r.
    repeat split; auto; try constructor; try easy; intros; lia.
  - cbn [seq for_each].
    destruct (break_step_spec st i self Hcur Hkeys Hvars (fun _ => Hprev))
      as (x & st1 & self1 & E1 & Hcfg1 & Hnew & Hknown & Hmono & Hv1 & Hk1
          & Hc1 & Hp1 & Hframe1 & Hbc1 & Hbx1).
    assert (Hi0 : (i =? 0)%nat = false) by (apply Nat.eqb_neq; lia).
    rewrite Hi0 in Hbc1.
    destruct (IH (S i) st1 self1) as
      (ys & st' & self' & E & Hcfg & Hlen & Hnd & Hfresh & Hmono' & Hknown'
       & Hv & Hk & Hframe & Hbc & Hchain); try lia.
    { rewrite Hc1, Hk1. apply in_or_app. right. now left. }
    { intros k Hin. rewrite Hk1 in Hin.
      apply in_app_or in Hin as [Hin|[<-|[]]]; auto. }
    { intros v Hin. rewrite Hv1 in Hin.
      apply in_app_or in Hin as [Hin|[<-|[]]]; auto. }
    { now rewrite Hp1, Hc1. }
    assert (Hcx : s4_current st <> x) by (intros <-; auto).
    assert (Hcys : ~ In (s4_current st) ys).
    { intros Hin. apply (Hfresh _ Hin). auto. }
    assert (Hxys : ~ In x ys) by (intros Hin; now apply (Hfresh _ Hin)).
    exists (x :: ys), st', self'.
    split; [unfold bind; now rewrite E1|].
    split; [congruence|]. split; [simpl; congruence|].
    split; [now constructor|].
    split.
    { intros y [<-|Hy]; [assumption|]. intros Hc. apply (Hfresh y Hy). auto. }
    split; [auto|].
    split; [intros y [<-|Hy]; auto|].
    split; [rewrite Hv, Hv1, <- app_assoc; reflexivity|].
    split; [rewrite Hk, Hk1, <- app_assoc; reflexivity|].
    split; [|split].
    + intros k Hkc Hkys. simpl in Hkys.
      rewrite Hframe by (rewrite ?Hc1; intuition congruence).
      apply Hframe1; [assumption | intuition congruence].
    + rewrite Hframe by (rewrite ?Hc1; auto). exact Hbc1.
    + intros t Ht. destruct t as [|t]; simpl nth.
      * rewrite Hc1 in Hbc. rewrite Hbc, Hbx1.
        destruct ys as [|y ys]; simpl in Hlen.
        -- subst m. replace (i =? String.length prod - 3)%nat with true
             by (symmetry; apply Nat.eqb_eq; lia).
           reflexivity.
        -- subst m. replace (i =? String.length prod - 3)%nat with false
             by (symmetry; apply Nat.eqb_neq; lia).
           reflexivity.
      * rewrite Hchain by lia.
        replace (S t =? S m - 1)%nat with (t =? m - 1)%nat; [reflexivity|].
        destruct (Nat.eqb_spec t (m - 1)), (Nat.eqb_spec (S t) (S m - 1));
          try reflexivity; lia.
Qed.

(** What the loop does with one long body.  A body of [n > 2] characters
    gets [n - 2] new variables.  The body added for the original
    variable is the first character of the body followed by the first new
    variable; the last new variable holds the last two characters; each new
    variable before it holds its own name followed by the next new
    variable. *)
Lemma break_body_chain var st self :
  2 < String.length prod ->
  In var (map fst (s4_final st)) ->
  (forall k, In k (map fst (s4_final st)) -> known self k) ->
  (forall v, In v (s4_variables st) -> known self v) ->
  exists xs st' self',
    break_body var st prod self = Some (st', self') /\
    length xs = String.length prod - 2 /\ NoDup xs /\
    (forall x, In x xs -> ~ known self x) /\
    s4_variables st' = s4_variables st ++ xs /\
    map fst (s4_final st') = map fst (s4_final st) ++ xs /\
    bodies_in (s4_final st') var
    = bodies_in (s4_final st) var ++ [(char_at 0 prod ++ nth 0 xs "")%string] /\
    (forall t, t < String.length prod - 2 ->
       bodies_in (s4_final st') (nth t xs "")
       = if (t =? String.length prod - 3)%nat then [last_two prod]
         else [(nth t xs "" ++ nth (S t) xs "")%string]) /\
    (forall k, k <> var -> ~ In k xs ->
       bodies_in (s4_final st') k = bodies_in (s4_final st) k).
Proof.
  intros Hlen Hvar Hkeys Hvars. unfold break_body.
  replace (String.length prod <=? 2)%nat with false
    by (symmetry; apply Nat.leb_gt; lia).
  destruct (String.length prod - 2) as [|m] eqn:Em; [lia|].
  cbn [seq for_each].
  set (st0 := mkStep4 (s4_variables st) (s4_final st) var (s4_prev st)).
  destruct (break_step_spec st0 0 self)
    as (x & st1 & self1 & E1 & Hcfg1 & Hnew & Hknown & Hmono & Hv1 & Hk1
        & Hc1 & Hp1 & Hframe1 & Hbc1 & Hbx1); simpl; auto; [congruence|].
  subst st0. cbn [s4_current s4_final s4_variables s4_prev] in *.
  change (0 =? 0)%nat with true in Hbc1. cbv iota in Hbc1.
  destruct (break_rest_spec m 1 st1 self1) as
    (ys & st' & self' & E & Hcfg & Hlen' & Hnd & Hfresh & Hmono' & Hknown'
     & Hv & Hk & Hframe & Hbc & Hchain); try lia.
  { rewrite Hc1, Hk1. apply in_or_app. right. now left. }
  { intros k Hin. rewrite Hk1 in Hin.
    apply in_app_or in Hin as [Hin|[<-|[]]]; auto. }
  { intros v Hin. rewrite Hv1 in Hin.
    apply in_app_or in Hin as [Hin|[<-|[]]]; auto. }
  { now rewrite Hp1, Hc1. }
  assert (Hvx : var <> x) by (intros <-; auto).
  assert (Hvys : ~ In var ys) by (intros Hin; apply (Hfresh _ Hin); auto).
  assert (Hxys : ~ In x ys) by (intros Hin; now apply (Hfresh _ Hin)).
  exists (x :: ys), st', self'.
  split; [unfold bind; now rewrite E1|].
  split; [simpl; congruence|]. split; [now constructor|].
  split.
  { intros y [<-|Hy]; [assumption|]. intros Hc. apply (Hfresh y Hy). auto. }
  split; [rewrite Hv, Hv1, <- app_assoc; reflexivity|].
  split; [rewrite Hk, Hk1, <- app_assoc; reflexivity|].
  split; [|split].
  - rewrite Hframe by (rewrite ?Hc1; auto). exact Hbc1.
  - intros t Ht. destruct t as [|t]; simpl nth.
    + rewrite Hc1 in Hbc. rewrite Hbc, Hbx1.
      destruct ys as [|y ys]; simpl in Hlen'.
      * subst m. replace (0 =? String.length prod - 3)%nat with true
          by (symmetry; apply Nat.eqb_eq; lia).
        reflexivity.
      * subst m. replace (0 =? String.length prod - 3)%nat with false
          by (symmetry; apply Nat.eqb_neq; lia).
        reflexivity.
    + rewrite Hchain by lia.
      replace (S t =? String.length prod - 3)%nat with (t =? m - 1)%nat;
        [reflexivity|].
      destruct (Nat.eqb_spec t (m - 1)),
               (Nat.eqb_spec (S t) (String.length prod - 3));
        try reflexivity; lia.
  - intros k Hkv Hkxs. simpl in Hkxs.
    rewrite Hframe by (rewrite ?Hc1; intuition congruence).
    apply Hframe1; [assumption | intuition congruence].
Qed.

End Chain.
End CfgChain.

(** ** The names that a converter generates *)

Module CfgNames.
Import CfgToCnf CfgSpec CfgMonad CfgFresh CfgExamples.

(** The loop returns the first name, from the counter on, that is not a
    variable of the grammar. *)
Lemma generate_new_variable_loop_least fuel :
  forall self x self',
    generate_new_variable_loop fuel self = Some (x, self') ->
    exists k,
      new_var_counter self <= k /\
      x = fresh_name k /\
      self' = mkCNFConverter (cfg self) (S k) (terminal_to_var self) /\
      ~ In (fresh_name k) (variables (cfg self)) /\
      forall i, new_var_counter self <= i < k ->
                In (fresh_name i) (variables (cfg self)).
Proof.
  induction fuel as [|fuel IH]; intros self x self' E; [discriminate|].
  simpl in E.
  destruct (mem_reflect (fresh_name (new_var_counter self))
                        (variables (cfg self))) as [Hin|Hnin].
  - destruct (IH _ _ _ E) as (k & Hk & -> & -> & Hfresh & Hleast).
    simpl in *. exists k. split; [lia|]. repeat split; auto.
    intros i Hi.
    destruct (Nat.eq_dec i (new_var_counter self)) as [->|Hne];
      [assumption|].
    apply Hleast. lia.
  - injection E as <- <-. exists (new_var_counter self).
    split; [lia|]. repeat split; auto. intros i Hi. lia.
Qed.

(** X11.  [generate_new_variable] always returns: the name it returns is
    [X] followed by the first number, from the counter on, whose name is not
    a variable of the grammar; the counter is left one above that number,
    and the grammar and the terminal map as they were. *)
Theorem generate_new_variable_least self :
  exists k,
    generate_new_variable self
    = Some (fresh_name k,
            mkCNFConverter (cfg self) (S k) (terminal_to_var self)) /\
    new_var_counter self <= k /\
    ~ In (fresh_name k) (variables (cfg self)) /\
    forall i, new_var_counter self <= i < k ->
              In (fresh_name i) (variables (cfg self)).
Proof.
  destruct (generate_new_variable_spec self) as (j & _ & E).
  destruct (generate_new_variable_loop_least _ _ _ _ E)
    as (k & Hk & Ex & _ & Hfresh & Hleast).
  apply fresh_name_inj in Ex. subst k.
  exists (new_var_counter self + j). auto.
Qed.

(** X12.  A converter never generates a name twice: a name that
    [generate_new_variable] returns differs from every name it has returned
    before, as long as the counter has not been set back, whatever has
    become of the variables of the grammar. *)
Theorem generate_new_variable_distinct self1 self2 x y self1' self2' :
  generate_new_variable self1 = Some (x, self1') ->
  new_var_counter self1' <= new_var_counter self2 ->
  generate_new_variable self2 = Some (y, self2') ->
  x <> y /\ new_var_counter self1' <= new_var_counter self2'.
Proof.
  intros E1 Hle E2.
  destruct (generate_new_variable_loop_least _ _ _ _ E1)
    as (k1 & Hk1 & -> & -> & _).
  destruct (generate_new_variable_loop_least _ _ _ _ E2)
    as (k2 & Hk2 & -> & -> & _).
  simpl in *. split; [|lia].
  intros E. apply fresh_name_inj in E. lia.
Qed.

(** Two calls in a row on a grammar that has the variable X0 are one
    instance. *)
Lemma generate_new_variable_distinct_witness :
  generate_new_variable (init (mkCFG ["S"; "X0"] ["a"] [("S", ["a"])] "S"))
  = Some ("X1", mkCNFConverter (mkCFG ["S"; "X0"] ["a"] [("S", ["a"])] "S")
                               2 []) /\
  generate_new_variable
    (mkCNFConverter (mkCFG ["S"; "X0"] ["a"] [("S", ["a"])] "S") 2 [])
  = Some ("X2", mkCNFConverter (mkCFG ["S"; "X0"] ["a"] [("S", ["a"])] "S")
                               3 []) /\
  "X1" <> "X2" /\ 2 <= 3.
Proof.
  split; [reflexivity|]. split; [reflexivity|].
  exact (generate_new_variable_distinct
           (init (mkCFG ["S"; "X0"] ["a"] [("S", ["a"])] "S"))
           (mkCNFConverter (mkCFG ["S"; "X0"] ["a"] [("S", ["a"])] "S") 2 [])
           "X1" "X2" _ _ eq_refl (le_n 2) eq_refl).
Defined.

End CfgNames.

(** ** Derivations, and the nullable variables *)

Module CfgDerive.
Import CfgToCnf CfgSpec.

Lemma append_nil_r s : (s ++ "")%string = s.
Proof. induction s as [|c s IH]; simpl; [reflexivity | now rewrite IH]. Qed.

Lemma append_assoc s t u : ((s ++ t) ++ u)%string = (s ++ t ++ u)%string.
Proof. induction s as [|c s IH]; simpl; [reflexivity | now rewrite IH]. Qed.

Lemma chars_app s t : chars (s ++ t) = chars s ++ chars t.
Proof. induction s as [|c s IH]; simpl; [reflexivity | now rewrite IH]. Qed.

Lemma chars_single s : String.length s = 1 -> chars s = [s].
Proof. destruct s as [|c [|c' s]]; simpl; intros E; try discriminate; reflexivity. Qed.

Lemma chars_inj s t : chars s = chars t -> s = t.
Proof.
  revert t. induction s as [|c s IH]; intros [|c' t]; simpl; try discriminate;
    [reflexivity|].
  intros [= -> E]. f_equal. now apply IH.
Qed.

Lemma chars_length s : length (chars s) = String.length s.
Proof. induction s as [|c s IH]; simpl; [reflexivity | now rewrite IH]. Qed.

Lemma chars_are_single s c : In c (chars s) -> String.length c = 1.
Proof.
  induction s as [|a s IH]; simpl; [easy|]. intros [<-|Hc]; [reflexivity|auto].
Qed.

Section Derivations.
Variable g : CFG.

Lemma derives_trans u v w : derives g u v -> derives g v w -> derives g u w.
Proof.
  induction 1 as [|u A v0 b w0 Hb _ IH]; [auto|].
  intros Hw. apply (derives_step g u A v0 b w); auto.
Qed.

(** A derivation can take place inside a longer string. *)
Lemma derives_context x y s t :
  derives g s t -> derives g (x ++ s ++ y)%string (x ++ t ++ y)%string.
Proof.
  induction 1 as [|u A v b w Hb _ IH]; [constructor|].
  replace (x ++ (u ++ A ++ v) ++ y)%string
    with ((x ++ u) ++ A ++ (v ++ y))%string
    by now rewrite !append_assoc.
  apply (derives_step g _ A _ b); [assumption|].
  replace ((x ++ u) ++ b ++ v ++ y)%string
    with (x ++ (u ++ b ++ v) ++ y)%string
    by now rewrite !append_assoc.
  exact IH.
Qed.

Lemma derives_rule A b : In b (bodies_of g A) -> derives g A b.
Proof.
  intros Hb.
  replace A with ("" ++ A ++ "")%string by (simpl; apply append_nil_r).
  apply (derives_step g "" A "" b); [assumption|].
  simpl. rewrite append_nil_r. constructor.
Qed.

Lemma derives_app s1 t1 s2 t2 :
  derives g s1 t1 -> derives g s2 t2 ->
  derives g (s1 ++ s2)%string (t1 ++ t2)%string.
Proof.
  intros H1 H2. apply (derives_trans _ (t1 ++ s2)%string).
  - pose proof (derives_context "" s2 _ _ H1) as H. exact H.
  - pose proof (derives_context t1 "" _ _ H2) as H.
    now rewrite !append_nil_r in H.
Qed.

Lemma bodies_of_item A b :
  In b (bodies_of g A) ->
  exists prods, In (A, prods) (productions g) /\ In b prods.
Proof.
  unfold bodies_of. destruct (lookup A (productions g)) as [prods|] eqn:E;
    [|easy].
  intros Hb. exists prods. split; [now apply lookup_In | assumption].
Qed.

Lemma bodies_of_In A prods :
  dict_ok (productions g) -> In (A, prods) (productions g) ->
  bodies_of g A = prods.
Proof.
  intros Hdict Hin. unfold bodies_of. now rewrite (In_lookup _ _ _ Hdict Hin).
Qed.

End Derivations.

End CfgDerive.

Module CfgNullable.
Import CfgToCnf CfgSpec CfgMonad CfgEpsilon CfgDerive CfgExamples.

Section Correct.
Variable g : CFG.
Hypothesis Hdict : dict_ok (productions g).

(** Every member is a key that derives the empty string. *)
Local Abbreviation sound N :=
  (forall A, In A N -> In A (map fst (productions g)) /\ derives g A "").

Lemma derives_all_nullable (N : list string) s :
  sound N -> forallb (fun c => mem c N) (chars s) = true -> derives g s "".
Proof.
  intros HN. induction s as [|c s IH]; simpl; intros Hall; [constructor|].
  apply andb_true_iff in Hall as [Hc Hs]. apply mem_In in Hc.
  change (String c s) with (String c "" ++ s)%string.
  change "" with ("" ++ "")%string at 2.
  apply derives_app; [apply HN, Hc | now apply IH].
Qed.

Lemma nullable_step_sound N a item :
  In item (productions g) -> sound N ->
  sound (fst (nullable_step (N, a) item)).
Proof.
  intros Hin HN. destruct item as [var prods]. simpl.
  assert (Hadd : derives g var "" -> sound (set_add var N)).
  { intros Hd A HA. apply set_add_In in HA as [->|HA]; [|auto].
    split; [|assumption]. now apply (in_map fst) in Hin. }
  destruct (mem var N); [assumption|].
  destruct (mem_reflect "" prods) as [He|He].
  - apply Hadd. apply derives_rule.
    now rewrite (bodies_of_In g var prods Hdict Hin).
  - destruct (existsb _ prods) eqn:Ex; [|assumption].
    apply Hadd. apply existsb_exists in Ex as (prod & Hprod & Hall).
    apply (derives_trans g _ prod).
    + apply derives_rule. now rewrite (bodies_of_In g var prods Hdict Hin).
    + now apply (derives_all_nullable N).
Qed.

Lemma nullable_pass_sound items :
  incl items (productions g) ->
  forall N a, sound N -> sound (fst (fold_left nullable_step items (N, a))).
Proof.
  induction items as [|item items IH]; cbn [fold_left]; intros Hinc N a HN;
    [assumption|].
  pose proof (nullable_step_sound N a item (Hinc _ (or_introl eq_refl)) HN)
    as H1.
  destruct (nullable_step (N, a) item) as [N1 a1].
  apply IH; [|assumption]. intros x Hx. apply Hinc. now right.
Qed.

Lemma nullable_loop_sound fuel :
  forall N N', sound N ->
    nullable_loop fuel (productions g) N = Some N' -> sound N'.
Proof.
  induction fuel as [|fuel IH]; cbn [nullable_loop]; intros N N' HN E;
    [discriminate|].
  pose proof (nullable_pass_sound (productions g) (incl_refl _) N false HN)
    as H1.
  destruct (fold_left nullable_step (productions g) (N, false)) as [N1 a1].
  destruct a1.
  - now apply (IH N1).
  - now injection E as <-.
Qed.

End Correct.

(** *** The last pass adds nothing *)

Lemma nullable_step_cases st item :
  nullable_step st item = st \/ snd (nullable_step st item) = true.
Proof.
  destruct st as [N a], item as [var prods]. simpl.
  destruct (mem var N); [now left|].
  destruct (mem "" prods); [now right|].
  destruct (existsb _ prods); [now right | now left].
Qed.

Lemma nullable_flag_true items :
  forall N, snd (fold_left nullable_step items (N, true)) = true.
Proof.
  induction items as [|item items IH]; cbn [fold_left]; intros N;
    [reflexivity|].
  destruct (nullable_step_cases (N, true) item) as [->|E]; [apply IH|].
  destruct (nullable_step (N, true) item) as [N1 a1]. simpl in E. subst a1.
  apply IH.
Qed.

Lemma nullable_pass_fixed items :
  forall N a N',
    fold_left nullable_step items (N, a) = (N', false) ->
    a = false /\ N' = N /\
    forall item, In item items -> nullable_step (N, false) item = (N, false).
Proof.
  induction items as [|item items IH]; cbn [fold_left]; intros N a N' E.
  - injection E as <- ->. repeat split. intros item [].
  - destruct (nullable_step_cases (N, a) item) as [E1|E1].
    + rewrite E1 in E. destruct (IH _ _ _ E) as (-> & -> & Hrest).
      repeat split. intros item' [<-|Hin]; auto.
    + destruct (nullable_step (N, a) item) as [N1 a1]. simpl in E1. subst a1.
      pose proof (nullable_flag_true items N1) as Ht.
      rewrite E in Ht. discriminate.
Qed.

Lemma nullable_loop_fixed prods fuel :
  forall N N',
    nullable_loop fuel prods N = Some N' ->
    forall item, In item prods -> nullable_step (N', false) item = (N', false).
Proof.
  induction fuel as [|fuel IH]; cbn [nullable_loop]; intros N N' E;
    [discriminate|].
  destruct (fold_left nullable_step prods (N, false)) as [N1 a1] eqn:E1.
  destruct a1.
  - now apply (IH N1).
  - injection E as <-.
    destruct (nullable_pass_fixed _ _ _ _ E1) as (_ & -> & Hfix). exact Hfix.
Qed.

(** What derives the empty string is made of nullable variables. *)
Lemma derives_empty_nullable g N :
  single_char_keys g ->
  (forall item, In item (productions g) ->
     nullable_step (N, false) item = (N, false)) ->
  forall s w, derives g s w -> w = "" -> Forall (fun c => In c N) (chars s).
Proof.
  intros Hkeys Hfix s w. induction 1 as [u|u A v b w Hb _ IH]; intros Ew.
  - subst u. constructor.
  - specialize (IH Ew). rewrite !chars_app in IH.
    apply Forall_app in IH as [Hu IH]. apply Forall_app in IH as [Hbody Hv].
    destruct (bodies_of_item g A b Hb) as (prods & Hin & Hbp).
    rewrite !chars_app, (chars_single A).
    2:{ apply Hkeys. now apply (in_map fst) in Hin. }
    apply Forall_app. split; [assumption|]. constructor; [|assumption].
    pose proof (Hfix _ Hin) as E. simpl in E.
    destruct (mem_reflect A N) as [HA|HA]; [assumption|]. exfalso.
    destruct (mem "" prods); [discriminate|].
    destruct (existsb _ prods) eqn:Ex; [discriminate|].
    apply not_true_iff_false in Ex. apply Ex.
    apply existsb_exists. exists b. split; [assumption|].
    apply forallb_forall. intros c Hc. apply mem_In.
    now apply (proj1 (Forall_forall _ _) Hbody).
Qed.

Lemma single_char_keysb_ok g : single_char_keysb g = true -> single_char_keys g.
Proof.
  unfold single_char_keysb. rewrite forallb_forall. intros H k Hk.
  apply in_map_iff in Hk as (item & <- & Hin).
  now apply Nat.eqb_eq, H.
Qed.

Lemma compute_nullable_result g :
  dict_ok (productions g) -> single_char_keys g ->
  exists nullable,
    compute_nullable g = Some nullable /\ NoDup nullable /\
    forall A, In A nullable
              <-> In A (map fst (productions g)) /\ derives g A "".
Proof.
  intros Hdict Hkeys.
  destruct (compute_nullable_returns (productions g) g eq_refl) as (N & EN).
  exists N. split; [assumption|].
  unfold compute_nullable in EN.
  assert (Hnd : NoDup N).
  { destruct (nullable_loop_spec (productions g)
                                 (S (length (productions g))) [])
      as (N' & E' & Hnd & _); [constructor | easy | |].
    - assert (length (nodup string_dec (map fst (productions g)))
              <= length (productions g)); [|simpl; lia].
      rewrite <- (length_map fst (productions g)). apply NoDup_incl_length.
      + apply NoDup_nodup.
      + intros x Hx. now apply nodup_In in Hx.
    - rewrite EN in E'. now injection E' as <-. }
  split; [assumption|].
  pose proof (nullable_loop_sound g Hdict _ [] N (fun A (H : In A []) =>
                False_ind _ H) EN) as Hsound.
  pose proof (nullable_loop_fixed _ _ _ _ EN) as Hfix.
  intros A. split; [apply Hsound|]. intros [HA Hd].
  pose proof (derives_empty_nullable g N Hkeys Hfix A "" Hd eq_refl) as Hall.
  rewrite (chars_single A (Hkeys A HA)) in Hall.
  now inversion Hall.
Qed.

(** X13.  The search for nullable variables finds them all, and nothing
    else: for a grammar whose productions have single characters as keys,
    the set that [eliminate_epsilon_productions] computes holds exactly the
    keys that derive the empty string. *)
Theorem compute_nullable_correct g :
  dict_ok (productions g) -> single_char_keys g ->
  exists nullable,
    compute_nullable g = Some nullable /\ NoDup nullable /\
    forall A, In A nullable
              <-> In A (map fst (productions g)) /\ derives g A "".
Proof. exact (compute_nullable_result g). Qed.

(** The grammar of the test of epsilon elimination is one instance. *)
Lemma compute_nullable_correct_witness :
  dict_ok (productions eps_test) /\ single_char_keys eps_test /\
  exists nullable,
    compute_nullable eps_test = Some nullable /\ NoDup nullable /\
    forall A, In A nullable
              <-> In A (map fst (productions eps_test)) /\
                  derives eps_test A "".
Proof.
  assert (H1 : dict_ok (productions eps_test))
    by (apply distinct_NoDup; reflexivity).
  assert (H2 : single_char_keys eps_test)
    by (apply single_char_keysb_ok; reflexivity).
  split; [exact H1|]. split; [exact H2|].
  exact (compute_nullable_correct eps_test H1 H2).
Defined.

End CfgNullable.

(** ** The bodies that epsilon elimination makes *)

Module CfgOmit.
Import CfgToCnf CfgSpec CfgMonad CfgFresh CfgEpsilon CfgDerive CfgExamples.

Lemma enumerate_from_ge {A} (l : list A) :
  forall k j x, In (j, x) (enumerate_from k l) -> k <= j.
Proof.
  induction l as [|y l IH]; simpl; intros k j x; [easy|].
  intros [[= <- _]|Hin]; [lia|]. apply IH in Hin. lia.
Qed.

Lemma enumerate_from_fun {A} (l : list A) :
  forall k j x y,
    In (j, x) (enumerate_from k l) -> In (j, y) (enumerate_from k l) -> x = y.
Proof.
  induction l as [|z l IH]; simpl; intros k j x y; [easy|].
  intros [[= <- <-]|Hx] [E|Hy]; [now injection E | | |].
  - apply enumerate_from_ge in Hy. lia.
  - injection E as <- _. apply enumerate_from_ge in Hx. lia.
  - now apply (IH (S k) j).
Qed.

(** The characters of a string put together again. *)
Lemma chars_concat l :
  Forall (fun c => String.length c = 1) l -> chars (String.concat "" l) = l.
Proof.
  induction 1 as [|c l Hc _ IH]; [reflexivity|].
  destruct l as [|c' l].
  - now apply chars_single.
  - change (String.concat "" (c :: c' :: l))
      with (c ++ String.concat "" (c' :: l))%string.
    rewrite chars_app, IH. now rewrite (chars_single c).
Qed.

Section Enumeration.
Variable N : list string.

(** The lists of the source, from any position on. *)
Local Abbreviation idx k cs :=
  (map fst (filter (fun '(_, symbol) => mem symbol N)
                   (@enumerate_from string k cs))).
Local Abbreviation om b i l :=
  (map snd (filter (fun '(j, _) => Nat.testbit i j)
                   (@enumerate_from nat b l))).
Local Abbreviation kept k omit cs :=
  (map snd (filter (fun '(j, _) => negb (mem j omit))
                   (@enumerate_from string k cs))).

Lemma idx_ge k cs j : In j (idx k cs) -> k <= j.
Proof.
  intros Hj. apply in_map_iff in Hj as ([j' c] & <- & Hin).
  apply filter_In in Hin as [Hin _]. now apply enumerate_from_ge in Hin.
Qed.

Lemma idx_nullable k cs j c :
  In j (idx k cs) -> In (j, c) (enumerate_from k cs) -> In c N.
Proof.
  intros Hj Hc. apply in_map_iff in Hj as ([j' c'] & Ej & Hin).
  simpl in Ej. subst j'. apply filter_In in Hin as [Hin Hmem].
  rewrite (enumerate_from_fun _ _ _ _ _ Hc Hin). now apply mem_In.
Qed.

Lemma om_incl b i l x : In x (om b i l) -> In x l.
Proof.
  intros Hx. apply in_map_iff in Hx as ([j y] & <- & Hin).
  apply filter_In in Hin as [Hin _]. simpl.
  apply (in_map snd) in Hin. now rewrite map_snd_enumerate_from in Hin.
Qed.

Lemma om_shift i i' l :
  (forall j, Nat.testbit i' (S j) = Nat.testbit i j) ->
  forall b, om (S b) i' l = om b i l.
Proof.
  intros Hbit. induction l as [|x l IH]; cbn [enumerate_from filter map];
    intros b; [reflexivity|].
  rewrite Hbit. destruct (Nat.testbit i b); cbn [map snd]; now rewrite IH.
Qed.

Lemma kept_skip k0 omit cs :
  forall k, k0 < k -> kept k (k0 :: omit) cs = kept k omit cs.
Proof.
  induction cs as [|c cs IH]; cbn [enumerate_from filter map]; intros k Hk;
    [reflexivity|].
  assert (E : mem k (k0 :: omit) = mem k omit).
  { unfold mem. simpl. destruct (eqb_spec k k0); [lia | reflexivity]. }
  rewrite E.
  destruct (mem k omit); cbn [negb map snd]; rewrite IH by lia; reflexivity.
Qed.

(** Leaving out positions of nullable symbols is an omission. *)
Lemma kept_omits cs :
  forall k omit,
    (forall j c, In (j, c) (enumerate_from k cs) -> In j omit -> In c N) ->
    omits N cs (kept k omit cs).
Proof.
  induction cs as [|c cs IH]; simpl; intros k omit Hom; [constructor|].
  destruct (mem_reflect k omit) as [Hk|Hk]; simpl.
  - apply omits_drop; [apply (Hom k c); auto|].
    apply IH. intros j c' Hin. apply Hom. now right.
  - apply omits_keep. apply IH. intros j c' Hin. apply Hom. now right.
Qed.

(** Every omission is one of the combinations. *)
Lemma omits_enumerated cs t :
  omits N cs t ->
  forall k, exists i,
    i < 2 ^ length (idx k cs) /\ kept k (om 0 i (idx k cs)) cs = t.
Proof.
  induction 1 as [|c s t _ IH|c s t Hc _ IH]; intros k.
  - exists 0. simpl. split; [lia | reflexivity].
  - destruct (IH (S k)) as (i & Hi & E).
    assert (Ek : mem k (om 0 i (idx (S k) s)) = false).
    { apply mem_not_In. intros Hk. apply om_incl, idx_ge in Hk. lia. }
    cbn [enumerate_from filter map].
    destruct (mem_reflect c N) as [Hc|Hc]; cbn [map fst length].
    + exists (2 * i + Nat.b2n false).
      cbn [enumerate_from filter map].
      rewrite Nat.testbit_0_r.
      rewrite (om_shift i (2 * i + Nat.b2n false) (idx (S k) s)
                 (fun j => Nat.testbit_succ_r i false j) 0).
      split; [simpl; lia|].
      rewrite Ek. cbn [negb map snd]. now rewrite E.
    + exists i. split; [assumption|].
      rewrite Ek. cbn [negb map snd]. now rewrite E.
  - destruct (IH (S k)) as (i & Hi & E).
    cbn [enumerate_from filter map].
    apply mem_In in Hc. rewrite Hc. cbn [map fst length].
    exists (2 * i + Nat.b2n true).
    cbn [enumerate_from filter map].
    rewrite Nat.testbit_0_r. cbn [map snd].
    rewrite (om_shift i (2 * i + Nat.b2n true) (idx (S k) s)
               (fun j => Nat.testbit_succ_r i true j) 0).
    split; [simpl; lia|].
    assert (Ek : mem k (k :: om 0 i (idx (S k) s)) = true)
      by (apply mem_In; now left).
    rewrite Ek. cbn [negb]. rewrite kept_skip by lia. exact E.
Qed.

(** The combinations of a body are its omissions. *)
Lemma combinations_omits prod p :
  (exists i, In i (seq 0 (2 ^ length (nullable_indices N prod))) /\
             p = omit_symbols (omit_indices i (nullable_indices N prod)) prod)
  <-> omits N (chars prod) (chars p).
Proof.
  unfold nullable_indices, omit_indices, omit_symbols, enumerate. split.
  - intros (i & _ & ->). rewrite chars_concat.
    + apply kept_omits. intros j c Hin Hj.
      apply om_incl in Hj. now apply (idx_nullable 0 (chars prod) j).
    + apply Forall_forall. intros c Hc.
      apply in_map_iff in Hc as ([j c'] & <- & Hin).
      apply filter_In in Hin as [Hin _].
      apply (in_map snd) in Hin. rewrite map_snd_enumerate_from in Hin.
      now apply (chars_are_single prod).
  - intros Hom. destruct (omits_enumerated _ _ Hom 0) as (i & Hi & E).
    exists i. split; [apply in_seq; lia|].
    rewrite E. now rewrite concat_chars.
Qed.

End Enumeration.

(** *** The new productions *)

Lemma add_nonempty_NoDup var new_prod (d d' : list (string * list string)) :
  add_nonempty var new_prod d = Some d' ->
  (forall k, NoDup (bodies_in d k)) -> forall k, NoDup (bodies_in d' k).
Proof.
  unfold add_nonempty. destruct (eqb new_prod ""); [now intros [= <-]|].
  destruct (lookup var d) as [body|] eqn:E; simpl; [|discriminate].
  destruct (mem_reflect new_prod body) as [Hin|Hnin]; intros [= <-] Hnd k;
    [apply Hnd|].
  rewrite bodies_in_set. destruct (eqb k var); [|apply Hnd].
  apply NoDup_snoc; [|assumption].
  specialize (Hnd var). unfold bodies_in in Hnd. now rewrite E in Hnd.
Qed.

(** A loop that adds the bodies [f x], for the [x] of a list. *)
Lemma add_all_spec {X} (f : X -> string) var l :
  forall d : list (string * list string),
    In var (map fst d) ->
    exists d',
      ofold (fun d x => add_nonempty var (f x) d) l d = Some d' /\
      map fst d' = map fst d /\
      ((forall k, NoDup (bodies_in d k)) -> forall k, NoDup (bodies_in d' k)) /\
      (forall k p, In p (bodies_in d' k) <->
                   In p (bodies_in d k) \/
                   (k = var /\ p <> "" /\ exists x, In x l /\ p = f x)).
Proof.
  induction l as [|x l IH]; simpl; intros d Hvar.
  - exists d. repeat split; auto. intros [H|(_ & _ & y & [] & _)]. assumption.
  - destruct (add_nonempty_spec var (f x) d Hvar) as (d1 & E1 & Hk1 & Hb1).
    rewrite E1. simpl.
    destruct (IH d1) as (d' & E' & Hk' & Hnd' & Hb'); [now rewrite Hk1|].
    exists d'. split; [assumption|]. split; [congruence|]. split.
    + intros Hnd. apply Hnd'. now apply (add_nonempty_NoDup var (f x) d).
    + intros k p. rewrite Hb', Hb1. split.
      * intros [[H|(-> & -> & Hne)]|(-> & Hne & y & Hy & ->)]; eauto 10.
      * intros [H|(-> & Hne & y & [<-|Hy] & ->)]; eauto 10.
Qed.

Section Expand.
Variable N : list string.

Lemma expand_production_spec var prod (d : list (string * list string)) :
  In var (map fst d) ->
  exists d',
    expand_production N var prod d = Some d' /\
    map fst d' = map fst d /\
    ((forall k, NoDup (bodies_in d k)) -> forall k, NoDup (bodies_in d' k)) /\
    (forall k p, In p (bodies_in d' k) <->
                 In p (bodies_in d k) \/
                 (k = var /\ p <> "" /\ omits N (chars prod) (chars p))).
Proof.
  intros Hvar. unfold expand_production.
  destruct (eqb_spec prod "") as [->|Hne].
  - exists d. repeat split; auto.
    intros [H|(_ & Hp & Hom)]; [assumption|]. exfalso. apply Hp.
    simpl in Hom. inversion Hom as [E| |]. now destruct p.
  - destruct (add_all_spec
                (fun i => omit_symbols
                            (omit_indices i (nullable_indices N prod)) prod)
                var (seq 0 (2 ^ length (nullable_indices N prod))) d Hvar)
      as (d' & E & Hk & Hnd & Hb).
    exists d'. repeat (split; [assumption|]).
    intros k p. rewrite Hb, (combinations_omits N prod p). reflexivity.
Qed.

Lemma expand_bodies_spec var prods :
  forall d : list (string * list string),
    In var (map fst d) ->
    exists d',
      ofold (fun d prod => expand_production N var prod d) prods d = Some d' /\
      map fst d' = map fst d /\
      ((forall k, NoDup (bodies_in d k)) -> forall k, NoDup (bodies_in d' k)) /\
      (forall k p, In p (bodies_in d' k) <->
                   In p (bodies_in d k) \/
                   (k = var /\ p <> "" /\
                    exists prod, In prod prods /\
                                 omits N (chars prod) (chars p))).
Proof.
  induction prods as [|prod prods IH]; simpl; intros d Hvar.
  - exists d. repeat split; auto. intros [H|(_ & _ & y & [] & _)]. assumption.
  - destruct (expand_production_spec var prod d Hvar)
      as (d1 & E1 & Hk1 & Hnd1 & Hb1).
    rewrite E1. simpl.
    destruct (IH d1) as (d' & E' & Hk' & Hnd' & Hb'); [now rewrite Hk1|].
    exists d'. split; [assumption|]. split; [congruence|].
    split; [auto|].
    intros k p. rewrite Hb', Hb1. split.
    + intros [[H|(-> & Hne & Hom)]|(-> & Hne & y & Hy & Hom)]; eauto 10.
    + intros [H|(-> & Hne & y & [<-|Hy] & Hom)]; eauto 10.
Qed.

(** The new productions: under each variable, the omissions of its bodies
    that are not empty, each once. *)
Lemma expand_productions_spec g :
  keys_in_variables g ->
  exists d,
    expand_productions N g = Some d /\
    map fst d = map fst (dict_of (fun _ => @nil string) (variables g)) /\
    (forall k, NoDup (bodies_in d k)) /\
    (forall k p, In p (bodies_in d k) <->
                 p <> "" /\
                 exists prods prod,
                   In (k, prods) (productions g) /\ In prod prods /\
                   omits N (chars prod) (chars p)).
Proof.
  intros Hkeys. unfold expand_productions.
  set (d0 := dict_of (fun _ => @nil string) (variables g)).
  assert (Hd0 : forall k, In k (map fst (productions g)) -> In k (map fst d0)).
  { intros k Hk. apply dict_of_spec. now apply Hkeys. }
  assert (Hempty : forall k, bodies_in d0 k = []).
  { intros k. unfold bodies_in.
    destruct (lookup k d0) as [b|] eqn:E; [|easy].
    assert (Hk : In k (variables g)).
    { apply lookup_Some_key in E. now apply dict_of_spec in E. }
    destruct (dict_of_spec (fun _ => @nil string) (variables g))
      as (_ & _ & Hl).
    unfold d0 in E. rewrite (Hl k Hk) in E. now injection E as <-. }
  enough (G : forall items d,
            (forall k, In k (map fst items) -> In k (map fst d)) ->
            exists d',
              ofold (fun d '(var, prods) =>
                       ofold (fun d prod => expand_production N var prod d)
                             prods d) items d = Some d' /\
              map fst d' = map fst d /\
              ((forall k, NoDup (bodies_in d k)) ->
               forall k, NoDup (bodies_in d' k)) /\
              (forall k p, In p (bodies_in d' k) <->
                           In p (bodies_in d k) \/
                           (p <> "" /\
                            exists prods prod,
                              In (k, prods) items /\ In prod prods /\
                              omits N (chars prod) (chars p)))).
  { destruct (G (productions g) d0 Hd0) as (d & E & Hk & Hnd & Hb).
    exists d. split; [assumption|]. split; [assumption|]. split.
    - apply Hnd. intros k. rewrite Hempty. constructor.
    - intros k p. rewrite Hb, Hempty. simpl. tauto. }
  induction items as [|[var prods] items IH]; simpl; intros d Hk.
  - exists d. repeat split; auto.
    intros [H|(_ & prods & prod & [] & _)]. assumption.
  - destruct (expand_bodies_spec var prods d) as (d1 & E1 & Hk1 & Hnd1 & Hb1);
      [apply Hk; now left|].
    rewrite E1. simpl.
    destruct (IH d1) as (d' & E' & Hk' & Hnd' & Hb').
    { intros k Hin. rewrite Hk1. apply Hk. now right. }
    exists d'. split; [assumption|]. split; [congruence|]. split; [auto|].
    intros k p. rewrite Hb', Hb1. split.
    + intros [[H|(-> & Hne & prod & Hp & Hom)]
             |(Hne & prods' & prod & Hin & Hp & Hom)]; eauto 10.
    + intros [H|(Hne & prods' & prod & [[= <- <-]|Hin] & Hp & Hom)];
        eauto 10.
Qed.

End Expand.

Lemma bodies_of_in g A : bodies_of g A = bodies_in (productions g) A.
Proof. reflexivity. Qed.

(** What epsilon elimination returns, in full. *)
Lemma eliminate_epsilon_productions_result self :
  keys_in_variables (cfg self) ->
  exists nullable g' self',
    compute_nullable (cfg self) = Some nullable /\
    eliminate_epsilon_productions self = Some (g', self') /\
    (forall A, In A (variables (cfg self)) -> NoDup (bodies_of g' A)) /\
    (forall A p,
       In A (variables (cfg self)) ->
       (In p (bodies_of g' A) <->
        p <> "" /\
        exists prods prod,
          In (A, prods) (productions (cfg self)) /\ In prod prods /\
          omits nullable (chars prod) (chars p))) /\
    (if mem (start_symbol (cfg self)) nullable
     then ~ In (start_symbol g') (variables (cfg self)) /\
          variables g' = variables (cfg self) ++ [start_symbol g'] /\
          bodies_of g' (start_symbol g') = [""; start_symbol (cfg self)]
     else start_symbol g' = start_symbol (cfg self) /\
          variables g' = variables (cfg self)) /\
    (forall k, In k (map fst (productions g')) <-> In k (variables g')).
Proof.
  intros Hkeys.
  destruct (eliminate_epsilon_productions_spec self Hkeys)
    as (nullable & d & En & Ed & E).
  destruct (expand_productions_spec nullable (cfg self) Hkeys)
    as (d' & Ed' & Hk & Hnd & Hb).
  rewrite Ed in Ed'. injection Ed' as <-.
  assert (Hkd : forall k, In k (map fst d) <-> In k (variables (cfg self))).
  { intros k. rewrite Hk. apply dict_of_spec. }
  exists nullable.
  destruct (mem (start_symbol (cfg self)) nullable).
  - destruct E as (j & Hfresh & E). eexists _, _.
    split; [assumption|]. split; [exact E|].
    set (x := fresh_name (new_var_counter self + j)) in *.
    assert (Hother : forall A, In A (variables (cfg self)) ->
              bodies_in (dict_set x [""; start_symbol (cfg self)] d) A
              = bodies_in d A).
    { intros A HA. rewrite bodies_in_set.
      destruct (eqb_spec A x) as [->|]; [contradiction | reflexivity]. }
    split; [|split; [|split; [|]]].
    + intros A HA. rewrite bodies_of_in. cbn [productions].
      rewrite (Hother A HA). apply Hnd.
    + intros A p HA. rewrite bodies_of_in. cbn [productions].
      rewrite (Hother A HA). apply Hb.
    + cbn [start_symbol variables]. split; [assumption|].
      split; [reflexivity|].
      rewrite bodies_of_in. cbn [productions]. rewrite bodies_in_set.
      now rewrite eqb_refl.
    + intros k. cbn [productions variables].
      rewrite dict_set_keys_In, in_app_iff, Hkd. simpl. intuition.
  - eexists _, _. split; [assumption|]. split; [exact E|].
    split; [|split; [|split; [|]]].
    + intros A _. rewrite bodies_of_in. apply Hnd.
    + intros A p _. rewrite bodies_of_in. apply Hb.
    + split; reflexivity.
    + exact Hkd.
Qed.

(** X14.  After epsilon elimination the only empty body is that of the
    start variable that the method has made: where the keys of the
    productions are variables, [eliminate_epsilon_productions] returns a
    grammar in which no variable of the grammar it was given has an empty
    body, and in which an empty body occurs only where the start symbol was
    nullable, under the new start symbol. *)
Theorem eliminate_epsilon_productions_no_epsilon self :
  keys_in_variables (cfg self) ->
  exists nullable g' self',
    compute_nullable (cfg self) = Some nullable /\
    eliminate_epsilon_productions self = Some (g', self') /\
    forall A, In "" (bodies_of g' A) ->
      A = start_symbol g' /\ ~ In A (variables (cfg self)) /\
      mem (start_symbol (cfg self)) nullable = true.
Proof.
  intros Hkeys.
  destruct (eliminate_epsilon_productions_result self Hkeys)
    as (nullable & g' & self' & En & E & _ & Hb & Hstart & Hkeys').
  exists nullable, g', self'. split; [assumption|]. split; [assumption|].
  intros A HA.
  assert (Hkey : In A (variables g')).
  { apply Hkeys'. unfold bodies_of in HA.
    destruct (lookup A (productions g')) as [b|] eqn:El; [|easy].
    now apply lookup_Some_key in El. }
  assert (Hnot : ~ In A (variables (cfg self))).
  { intros Hin. apply (Hb A "" Hin) in HA. now destruct HA. }
  destruct (mem (start_symbol (cfg self)) nullable).
  - destruct Hstart as (Hfresh & Hv & _). rewrite Hv in Hkey.
    apply in_app_or in Hkey as [Hin|[<-|[]]]; [contradiction|].
    repeat split; assumption.
  - destruct Hstart as (_ & Hv). rewrite Hv in Hkey. contradiction.
Qed.

(** The grammar of the first test, whose start symbol is nullable, is one
    instance. *)
Lemma eliminate_epsilon_productions_no_epsilon_witness :
  keys_in_variables (cfg (init simple)) /\
  exists nullable g' self',
    compute_nullable (cfg (init simple)) = Some nullable /\
    eliminate_epsilon_productions (init simple) = Some (g', self') /\
    forall A, In "" (bodies_of g' A) ->
      A = start_symbol g' /\ ~ In A (variables (cfg (init simple))) /\
      mem (start_symbol (cfg (init simple))) nullable = true.
Proof.
  assert (H : keys_in_variables (cfg (init simple)))
    by (apply keys_in_variablesb_ok; reflexivity).
  split; [exact H | exact (eliminate_epsilon_productions_no_epsilon _ H)].
Defined.

(** X15.  The bodies that epsilon elimination makes: where the keys of the
    productions are variables, a variable of the grammar has in the grammar
    returned, each once, the bodies that are not empty and that come from
    one of its bodies by leaving out occurrences of nullable symbols.  Where
    the start symbol is nullable the new start symbol, a name that was not
    a variable, has the empty body and the old start symbol as its bodies
    and is added to the variables; otherwise the start symbol and the
    variables stay.  The keys of the productions returned are its
    variables. *)
Theorem eliminate_epsilon_productions_bodies self :
  keys_in_variables (cfg self) ->
  exists nullable g' self',
    compute_nullable (cfg self) = Some nullable /\
    eliminate_epsilon_productions self = Some (g', self') /\
    (forall A, In A (variables (cfg self)) -> NoDup (bodies_of g' A)) /\
    (forall A p,
       In A (variables (cfg self)) ->
       (In p (bodies_of g' A) <->
        p <> "" /\
        exists prods prod,
          In (A, prods) (productions (cfg self)) /\ In prod prods /\
          omits nullable (chars prod) (chars p))) /\
    (if mem (start_symbol (cfg self)) nullable
     then ~ In (start_symbol g') (variables (cfg self)) /\
          variables g' = variables (cfg self) ++ [start_symbol g'] /\
          bodies_of g' (start_symbol g') = [""; start_symbol (cfg self)]
     else start_symbol g' = start_symbol (cfg self) /\
          variables g' = variables (cfg self)) /\
    (forall k, In k (map fst (productions g')) <-> In k (variables g')).
Proof. exact (eliminate_epsilon_productions_result self). Qed.

(** The grammar of the test of epsilon elimination is one instance. *)
Lemma eliminate_epsilon_productions_bodies_witness :
  keys_in_variables (cfg (init eps_test)) /\
  exists nullable g' self',
    compute_nullable (cfg (init eps_test)) = Some nullable /\
    eliminate_epsilon_productions (init eps_test) = Some (g', self') /\
    (forall A, In A (variables (cfg (init eps_test))) ->
               NoDup (bodies_of g' A)) /\
    (forall A p,
       In A (variables (cfg (init eps_test))) ->
       (In p (bodies_of g' A) <->
        p <> "" /\
        exists prods prod,
          In (A, prods) (productions (cfg (init eps_test))) /\
          In prod prods /\
          omits nullable (chars prod) (chars p))) /\
    (if mem (start_symbol (cfg (init eps_test))) nullable
     then ~ In (start_symbol g') (variables (cfg (init eps_test))) /\
          variables g'
          = variables (cfg (init eps_test)) ++ [start_symbol g'] /\
          bodies_of g' (start_symbol g')
          = [""; start_symbol (cfg (init eps_test))]
     else start_symbol g' = start_symbol (cfg (init eps_test)) /\
          variables g' = variables (cfg (init eps_test))) /\
    (forall k, In k (map fst (productions g')) <-> In k (variables g')).
Proof.
  assert (H : keys_in_variables (cfg (init eps_test)))
    by (apply keys_in_variablesb_ok; reflexivity).
  split; [exact H | exact (eliminate_epsilon_productions_bodies _ H)].
Defined.

End CfgOmit.

(** ** When the converter raises *)

Module CfgRaises.
Import CfgToCnf CfgSpec CfgMonad CfgFresh CfgEpsilon CfgUnit CfgSteps CfgEval.
Import CfgExamples.

Lemma ofold_None_inv {A S} (I : S -> Prop) (f : S -> A -> option S)
    (bad : A -> Prop) l :
  (forall s x s', In x l -> I s -> f s x = Some s' -> I s') ->
  (forall s x, In x l -> I s -> (f s x = None <-> bad x)) ->
  forall s, I s -> (ofold f l s = None <-> exists x, In x l /\ bad x).
Proof.
  induction l as [|x l IH]; simpl; intros Hkeep Hf s Hs.
  - split; [discriminate | intros (x & [] & _)].
  - destruct (f s x) as [s'|] eqn:E; simpl.
    + rewrite IH; [| | |now apply (Hkeep s x s'); auto].
      * split.
        -- intros (x' & Hx' & Hb). eauto.
        -- intros (x' & [<-|Hx'] & Hb); [|eauto].
           apply (Hf s x (or_introl eq_refl) Hs) in Hb. congruence.
      * intros s1 x1 s1' H1. apply Hkeep. now right.
      * intros s1 x1 H1. apply Hf. now right.
    + split; [|reflexivity]. intros _. exists x. split; [now left|].
      now apply (Hf s x (or_introl eq_refl) Hs).
Qed.

(** A body that is not empty is looked up under its variable, whatever
    symbols are nullable: combination 0 omits nothing. *)
Lemma expand_production_None nullable var prod
    (d : list (string * list string)) :
  expand_production nullable var prod d = None
  <-> prod <> "" /\ ~ In var (map fst d).
Proof.
  split.
  - intros E. destruct (eqb_spec prod "") as [->|Hne].
    + unfold expand_production in E. rewrite eqb_refl in E. discriminate.
    + split; [assumption|]. intros Hvar.
      destruct (expand_production_returns nullable var prod d Hvar)
        as (d' & E' & _). congruence.
  - intros [Hne Hvar]. unfold expand_production.
    apply eqb_neq in Hne. rewrite Hne.
    destruct (2 ^ length (nullable_indices nullable prod)) as [|m] eqn:Em.
    { exfalso. revert Em. apply Nat.pow_nonzero. discriminate. }
    cbn [seq ofold].
    replace (omit_indices 0 (nullable_indices nullable prod)) with (@nil nat).
    2:{ unfold omit_indices. rewrite filter_none; [reflexivity|].
        intros [j y] _. apply Nat.bits_0. }
    replace (omit_symbols [] prod) with prod.
    2:{ unfold omit_symbols. rewrite filter_all by (now intros [j y] _).
        unfold enumerate. now rewrite map_snd_enumerate_from, concat_chars. }
    unfold add_nonempty. rewrite Hne.
    apply lookup_None in Hvar. now rewrite Hvar.
Qed.

Lemma expand_production_keys nullable var prod
    (d d' : list (string * list string)) :
  expand_production nullable var prod d = Some d' -> map fst d' = map fst d.
Proof.
  intros E. destruct (in_dec string_dec var (map fst d)) as [Hvar|Hvar].
  - destruct (expand_production_returns nullable var prod d Hvar)
      as (d1 & E1 & Hk). congruence.
  - destruct (eqb_spec prod "") as [->|Hne].
    + unfold expand_production in E. rewrite eqb_refl in E. congruence.
    + assert (En : expand_production nullable var prod d = None)
        by now apply expand_production_None.
      congruence.
Qed.

Lemma expand_productions_None nullable g :
  expand_productions nullable g = None <-> stray_body g.
Proof.
  unfold expand_productions, stray_body.
  set (d0 := dict_of (fun _ => @nil string) (variables g)).
  assert (Hd0 : forall k, In k (map fst d0) <-> In k (variables g))
    by (intros k; apply dict_of_spec).
  rewrite (ofold_None_inv
             (fun d : list (string * list string) => map fst d = map fst d0)
             _
             (fun item => ~ In (fst item) (variables g) /\
                          exists prod, In prod (snd item) /\ prod <> ""));
    [| | |reflexivity].
  - split.
    + intros ([key prods] & Hin & Hkey & prod & Hprod & Hne). simpl in *.
      exists key, prods, prod. auto.
    + intros (key & prods & prod & Hin & Hkey & Hprod & Hne).
      exists (key, prods). simpl. eauto.
  - intros d [var prods] d' _ Hk E.
    refine (ofold_keeps
              (fun d1 : list (string * list string) => map fst d1 = map fst d0)
              _ prods _ d d' Hk E).
    intros d1 prod d2 _ Hk1 E1.
    rewrite (expand_production_keys _ _ _ _ _ E1). exact Hk1.
  - intros d [var prods] _ Hk. simpl.
    rewrite (ofold_None_inv
               (fun d1 : list (string * list string) =>
                  map fst d1 = map fst d0)
               _ (fun prod => prod <> "" /\ ~ In var (variables g)));
      [| | |assumption].
    + split.
      * intros (prod & Hprod & Hne & Hvar). eauto.
      * intros (Hvar & prod & Hprod & Hne). eauto.
    + intros d1 prod d2 _ Hk1 E1.
      rewrite (expand_production_keys _ _ _ _ _ E1). exact Hk1.
    + intros d1 prod _ Hk1. rewrite expand_production_None, Hk1, Hd0.
      reflexivity.
Qed.

Lemma eliminate_epsilon_productions_None self :
  eliminate_epsilon_productions self = None <-> stray_body (cfg self).
Proof.
  rewrite <- (expand_productions_None
                (match compute_nullable (cfg self) with
                 | Some n => n | None => []
                 end)).
  destruct (compute_nullable_returns _ (cfg self) eq_refl) as (nullable & En).
  rewrite En.
  unfold eliminate_epsilon_productions, bind, get, lift. rewrite En.
  destruct (expand_productions nullable (cfg self)) as [d|];
    [|split; reflexivity].
  split; [|discriminate]. intros E. exfalso.
  destruct (mem (start_symbol (cfg self)) nullable); [|discriminate].
  destruct (generate_new_variable_spec self) as (j & _ & Eg).
  rewrite Eg in E. discriminate.
Qed.

(** Step 1 leaves the start symbol of the grammar of the converter. *)
Lemma eliminate_epsilon_productions_start self g1 self1 :
  eliminate_epsilon_productions self = Some (g1, self1) ->
  start_symbol (cfg self1) = start_symbol (cfg self).
Proof.
  unfold eliminate_epsilon_productions, bind, get, lift.
  destruct (compute_nullable (cfg self)) as [nullable|]; [|discriminate].
  destruct (expand_productions nullable (cfg self)) as [d|]; [|discriminate].
  destruct (mem (start_symbol (cfg self)) nullable).
  - destruct (generate_new_variable_spec self) as (j & _ & Eg). rewrite Eg.
    unfold add_cfg_variable, ret. simpl. now intros [= _ <-].
  - unfold ret. now intros [= _ <-].
Qed.

(** Once step 1 has returned, the rest of [convert_to_cnf] returns, with
    the start symbol of the grammar of the converter. *)
Lemma convert_after_epsilon self g1 self1 :
  eliminate_epsilon_productions self = Some (g1, self1) ->
  exists g self',
    convert_to_cnf self = Some (g, self') /\
    start_symbol g = start_symbol (cfg self).
Proof.
  intros E1.
  destruct (eliminate_unit_productions_spec self1) as (d2 & E2 & Hd2 & _).
  set (g2 := mkCFG (variables (cfg self1)) (terminals (cfg self1)) d2
                   (start_symbol (cfg self1))) in *.
  assert (Hkeys2 : keys_in_variables g2).
  { intros k Hk. simpl in Hk. rewrite Hd2 in Hk. now apply dict_of_spec in Hk. }
  destruct (replace_terminals_returns g2 self1 Hkeys2)
    as (st3 & self3 & E3 & Hcfg3 & Hkv3).
  destruct (break_long_returns st3 self3 Hkv3) as (st4 & self4 & E4 & Hcfg4).
  exists (mkCFG (s4_variables st4) (terminals g2) (s4_final st4)
                (start_symbol g2)), self4.
  split.
  - unfold convert_to_cnf. unfold bind at 1.
    rewrite first_two_steps_unfold, E1, E2.
    unfold bind at 1. rewrite E3. unfold bind at 1. rewrite E4. reflexivity.
  - simpl. now apply (eliminate_epsilon_productions_start self g1).
Qed.

(** [convert_to_cnf] raises exactly when step 1 does; otherwise it returns
    a grammar with the start symbol it was given. *)
Lemma convert_to_cnf_None self :
  convert_to_cnf self = None <-> stray_body (cfg self).
Proof.
  rewrite <- eliminate_epsilon_productions_None.
  destruct (eliminate_epsilon_productions self) as [[g1 self1]|] eqn:E1.
  - destruct (convert_after_epsilon self g1 self1 E1) as (g & self' & E & _).
    rewrite E. split; discriminate.
  - split; [reflexivity|]. intros _.
    unfold convert_to_cnf. unfold bind at 1.
    now rewrite first_two_steps_unfold, E1.
Qed.

Lemma convert_to_cnf_Some self :
  ~ stray_body (cfg self) ->
  exists g self',
    convert_to_cnf self = Some (g, self') /\
    start_symbol g = start_symbol (cfg self).
Proof.
  intros Hno.
  destruct (eliminate_epsilon_productions self) as [[g1 self1]|] eqn:E1.
  - now apply (convert_after_epsilon self g1 self1).
  - now apply eliminate_epsilon_productions_None in E1.
Qed.

(** X16.  The one error of the converter: [eliminate_epsilon_productions]
    raises [KeyError] exactly when some key of the productions is not a
    variable and has a body that is not empty, and so does
    [convert_to_cnf]; [eliminate_unit_productions] never raises. *)
Theorem convert_to_cnf_raises self :
  (eliminate_epsilon_productions self = None <-> stray_body (cfg self)) /\
  (convert_to_cnf self = None <-> stray_body (cfg self)) /\
  eliminate_unit_productions self <> None.
Proof.
  split; [apply eliminate_epsilon_productions_None|].
  split; [apply convert_to_cnf_None|].
  destruct (eliminate_unit_productions_spec self) as (d & E & _).
  rewrite E. discriminate.
Qed.

End CfgRaises.

(** ** Input that breaks the invariants of the data model *)

Module Validation.
Import DfaMinimizer DfaSpec DfaMinimize DfaExamples.
Import CfgToCnf CfgSpec CfgEpsilon CfgConvert CfgRaises CfgExamples.

(** C9 as stated fails: a grammar whose start symbol is not a variable is
    converted, and an automaton with a transition to a state that is not
    among its states, which is its only final state, is minimized. *)
Lemma malformed_input_accepted :
  (~ In (start_symbol stray_start) (variables stray_start) /\
   exists g self',
     convert_to_cnf (init stray_start) = Some (g, self') /\
     start_symbol g = "Z") /\
  (~ In "q9" (states stray_state) /\
   In (("q0", "a"), "q9") (transitions stray_state) /\
   In "q9" (final_states stray_state) /\
   exists M, minimize stray_state = Some M /\ length (states M) = 2).
Proof.
  split.
  - split; [simpl; intuition discriminate|].
    eexists. eexists. split; [vm_compute; reflexivity | reflexivity].
  - split; [simpl; intuition discriminate|].
    split; [now left|]. split; [now left|].
    eexists. split; [vm_compute; reflexivity | reflexivity].
Qed.

(** C9, amended.  Neither pipeline validates its input.  [convert_to_cnf]
    returns a grammar for every grammar whose production keys are among its
    variables, whatever its start symbol and the symbols of its bodies, and
    the grammar returned has the start symbol given; [minimize] returns an
    automaton for every automaton, whatever states its transitions, its
    start state and its final states name.  The one failure is the
    [KeyError] of a production key that is not a variable and has a body
    that is not empty: [eliminate_epsilon_productions], and with it
    [convert_to_cnf], raises exactly then, for every converter, and
    otherwise [convert_to_cnf] returns a grammar with the start symbol
    given; so a key that is not a variable is accepted where all its bodies
    are empty.  On [stray_key] it is the lookup in the new productions that
    fails. *)
Theorem no_validation :
  (forall G,
     keys_in_variables G ->
     exists g self',
       convert_to_cnf (init G) = Some (g, self') /\
       start_symbol g = start_symbol G) /\
  (forall D, represented D -> exists M, minimize D = Some M) /\
  (compute_nullable stray_key = Some [] /\
   expand_productions [] stray_key = None /\
   convert_to_cnf (init stray_key) = None) /\
  (forall self,
     (eliminate_epsilon_productions self = None <-> stray_body (cfg self)) /\
     (convert_to_cnf self = None <-> stray_body (cfg self)) /\
     (~ stray_body (cfg self) ->
      exists g self',
        convert_to_cnf self = Some (g, self') /\
        start_symbol g = start_symbol (cfg self))).
Proof.
  split; [|split; [|split]].
  - intros G HG.
    destruct (convert_to_cnf_returns (init G) HG)
      as (g & self' & nullable & E & _ & Hs & _).
    exists g, self'. now split.
  - intros D HD. destruct (minimize_behaviour D HD) as (M & EM & _).
    now exists M.
  - repeat split; vm_compute; reflexivity.
  - intros self. split; [apply eliminate_epsilon_productions_None|].
    split; [apply convert_to_cnf_None | apply convert_to_cnf_Some].
Qed.

Lemma stray_empty_no_body : ~ stray_body (cfg (init stray_empty)).
Proof.
  intros (key & prods & prod & Hin & Hvar & Hprod & Hne).
  simpl in Hin. destruct Hin as [[= <- <-]|[[= <- <-]|[]]].
  - apply Hvar. now left.
  - destruct Hprod as [<-|[]]. now apply Hne.
Qed.

(** The grammar and the automaton of [malformed_input_accepted] are
    instances, and so is [stray_empty], whose key T is not a variable and
    has the empty body alone. *)
Lemma no_validation_witness :
  (keys_in_variables stray_start /\
   exists g self',
     convert_to_cnf (init stray_start) = Some (g, self') /\
     start_symbol g = start_symbol stray_start) /\
  (represented stray_state /\ exists M, minimize stray_state = Some M) /\
  (~ keys_in_variables stray_empty /\
   ~ stray_body (cfg (init stray_empty)) /\
   exists g self',
     convert_to_cnf (init stray_empty) = Some (g, self') /\
     start_symbol g = start_symbol (cfg (init stray_empty))).
Proof.
  assert (H1 : keys_in_variables stray_start)
    by (apply keys_in_variablesb_ok; reflexivity).
  assert (H2 : represented stray_state)
    by (split; apply distinct_NoDup; reflexivity).
  split; [|split].
  - split; [exact H1 | exact (proj1 no_validation _ H1)].
  - split; [exact H2 | exact (proj1 (proj2 no_validation) _ H2)].
  - split.
    + intros H. specialize (H "T" (or_intror (or_introl eq_refl))).
      simpl in H. destruct H as [H|[]]. discriminate.
    + split; [exact stray_empty_no_body|].
      exact (proj2 (proj2 (proj2 (proj2 (proj2 no_validation)) _))
               stray_empty_no_body).
Defined.

End Validation.

(** ** The unit pairs, and the bodies that unit elimination makes *)

Module CfgUnitClosure.
Import CfgToCnf CfgSpec CfgMonad CfgFresh CfgEpsilon CfgUnit CfgExamples.

Lemma dict_set_same {K V} `{EqbSpec K} (k : K) (v : V) (d : list (K * V)) :
  lookup k d = Some v -> dict_set k v d = d.
Proof.
  induction d as [|[k' v'] d IH]; simpl; [discriminate|].
  destruct (eqb_spec k k') as [->|Hk].
  - now intros [= ->].
  - intros E. now rewrite IH.
Qed.

Section Closure.
Variable g : CFG.
Local Abbreviation V := (variables g).

(** A set of variables that holds the unit successors of its members. *)
Local Abbreviation closed s :=
  (forall B prod, In B s -> In prod (bodies_of g B) -> In prod V -> In prod s).

(** The loop over the bodies of one member. *)
Lemma close_bodies l :
  forall pairs changed pairs' changed',
    fold_left
      (fun '(pairs, changed) prod =>
         if mem prod V && negb (mem prod pairs)
         then (set_add prod pairs, true) else (pairs, changed))
      l (pairs, changed) = (pairs', changed') ->
    incl pairs pairs' /\
    (forall x, In x pairs' -> In x pairs \/ (In x l /\ In x V)) /\
    (changed' = false ->
     changed = false /\ pairs' = pairs /\
     forall prod, In prod l -> In prod V -> In prod pairs).
Proof.
  induction l as [|prod l IH]; cbn [fold_left];
    intros pairs changed pairs' changed' E.
  - injection E as <- <-. split; [apply incl_refl|]. split; [auto|].
    intros ->. repeat split. intros prod [].
  - destruct (mem_reflect prod V) as [HV|HV]; cbn [andb] in E.
    + destruct (mem_reflect prod pairs) as [Hp|Hp]; cbn [negb] in E.
      * destruct (IH _ _ _ _ E) as (Hinc & Hfrom & Hfix).
        split; [assumption|]. split.
        -- intros x Hx. destruct (Hfrom x Hx) as [H|[H1 H2]]; auto.
           right. split; [now right | assumption].
        -- intros Hc. destruct (Hfix Hc) as (-> & -> & Hall).
           repeat split. intros p [<-|Hin] Hv; auto.
      * destruct (IH _ _ _ _ E) as (Hinc & Hfrom & Hfix).
        split; [|split].
        -- intros x Hx. apply Hinc, set_add_In. now right.
        -- intros x Hx. destruct (Hfrom x Hx) as [H|[H1 H2]].
           ++ apply set_add_In in H as [->|H]; [|now left].
              right. split; [now left | assumption].
           ++ right. split; [now right | assumption].
        -- intros Hc. now destruct (Hfix Hc) as ([=] & _).
    + destruct (IH _ _ _ _ E) as (Hinc & Hfrom & Hfix).
      split; [assumption|]. split.
      * intros x Hx. destruct (Hfrom x Hx) as [H|[H1 H2]]; auto.
        right. split; [now right | assumption].
      * intros Hc. destruct (Hfix Hc) as (-> & -> & Hall).
        repeat split. intros p [<-|Hin] Hv; [contradiction | auto].
Qed.

(** The loop over the members of a copy of the set. *)
Lemma close_members bs :
  forall st st',
    fold_left
      (fun st B =>
         fold_left
           (fun '(pairs, changed) prod =>
              if mem prod V && negb (mem prod pairs)
              then (set_add prod pairs, true) else (pairs, changed))
           (bodies_of g B) st)
      bs st = st' ->
    incl (fst st) (fst st') /\
    (forall x, In x (fst st') ->
       In x (fst st) \/
       exists B, In B bs /\ In x (bodies_of g B) /\ In x V) /\
    (snd st' = false ->
     snd st = false /\ fst st' = fst st /\
     forall B prod, In B bs -> In prod (bodies_of g B) -> In prod V ->
                    In prod (fst st)).
Proof.
  induction bs as [|B bs IH]; cbn [fold_left]; intros st st' E.
  - subst st'. split; [apply incl_refl|]. split; [auto|].
    intros Hc. repeat split; auto. intros B prod [].
  - destruct st as [pairs changed].
    destruct (fold_left _ (bodies_of g B) (pairs, changed))
      as [pairs1 changed1] eqn:E1.
    destruct (close_bodies _ _ _ _ _ E1) as (Hinc1 & Hfrom1 & Hfix1).
    destruct (IH _ _ E) as (Hinc & Hfrom & Hfix). cbn [fst snd] in *.
    split; [|split].
    + intros x Hx. auto.
    + intros x Hx. destruct (Hfrom x Hx) as [H|(B' & HB' & Hb & Hv)].
      * destruct (Hfrom1 x H) as [H1|[H1 H2]]; [now left|].
        right. exists B. split; [now left | now split].
      * right. exists B'. split; [now right | now split].
    + intros Hc. destruct (Hfix Hc) as (-> & -> & Hall).
      destruct (Hfix1 eq_refl) as (-> & -> & Hall1).
      repeat split. intros B' prod [<-|HB'] Hb Hv; eauto.
Qed.

Lemma close_pairs_of_spec A pairs changed pairs' changed' :
  close_pairs_of g (pairs, changed) = (pairs', changed') ->
  incl pairs pairs' /\
  ((forall B, In B pairs -> unit_reach g A B) ->
   forall B, In B pairs' -> unit_reach g A B) /\
  (changed' = false -> changed = false /\ pairs' = pairs /\ closed pairs).
Proof.
  unfold close_pairs_of. cbn [fst]. intros E.
  destruct (close_members _ _ _ E) as (Hinc & Hfrom & Hfix). cbn [fst snd] in *.
  split; [assumption|]. split; [|exact Hfix].
  intros Hs B HB. destruct (Hfrom B HB) as [H|(B' & HB' & Hb & Hv)]; [auto|].
  apply (unit_reach_step g A B' B); auto.
Qed.

(** What the closure keeps of [unit_pairs]: the members of the set of [A]
    are reached from [A], and [A] is one of them. *)
Local Abbreviation sound up :=
  (unit_pairs_ok V up /\
   (forall A s, In (A, s) up ->
      In A s /\ forall B, In B s -> unit_reach g A B)).

Lemma unit_pass_step_sound up c A up' c' :
  sound up -> unit_pass_step g (up, c) A = Some (up', c') -> sound up'.
Proof.
  intros [Hok Hs] E. unfold unit_pass_step in E.
  destruct (lookup A up) as [pairs|] eqn:El; simpl in E; [|discriminate].
  destruct (close_pairs_of g (pairs, c)) as [pairs' c1] eqn:Ec.
  cbn [obind] in E. injection E as E1 _. subst up'.
  destruct (close_pairs_of_spec A _ _ _ _ Ec) as (Hinc & Hreach & _).
  pose proof (close_pairs_of_grows g (pairs, c)) as (G1 & G2 & _).
  rewrite Ec in G1, G2. simpl in G1, G2.
  destruct (up_sets _ _ Hok A pairs (lookup_In _ _ _ El)) as [Hnd Hincl].
  destruct (unit_pairs_ok_set g A pairs pairs' up Hok El (G1 Hnd) (G2 Hincl))
    as [Hok' _].
  split; [assumption|]. intros A' s Hin.
  destruct (dict_set_decompose A pairs pairs' up (up_dict _ _ Hok) El)
    as (d1 & d2 & E1 & E2).
  rewrite E2 in Hin. apply in_app_or in Hin as [Hin|[[= <- <-]|Hin]].
  - apply Hs. rewrite E1. apply in_or_app. now left.
  - destruct (Hs A pairs (lookup_In _ _ _ El)) as [HA Hr]. split; auto.
  - apply Hs. rewrite E1. apply in_or_app. right. now right.
Qed.

Lemma unit_pass_sound l :
  forall up c up' c',
    sound up -> ofold (unit_pass_step g) l (up, c) = Some (up', c') ->
    sound up'.
Proof.
  induction l as [|A l IH]; cbn [ofold]; intros up c up' c' Hs E.
  - injection E as E1 E2. now subst.
  - destruct (unit_pass_step g (up, c) A) as [[up1 c1]|] eqn:E1;
      cbn [obind] in E; [|discriminate].
    apply (IH up1 c1 up' c'); [|assumption].
    now apply (unit_pass_step_sound up c A up1 c1).
Qed.

(** A pass that leaves the flag down has changed nothing. *)
Lemma unit_pass_fixed l :
  forall up c up',
    ofold (unit_pass_step g) l (up, c) = Some (up', false) ->
    c = false /\ up' = up /\
    forall A s, In A l -> lookup A up = Some s -> closed s.
Proof.
  induction l as [|A l IH]; cbn [ofold]; intros up c up' E.
  - injection E as E1 E2. subst. repeat split. intros A s [].
  - unfold unit_pass_step at 1 in E.
    destruct (lookup A up) as [pairs|] eqn:El; cbn [obind] in E;
      [|discriminate].
    destruct (close_pairs_of g (pairs, c)) as [pairs' c1] eqn:Ec.
    cbn [obind] in E. destruct (IH _ _ _ E) as (-> & -> & Hrest).
    destruct (close_pairs_of_spec A _ _ _ _ Ec) as (_ & _ & Hfix).
    destruct (Hfix eq_refl) as (-> & -> & Hcl).
    rewrite (dict_set_same A pairs up El) in *.
    repeat split. intros A' s [<-|HA'] El'; [|now apply (Hrest A')].
    rewrite El in El'. injection El' as <-. exact Hcl.
Qed.

Lemma unit_closure_loop_closed fuel :
  forall up up',
    sound up -> unit_closure_loop fuel g up = Some up' ->
    sound up' /\
    forall A s, In A V -> lookup A up' = Some s -> closed s.
Proof.
  induction fuel as [|fuel IH]; cbn [unit_closure_loop]; intros up up' Hs E;
    [discriminate|].
  destruct (ofold (unit_pass_step g) V (up, false)) as [[up1 c1]|] eqn:E1;
    cbn [obind] in E; [|discriminate].
  pose proof (unit_pass_sound _ _ _ _ _ Hs E1) as Hs1.
  destruct c1.
  - now apply (IH up1).
  - injection E as <-. split; [assumption|].
    destruct (unit_pass_fixed _ _ _ _ E1) as (_ & -> & Hcl). exact Hcl.
Qed.

(** The closure: the set of [A] holds what [A] reaches by unit
    productions. *)
Lemma unit_closure_spec :
  exists up,
    unit_closure g = Some up /\ unit_pairs_ok V up /\
    forall A s, lookup A up = Some s ->
      NoDup s /\ forall B, In B s <-> unit_reach g A B.
Proof.
  destruct (unit_closure_returns g) as (up & E & Hok).
  exists up. split; [assumption|]. split; [assumption|].
  unfold unit_closure in E.
  destruct (fun H => unit_closure_loop_closed _ _ up H E) as [[_ Hs] Hcl].
  { destruct (dict_of_spec (fun var => [var]) V) as (Hnd & Hk & Hl).
    split.
    - constructor; [assumption | assumption |].
      intros k s Hin. apply dict_of_entries in Hin as [Hkey ->].
      split; [repeat constructor; easy|]. now intros x [<-|[]].
    - intros A s Hin. apply dict_of_entries in Hin as [_ ->].
      split; [now left|]. intros B [<-|[]]. constructor. }
  intros A s El.
  assert (HA : In A V).
  { apply (up_keys _ _ Hok). now apply lookup_Some_key in El. }
  destruct (Hs A s (lookup_In _ _ _ El)) as [Hrefl Hreach].
  split; [apply (up_sets _ _ Hok A s (lookup_In _ _ _ El))|].
  intros B. split; [apply Hreach|].
  induction 1 as [|B C _ IH Hb Hv]; [assumption|].
  apply (Hcl A s HA El B C); assumption.
Qed.

(** *** The second half *)

Lemma add_body_bodies A prod (d : list (string * list string)) :
  In A (map fst d) ->
  exists d',
    add_body A prod d = Some d' /\ map fst d' = map fst d /\
    forall k, bodies_in d' k
              = if eqb k A
                then if mem prod (bodies_in d A) then bodies_in d A
                     else bodies_in d A ++ [prod]
                else bodies_in d k.
Proof.
  intros HA.
  destruct (add_body_spec A prod d HA) as (body & d' & El & E & Hk & El' & Ho).
  exists d'. split; [assumption|]. split; [assumption|].
  intros k. unfold bodies_in. destruct (eqb_spec k A) as [->|Hne].
  - rewrite El', El. now destruct (mem prod body).
  - now rewrite (Ho k Hne).
Qed.

(** A loop that adds the bodies of a list that are not names of
    variables. *)
Lemma add_bodies_spec A l :
  forall d : list (string * list string),
    In A (map fst d) ->
    exists d',
      ofold (fun d prod => if mem prod V then Some d else add_body A prod d)
            l d = Some d' /\
      map fst d' = map fst d /\
      ((forall k, NoDup (bodies_in d k)) -> forall k, NoDup (bodies_in d' k)) /\
      (forall k p, In p (bodies_in d' k) <->
                   In p (bodies_in d k) \/
                   (k = A /\ In p l /\ ~ In p V)).
Proof.
  induction l as [|prod l IH]; cbn [ofold]; intros d HA.
  - exists d. repeat split; auto. intros [H|(_ & [] & _)]. assumption.
  - destruct (mem_reflect prod V) as [HV|HV]; cbn [obind].
    + destruct (IH d HA) as (d' & E & Hk & Hnd & Hb).
      exists d'. repeat (split; [assumption|]).
      intros k p. rewrite Hb. split.
      * intros [H|(-> & Hp & Hn)]; [now left|]. right. simpl. auto.
      * intros [H|(-> & [<-|Hp] & Hn)]; [now left | contradiction | auto].
    + destruct (add_body_bodies A prod d HA) as (d1 & E1 & Hk1 & Hb1).
      rewrite E1. cbn [obind].
      destruct (IH d1) as (d' & E & Hk & Hnd & Hb); [now rewrite Hk1|].
      exists d'. split; [assumption|]. split; [congruence|]. split.
      * intros Hnd0. apply Hnd. intros k. rewrite Hb1.
        destruct (eqb k A); [|apply Hnd0].
        destruct (mem_reflect prod (bodies_in d A)) as [Hin|Hnin];
          [apply Hnd0 | now apply NoDup_snoc].
      * intros k p. rewrite Hb, Hb1. destruct (eqb_spec k A) as [->|Hne].
        -- destruct (mem_reflect prod (bodies_in d A)) as [Hin|Hnin].
           ++ split.
              ** intros [H|(_ & Hp & Hn)]; [now left|]. right. simpl. auto.
              ** intros [H|(_ & [<-|Hp] & Hn)]; auto.
           ++ rewrite in_app_iff. simpl. split.
              ** intros [[H|[<-|[]]]|(_ & Hp & Hn)]; auto.
              ** intros [H|(_ & [<-|Hp] & Hn)]; auto.
        -- split.
           ++ intros [H|(E0 & _)]; [now left | contradiction].
           ++ intros [H|(E0 & _)]; [now left | contradiction].
Qed.

(** The bodies of the members of a set. *)
Lemma add_members_spec A pairs :
  forall d : list (string * list string),
    In A (map fst d) ->
    exists d',
      ofold
        (fun d B =>
           ofold (fun d prod =>
                    if mem prod V then Some d else add_body A prod d)
                 (bodies_of g B) d)
        pairs d = Some d' /\
      map fst d' = map fst d /\
      ((forall k, NoDup (bodies_in d k)) -> forall k, NoDup (bodies_in d' k)) /\
      (forall k p, In p (bodies_in d' k) <->
                   In p (bodies_in d k) \/
                   (k = A /\ ~ In p V /\
                    exists B, In B pairs /\ In p (bodies_of g B))).
Proof.
  induction pairs as [|B pairs IH]; cbn [ofold]; intros d HA.
  - exists d. repeat split; auto. intros [H|(_ & _ & B & [] & _)]. assumption.
  - destruct (add_bodies_spec A (bodies_of g B) d HA)
      as (d1 & E1 & Hk1 & Hnd1 & Hb1).
    rewrite E1. cbn [obind].
    destruct (IH d1) as (d' & E & Hk & Hnd & Hb); [now rewrite Hk1|].
    exists d'. split; [assumption|]. split; [congruence|]. split; [auto|].
    intros k p. rewrite Hb, Hb1. split.
    + intros [[H|(-> & Hp & Hn)]|(-> & Hn & B' & HB' & Hp)].
      * now left.
      * right. repeat (split; [reflexivity || assumption|]).
        exists B. split; [now left | assumption].
      * right. repeat (split; [reflexivity || assumption|]).
        exists B'. split; [now right | assumption].
    + intros [H|(-> & Hn & B' & [<-|HB'] & Hp)].
      * left. now left.
      * left. right. auto.
      * right. eauto 10.
Qed.

(** The loop over the variables. *)
Lemma collect_spec up l :
  unit_pairs_ok V up ->
  forall d : list (string * list string),
    (forall k, In k (map fst d) <-> In k V) -> incl l V ->
    exists d',
      ofold (collect_non_unit g up) l d = Some d' /\
      map fst d' = map fst d /\
      ((forall k, NoDup (bodies_in d k)) -> forall k, NoDup (bodies_in d' k)) /\
      (forall k p, In p (bodies_in d' k) <->
                   In p (bodies_in d k) \/
                   (In k l /\ ~ In p V /\
                    exists s B, lookup k up = Some s /\ In B s /\
                                In p (bodies_of g B))).
Proof.
  intros Hok. induction l as [|A l IH]; cbn [ofold]; intros d Hkeys Hl.
  - exists d. repeat split; auto. intros [H|([] & _)]. assumption.
  - assert (HA : In A V) by (apply Hl; now left).
    unfold collect_non_unit at 1.
    destruct (In_key_lookup (V := list string) A up) as (pairs & El);
      [now apply (up_keys _ _ Hok)|].
    rewrite El. cbn [obind].
    destruct (add_members_spec A pairs d) as (d1 & E1 & Hk1 & Hnd1 & Hb1);
      [now apply Hkeys|].
    rewrite E1. cbn [obind].
    destruct (IH d1) as (d' & E & Hk & Hnd & Hb).
    { intros k. now rewrite Hk1. }
    { intros x Hx. apply Hl. now right. }
    exists d'. split; [assumption|]. split; [congruence|]. split; [auto|].
    intros k p. rewrite Hb, Hb1. split.
    + intros [[H|(-> & Hn & B & HB & Hp)]|(Hin & Hn & s & B & Es & HB & Hp)].
      * now left.
      * right. split; [now left|]. split; [assumption|]. eauto.
      * right. split; [now right|]. split; [assumption|]. eauto.
    + intros [H|([<-|Hin] & Hn & s & B & Es & HB & Hp)].
      * left. now left.
      * left. right. rewrite El in Es. injection Es as <-. eauto.
      * right. eauto 10.
Qed.

End Closure.

(** What unit elimination returns, in full. *)
Lemma eliminate_unit_productions_result self :
  exists g',
    eliminate_unit_productions self = Some (g', self) /\
    variables g' = variables (cfg self) /\
    terminals g' = terminals (cfg self) /\
    start_symbol g' = start_symbol (cfg self) /\
    map fst (productions g')
    = map fst (dict_of (fun _ => @nil string) (variables (cfg self))) /\
    (forall A, NoDup (bodies_of g' A)) /\
    (forall A p,
       In p (bodies_of g' A) <->
       In A (variables (cfg self)) /\ ~ In p (variables (cfg self)) /\
       exists B, unit_reach (cfg self) A B /\ In p (bodies_of (cfg self) B)).
Proof.
  set (g := cfg self).
  destruct (unit_closure_spec g) as (up & Eup & Hok & Hup).
  set (d0 := dict_of (fun _ => @nil string) (variables g)).
  assert (Hd0 : forall k, In k (map fst d0) <-> In k (variables g))
    by (intros k; apply dict_of_spec).
  assert (Hempty : forall k, bodies_in d0 k = []).
  { intros k. unfold bodies_in.
    destruct (lookup k d0) as [b|] eqn:E; [|easy].
    now apply lookup_In, dict_of_entries in E as [_ ->]. }
  destruct (collect_spec g up (variables g) Hok d0 Hd0 (incl_refl _))
    as (d & Ed & Hk & Hnd & Hb).
  exists (mkCFG (variables g) (terminals g) d (start_symbol g)).
  split.
  { unfold eliminate_unit_productions, bind, get, lift, ret. fold g.
    unfold d0 in Ed. now rewrite Eup, Ed. }
  cbn [variables terminals start_symbol productions].
  repeat (split; [reflexivity || assumption|]). split.
  - intros A. apply Hnd. intros k. rewrite Hempty. constructor.
  - intros A p. change (bodies_of _ A) with (bodies_in d A).
    rewrite Hb, Hempty. split.
    + intros [[]|(HA & Hn & s & B & Es & HB & Hp)].
      split; [assumption|]. split; [assumption|].
      exists B. split; [|assumption]. now apply (Hup A s Es).
    + intros (HA & Hn & B & HB & Hp). right.
      split; [assumption|]. split; [assumption|].
      destruct (In_key_lookup (V := list string) A up) as (s & Es);
        [now apply (up_keys _ _ Hok)|].
      exists s, B. split; [assumption|]. split; [|assumption].
      now apply (Hup A s Es).
Qed.

(** X17.  The bodies that unit elimination makes: for every grammar
    [eliminate_unit_productions] returns, and leaves the converter as it
    was.  The grammar returned has the variables, the terminals and the
    start symbol of the grammar of the converter, and one entry of
    productions for each variable.  Under a variable it has, each once,
    the bodies that are not names of variables, of the variables reached
    from it along unit productions; under any other name it has none. *)
Theorem eliminate_unit_productions_bodies self :
  exists g',
    eliminate_unit_productions self = Some (g', self) /\
    variables g' = variables (cfg self) /\
    terminals g' = terminals (cfg self) /\
    start_symbol g' = start_symbol (cfg self) /\
    map fst (productions g')
    = map fst (dict_of (fun _ => @nil string) (variables (cfg self))) /\
    (forall A, NoDup (bodies_of g' A)) /\
    (forall A p,
       In p (bodies_of g' A) <->
       In A (variables (cfg self)) /\ ~ In p (variables (cfg self)) /\
       exists B, unit_reach (cfg self) A B /\ In p (bodies_of (cfg self) B)).
Proof. exact (eliminate_unit_productions_result self). Qed.

(** X25.  Unit elimination is idempotent: applied to the grammar that unit
    elimination has returned, it returns a grammar with the same
    variables, terminals and start symbol, the same keys in the same
    order, and under every name the same bodies, each once. *)
Theorem eliminate_unit_productions_idempotent self g' self2 :
  eliminate_unit_productions self = Some (g', self) -> cfg self2 = g' ->
  exists g'',
    eliminate_unit_productions self2 = Some (g'', self2) /\
    variables g'' = variables g' /\ terminals g'' = terminals g' /\
    start_symbol g'' = start_symbol g' /\
    map fst (productions g'') = map fst (productions g') /\
    forall A, Permutation (bodies_of g'' A) (bodies_of g' A).
Proof.
  intros E1 Hcfg.
  destruct (eliminate_unit_productions_result self)
    as (g1 & E1' & Hv & _ & _ & Hk & Hnd & Hb).
  rewrite E1 in E1'. injection E1' as <-.
  destruct (eliminate_unit_productions_result self2)
    as (g'' & E2 & Hv2 & Ht2 & Hs2 & Hk2 & Hnd2 & Hb2).
  rewrite Hcfg in *.
  exists g''. split; [assumption|]. repeat (split; [congruence|]).
  assert (Hreach : forall A B, unit_reach g' A B -> B = A).
  { induction 1 as [|B C _ -> HC HV]; [reflexivity|].
    apply Hb in HC as (_ & HC & _). rewrite Hv in HV. contradiction. }
  intros A. apply NoDup_Permutation; [apply Hnd2 | apply Hnd|].
  intros p. rewrite Hb2. split.
  - intros (_ & _ & B & HB & Hp). now rewrite (Hreach A B HB) in Hp.
  - intros Hp. pose proof Hp as Hp'. apply Hb in Hp' as (HA & Hn & _).
    rewrite Hv. split; [assumption|]. split; [assumption|].
    exists A. split; [constructor | assumption].
Qed.

(** The grammar of the test of unit elimination is one instance. *)
Lemma eliminate_unit_productions_idempotent_witness :
  exists g',
    eliminate_unit_productions (init unit_test)
    = Some (g', init unit_test) /\
    exists g'',
      eliminate_unit_productions (init g') = Some (g'', init g') /\
      variables g'' = variables g' /\ terminals g'' = terminals g' /\
      start_symbol g'' = start_symbol g' /\
      map fst (productions g'') = map fst (productions g') /\
      forall A, Permutation (bodies_of g'' A) (bodies_of g' A).
Proof.
  eexists. split; [vm_compute; reflexivity|].
  refine (eliminate_unit_productions_idempotent (init unit_test) _ (init _)
            _ eq_refl).
  vm_compute. reflexivity.
Defined.

End CfgUnitClosure.

(** ** The tests of the repository that pass *)

Module Tests.
Import DfaMinimizer DfaExamples CfgToCnf CfgSpec CfgExamples.

(** [test_simple_dfa_minimization]: three states, and the twelve inputs
    are accepted or rejected as the test expects. *)
Example test_simple_dfa_minimization :
  option_map
    (fun m =>
       (length (states m),
        map (accepts m) ["01"; "001"; "101"; "0001"],
        map (accepts m) [""; "0"; "1"; "00"; "10"; "11"; "010"; "011"]))
    (minimize ends_with_01)
  = Some (3, [true; true; true; true],
          [false; false; false; false; false; false; false; false]).
Proof. vm_compute. reflexivity. Qed.

(** [test_inaccessible_states_removal]: two states, none of them named q3
    or q4. *)
Example test_inaccessible_states_removal :
  option_map
    (fun m => (length (states m), mem "q3" (states m), mem "q4" (states m)))
    (minimize with_inaccessible)
  = Some (2, false, false).
Proof. vm_compute. reflexivity. Qed.

(** [test_equivalent_states_merging]: three states. *)
Example test_equivalent_states_merging :
  option_map (fun m => length (states m)) (minimize with_equivalent) = Some 3.
Proof. vm_compute. reflexivity. Qed.

(** [test_epsilon_elimination]: no empty body is left, and S has the body
    B. *)
Example test_epsilon_elimination :
  option_map
    (fun r =>
       (existsb (fun item => mem "" (snd item)) (productions (fst r)),
        mem "B" (bodies_of (fst r) "S")))
    (eliminate_epsilon_productions (init eps_test))
  = Some (false, true).
Proof. vm_compute. reflexivity. Qed.

(** [test_unit_production_elimination]: no body is a variable, and S has
    the bodies a and b. *)
Example test_unit_production_elimination :
  option_map
    (fun r =>
       (existsb
          (fun item => existsb (fun prod => mem prod (variables unit_test))
                               (snd item))
          (productions (fst r)),
        mem "b" (bodies_of (fst r) "S"), mem "a" (bodies_of (fst r) "S")))
    (eliminate_unit_productions (init unit_test))
  = Some (false, true, true).
Proof. vm_compute. reflexivity. Qed.

End Tests.

(** ** The grammar that the converter returns *)

Module CfgShape.
Import CfgToCnf CfgSpec CfgMonad CfgFresh CfgEpsilon CfgUnit CfgSteps CfgEval.
Import CfgConvert CfgChain CfgUnitClosure CfgExamples.
Local Open Scope conv_scope.

(** A loop whose turns each establish something of their element, which
    later turns do not undo. *)
Lemma for_each_establishes {A S} (I : S -> CNFConverter -> Prop)
    (E : A -> S -> Prop) (body : S -> A -> M S) l :
  (forall st x self st' self', In x l -> I st self ->
     body st x self = Some (st', self') ->
     I st' self' /\ E x st' /\ forall y, E y st -> E y st') ->
  forall st self st' self', I st self ->
    for_each l body st self = Some (st', self') ->
    I st' self' /\ (forall x, In x l -> E x st') /\
    forall y, E y st -> E y st'.
Proof.
  induction l as [|x l IH]; cbn [for_each]; intros Hbody st self st' self' HI Eq.
  - injection Eq as <- <-. split; [assumption|]. split; [intros x []|auto].
  - apply bind_Some in Eq as (st1 & self1 & E1 & E2).
    destruct (Hbody st x self st1 self1 (or_introl eq_refl) HI E1)
      as (HI1 & Ex & Hmono1).
    destruct (IH (fun st y s st' s' Hy => Hbody st y s st' s' (or_intror Hy))
                 st1 self1 st' self' HI1 E2) as (HI' & Hall & Hmono).
    split; [assumption|]. split; [|auto].
    intros y [<-|Hy]; auto.
Qed.

Lemma add_body_keeps A prod (d d' : list (string * list string)) :
  add_body A prod d = Some d' ->
  In A (map fst d) /\ map fst d' = map fst d /\
  In prod (bodies_in d' A) /\
  forall k p, In p (bodies_in d k) -> In p (bodies_in d' k).
Proof.
  intros E.
  assert (HA : In A (map fst d)).
  { unfold add_body in E. destruct (lookup A d) eqn:El; [|discriminate].
    now apply lookup_Some_key in El. }
  destruct (add_body_bodies A prod d HA) as (d1 & E1 & Hk & Hb).
  rewrite E in E1. injection E1 as <-.
  split; [assumption|]. split; [assumption|]. split.
  - rewrite Hb, eqb_refl.
    destruct (mem_reflect prod (bodies_in d A)); [assumption|].
    apply in_or_app. right. now left.
  - intros k p Hp. rewrite Hb. destruct (eqb_spec k A) as [->|]; [|assumption].
    destruct (mem prod (bodies_in d A)); [assumption|].
    apply in_or_app. now left.
Qed.

Lemma known_variable self v : In v (variables (cfg self)) -> known self v.
Proof. intros H. now left. Qed.

(** *** Step 3 *)

Section Step3.
Variables (cfg0 : CFG) (d2 : list (string * list string)).

(** What step 3 keeps: the grammar of the converter; one entry of the
    local productions for each local variable; local variables that are
    variables of the grammar or generated names; and the bodies it started
    from. *)
Local Abbreviation keeps3 st self :=
  (cfg self = cfg0 /\
   (forall k, In k (map fst (snd st)) <-> In k (fst st)) /\
   (forall v, In v (fst st) -> known self v) /\
   incl (variables cfg0) (fst st) /\
   (forall A p, In A (variables cfg0) -> In p (bodies_in d2 A) ->
                In p (bodies_in (snd st) A))).

Lemma replace_symbol_keeps terms st new_prod symbol self st' new_prod' self' :
  keeps3 st self ->
  replace_symbol terms (st, new_prod) symbol self
  = Some ((st', new_prod'), self') ->
  keeps3 st' self'.
Proof.
  destruct st as [vars prods]. intros (Hcfg & Hkeys & Hknown & Hinc & Hb) E.
  cbn [fst snd] in *. unfold replace_symbol in E.
  destruct (mem symbol terms).
  - apply bind_Some in E as (s0 & self0 & E0 & E). injection E0 as <- <-.
    apply bind_Some in E as (st1 & self1 & E1 & E).
    apply bind_Some in E as (s2 & self2 & E2 & E). injection E2 as <- <-.
    apply bind_Some in E as (v & self3 & E3 & E).
    apply lift_Some in E3 as [_ ->]. injection E as <- _ <-.
    destruct (has_key symbol (terminal_to_var self)).
    + injection E1 as <- <-. cbn [fst snd]. auto.
    + apply bind_Some in E1 as (x & selfx & Ex & E1).
      destruct (generate_new_variable_known self)
        as (x' & selfx' & Ex' & Hcfgx & Hnew & Hkx & Hmono).
      rewrite Ex in Ex'. injection Ex' as <- <-.
      apply bind_Some in E1 as (s4 & self4 & E4 & E1). injection E4 as <- <-.
      apply bind_Some in E1 as (u & self5 & E5 & E1).
      injection E5 as _ <-. injection E1 as <- <-. cbn [fst snd cfg].
      assert (Hmono' : forall n, known selfx n ->
                known (mkCNFConverter (cfg selfx) (new_var_counter selfx)
                         (dict_set symbol x (terminal_to_var selfx))) n)
        by (intros n Hn; exact Hn).
      split; [congruence|]. split; [|split; [|split]].
      * intros k. rewrite dict_set_keys_In, set_add_In, Hkeys. reflexivity.
      * intros v0 Hv. apply set_add_In in Hv as [->|Hv]; auto.
      * intros v0 Hv. apply set_add_In. right. auto.
      * intros A p HA Hp. rewrite bodies_in_set.
        destruct (eqb_spec A x) as [->|]; [|auto].
        exfalso. apply Hnew. left. now rewrite Hcfg.
  - injection E as <- _ <-. cbn [fst snd]. auto.
Qed.

Lemma replace_in_body_keeps terms st new_prods prod self st' new_prods' self' :
  keeps3 st self ->
  replace_in_body terms (st, new_prods) prod self
  = Some ((st', new_prods'), self') ->
  keeps3 st' self'.
Proof.
  destruct st as [vars prods]. intros H E. unfold replace_in_body in E.
  destruct (already_cnf vars prod).
  - injection E as <- _ <-. exact H.
  - apply bind_Some in E as ([st1 np] & self1 & E1 & E).
    injection E as <- _ <-.
    refine (for_each_keeps
              (fun (r : step3_state * string) s => keeps3 (fst r) s)
              (replace_symbol terms) (chars prod) _
              ((vars, prods), "") self (st1, np) self1 H E1).
    intros [st2 np2] x s [st3 np3] s3 _ H2 E2.
    exact (replace_symbol_keeps terms st2 np2 x s st3 np3 s3 H2 E2).
Qed.

Lemma replace_in_variable_keeps terms st var prods self st' self' :
  keeps3 st self ->
  replace_in_variable terms st (var, prods) self = Some (st', self') ->
  keeps3 st' self'.
Proof.
  intros H E. unfold replace_in_variable in E.
  apply bind_Some in E as ([[vars1 prods1] new_prods] & self1 & E1 & E).
  assert (H1 : keeps3 (vars1, prods1) self1).
  { refine (for_each_keeps
              (fun (r : step3_state * list string) s => keeps3 (fst r) s)
              (replace_in_body terms) prods _
              (st, []) self ((vars1, prods1), new_prods) self1 H E1).
    intros [st2 np2] x s [st3 np3] s3 _ H2 E2.
    exact (replace_in_body_keeps terms st2 np2 x s st3 np3 s3 H2 E2). }
  apply bind_Some in E as (d & self2 & E2 & E).
  apply lift_Some in E2 as [E2 ->]. injection E as <- <-.
  destruct H1 as (Hcfg & Hkeys & Hknown & Hinc & Hb). cbn [fst snd] in *.
  assert (G : map fst d = map fst prods1 /\
              forall k p, In p (bodies_in prods1 k) -> In p (bodies_in d k)).
  { refine (ofold_keeps
              (fun d1 : list (string * list string) =>
                 map fst d1 = map fst prods1 /\
                 forall k p, In p (bodies_in prods1 k) -> In p (bodies_in d1 k))
              (fun d prod => add_body var prod d) new_prods _ prods1 d _ E2);
      [|now split].
    intros d1 prod d3 _ [Hk1 Hb1] E3.
    destruct (add_body_keeps var prod d1 d3 E3) as (_ & Hk3 & _ & Hb3).
    split; [congruence | auto]. }
  destruct G as [Hk Hgrow].
  split; [assumption|]. split; [|split; [assumption|split; [assumption|]]].
  - intros k. rewrite Hk. apply Hkeys.
  - intros A p HA Hp. auto.
Qed.

Lemma replace_terminals_keeps g self st3 self3 :
  cfg self = cfg0 -> productions g = d2 -> variables g = variables cfg0 ->
  keys_in_variables g -> dict_ok d2 ->
  replace_terminals g self = Some (st3, self3) ->
  keeps3 st3 self3.
Proof.
  intros Hcfg Hd2 Hvars Hkeys Hdict E. unfold replace_terminals in E.
  set (prods0 := fold_left (fun d '(var, body) => dict_set var body d)
                           (productions g)
                           (dict_of (fun _ => []) (variables g))) in E.
  assert (Hfold : prods0
                  = fold_left (fun d e => dict_set (fst e) (snd e) d)
                              (productions g)
                              (dict_of (fun _ => []) (variables g))).
  { unfold prods0. apply DfaAccessible.fold_left_eq. now intros d [var body] _. }
  assert (Hk : forall k, In k (map fst prods0) <-> In k (variables g)).
  { intros k. rewrite Hfold.
    assert (G : forall items (d : list (string * list string)),
              In k (map fst (fold_left
                               (fun d e => dict_set (fst e) (snd e) d)
                               items d))
              <-> In k (map fst d) \/ In k (map fst items)).
    { induction items as [|[v b] items IH]; simpl; intros d; [tauto|].
      rewrite IH, dict_set_keys_In. simpl. intuition. }
    rewrite G.
    rewrite (proj1 (proj2 (dict_of_spec (fun _ => @nil string)
                                        (variables g))) k).
    split; [intros [H|H]; auto | auto]. }
  refine (for_each_keeps
            (fun (st : step3_state) s => keeps3 st s)
            (replace_in_variable (terminals g)) (productions g) _
            (variables g, prods0) self st3 self3 _ E).
  - intros st [var prods] s st' s' _ H1 E1.
    exact (replace_in_variable_keeps (terminals g) st var prods s st' s' H1 E1).
  - cbn [fst snd]. split; [assumption|]. split; [assumption|].
    split; [intros v Hv; left; now rewrite Hcfg, <- Hvars|].
    split; [rewrite Hvars; apply incl_refl|].
    intros A p HA Hp. unfold bodies_in in *.
    destruct (lookup A d2) as [body|] eqn:El; [|easy].
    rewrite Hfold.
    rewrite (lookup_collect_agree fst snd A body); [assumption| |].
    + left. exists (A, body). split; [|reflexivity].
      rewrite Hd2. now apply lookup_In.
    + intros [k b] Hin Ek. simpl in *. subst k.
      rewrite Hd2 in Hin. apply (In_lookup _ _ _ Hdict) in Hin. congruence.
Qed.

End Step3.

(** *** Step 4 *)

Section Step4.
Variable cfg0 : CFG.

(** What step 4 keeps: the grammar of the converter; one entry of the
    final productions for each local variable; local variables that are
    variables of the grammar or generated names. *)
Local Abbreviation keeps4 st self :=
  (cfg self = cfg0 /\
   (forall k, In k (map fst (s4_final st)) <-> In k (s4_variables st)) /\
   (forall v, In v (s4_variables st) -> known self v)).

(** From one state of step 4 to a later one the local variables and the
    bodies of the variables of the grammar have stayed. *)
Local Abbreviation grows4 st st' :=
  (incl (s4_variables st) (s4_variables st') /\
   forall k p, In k (variables cfg0) ->
               In p (bodies_in (s4_final st) k) ->
               In p (bodies_in (s4_final st') k)).

(** The loop over a long body adds entries for new names only. *)
Lemma break_body_long prod var st self :
  2 < String.length prod ->
  In var (map fst (s4_final st)) ->
  (forall k, In k (map fst (s4_final st)) -> known self k) ->
  (forall v, In v (s4_variables st) -> known self v) ->
  exists xs st' self',
    break_body var st prod self = Some (st', self') /\
    cfg self' = cfg self /\
    (forall n, known self n -> known self' n) /\
    (forall x, In x xs -> ~ known self x) /\
    (forall x, In x xs -> known self' x) /\
    s4_variables st' = s4_variables st ++ xs /\
    map fst (s4_final st') = map fst (s4_final st) ++ xs /\
    (forall k p, ~ In k xs -> In p (bodies_in (s4_final st) k) ->
                 In p (bodies_in (s4_final st') k)).
Proof.
  intros Hlen Hvar Hkeys Hvars. unfold break_body.
  replace (String.length prod <=? 2)%nat with false
    by (symmetry; apply Nat.leb_gt; lia).
  destruct (String.length prod - 2) as [|m] eqn:Em; [lia|].
  cbn [seq for_each].
  set (st0 := mkStep4 (s4_variables st) (s4_final st) var (s4_prev st)).
  destruct (break_step_spec prod st0 0 self)
    as (x & st1 & self1 & E1 & Hcfg1 & Hnew & Hknown & Hmono & Hv1 & Hk1
        & Hc1 & Hp1 & Hframe1 & Hbc1 & Hbx1); simpl; auto; [congruence|].
  subst st0. cbn [s4_current s4_final s4_variables s4_prev] in *.
  destruct (break_rest_spec prod m 1 st1 self1) as
    (ys & st' & self' & E & Hcfg & Hlen' & Hnd & Hfresh & Hmono' & Hknown'
     & Hv & Hk & Hframe & Hbc & Hchain); try lia.
  { rewrite Hc1, Hk1. apply in_or_app. right. now left. }
  { intros k Hin. rewrite Hk1 in Hin.
    apply in_app_or in Hin as [Hin|[<-|[]]]; auto. }
  { intros v Hin. rewrite Hv1 in Hin.
    apply in_app_or in Hin as [Hin|[<-|[]]]; auto. }
  { now rewrite Hp1, Hc1. }
  exists (x :: ys), st', self'.
  split; [unfold bind; now rewrite E1|].
  split; [congruence|]. split; [auto|]. split.
  { intros y [<-|Hy]; [assumption|]. intros Hc. apply (Hfresh y Hy). auto. }
  split; [intros y [<-|Hy]; auto|].
  split; [rewrite Hv, Hv1, <- app_assoc; reflexivity|].
  split; [rewrite Hk, Hk1, <- app_assoc; reflexivity|].
  intros k p Hkxs Hp. simpl in Hkxs.
  assert (Hkx : k <> x) by intuition congruence.
  assert (Hkys : ~ In k ys) by tauto.
  rewrite Hframe by (rewrite ?Hc1; assumption).
  destruct (string_dec k var) as [->|Hkv].
  - rewrite Hbc1. apply in_or_app. now left.
  - now rewrite Hframe1.
Qed.

Lemma break_body_keeps var st prod self st' self' :
  keeps4 st self -> In var (map fst (s4_final st)) ->
  break_body var st prod self = Some (st', self') ->
  keeps4 st' self' /\ In var (map fst (s4_final st')) /\ grows4 st st' /\
  (String.length prod <= 2 -> In prod (bodies_in (s4_final st') var)).
Proof.
  intros (Hcfg & Hkeys & Hknown) Hvar E.
  destruct (Nat.leb_spec (String.length prod) 2) as [Hle|Hgt].
  - unfold break_body in E.
    replace (String.length prod <=? 2)%nat with true in E
      by (symmetry; now apply Nat.leb_le).
    apply bind_Some in E as (d & self1 & E1 & E).
    apply lift_Some in E1 as [E1 ->]. injection E as <- <-.
    cbn [s4_variables s4_final].
    destruct (add_body_keeps var prod _ _ E1) as (_ & Hk & Hin & Hgrow).
    split; [|split; [now rewrite Hk|split; [|auto]]].
    + split; [assumption|]. split; [|assumption].
      intros k. rewrite Hk. apply Hkeys.
    + split; [apply incl_refl | auto].
  - destruct (break_body_long prod var st self Hgt Hvar)
      as (xs & st1 & self1 & E1 & Hcfg1 & Hmono & Hfresh & Hnew & Hv & Hk
          & Hgrow).
    { intros k Hk. apply Hknown, Hkeys, Hk. }
    { exact Hknown. }
    rewrite E in E1. injection E1 as <- <-.
    split; [|split; [|split; [|lia]]].
    + split; [congruence|]. split.
      * intros k. rewrite Hk, Hv, !in_app_iff, Hkeys. reflexivity.
      * intros v Hin. rewrite Hv in Hin.
        apply in_app_or in Hin as [Hin|Hin]; auto.
    + rewrite Hk. apply in_or_app. now left.
    + split.
      * rewrite Hv. intros v Hin. apply in_or_app. now left.
      * intros k p Hkv Hp. apply Hgrow; [|assumption].
        intros Hin. apply (Hfresh k Hin). left. now rewrite Hcfg.
Qed.

(** The loop over the bodies of one variable. *)
Lemma break_bodies_keeps var bodies st self st' self' :
  keeps4 st self -> In var (map fst (s4_final st)) ->
  for_each bodies (break_body var) st self = Some (st', self') ->
  keeps4 st' self' /\ In var (map fst (s4_final st')) /\ grows4 st st' /\
  (In var (variables cfg0) ->
   forall p, In p bodies -> String.length p <= 2 ->
             In p (bodies_in (s4_final st') var)).
Proof.
  intros H Hvar E.
  destruct (for_each_establishes
              (fun st1 s => keeps4 st1 s /\ In var (map fst (s4_final st1)) /\
                            grows4 st st1)
              (fun p st1 => In var (variables cfg0) ->
                            String.length p <= 2 ->
                            In p (bodies_in (s4_final st1) var))
              (break_body var) bodies)
    with (st := st) (self := self) (st' := st') (self' := self')
    as ((H' & Hvar' & Hgrow) & Hall & _); [ | | exact E | ].
  - intros st1 p s st2 s2 _ (H1 & Hvar1 & Hg1) E1.
    destruct (break_body_keeps var st1 p s st2 s2 H1 Hvar1 E1)
      as (H2 & Hvar2 & [Hinc2 Hb2] & Hshort).
    destruct Hg1 as [Hinc1 Hb1].
    split; [|split].
    + split; [assumption|]. split; [assumption|]. split.
      * intros v Hv. auto.
      * intros k q Hk Hq. auto.
    + intros _. assumption.
    + intros q Hq Hv Hlen. apply Hb2; auto.
  - split; [assumption|]. split; [assumption|]. split; [apply incl_refl|auto].
  - split; [assumption|]. split; [assumption|]. split; [assumption|].
    intros Hv p Hp Hlen. now apply Hall.
Qed.

Lemma break_long_keeps (d2 : list (string * list string)) st3 self st4 self' :
  cfg self = cfg0 ->
  (forall k, In k (map fst (snd st3)) <-> In k (fst st3)) ->
  (forall v, In v (fst st3) -> known self v) ->
  break_long st3 self = Some (st4, self') ->
  keeps4 st4 self' /\ incl (fst st3) (s4_variables st4) /\
  forall A bodies p,
    In (A, bodies) (snd st3) -> In A (variables cfg0) -> In p bodies ->
    String.length p <= 2 -> In p (bodies_in (s4_final st4) A).
Proof.
  destruct st3 as [vars prods]. cbn [fst snd]. intros Hcfg Hkeys Hknown E.
  unfold break_long in E.
  set (st0 := mkStep4 vars (dict_of (fun _ => []) vars) "" None) in E.
  destruct (for_each_establishes
              (fun st1 s => keeps4 st1 s /\ grows4 st0 st1)
              (fun (item : string * list string) st1 =>
                 In (fst item) (variables cfg0) ->
                 forall p, In p (snd item) -> String.length p <= 2 ->
                           In p (bodies_in (s4_final st1) (fst item)))
              (fun st '(var, bodies) => for_each bodies (break_body var) st)
              prods)
    with (st := st0) (self := self) (st' := st4) (self' := self')
    as ((H' & Hgrow) & Hall & _); [ | | exact E | ].
  - intros st1 [var bodies] s st2 s2 Hin ((Hc1 & Hk1 & Hkn1) & Hinc1 & Hb1) E1.
    assert (Hvar : In var (map fst (s4_final st1))).
    { apply Hk1, Hinc1. cbn [st0 s4_variables]. apply Hkeys.
      now apply (in_map fst) in Hin. }
    destruct (break_bodies_keeps var bodies st1 s st2 s2
                (conj Hc1 (conj Hk1 Hkn1)) Hvar E1)
      as (H2 & _ & [Hinc2 Hb2] & Hshort).
    split; [|split].
    + split; [assumption|]. split.
      * intros v Hv. auto.
      * intros k q Hk Hq. auto.
    + exact Hshort.
    + intros [A b] Hy HA q Hq Hlen. cbn [fst snd] in *. apply Hb2; auto.
  - split.
    + split; [assumption|]. cbn [st0 s4_final s4_variables]. split.
      * intros k. apply dict_of_spec.
      * assumption.
    + split; [apply incl_refl | auto].
  - split; [assumption|]. split; [apply Hgrow|].
    intros A bodies p Hin HA Hp Hlen.
    exact (Hall (A, bodies) Hin HA p Hp Hlen).
Qed.

End Step4.

(** *** The four steps together *)

Lemma convert_to_cnf_shape self :
  keys_in_variables (cfg self) ->
  exists g self',
    convert_to_cnf self = Some (g, self') /\
    start_symbol g = start_symbol (cfg self) /\
    terminals g = terminals (cfg self) /\
    incl (variables (cfg self)) (variables (cfg self')) /\
    incl (variables (cfg self')) (variables g) /\
    (forall k, In k (map fst (productions g)) <-> In k (variables g)) /\
    (forall v, In v (variables g) -> known self' v) /\
    (forall A p,
       In A (variables (cfg self')) -> In p (bodies_of (cfg self) A) ->
       ~ In p (variables (cfg self')) -> String.length p <= 2 ->
       In p (bodies_of g A)).
Proof.
  intros Hkeys.
  destruct (eliminate_epsilon_productions_spec self Hkeys)
    as (nullable & d & En & _ & E1).
  assert (Hstep1 : exists g1 self1,
            eliminate_epsilon_productions self = Some (g1, self1) /\
            terminals (cfg self1) = terminals (cfg self) /\
            productions (cfg self1) = productions (cfg self) /\
            start_symbol (cfg self1) = start_symbol (cfg self) /\
            incl (variables (cfg self)) (variables (cfg self1))).
  { destruct (mem (start_symbol (cfg self)) nullable).
    - destruct E1 as (j & Hfresh & E1). eexists _, _.
      split; [exact E1|]. simpl. repeat split.
      intros k Hk. apply in_or_app. now left.
    - eexists _, _. split; [exact E1|]. repeat split. apply incl_refl. }
  destruct Hstep1 as (g1 & self1 & E1' & Ht & Hp & Hs & Hv).
  destruct (eliminate_unit_productions_result self1)
    as (g2 & E2 & Hv2 & Ht2 & Hs2 & Hk2 & _ & Hb2).
  assert (Hkeys2 : keys_in_variables g2).
  { intros k Hk. rewrite Hk2 in Hk. apply dict_of_spec in Hk. now rewrite Hv2. }
  assert (Hdict2 : dict_ok (productions g2)).
  { unfold dict_ok. rewrite Hk2. apply dict_of_spec. }
  destruct (replace_terminals_returns g2 self1 Hkeys2)
    as (st3 & self3 & E3 & Hcfg3 & _).
  destruct (replace_terminals_keeps (cfg self1) (productions g2) g2 self1
              st3 self3 eq_refl eq_refl Hv2 Hkeys2 Hdict2 E3)
    as (Hc3 & Hkeys3 & Hknown3 & Hinc3 & Hkept3).
  destruct (break_long_returns st3 self3) as (st4 & self4 & E4 & Hcfg4).
  { intros k Hk. now apply Hkeys3. }
  destruct (break_long_keeps (cfg self1) (productions g2) st3 self3 st4 self4
              Hc3 Hkeys3 Hknown3 E4)
    as ((Hc4 & Hkeys4 & Hknown4) & Hinc4 & Hshort).
  exists (mkCFG (s4_variables st4) (terminals g2) (s4_final st4)
                (start_symbol g2)), self4.
  split.
  { unfold convert_to_cnf. unfold bind at 1.
    rewrite first_two_steps_unfold, E1', E2.
    unfold bind at 1. rewrite E3. unfold bind at 1. rewrite E4. reflexivity. }
  cbn [start_symbol terminals variables productions]. rewrite Hc4.
  split; [congruence|]. split; [congruence|]. split; [assumption|].
  split; [intros v Hin; auto|]. split; [assumption|]. split; [assumption|].
  intros A p HA Hin Hnot Hlen.
  change (bodies_of _ A) with (bodies_in (s4_final st4) A).
  assert (Hp2 : In p (bodies_in (productions g2) A)).
  { apply (Hb2 A p). split; [assumption|]. split; [assumption|].
    exists A. split; [constructor|]. unfold bodies_of in *. now rewrite Hp. }
  pose proof (Hkept3 A p HA Hp2) as Hp3. unfold bodies_in in Hp3.
  destruct (lookup A (snd st3)) as [bodies|] eqn:El; [|easy].
  apply (Hshort A bodies p); auto. now apply lookup_In.
Qed.

(** X18.  The shape of what [convert_to_cnf] returns, where the keys of
    the productions are variables: the grammar returned has the start
    symbol and the terminals of the grammar it was given; its variables
    are those of that grammar, as the converter leaves it, and names that
    the converter has generated; and its productions have one entry for
    each of its variables. *)
Theorem convert_to_cnf_frame self :
  keys_in_variables (cfg self) ->
  exists g self',
    convert_to_cnf self = Some (g, self') /\
    start_symbol g = start_symbol (cfg self) /\
    terminals g = terminals (cfg self) /\
    incl (variables (cfg self)) (variables (cfg self')) /\
    incl (variables (cfg self')) (variables g) /\
    (forall k, In k (map fst (productions g)) <-> In k (variables g)) /\
    (forall v, In v (variables g) ->
       In v (variables (cfg self')) \/
       exists n, n < new_var_counter self' /\ v = fresh_name n).
Proof.
  intros Hkeys.
  destruct (convert_to_cnf_shape self Hkeys)
    as (g & self' & E & H1 & H2 & H3 & H4 & H5 & H6 & _).
  exists g, self'. repeat (split; [assumption|]). exact H6.
Qed.

(** The grammar of the first test is one instance. *)
Lemma convert_to_cnf_frame_witness :
  keys_in_variables (cfg (init simple)) /\
  exists g self',
    convert_to_cnf (init simple) = Some (g, self') /\
    start_symbol g = start_symbol (cfg (init simple)) /\
    terminals g = terminals (cfg (init simple)) /\
    incl (variables (cfg (init simple))) (variables (cfg self')) /\
    incl (variables (cfg self')) (variables g) /\
    (forall k, In k (map fst (productions g)) <-> In k (variables g)) /\
    (forall v, In v (variables g) ->
       In v (variables (cfg self')) \/
       exists n, n < new_var_counter self' /\ v = fresh_name n).
Proof.
  assert (H : keys_in_variables (cfg (init simple)))
    by (apply keys_in_variablesb_ok; reflexivity).
  split; [exact H | exact (convert_to_cnf_frame _ H)].
Defined.



(** The variable that step 1 adds counts: on [spells_new_start] the body
    X0 of S is not the name of a variable of the grammar given, it is the
    name of the start variable that step 1 adds, and step 2 drops it as a
    unit production. *)
Lemma convert_to_cnf_drops_new_start_name :
  In "X0" (bodies_of spells_new_start "S") /\
  ~ In "X0" (variables spells_new_start) /\
  exists g self',
    convert_to_cnf (init spells_new_start) = Some (g, self') /\
    variables (cfg self') = ["S"; "X0"] /\
    productions g = [("S", [""]); ("X0", [])].
Proof.
  split; [now left|]. split; [simpl; intuition discriminate|].
  eexists. eexists. split; [vm_compute; reflexivity|]. split; reflexivity.
Qed.

(** X20.  What the loop of step 4 does with one long body, read on
    characters: a body of [n > 2] characters gets [n - 2] new variables,
    in this order; the body added for the variable is the first character
    of the body followed by the first new variable; the last new variable
    holds the last two characters; each new variable before it holds its
    own name followed by the next new variable; no other entry of the final
    productions changes. *)
Theorem break_body_long_chain prod var st self :
  2 < String.length prod ->
  In var (map fst (s4_final st)) ->
  (forall k, In k (map fst (s4_final st)) -> known self k) ->
  (forall v, In v (s4_variables st) -> known self v) ->
  exists xs st' self',
    break_body var st prod self = Some (st', self') /\
    length xs = String.length prod - 2 /\ NoDup xs /\
    (forall x, In x xs -> ~ known self x) /\
    s4_variables st' = s4_variables st ++ xs /\
    map fst (s4_final st') = map fst (s4_final st) ++ xs /\
    bodies_in (s4_final st') var
    = bodies_in (s4_final st) var ++ [(char_at 0 prod ++ nth 0 xs "")%string] /\
    (forall t, t < String.length prod - 2 ->
       bodies_in (s4_final st') (nth t xs "")
       = if (t =? String.length prod - 3)%nat then [last_two prod]
         else [(nth t xs "" ++ nth (S t) xs "")%string]) /\
    (forall k, k <> var -> ~ In k xs ->
       bodies_in (s4_final st') k = bodies_in (s4_final st) k).
Proof. exact (break_body_chain prod var st self). Qed.

(** The body abcd of the variable S, at the start of step 4 on the grammar
    of the fourth test, is one instance. *)
Lemma break_body_long_chain_witness :
  2 < String.length "abcd" /\
  exists xs st' self',
    break_body "S" (mkStep4 ["S"] [("S", [])] "" None) "abcd" (init long_test)
    = Some (st', self') /\
    length xs = String.length "abcd" - 2 /\ NoDup xs /\
    (forall x, In x xs -> ~ known (init long_test) x) /\
    s4_variables st' = ["S"] ++ xs /\
    map fst (s4_final st') = ["S"] ++ xs /\
    bodies_in (s4_final st') "S"
    = [] ++ [(char_at 0 "abcd" ++ nth 0 xs "")%string] /\
    (forall t, t < String.length "abcd" - 2 ->
       bodies_in (s4_final st') (nth t xs "")
       = if (t =? String.length "abcd" - 3)%nat then [last_two "abcd"]
         else [(nth t xs "" ++ nth (S t) xs "")%string]) /\
    (forall k, k <> "S" -> ~ In k xs ->
       bodies_in (s4_final st') k = bodies_in [("S", @nil string)] k).
Proof.
  assert (H1 : 2 < String.length "abcd") by (simpl; lia).
  assert (H2 : forall k, In k ["S"] -> known (init long_test) k)
    by (intros k [<-|[]]; left; now left).
  split; [exact H1|].
  exact (break_body_long_chain "abcd" "S" (mkStep4 ["S"] [("S", [])] "" None)
           (init long_test) H1 (or_introl eq_refl) H2 H2).
Defined.

End CfgShape.

(** ** The first two steps add nothing to what is derived *)

Module CfgSound.
Import CfgToCnf CfgSpec CfgMonad CfgFresh CfgEpsilon CfgUnit CfgDerive.
Import CfgNullable CfgOmit CfgUnitClosure CfgExamples.

(** A grammar whose rules are derivations of another derives no more than
    the other. *)
Lemma derives_rules g g' :
  (forall A b, In b (bodies_of g' A) -> derives g A b) ->
  forall u w, derives g' u w -> derives g u w.
Proof.
  intros H u w. induction 1 as [|u A v b w Hb _ IH]; [constructor|].
  apply (derives_trans g _ (u ++ b ++ v)%string); [|assumption].
  apply derives_context. now apply H.
Qed.

Lemma unit_reach_derives g A B : unit_reach g A B -> derives g A B.
Proof.
  induction 1 as [|B C _ IH HC _]; [constructor|].
  apply (derives_trans g _ B); [assumption | now apply derives_rule].
Qed.

Lemma concat_cons c l :
  String.concat "" (c :: l) = (c ++ String.concat "" l)%string.
Proof. destruct l; [simpl; now rewrite append_nil_r | reflexivity]. Qed.

(** Leaving out symbols that derive the empty string is a derivation. *)
Lemma omits_derives g N s t :
  (forall c, In c N -> derives g c "") -> omits N s t ->
  derives g (String.concat "" s) (String.concat "" t).
Proof.
  intros HN. induction 1 as [|c s t _ IH|c s t Hc _ IH].
  - constructor.
  - rewrite !concat_cons. apply derives_app; [constructor | assumption].
  - rewrite concat_cons.
    change (String.concat "" t) with ("" ++ String.concat "" t)%string.
    apply derives_app; [now apply HN | assumption].
Qed.

(** X21.  Unit elimination adds nothing to what the grammar derives: every
    derivation of the grammar returned is a derivation of the grammar of
    the converter, and every string of the language of the one is in the
    language of the other. *)
Theorem eliminate_unit_productions_sound self :
  exists g',
    eliminate_unit_productions self = Some (g', self) /\
    (forall u w, derives g' u w -> derives (cfg self) u w) /\
    (forall w, language g' w -> language (cfg self) w).
Proof.
  destruct (eliminate_unit_productions_result self)
    as (g' & E & _ & Ht & Hs & _ & _ & Hb).
  assert (Hd : forall u w, derives g' u w -> derives (cfg self) u w).
  { apply derives_rules. intros A b Hin.
    apply Hb in Hin as (_ & _ & B & Hreach & HB).
    apply (derives_trans _ _ B);
      [now apply unit_reach_derives | now apply derives_rule]. }
  exists g'. split; [assumption|]. split; [assumption|].
  intros w [Hw Hterm]. split; [|now rewrite <- Ht].
  rewrite <- Hs. now apply Hd.
Qed.

(** X22.  Epsilon elimination adds nothing to what a variable derives:
    where the keys of the productions are variables, every body that the
    grammar returned has under a variable of the grammar of the converter
    is derived from that variable in the grammar of the converter; and
    where the start symbol is not nullable, every derivation of the grammar
    returned is a derivation of the grammar of the converter, and so for
    the languages. *)
Theorem eliminate_epsilon_productions_sound self :
  keys_in_variables (cfg self) -> dict_ok (productions (cfg self)) ->
  exists nullable g' self',
    compute_nullable (cfg self) = Some nullable /\
    eliminate_epsilon_productions self = Some (g', self') /\
    (forall A p,
       In A (variables (cfg self)) -> In p (bodies_of g' A) ->
       derives (cfg self) A p) /\
    (mem (start_symbol (cfg self)) nullable = false ->
     (forall u w, derives g' u w -> derives (cfg self) u w) /\
     (forall w, language g' w -> language (cfg self) w)).
Proof.
  intros Hkeys Hdict.
  destruct (eliminate_epsilon_productions_result self Hkeys)
    as (nullable & g' & self' & En & E & _ & Hb & Hstart & Hk).
  exists nullable, g', self'. split; [assumption|]. split; [assumption|].
  assert (HN : forall c, In c nullable -> derives (cfg self) c "").
  { intros c Hc. unfold compute_nullable in En.
    now apply (nullable_loop_sound (cfg self) Hdict _ [] nullable
                 (fun A (H : In A []) => False_ind _ H) En). }
  assert (Hrule : forall A p,
            In A (variables (cfg self)) -> In p (bodies_of g' A) ->
            derives (cfg self) A p).
  { intros A p HA Hp.
    apply (Hb A p HA) in Hp as (_ & prods & prod & Hin & Hprod & Hom).
    apply (derives_trans _ _ prod).
    - apply derives_rule. now rewrite (bodies_of_In _ A prods Hdict Hin).
    - apply (omits_derives (cfg self)) in Hom; [|assumption].
      now rewrite !concat_chars in Hom. }
  split; [assumption|]. intros Hmem. rewrite Hmem in Hstart.
  destruct Hstart as [Hs Hv].
  assert (Hd : forall u w, derives g' u w -> derives (cfg self) u w).
  { apply derives_rules. intros A b Hin. apply Hrule; [|assumption].
    rewrite <- Hv. apply Hk.
    destruct (bodies_of_item g' A b Hin) as (prods & Hitem & _).
    now apply (in_map fst) in Hitem. }
  split; [assumption|]. intros w [Hw Hterm].
  split; [rewrite <- Hs; now apply Hd|].
  destruct (eliminate_epsilon_productions_spec self Hkeys)
    as (nullable' & d & En' & _ & E').
  rewrite En in En'. injection En' as <-. rewrite Hmem, E in E'.
  injection E' as -> _. exact Hterm.
Qed.

(** The grammar of the test of epsilon elimination is one instance; its
    start symbol is not nullable. *)
Lemma eliminate_epsilon_productions_sound_witness :
  keys_in_variables (cfg (init eps_test)) /\
  dict_ok (productions (cfg (init eps_test))) /\
  exists nullable g' self',
    compute_nullable (cfg (init eps_test)) = Some nullable /\
    eliminate_epsilon_productions (init eps_test) = Some (g', self') /\
    (forall A p,
       In A (variables (cfg (init eps_test))) -> In p (bodies_of g' A) ->
       derives (cfg (init eps_test)) A p) /\
    (mem (start_symbol (cfg (init eps_test))) nullable = false ->
     (forall u w, derives g' u w -> derives (cfg (init eps_test)) u w) /\
     (forall w, language g' w -> language (cfg (init eps_test)) w)).
Proof.
  assert (H1 : keys_in_variables (cfg (init eps_test)))
    by (apply keys_in_variablesb_ok; reflexivity).
  assert (H2 : dict_ok (productions (cfg (init eps_test))))
    by (apply distinct_NoDup; reflexivity).
  split; [exact H1|]. split; [exact H2|].
  exact (eliminate_epsilon_productions_sound _ H1 H2).
Defined.

End CfgSound.

(** ** The first two steps lose nothing of the language *)

Module CfgLanguage.
Import CfgToCnf CfgSpec CfgMonad CfgFresh CfgEpsilon CfgUnit CfgDerive.
Import CfgNullable CfgOmit CfgUnitClosure CfgSound CfgExamples.

Lemma single_char s : String.length s = 1 -> exists a, s = String a "".
Proof. destruct s as [|a [|]]; simpl; try discriminate; eauto. Qed.

(** Where a character lies in a concatenation. *)
Lemma append_split_char a s :
  forall t u v,
    (s ++ t)%string = (u ++ String a v)%string ->
    (exists v1, s = (u ++ String a v1)%string /\ v = (v1 ++ t)%string) \/
    (exists u2, u = (s ++ u2)%string /\ t = (u2 ++ String a v)%string).
Proof.
  induction s as [|c s IH]; intros t u v E.
  - right. exists u. simpl in *. auto.
  - destruct u as [|c' u].
    + simpl in E. injection E as -> <-. left. exists s. auto.
    + simpl in E. injection E as -> E.
      destruct (IH _ _ _ E) as [(v1 & -> & ->)|(u2 & -> & ->)].
      * left. exists v1. auto.
      * right. exists u2. auto.
Qed.

Lemma derives_in_derives g n u w : derives_in g n u w -> derives g u w.
Proof.
  induction 1 as [|n u A v b w Hb _ IH]; [constructor|].
  now apply (derives_step g u A v b).
Qed.

Lemma derives_derives_in g u w : derives g u w -> exists n, derives_in g n u w.
Proof.
  induction 1 as [|u A v b w Hb _ [n IH]].
  - exists 0. constructor.
  - exists (S n). now apply (derives_in_step g n u A v b).
Qed.

Lemma omits_Forall (P : string -> Prop) N s t :
  omits N s t -> Forall P s -> Forall P t.
Proof.
  induction 1 as [|c s t _ IH|c s t _ _ IH]; intros H; [constructor| |];
    inversion H; subst; auto.
Qed.

(** *** Derivations of a grammar whose keys are single characters *)

Section Split.
Variable g : CFG.
Hypothesis Hkeys : single_char_keys g.

Lemma rule_key A b :
  In b (bodies_of g A) ->
  In A (map fst (productions g)) /\ exists a, A = String a "".
Proof.
  intros Hb. destruct (bodies_of_item g A b Hb) as (prods & Hin & _).
  apply (in_map fst) in Hin. split; [assumption|].
  now apply single_char, Hkeys.
Qed.

(** A derivation from a concatenation is a derivation from each part. *)
Lemma derives_in_app n x w :
  derives_in g n x w ->
  forall s t, x = (s ++ t)%string ->
  exists n1 n2 w1 w2,
    n = n1 + n2 /\ w = (w1 ++ w2)%string /\
    derives_in g n1 s w1 /\ derives_in g n2 t w2.
Proof.
  induction 1 as [x|n u A v b w Hb Hd IH]; intros s t E.
  - exists 0, 0, s, t. subst. repeat split; constructor.
  - destruct (rule_key A b Hb) as (_ & a & ->). symmetry in E.
    destruct (append_split_char a s t u v E) as [(v1 & -> & ->)|(u2 & -> & ->)].
    + destruct (IH (u ++ b ++ v1)%string t)
        as (n1 & n2 & w1 & w2 & -> & -> & H1 & H2);
        [now rewrite !append_assoc|].
      exists (S n1), n2, w1, w2.
      split; [reflexivity|]. split; [reflexivity|]. split; [|assumption].
      now apply (derives_in_step g n1 u (String a "") v1 b).
    + destruct (IH s (u2 ++ b ++ v)%string)
        as (n1 & n2 & w1 & w2 & -> & -> & H1 & H2);
        [now rewrite !append_assoc|].
      exists n1, (S n2), w1, w2.
      split; [lia|]. split; [reflexivity|]. split; [assumption|].
      now apply (derives_in_step g n2 u2 (String a "") v b).
Qed.

Lemma derives_in_empty n x w :
  derives_in g n x w -> x = "" -> n = 0 /\ w = "".
Proof.
  destruct 1 as [x|n u A v b w Hb _]; intros E; [now subst|].
  destruct (rule_key A b Hb) as (_ & a & ->).
  destruct u; discriminate.
Qed.

Lemma derives_in_char n x w :
  derives_in g n x w ->
  forall a, x = String a "" ->
  (n = 0 /\ w = x) \/
  exists k b, n = S k /\ In b (bodies_of g x) /\ derives_in g k b w.
Proof.
  destruct 1 as [x|n u A v b w Hb Hd]; intros a0 E; [now left|].
  right. destruct (rule_key A b Hb) as (_ & a & ->).
  destruct u as [|c [|]]; simpl in E; try discriminate.
  injection E as -> ->. simpl in *. rewrite append_nil_r in Hd.
  exists n, b. auto.
Qed.

End Split.

(** *** Unit elimination *)

Section UnitComplete.
Variables g g' : CFG.
Hypothesis Hkv : keys_in_variables g.
Hypothesis Hsingle : single_char_variables g.
Hypothesis Hb :
  forall A p,
    In p (bodies_of g' A) <->
    In A (variables g) /\ ~ In p (variables g) /\
    exists B, unit_reach g A B /\ In p (bodies_of g B).

Local Abbreviation clean w :=
  (Forall (fun c => ~ In c (variables g)) (chars w)).

Lemma unit_single_char_keys : single_char_keys g.
Proof. intros k Hk. apply Hsingle, Hkv, Hk. Qed.

Lemma unit_complete_in n :
  (forall s w, derives_in g n s w -> clean w -> derives g' s w) /\
  (forall A B b w,
     In A (variables g) -> unit_reach g A B -> In b (bodies_of g B) ->
     derives_in g n b w -> clean w -> derives g' A w).
Proof.
  pose proof unit_single_char_keys as Hkeys.
  induction n as [n IHn] using lt_wf_ind.
  assert (part1 : forall s m w,
            m <= n -> derives_in g m s w -> clean w -> derives g' s w).
  { induction s as [|c s IHs]; intros m w Hm Hd Hc.
    - destruct (derives_in_empty g Hkeys _ _ _ Hd eq_refl) as [_ ->].
      constructor.
    - destruct (derives_in_app g Hkeys _ _ _ Hd (String c "") s eq_refl)
        as (n1 & n2 & w1 & w2 & -> & -> & H1 & H2).
      rewrite chars_app in Hc. apply Forall_app in Hc as [Hc1 Hc2].
      change (String c s) with (String c "" ++ s)%string.
      apply derives_app; [|apply (IHs n2); auto; lia].
      destruct (derives_in_char g Hkeys _ _ _ H1 c eq_refl)
        as [[-> ->]|(k & b & -> & Hbody & Hk)]; [constructor|].
      apply (proj2 (IHn k ltac:(lia)) (String c "") (String c "") b w1);
        auto; [|constructor].
      now apply Hkv, (rule_key g Hkeys _ b). }
  split; [intros s w; now apply (part1 s n)|].
  intros A B b w HA Hreach Hbody Hd Hc.
  destruct (in_dec string_dec b (variables g)) as [Hv|Hv].
  - destruct (single_char b (Hsingle b Hv)) as (a & Eb).
    destruct (derives_in_char g Hkeys _ _ _ Hd a Eb)
      as [[-> ->]|(k & b' & -> & Hbody' & Hk)].
    + exfalso. subst b. simpl in Hc. inversion Hc; subst. contradiction.
    + apply (proj2 (IHn k ltac:(lia)) A b b' w); auto.
      now apply (unit_reach_step g A B b).
  - apply (derives_trans g' _ b); [|now apply (part1 b n)].
    apply derives_rule, Hb. split; [assumption|]. split; [assumption|].
    now exists B.
Qed.

Lemma unit_complete s w : derives g s w -> clean w -> derives g' s w.
Proof.
  intros Hd Hc. apply derives_derives_in in Hd as (n & Hd).
  now apply (proj1 (unit_complete_in n) s w).
Qed.

End UnitComplete.

Lemma single_char_variablesb_ok g :
  single_char_variablesb g = true -> single_char_variables g.
Proof.
  unfold single_char_variablesb. rewrite forallb_forall. intros H v Hv.
  now apply Nat.eqb_eq, H.
Qed.

Lemma terminals_apartb_ok g : terminals_apartb g = true -> terminals_apart g.
Proof.
  unfold terminals_apartb. rewrite forallb_forall. intros H t Ht Hv.
  specialize (H t Ht). apply negb_true_iff in H.
  apply mem_In in Hv. congruence.
Qed.

(** X23.  Unit elimination keeps the language: for a grammar whose
    variables are single characters, none of them a terminal, and whose
    productions have variables as keys, the grammar returned has the
    language of the grammar of the converter. *)
Theorem eliminate_unit_productions_language self :
  keys_in_variables (cfg self) -> single_char_variables (cfg self) ->
  terminals_apart (cfg self) ->
  exists g',
    eliminate_unit_productions self = Some (g', self) /\
    forall w, language g' w <-> language (cfg self) w.
Proof.
  intros Hkv Hsingle Hapart.
  destruct (eliminate_unit_productions_result self)
    as (g' & E & _ & Ht & Hs & _ & _ & Hb).
  exists g'. split; [assumption|]. intros w. unfold language.
  rewrite Ht, Hs. split; intros [Hw Hterm]; (split; [|assumption]).
  - revert Hw. apply derives_rules. intros A b Hin.
    apply Hb in Hin as (_ & _ & B & Hreach & HB).
    apply (derives_trans _ _ B);
      [now apply unit_reach_derives | now apply derives_rule].
  - apply (unit_complete (cfg self) g' Hkv Hsingle Hb); [assumption|].
    revert Hterm. apply Forall_impl. intros c Hc. now apply Hapart.
Qed.

(** The grammar of the test of unit elimination is one instance. *)
Lemma eliminate_unit_productions_language_witness :
  keys_in_variables (cfg (init unit_test)) /\
  single_char_variables (cfg (init unit_test)) /\
  terminals_apart (cfg (init unit_test)) /\
  exists g',
    eliminate_unit_productions (init unit_test)
    = Some (g', init unit_test) /\
    forall w, language g' w <-> language (cfg (init unit_test)) w.
Proof.
  assert (H1 : keys_in_variables (cfg (init unit_test)))
    by (apply keys_in_variablesb_ok; reflexivity).
  assert (H2 : single_char_variables (cfg (init unit_test)))
    by (apply single_char_variablesb_ok; reflexivity).
  assert (H3 : terminals_apart (cfg (init unit_test)))
    by (apply terminals_apartb_ok; reflexivity).
  split; [exact H1|]. split; [exact H2|]. split; [exact H3|].
  exact (eliminate_unit_productions_language _ H1 H2 H3).
Defined.

(** *** Epsilon elimination *)

Section EpsilonComplete.
Variables (g g' : CFG) (N : list string).
Hypothesis Hkv : keys_in_variables g.
Hypothesis Hkeys : single_char_keys g.
Hypothesis HN :
  forall A, In A (map fst (productions g)) -> derives g A "" -> In A N.
Hypothesis Hb :
  forall A p prods prod,
    In A (variables g) -> p <> "" ->
    In (A, prods) (productions g) -> In prod prods ->
    omits N (chars prod) (chars p) -> In p (bodies_of g' A).

Lemma epsilon_complete_in n :
  forall s w,
    derives_in g n s w ->
    exists ps,
      omits N (chars s) ps /\ derives g' (String.concat "" ps) w /\
      (ps = [] -> w = "").
Proof.
  induction n as [n IHn] using lt_wf_ind.
  assert (part1 : forall s m w,
            m <= n -> derives_in g m s w ->
            exists ps,
              omits N (chars s) ps /\ derives g' (String.concat "" ps) w /\
              (ps = [] -> w = "")).
  { induction s as [|c s IHs]; intros m w Hm Hd.
    - destruct (derives_in_empty g Hkeys _ _ _ Hd eq_refl) as [_ ->].
      exists []. repeat split; constructor.
    - destruct (derives_in_app g Hkeys _ _ _ Hd (String c "") s eq_refl)
        as (n1 & n2 & w1 & w2 & -> & -> & H1 & H2).
      destruct (IHs n2 w2 ltac:(lia) H2) as (ps2 & Hom2 & Hd2 & He2).
      destruct (derives_in_char g Hkeys _ _ _ H1 c eq_refl)
        as [[-> ->]|(k & b & -> & Hbody & Hk)].
      + exists (String c "" :: ps2). cbn [chars].
        split; [now constructor|]. split; [|discriminate].
        rewrite concat_cons. apply derives_app; [constructor | assumption].
      + destruct (rule_key g Hkeys _ b Hbody) as (Hkey & _).
        destruct (string_dec w1 "") as [->|Hw1].
        * exists ps2. cbn [chars]. split; [|split; assumption].
          apply omits_drop; [|assumption].
          apply HN; [assumption|].
          apply (derives_in_derives g (S k)).
          replace (String c "") with ("" ++ String c "" ++ "")%string
            by reflexivity.
          apply (derives_in_step g k "" (String c "") "" b); [assumption|].
          simpl. now rewrite append_nil_r.
        * exists (String c "" :: ps2). cbn [chars].
          split; [now constructor|]. split; [|discriminate].
          rewrite concat_cons. apply derives_app; [|assumption].
          destruct (IHn k ltac:(lia) b w1 Hk) as (ps & Hom & Hdp & Hep).
          assert (Hps : chars (String.concat "" ps) = ps).
          { apply chars_concat. apply (omits_Forall _ N (chars b)); auto.
            apply Forall_forall. intros x. apply chars_are_single. }
          apply (derives_trans g' _ (String.concat "" ps)); [|assumption].
          apply derives_rule.
          destruct (bodies_of_item g _ b Hbody) as (prods & Hin & Hbp).
          apply (Hb _ _ prods b); auto.
          -- intros E. rewrite E in Hps. simpl in Hps. auto.
          -- now rewrite Hps. }
  intros s w. now apply (part1 s n).
Qed.

(** What a single character derives, it derives in the other grammar,
    the empty string apart. *)
Lemma epsilon_complete A w :
  String.length A = 1 -> derives g A w -> w <> "" -> derives g' A w.
Proof.
  intros HA Hd Hw. apply derives_derives_in in Hd as (n & Hd).
  destruct (epsilon_complete_in n A w Hd) as (ps & Hom & Hdp & He).
  rewrite (chars_single A HA) in Hom.
  inversion Hom as [|c s t Hom'|c s t Hc Hom']; subst; inversion Hom'; subst.
  - simpl in Hdp. assumption.
  - now specialize (He eq_refl).
Qed.

End EpsilonComplete.

(** X24.  Epsilon elimination loses no string of the language: for a
    grammar whose productions have single characters that are variables as
    keys, and whose start symbol is a single character, every string of
    the language of the grammar of the converter is in the language of the
    grammar returned. *)
Theorem eliminate_epsilon_productions_complete self :
  keys_in_variables (cfg self) -> dict_ok (productions (cfg self)) ->
  single_char_keys (cfg self) ->
  String.length (start_symbol (cfg self)) = 1 ->
  exists g' self',
    eliminate_epsilon_productions self = Some (g', self') /\
    forall w, language (cfg self) w -> language g' w.
Proof.
  intros Hkv Hdict Hkeys Hstart.
  destruct (eliminate_epsilon_productions_result self Hkv)
    as (nullable & g' & self' & En & E & _ & Hb & Hcase & _).
  destruct (compute_nullable_result (cfg self) Hdict Hkeys)
    as (nullable' & En' & _ & HN).
  rewrite En in En'. injection En' as <-.
  assert (Hterm : terminals g' = terminals (cfg self)).
  { destruct (eliminate_epsilon_productions_spec self Hkv)
      as (nullable' & d & En' & _ & E').
    rewrite En in En'. injection En' as <-.
    destruct (mem (start_symbol (cfg self)) nullable).
    - destruct E' as (j & _ & E'). rewrite E in E'. now injection E' as -> _.
    - rewrite E in E'. now injection E' as -> _. }
  assert (Hcomplete : forall w,
            derives (cfg self) (start_symbol (cfg self)) w -> w <> "" ->
            derives g' (start_symbol (cfg self)) w).
  { intros w Hd Hw.
    refine (epsilon_complete (cfg self) g' nullable Hkv Hkeys _ _ _ w
              Hstart Hd Hw).
    - intros A HA HdA. apply HN. now split.
    - intros A p prods prod HA Hp Hin Hprod Hom. apply (Hb A p HA).
      split; [assumption|]. now exists prods, prod. }
  exists g', self'. split; [assumption|].
  intros w [Hw Hchars]. split; [|now rewrite Hterm].
  destruct (mem_reflect (start_symbol (cfg self)) nullable) as [Hn|Hn].
  - destruct Hcase as (_ & _ & Hbodies).
    destruct (string_dec w "") as [->|Hne].
    + apply derives_rule. rewrite Hbodies. now left.
    + apply (derives_trans g' _ (start_symbol (cfg self)));
        [|now apply Hcomplete].
      apply derives_rule. rewrite Hbodies. right. now left.
  - destruct Hcase as (-> & _). apply Hcomplete; [assumption|].
    intros ->. apply Hn, HN. split; [|assumption].
    apply derives_derives_in in Hw as (n & Hw).
    destruct (single_char _ Hstart) as (a & Ea).
    destruct (derives_in_char (cfg self) Hkeys _ _ _ Hw a Ea)
      as [[_ Hc]|(k & b & _ & Hbody & _)].
    + rewrite Ea in Hc. discriminate.
    + now apply (rule_key (cfg self) Hkeys _ b).
Qed.

(** The grammar of the first test, whose start symbol is nullable, is one
    instance. *)
Lemma eliminate_epsilon_productions_complete_witness :
  keys_in_variables (cfg (init simple)) /\
  dict_ok (productions (cfg (init simple))) /\
  single_char_keys (cfg (init simple)) /\
  String.length (start_symbol (cfg (init simple))) = 1 /\
  exists g' self',
    eliminate_epsilon_productions (init simple) = Some (g', self') /\
    forall w, language (cfg (init simple)) w -> language g' w.
Proof.
  assert (H1 : keys_in_variables (cfg (init simple)))
    by (apply keys_in_variablesb_ok; reflexivity).
  assert (H2 : dict_ok (productions (cfg (init simple))))
    by (apply distinct_NoDup; reflexivity).
  assert (H3 : single_char_keys (cfg (init simple)))
    by (apply single_char_keysb_ok; reflexivity).
  split; [exact H1|]. split; [exact H2|]. split; [exact H3|].
  split; [reflexivity|].
  exact (eliminate_epsilon_productions_complete _ H1 H2 H3 eq_refl).
Defined.

End CfgLanguage.
